(** * MANTIS ledger: a shallow embedding of [ledger.py] and its properties

    The development follows the layout of the Python module: the hashing
    and key-binding helpers, the V2 hybrid decryption, [ChallengeData] and
    [DataLog] with their operations.

    - Python values that come out of [json.loads] are the inductive
      [pyval]; a [float] is a primitive binary64 float, a NumPy [float16]
      or [float32] a [spec_float] rounded to that format; a [str] is held as
      the string of its UTF-8 bytes.
    - Exceptions are explicit: a function that may raise returns a [res],
      a method that also mutates its object is a state transformer [SE]
      whose state is there after a raise as well.
    - A [dict] is an association list in insertion order ([dset] keeps the
      position of a key that is present).
    - SHA-256 is implemented; the other library calls, whose code is not
      part of the repository (the time-lock primitive, X25519, HKDF, the
      AEAD, the JSON codec, [int] on strings, the HTTP transports, pickle
      and gzip), are the fields of [Externals], over which the statements
      quantify.  [config.py] is not among the sources: its constants are the
      fields of [Config].
    - [process_pending_payloads] is modelled on one schedule: nothing else
      runs between its two locked sections, and the round groups are worked
      one after the other in the order of [rounds.items()]. *)

From Stdlib Require Import ZArith NArith List Bool Lia Sorted.
From Stdlib Require Import Strings.String Strings.Ascii Strings.Byte.
From Stdlib Require Import PrimFloat SpecFloat FloatOps.
Import ListNotations.

Local Open Scope Z_scope.

(* ===================================================================== *)
(** ** Exceptions and results *)

(** The exception classes that the modelled code paths can meet.
    [UnicodeDecodeError] and [JSONDecodeError] are subclasses of
    [ValueError]; every class below is a subclass of [Exception]. *)
Inductive exn : Type :=
| TypeError
| ValueError
| UnicodeDecodeError
| JSONDecodeError
| KeyError
| IndexError
| AttributeError
| OverflowError
| InvalidTag
| LibraryError (tag : string).

Definition is_ValueError (e : exn) : bool :=
  match e with
  | ValueError | UnicodeDecodeError | JSONDecodeError => true
  | _ => false
  end.

Definition is_TypeError (e : exn) : bool :=
  match e with TypeError => true | _ => false end.

(** [except Exception]: every modelled class. *)
Definition is_Exception (e : exn) : bool := true.

Inductive res (A : Type) : Type :=
| Ret (a : A)
| Raise (e : exn).
Arguments Ret {A} a.
Arguments Raise {A} e.

Definition bind {A B : Type} (m : res A) (k : A -> res B) : res B :=
  match m with
  | Ret a => k a
  | Raise e => Raise e
  end.

(** [try: m except <classes>: h] *)
Definition try_except {A : Type} (m : res A) (classes : exn -> bool) (h : res A) : res A :=
  match m with
  | Ret a => Ret a
  | Raise e => if classes e then h else Raise e
  end.

Declare Scope res_scope.
Delimit Scope res_scope with res.
Notation "x <- m ;; k" := (bind m (fun x => k))
  (at level 61, m at next level, right associativity) : res_scope.
Notation "' p <- m ;; k" := (bind m (fun x => let p := x in k))
  (at level 61, p pattern, m at next level, right associativity) : res_scope.
Local Open Scope res_scope.

(* ===================================================================== *)
(** ** Bytes and strings *)

(** Python [bytes].  A Python [str] is held as the Rocq [string] of its
    UTF-8 encoding, so [s.encode("utf-8")] is the list of its bytes. *)
Definition bytes : Type := list byte.

Definition str_encode (s : string) : bytes := list_byte_of_string s.

Definition byte_val (b : byte) : Z := Z.of_N (Byte.to_N b).

Definition byte_of_Z (z : Z) : byte :=
  match Byte.of_N (Z.to_N (z mod 256)) with
  | Some b => b
  | None => x00
  end.

Fixpoint bytes_eqb (a b : bytes) : bool :=
  match a, b with
  | [], [] => true
  | x :: a', y :: b' => Byte.eqb x y && bytes_eqb a' b'
  | _, _ => false
  end.

Definition len {A : Type} (l : list A) : Z := Z.of_nat (List.length l).

(** ASCII white space as [bytes.fromhex] skips it ([Py_ISSPACE]). *)
Definition is_space (c : ascii) : bool :=
  let n := Z.of_N (N_of_ascii c) in
  ((9 <=? n) && (n <=? 13)) || (n =? 32).

(** The white space that [str.strip] removes: the characters of which
    [str.isspace] holds, U+0009 to U+000D, U+001C to U+0020, U+0085,
    U+00A0, U+1680, U+2000 to U+200A, U+2028, U+2029, U+202F, U+205F and
    U+3000, each as the bytes of its UTF-8 encoding. *)
Definition str_spaces : list (list Z) :=
  map (fun n => [ n ]) [ 9; 10; 11; 12; 13; 28; 29; 30; 31; 32 ]
  ++ [ [ 0xC2; 0x85 ]; [ 0xC2; 0xA0 ]; [ 0xE1; 0x9A; 0x80 ] ]
  ++ map (fun n => [ 0xE2; 0x80; n ])
         [ 0x80; 0x81; 0x82; 0x83; 0x84; 0x85; 0x86; 0x87; 0x88; 0x89; 0x8A;
           0xA8; 0xA9; 0xAF ]
  ++ [ [ 0xE2; 0x81; 0x9F ]; [ 0xE3; 0x80; 0x80 ] ].

(** [l] without the prefix [p], when it starts with it. *)
Fixpoint drop_prefix (p l : list Z) : option (list Z) :=
  match p, l with
  | [], _ => Some l
  | x :: p', y :: l' => if x =? y then drop_prefix p' l' else None
  | _ :: _, [] => None
  end.

(** [l] without the character of [chars] that it starts with. *)
Fixpoint drop_char (chars : list (list Z)) (l : list Z) : option (list Z) :=
  match chars with
  | [] => None
  | p :: ps =>
      match drop_prefix p l with
      | Some r => Some r
      | None => drop_char ps l
      end
  end.

Fixpoint lstrip_chars (chars : list (list Z)) (fuel : nat) (l : list Z) : list Z :=
  match fuel with
  | O => l
  | S fuel' =>
      match drop_char chars l with
      | Some r => lstrip_chars chars fuel' r
      | None => l
      end
  end.

Definition str_codes (s : string) : list Z := map byte_val (list_byte_of_string s).

Definition str_of_codes (l : list Z) : string := string_of_list_byte (map byte_of_Z l).

(** [s.lstrip()] and [s.rstrip()], on the bytes.  In UTF-8 no encoding
    of a character ends inside another, so the white space at the end is
    found on the reversed bytes. *)
Definition lstrip_codes (l : list Z) : list Z := lstrip_chars str_spaces (List.length l) l.

Definition rstrip_codes (l : list Z) : list Z :=
  rev (lstrip_chars (map (@rev Z) str_spaces) (List.length l) (rev l)).

(** [s.strip()] *)
Definition strip (s : string) : string :=
  str_of_codes (rstrip_codes (lstrip_codes (str_codes s))).

Definition lower_ascii (c : ascii) : ascii :=
  let n := N_of_ascii c in
  if ((65 <=? n) && (n <=? 90))%N then ascii_of_N (n + 32) else c.

(** [s.lower()] on ASCII text; the case mapping of the other characters is
    Unicode's, a parameter of the model ([str_lower] below). *)
Fixpoint lower (s : string) : string :=
  match s with
  | EmptyString => EmptyString
  | String c s' => String (lower_ascii c) (lower s')
  end.

Definition hex_digit (c : ascii) : option Z :=
  let n := Z.of_N (N_of_ascii c) in
  if (48 <=? n) && (n <=? 57) then Some (n - 48)
  else if (97 <=? n) && (n <=? 102) then Some (n - 87)
  else if (65 <=? n) && (n <=? 70) then Some (n - 55)
  else None.

(** [bytes.fromhex(s)]: two hexadecimal digits per byte, ASCII white space
    allowed between bytes, [ValueError] on anything else. *)
Fixpoint fromhex (s : string) : res bytes :=
  match s with
  | EmptyString => Ret []
  | String c s1 =>
      if is_space c then fromhex s1
      else
        match hex_digit c, s1 with
        | Some hi, String d s2 =>
            match hex_digit d with
            | Some lo => rest <- fromhex s2 ;; Ret (byte_of_Z (16 * hi + lo) :: rest)
            | None => Raise ValueError
            end
        | _, _ => Raise ValueError
        end
  end.

(** [b.decode("ascii")] *)
Definition decode_ascii (b : bytes) : res string :=
  if forallb (fun x => byte_val x <? 128) b
  then Ret (string_of_list_byte b)
  else Raise UnicodeDecodeError.

(** Well-formed UTF-8 (shortest form, no surrogates, at most U+10FFFF). *)
Fixpoint utf8_valid_aux (fuel : nat) (l : list Z) : bool :=
  match fuel with
  | O => match l with [] => true | _ => false end
  | S fuel' =>
      let cont x := (128 <=? x) && (x <=? 191) in
      match l with
      | [] => true
      | a :: r =>
          if a <? 128 then utf8_valid_aux fuel' r
          else if (194 <=? a) && (a <=? 223) then
            match r with
            | b :: r' => cont b && utf8_valid_aux fuel' r'
            | _ => false
            end
          else if (224 <=? a) && (a <=? 239) then
            match r with
            | b :: c :: r' =>
                cont b && cont c
                && (if a =? 224 then 160 <=? b else true)
                && (if a =? 237 then b <=? 159 else true)
                && utf8_valid_aux fuel' r'
            | _ => false
            end
          else if (240 <=? a) && (a <=? 244) then
            match r with
            | b :: c :: d :: r' =>
                cont b && cont c && cont d
                && (if a =? 240 then 144 <=? b else true)
                && (if a =? 244 then b <=? 143 else true)
                && utf8_valid_aux fuel' r'
            | _ => false
            end
          else false
      end
  end.

(** [b.decode()] / [b.decode("utf-8")] *)
Definition decode_utf8 (b : bytes) : res string :=
  if utf8_valid_aux (List.length b) (map byte_val b)
  then Ret (string_of_list_byte b)
  else Raise UnicodeDecodeError.

(** [str(n)] for an [int]. *)
Definition digit_char (d : Z) : ascii := ascii_of_N (Z.to_N (48 + d)).

Fixpoint str_of_pos_aux (fuel : nat) (n : Z) (acc : string) : string :=
  match fuel with
  | O => acc
  | S fuel' =>
      let acc' := String (digit_char (n mod 10)) acc in
      if n <? 10 then acc' else str_of_pos_aux fuel' (n / 10) acc'
  end.

Definition str_of_int (n : Z) : string :=
  if n <? 0
  then String "-"%char (str_of_pos_aux (Z.to_nat (Z.log2 (- n)) + 1) (- n) EmptyString)
  else str_of_pos_aux (Z.to_nat (Z.log2 n) + 1) n EmptyString.

(* ===================================================================== *)
(** ** SHA-256 ([hashlib.sha256]) *)

Module SHA256.

Definition mask32 : Z := 0xffffffff.
Definition add32 (a b : Z) : Z := Z.land (a + b) mask32.
Definition rotr (n x : Z) : Z :=
  Z.lor (Z.shiftr x n) (Z.land (Z.shiftl x (32 - n)) mask32).
Definition shr (n x : Z) : Z := Z.shiftr x n.
Definition not32 (x : Z) : Z := Z.lxor x mask32.

Definition Ch (x y z : Z) : Z := Z.lxor (Z.land x y) (Z.land (not32 x) z).
Definition Maj (x y z : Z) : Z :=
  Z.lxor (Z.lxor (Z.land x y) (Z.land x z)) (Z.land y z).
Definition Sigma0 (x : Z) : Z := Z.lxor (Z.lxor (rotr 2 x) (rotr 13 x)) (rotr 22 x).
Definition Sigma1 (x : Z) : Z := Z.lxor (Z.lxor (rotr 6 x) (rotr 11 x)) (rotr 25 x).
Definition sigma0 (x : Z) : Z := Z.lxor (Z.lxor (rotr 7 x) (rotr 18 x)) (shr 3 x).
Definition sigma1 (x : Z) : Z := Z.lxor (Z.lxor (rotr 17 x) (rotr 19 x)) (shr 10 x).

(** The round constants are the first 32 bits of the fractional parts of
    the cube roots of the first 64 primes; the initial hash value takes the
    square roots of the first 8. *)
Definition is_prime (n : Z) : bool :=
  forallb (fun d => negb (n mod Z.of_nat d =? 0)) (seq 2 (Z.to_nat n - 2)).

Definition primes64 : list Z :=
  Eval vm_compute in firstn 64 (filter is_prime (map Z.of_nat (seq 2 400))).

(** Integer cube root, one bit at a time from bit [bits - 1] down. *)
Fixpoint icbrt (bits : nat) (n r : Z) : Z :=
  match bits with
  | O => r
  | S b =>
      let r' := r + Z.shiftl 1 (Z.of_nat b) in
      icbrt b n (if r' * r' * r' <=? n then r' else r)
  end.

Definition K : list Z :=
  Eval vm_compute in
    map (fun p => Z.land (icbrt 36 (Z.shiftl p 96) 0) mask32) primes64.

Definition H0 : list Z :=
  Eval vm_compute in
    map (fun p => Z.land (Z.sqrt (Z.shiftl p 64)) mask32) (firstn 8 primes64).

(** Big-endian bytes of [x], [n] of them. *)
Fixpoint be_bytes (n : nat) (x : Z) : list Z :=
  match n with
  | O => []
  | S n' => Z.land (Z.shiftr x (8 * Z.of_nat n')) 255 :: be_bytes n' x
  end.

(** The message followed by 0x80, zero bytes up to 56 mod 64, and the bit
    length on eight bytes. *)
Definition pad (msg : list Z) : list Z :=
  let l := Z.of_nat (List.length msg) in
  let k := (55 - l) mod 64 in
  msg ++ [128] ++ repeat 0 (Z.to_nat k) ++ be_bytes 8 (8 * l).

Fixpoint words (fuel : nat) (l : list Z) : list Z :=
  match fuel, l with
  | S fuel', a :: b :: c :: d :: r =>
      (Z.shiftl a 24 + Z.shiftl b 16 + Z.shiftl c 8 + d) :: words fuel' r
  | _, _ => []
  end.

(** The message schedule, newest word first. *)
Fixpoint schedule (n : nat) (rw : list Z) : list Z :=
  match n with
  | O => rw
  | S n' =>
      let w := add32 (add32 (sigma1 (nth 1 rw 0)) (nth 6 rw 0))
                     (add32 (sigma0 (nth 14 rw 0)) (nth 15 rw 0)) in
      schedule n' (w :: rw)
  end.

Record regs : Type := mkregs { ra : Z; rb : Z; rc : Z; rd : Z; re : Z; rf : Z; rg : Z; rh : Z }.

Definition round (r : regs) (kw : Z * Z) : regs :=
  let (k, w) := kw in
  let t1 := add32 (add32 (add32 (rh r) (Sigma1 (re r))) (add32 (Ch (re r) (rf r) (rg r)) k)) w in
  let t2 := add32 (Sigma0 (ra r)) (Maj (ra r) (rb r) (rc r)) in
  mkregs (add32 t1 t2) (ra r) (rb r) (rc r) (add32 (rd r) t1) (re r) (rf r) (rg r).

Definition regs_of (h : list Z) : regs :=
  mkregs (nth 0 h 0) (nth 1 h 0) (nth 2 h 0) (nth 3 h 0)
         (nth 4 h 0) (nth 5 h 0) (nth 6 h 0) (nth 7 h 0).

Definition list_of (r : regs) : list Z :=
  [ra r; rb r; rc r; rd r; re r; rf r; rg r; rh r].

Definition compress (h : list Z) (block : list Z) : list Z :=
  let w := rev (schedule 48 (rev (words 16 block))) in
  let r := fold_left round (combine K w) (regs_of h) in
  map (fun p => add32 (fst p) (snd p)) (combine h (list_of r)).

Fixpoint blocks (fuel : nat) (l : list Z) (h : list Z) : list Z :=
  match fuel, l with
  | S fuel', _ :: _ => blocks fuel' (skipn 64 l) (compress h (firstn 64 l))
  | _, _ => h
  end.

Definition digest (msg : bytes) : bytes :=
  let p := pad (map byte_val msg) in
  map byte_of_Z (flat_map (be_bytes 4) (blocks (List.length p) p H0)).

End SHA256.

(** [_sha256]: the hash object absorbs its argument parts in order. *)
Definition _sha256 (parts : list bytes) : bytes :=
  SHA256.digest (fold_left (fun h part => h ++ part) parts []).

(** [_binding(hk, rnd, owner_pk, pke)] *)
Definition _binding (hk : string) (rnd : Z) (owner_pk pke : bytes) : bytes :=
  _sha256 [ str_encode hk; str_encode ":"; str_encode (str_of_int rnd);
            str_encode ":"; owner_pk; str_encode ":"; pke ].


(* ===================================================================== *)
(** ** Dictionaries

    A Python [dict] keeps its keys in insertion order; assigning to a key
    that is present keeps its position. *)

Class EqKey (K : Type) : Type := {
  keqb : K -> K -> bool;
  keqb_eq : forall a b, keqb a b = true <-> a = b
}.

#[export] Instance EqKey_string : EqKey string :=
  {| keqb := String.eqb; keqb_eq := String.eqb_eq |}.
#[export] Instance EqKey_Z : EqKey Z :=
  {| keqb := Z.eqb; keqb_eq := Z.eqb_eq |}.
#[export] Instance EqKey_nat : EqKey nat :=
  {| keqb := Nat.eqb; keqb_eq := Nat.eqb_eq |}.

Definition dict (K V : Type) : Type := list (K * V).

Section Dict.
Context {K V : Type} `{EqKey K}.

(** [d.get(k)] *)
Fixpoint dget (k : K) (d : dict K V) : option V :=
  match d with
  | [] => None
  | (k', v) :: d' => if keqb k k' then Some v else dget k d'
  end.

(** [k in d] *)
Definition dmem (k : K) (d : dict K V) : bool :=
  match dget k d with Some _ => true | None => false end.

(** [d[k] = v] *)
Fixpoint dset (k : K) (v : V) (d : dict K V) : dict K V :=
  match d with
  | [] => [(k, v)]
  | (k', v') :: d' => if keqb k k' then (k', v) :: d' else (k', v') :: dset k v d'
  end.

(** [d.pop(k, None)], the popped value dropped; also [del d[k]] for a
    key that is present. *)
Fixpoint dpop (k : K) (d : dict K V) : dict K V :=
  match d with
  | [] => []
  | (k', v') :: d' => if keqb k k' then d' else (k', v') :: dpop k d'
  end.

(** [d.setdefault(k, v)]: the value now at [k], and the dictionary. *)
Definition dsetdefault (k : K) (v : V) (d : dict K V) : V * dict K V :=
  match dget k d with
  | Some v' => (v', d)
  | None => (v, dset k v d)
  end.

Definition dkeys (d : dict K V) : list K := map fst d.
End Dict.

(* ===================================================================== *)
(** ** Python values *)

(** What [json.loads] produces. *)
#[local] Unset Elimination Schemes.
Inductive pyval : Type :=
| PNone
| PBool (b : bool)
| PInt (z : Z)
| PFloat (f : float)
| PStr (s : string)
| PList (l : list pyval)
| PDict (d : list (string * pyval)).
#[local] Set Elimination Schemes.

(** [bool(v)] *)
Definition truthy (v : pyval) : bool :=
  match v with
  | PNone => false
  | PBool b => b
  | PInt z => negb (z =? 0)
  | PFloat f => negb (PrimFloat.eqb f 0)
  | PStr s => negb (String.eqb s "")
  | PList l => match l with [] => false | _ => true end
  | PDict d => match d with [] => false | _ => true end
  end.

(** [v[k]] for a string key. *)
Definition py_getitem (v : pyval) (k : string) : res pyval :=
  match v with
  | PDict d => match dget k d with Some x => Ret x | None => Raise KeyError end
  | _ => Raise TypeError
  end.

(** [v.get(k, default)] *)
Definition py_get (v : pyval) (k : string) (default : pyval) : res pyval :=
  match v with
  | PDict d => Ret (match dget k d with Some x => x | None => default end)
  | _ => Raise AttributeError
  end.

(** [isinstance(v, (int, float))]; [bool] is a subclass of [int]. *)
Definition is_number (v : pyval) : bool :=
  match v with
  | PBool _ | PInt _ | PFloat _ => true
  | _ => false
  end.

(** [-1 <= v <= 1] on a number. *)
Definition in_unit_range (v : pyval) : bool :=
  match v with
  | PBool _ => true
  | PInt z => (-1 <=? z) && (z <=? 1)
  | PFloat f => PrimFloat.leb (-1) f && PrimFloat.leb f 1
  | _ => false
  end.

(** [v != 0.0] *)
Definition ne_zero (v : pyval) : bool :=
  match v with
  | PBool b => b
  | PInt z => negb (z =? 0)
  | PFloat f => negb (PrimFloat.eqb f 0)
  | _ => true
  end.

(** [v == n] for an [int] literal [n]. *)
Definition eq_int (v : pyval) (n : Z) : bool :=
  match v with
  | PBool b => (if b then 1 else 0) =? n
  | PInt z => z =? n
  | PFloat f => SFeqb (Prim2SF f) (binary_normalize prec emax n 0 false)
  | _ => false
  end.

(** [int(f)] for a [float]: truncation; [ValueError] on NaN and
    [OverflowError] on an infinity. *)
Definition int_of_float (f : float) : res Z :=
  match Prim2SF f with
  | S754_nan => Raise ValueError
  | S754_infinity _ => Raise OverflowError
  | S754_zero _ => Ret 0
  | S754_finite s m e =>
      let a := if 0 <=? e then Z.shiftl (Zpos m) e else Z.shiftr (Zpos m) (- e) in
      Ret (if s then - a else a)
  end.

(** [float(n)] for an [int]: the nearest double, [OverflowError] when it
    is out of range. *)
Definition float_of_int (z : Z) : res float :=
  match binary_normalize prec emax z 0 false with
  | S754_infinity _ => Raise OverflowError
  | sf => Ret (SF2Prim sf)
  end.

(** [float(v)] on the numbers; the one call site (the mapping branch of
    [_validate_submission]) is guarded by [isinstance(v, (int, float))]. *)
Definition float_of_number (v : pyval) : res float :=
  match v with
  | PBool b => Ret (if b then 1%float else 0%float)
  | PInt z => float_of_int z
  | PFloat f => Ret f
  | _ => Raise TypeError
  end.

(** A NumPy [float16]. *)
Definition f16 : Type := spec_float.

Definition f16_of_float (f : float) : f16 :=
  match Prim2SF f with
  | S754_finite s m e => binary_normalize 11 16 (cond_Zopp s (Zpos m)) e s
  | sf => sf
  end.

(** One element of [np.array(vec, dtype=np.float16)], for a vector of
    numbers and [None]: a number is rounded to [float16], and [None]
    becomes NaN.  Vectors with other elements are outside the model
    (NumPy parses a [str], nests lists into a matrix and raises on a
    dictionary), and the definition raises on them: [set_emb] is called
    by the write-back only, with vectors that [_validate_submission]
    returned, which hold numbers. *)
Definition np_float16 (v : pyval) : res f16 :=
  match v with
  | PNone => Ret S754_nan
  | _ => f <- float_of_number v ;; Ret (f16_of_float f)
  end.

Fixpoint mapM {A B : Type} (f : A -> res B) (l : list A) : res (list B) :=
  match l with
  | [] => Ret []
  | a :: l' => b <- f a ;; bs <- mapM f l' ;; Ret (b :: bs)
  end.

(** [np.array(vec, dtype=np.float16)] *)
Definition np_array_f16 (vec : list pyval) : res (list f16) := mapM np_float16 vec.

(** [arr != 0] on one element. *)
Definition f16_nonzero (x : f16) : bool :=
  match x with S754_zero _ => false | _ => true end.

(* ===================================================================== *)
(** ** Configuration ([config.py], not among the sources: its constants
    are parameters) *)

(** One entry of [config.CHALLENGES]: the keys ["ticker"], ["name"],
    ["dim"] and ["blocks_ahead"]. *)
Record Challenge : Type := {
  c_ticker : string;
  c_name : string;
  c_dim : Z;
  c_blocks_ahead : Z
}.

Record Config : Type := {
  CHALLENGES : list Challenge;
  CHALLENGE_MAP : dict string Challenge;
  CHALLENGE_NAME_TO_TICKER : dict string string;
  ASSET_EMBEDDING_DIMS : dict string Z;
  SAMPLE_EVERY : positive;
  (** [None]: the attribute is not set. *)
  OWNER_HPKE_PUBLIC_KEY_HEX : option string;
  MAX_UNCHANGED_TIMESTEPS : option Z
}.

(* ===================================================================== *)
(** ** [ChallengeData] *)

(** One entry of [ChallengeData.sidx]: the dictionary with the keys
    ["hotkeys"], ["price"] and ["emb"]. *)
Record Sample : Type := {
  hotkeys : list string;
  price : option float;
  emb : dict string (list f16)
}.

Record ChallengeData : Type := {
  dim : Z;
  blocks_ahead : Z;
  sidx : dict Z Sample
}.

(** The attributes of a pickled [DataLog]; an artifact written by an older
    version has no [_drand_cache]. *)
Record Pickled : Type := {
  p_blocks : list Z;
  p_challenges : dict string ChallengeData;
  p_raw_payloads : dict nat (dict string bytes);
  p_lock : bool;
  p_drand_cache : option (dict Z bytes)
}.

(* ===================================================================== *)
(** ** Library calls *)

(** What [Timelock.tld] hands back: text, or something [bytes()] accepts. *)
Inductive tld_out : Type :=
| TldStr (s : string)
| TldBytes (b : bytes).

Record http_response : Type := {
  status : Z;
  (** [resp.json()] *)
  json_body : res pyval
}.

Inductive transport : Type := Aiohttp | Requests.

(** A beacon request: the transport and the round in the URL. *)
Definition request : Type := (transport * Z)%type.

Record Externals : Type := {
  (** [json.loads] *)
  json_loads : string -> res pyval;
  (** [json.dumps] *)
  json_dumps : pyval -> res string;
  (** [int(s)] for a [str]; [None] is its [ValueError] *)
  int_of_str : string -> option Z;
  (** [s.lower()] *)
  str_lower : string -> string;
  (** [Timelock(config.DRAND_PUBLIC_KEY).tld(ct, sig)] *)
  tld : bytes -> bytes -> res tld_out;
  (** [X25519PrivateKey.from_private_bytes(ske).public_key().public_bytes(Raw, Raw)] *)
  x25519_public : bytes -> res bytes;
  (** [X25519PrivateKey.from_private_bytes(ske).exchange(X25519PublicKey.from_public_bytes(pk))] *)
  x25519_exchange : bytes -> bytes -> res bytes;
  (** [HKDF(SHA256, length, salt=None, info).derive(secret)] *)
  hkdf_sha256 : Z -> bytes -> bytes -> res bytes;
  (** [ChaCha20Poly1305(key).decrypt(nonce, ct, aad)] *)
  chacha20poly1305_decrypt : bytes -> bytes -> bytes -> bytes -> res bytes;
  (** A GET of the beacon URL of a round, given the requests made so far
      (newest first). *)
  http_get : transport -> list request -> Z -> res http_response;
  (** [pickle.dumps] and [pickle.loads] of the attributes of a ledger *)
  pickle_dumps : Pickled -> res bytes;
  pickle_loads : bytes -> res Pickled;
  (** what [gzip.open(path, "wb")] stores for the bytes written, and what
      [gzip.open(path, "rb")] reads back *)
  gzip_compress : bytes -> bytes;
  gzip_decompress : bytes -> res bytes
}.

(** [int(v)] *)
Definition py_int (E : Externals) (v : pyval) : res Z :=
  match v with
  | PBool b => Ret (if b then 1 else 0)
  | PInt z => Ret z
  | PFloat f => int_of_float f
  | PStr s => match int_of_str E s with Some z => Ret z | None => Raise ValueError end
  | _ => Raise TypeError
  end.

(** [bytes.fromhex(v)] *)
Definition py_fromhex (v : pyval) : res bytes :=
  match v with
  | PStr s => fromhex s
  | _ => Raise TypeError
  end.

(** The [str] behind a value on which a [str] method is called. *)
Definition as_str (v : pyval) : res string :=
  match v with
  | PStr s => Ret s
  | _ => Raise AttributeError
  end.

(* ===================================================================== *)
(** ** V2 hybrid decryption *)

(** [_hkdf_key_nonce(shared_secret, info, key_len=32, nonce_len=12)] *)
Definition _hkdf_key_nonce (E : Externals) (shared_secret info : bytes)
    (key_len nonce_len : Z) : res (bytes * bytes) :=
  out <- hkdf_sha256 E (key_len + nonce_len) info shared_secret ;;
  Ret (firstn (Z.to_nat key_len) out, skipn (Z.to_nat key_len) out).

(** [_derive_pke(ske_raw)] *)
Definition _derive_pke (E : Externals) (ske_raw : bytes) : res bytes :=
  x25519_public E ske_raw.

(** [not sig] *)
Definition sig_missing (sig : option bytes) : bool :=
  match sig with
  | None | Some [] => true
  | Some (_ :: _) => false
  end.

(** The decoding of the time-locked secret (the two wire encodings). *)
Definition decode_skeK (skeK_raw : tld_out) : res bytes :=
  match skeK_raw with
  | TldStr s => try_except (fromhex s) is_ValueError (Ret (str_encode s))
  | TldBytes b =>
      if len b =? 128
      then try_except (s <- decode_ascii b ;; fromhex s) is_ValueError (Ret b)
      else Ret b
  end.

(** [bytes.fromhex(payload[a][b])] *)
Definition hex_at (payload : pyval) (a b : string) : res bytes :=
  x <- py_getitem payload a ;;
  y <- py_getitem x b ;;
  py_fromhex y.

(** [_decrypt_v2_payload], from the time-lock opening to the end. *)
Definition v2_after_binding (E : Externals) (payload : pyval) (sig : bytes)
    (owner_pk pke binding : bytes) : res (option bytes) :=
  ct <- hex_at payload "W_time" "ct" ;;
  skeK_raw <- tld E ct sig ;;
  skeK <- decode_skeK skeK_raw ;;
  if negb (len skeK =? 64) then Ret None else
  let ske := firstn 32 skeK in
  let key := skipn 32 skeK in
  pke' <- _derive_pke E ske ;;
  if negb (bytes_eqb pke' pke) then Ret None else
  shared <- x25519_exchange E ske owner_pk ;;
  k1n <- _hkdf_key_nonce E shared (str_encode "mantis-owner-wrap") 32 12 ;;
  let k1 := fst k1n in
  nonce <- hex_at payload "W_owner" "nonce" ;;
  wct <- hex_at payload "W_owner" "ct" ;;
  wrapped <- chacha20poly1305_decrypt E k1 nonce wct binding ;;
  if negb (bytes_eqb wrapped key) then Ret None else
  c_nonce <- hex_at payload "C" "nonce" ;;
  c_ct <- hex_at payload "C" "ct" ;;
  pt <- chacha20poly1305_decrypt E key c_nonce c_ct binding ;;
  Ret (Some pt).

(** [getattr(config, "OWNER_HPKE_PUBLIC_KEY_HEX", "").strip()] *)
Definition configured_owner_pk_hex (cfg : Config) : string :=
  strip (match OWNER_HPKE_PUBLIC_KEY_HEX cfg with Some s => s | None => EmptyString end).

(** The test of the payload's own [owner_pk] against the configured key:
    [isinstance(x, str) and x.lower() != configured.lower()]. *)
Definition owner_pk_differs (E : Externals) (payload_owner_pk_hex : pyval)
    (configured : string) : bool :=
  match payload_owner_pk_hex with
  | PStr s => negb (String.eqb (str_lower E s) (str_lower E configured))
  | _ => false
  end.

(** [bytes.fromhex(payload["binding"])] *)
Definition declared_binding (payload : pyval) : res bytes :=
  b <- py_getitem payload "binding" ;; py_fromhex b.

(** The arguments [payload["hk"]] and [int(payload["round"])] of the call
    of [_binding], and the [str] behind the first, which the function
    encodes. *)
Definition binding_context (E : Externals) (payload : pyval) : res (string * Z) :=
  hk_v <- py_getitem payload "hk" ;;
  rnd_v <- py_getitem payload "round" ;;
  rnd <- py_int E rnd_v ;;
  hk <- as_str hk_v ;;
  Ret (hk, rnd).

(** The body of the [try] of [_decrypt_v2_payload]. *)
Definition _decrypt_v2_body (cfg : Config) (E : Externals) (payload : pyval)
    (sig : option bytes) : res (option bytes) :=
  match sig with
  | None | Some [] => Ret None
  | Some ((_ :: _) as sigb) =>
      let configured := configured_owner_pk_hex cfg in
      if String.eqb configured EmptyString then Ret None else
      payload_owner_pk_hex <- py_get payload "owner_pk" PNone ;;
      if owner_pk_differs E payload_owner_pk_hex configured then Ret None else
      owner_pk <- fromhex configured ;;
      pke <- hex_at payload "W_owner" "pke" ;;
      ctx <- binding_context E payload ;;
      let binding := _binding (fst ctx) (snd ctx) owner_pk pke in
      declared <- declared_binding payload ;;
      if negb (bytes_eqb binding declared) then Ret None else
      v2_after_binding E payload sigb owner_pk pke binding
  end.

(** [_decrypt_v2_payload(payload, sig, tlock)] *)
Definition _decrypt_v2_payload (cfg : Config) (E : Externals) (payload : pyval)
    (sig : option bytes) : res (option bytes) :=
  try_except (_decrypt_v2_body cfg E payload sig) is_Exception (Ret None).

(* ===================================================================== *)
(** ** State and exceptions

    A method that mutates an object and may raise: the state after the
    call is there in both cases. *)

Definition SE (S A : Type) : Type := S -> res A * S.

Definition sret {S A : Type} (a : A) : SE S A := fun s => (Ret a, s).

Definition sbind {S A B : Type} (m : SE S A) (k : A -> SE S B) : SE S B :=
  fun s =>
    match m s with
    | (Ret a, s') => k a s'
    | (Raise e, s') => (Raise e, s')
    end.

Definition lift {S A : Type} (r : res A) : SE S A := fun s => (r, s).

Definition modify {S : Type} (f : S -> S) : SE S unit := fun s => (Ret tt, f s).

(** [for x in l: body(x)] *)
Fixpoint sfor {S A : Type} (l : list A) (body : A -> SE S unit) : SE S unit :=
  match l with
  | [] => sret tt
  | x :: l' => sbind (body x) (fun _ => sfor l' body)
  end.

(** The same loop for a body that only raises. *)
Fixpoint foldM {A B : Type} (f : B -> A -> res B) (l : list A) (b : B) : res B :=
  match l with
  | [] => Ret b
  | x :: l' => b' <- f b x ;; foldM f l' b'
  end.

(* ===================================================================== *)
(** ** [ChallengeData]: its methods *)

Definition empty_sample : Sample := {| hotkeys := []; price := None; emb := [] |}.

Definition with_sidx (ch : ChallengeData) (sx : dict Z Sample) : ChallengeData :=
  {| dim := dim ch; blocks_ahead := blocks_ahead ch; sidx := sx |}.

(** [ChallengeData.set_price(sidx, price)] *)
Definition set_price (ch : ChallengeData) (s : Z) (p : float) : ChallengeData :=
  let (d, sx) := dsetdefault s empty_sample (sidx ch) in
  with_sidx ch (dset s {| hotkeys := hotkeys d; price := Some p; emb := emb d |} sx).

(** [hk in d["hotkeys"]] *)
Definition hk_in (hk : string) (l : list string) : bool := existsb (String.eqb hk) l.

(** [ChallengeData.set_emb(sidx, hk, vec)] *)
Definition set_emb (s : Z) (hk : string) (vec : list pyval) : SE ChallengeData unit :=
  fun ch =>
    let (d, sx) := dsetdefault s empty_sample (sidx ch) in
    match np_array_f16 vec with
    | Raise e => (Raise e, with_sidx ch sx)
    | Ret arr =>
        let hks := if hk_in hk (hotkeys d) then hotkeys d else hotkeys d ++ [hk] in
        (Ret tt,
         with_sidx ch (dset s {| hotkeys := hks; price := price d; emb := dset hk arr (emb d) |} sx))
    end.

(* ===================================================================== *)
(** ** [DataLog] *)

Record DataLog : Type := {
  blocks : list Z;
  challenges : dict string ChallengeData;
  raw_payloads : dict nat (dict string bytes);
  (** whether [_lock] is held *)
  _lock : bool;
  _drand_cache : dict Z bytes
}.

Definition with_blocks (L : DataLog) (b : list Z) : DataLog :=
  {| blocks := b; challenges := challenges L; raw_payloads := raw_payloads L;
     _lock := _lock L; _drand_cache := _drand_cache L |}.
Definition with_challenges (L : DataLog) (c : dict string ChallengeData) : DataLog :=
  {| blocks := blocks L; challenges := c; raw_payloads := raw_payloads L;
     _lock := _lock L; _drand_cache := _drand_cache L |}.
Definition with_raw_payloads (L : DataLog) (r : dict nat (dict string bytes)) : DataLog :=
  {| blocks := blocks L; challenges := challenges L; raw_payloads := r;
     _lock := _lock L; _drand_cache := _drand_cache L |}.
Definition with_drand_cache (L : DataLog) (c : dict Z bytes) : DataLog :=
  {| blocks := blocks L; challenges := challenges L; raw_payloads := raw_payloads L;
     _lock := _lock L; _drand_cache := c |}.
Definition with_lock (L : DataLog) (l : bool) : DataLog :=
  {| blocks := blocks L; challenges := challenges L; raw_payloads := raw_payloads L;
     _lock := l; _drand_cache := _drand_cache L |}.

(** [DataLog.__init__] *)
Definition DataLog_init (cfg : Config) : DataLog :=
  {| blocks := [];
     challenges :=
       fold_left (fun d c => dset (c_ticker c)
                                  {| dim := c_dim c; blocks_ahead := c_blocks_ahead c; sidx := [] |} d)
                 (CHALLENGES cfg) [];
     raw_payloads := [];
     _lock := false;
     _drand_cache := [] |}.

Definition sample_every (cfg : Config) : Z := Zpos (SAMPLE_EVERY cfg).

(** The raw bytes stored for one hotkey:
    [json.dumps(ct).encode() if ct else b"{}"]. *)
Definition raw_of_payload (E : Externals) (ct : option pyval) : res bytes :=
  match ct with
  | Some v => if truthy v then s <- json_dumps E v ;; Ret (str_encode s)
              else Ret (str_encode "{}")
  | None => Ret (str_encode "{}")
  end.

(** [DataLog.append_step(block, prices, payloads, mg)]; [hks] is
    [mg.hotkeys]. *)
Definition append_step (cfg : Config) (E : Externals) (block : Z)
    (prices : dict string float) (payloads : dict string pyval) (hks : list string)
    : SE DataLog unit :=
  sbind (modify (fun L => with_blocks L (blocks L ++ [block]))) (fun _ =>
  fun L =>
    let ts := (List.length (blocks L) - 1)%nat in
    let L1 := with_raw_payloads L (dset ts [] (raw_payloads L)) in
    let s := block / sample_every cfg in
    let chs :=
      map (fun tc : string * ChallengeData =>
             match dget (fst tc) prices with
             | Some p => (fst tc, set_price (snd tc) s p)
             | None => tc
             end) (challenges L1) in
    let L2 := with_challenges L1 chs in
    sfor hks (fun hk =>
      sbind (lift (raw_of_payload E (dget hk payloads))) (fun raw =>
      fun L' =>
        match dget ts (raw_payloads L') with
        | Some by_hk =>
            (Ret tt, with_raw_payloads L' (dset ts (dset hk raw by_hk) (raw_payloads L')))
        | None => (Raise KeyError, L')
        end)) L2).

(** [DataLog._zero_vecs()] *)
Definition _zero_vecs (cfg : Config) : dict string (list pyval) :=
  fold_left (fun d c => dset (c_ticker c) (repeat (PFloat 0) (Z.to_nat (c_dim c))) d)
            (CHALLENGES cfg) [].

(** The test on one submitted vector:
    [all(isinstance(v, (int, float)) and -1 <= v <= 1 for v in vec)]. *)
Definition all_in_range (vec : list pyval) : bool :=
  forallb (fun v => is_number v && in_unit_range v) vec.

(** What the positional branch stores for one challenge of dimension [d]:
    the submitted vector when it passes the test, zeros otherwise. *)
Definition positional_vector (vec : pyval) (d : Z) : list pyval :=
  match vec with
  | PList l =>
      if (len l =? d) && all_in_range l then l else repeat (PFloat 0) (Z.to_nat d)
  | _ => repeat (PFloat 0) (Z.to_nat d)
  end.

(** The positional branch of [_validate_submission]. *)
Definition validate_list (sub : list pyval) (cs : list Challenge) : dict string (list pyval) :=
  fold_left
    (fun out (vc : pyval * Challenge) =>
       dset (c_ticker (snd vc)) (positional_vector (fst vc) (c_dim (snd vc))) out)
    (combine sub cs) [].

(** [key if key in config.CHALLENGE_MAP else
    config.CHALLENGE_NAME_TO_TICKER.get(key)] *)
Definition resolve_ticker (cfg : Config) (key : string) : option string :=
  if dmem key (CHALLENGE_MAP cfg) then Some key
  else dget key (CHALLENGE_NAME_TO_TICKER cfg).

(** One iteration of the mapping branch of [_validate_submission]. *)
Definition validate_entry (cfg : Config) (out : dict string (list pyval))
    (kv : string * pyval) : res (dict string (list pyval)) :=
  let (key, vec) := kv in
  if String.eqb key "hotkey" then Ret out else
  match resolve_ticker cfg key with
  | None => Ret out
  | Some t =>
      if String.eqb t EmptyString then Ret out else
      match vec, dget t (ASSET_EMBEDDING_DIMS cfg) with
      | PList l, Some d =>
          if negb (len l =? d) then Ret out else
          if negb (all_in_range l) then Ret out else
          fl <- mapM float_of_number l ;;
          Ret (dset t (map PFloat fl) out)
      | _, _ => Ret out
      end
  end.

(** [DataLog._validate_submission(sub)] *)
Definition _validate_submission (cfg : Config) (sub : pyval)
    : res (dict string (list pyval)) :=
  match sub with
  | PList l =>
      if len l =? len (CHALLENGES cfg)
      then Ret (validate_list l (CHALLENGES cfg))
      else Ret (_zero_vecs cfg)
  | PDict d => foldM (validate_entry cfg) d (_zero_vecs cfg)
  | _ => Ret (_zero_vecs cfg)
  end.

(* ===================================================================== *)
(** ** The beacon signature cache *)

Definition DRAND_SIGNATURE_RETRIES : nat := 3.

Definition bytes_truthy (b : bytes) : bool :=
  match b with [] => false | _ :: _ => true end.

(** The [aiohttp] attempt of [_get_drand_signature]: [Ret (Some sig)] is
    [return sig]; [Ret None] leaves the [try] without returning. *)
Definition aio_attempt (r : res http_response) : res (option bytes) :=
  resp <- r ;;
  if status resp =? 200 then
    js <- json_body resp ;;
    s <- py_getitem js "signature" ;;
    sig <- py_fromhex s ;;
    Ret (Some sig)
  else Ret None.

(** The [requests] attempt. *)
Definition requests_attempt (r : res http_response) : res (option bytes) :=
  resp <- r ;;
  if status resp =? 200 then
    js <- json_body resp ;;
    sig_hex <- py_get js "signature" (PStr "") ;;
    if truthy sig_hex then sig <- py_fromhex sig_hex ;; Ret (Some sig) else Ret None
  else Ret None.

(** The part of the state that a signature fetch touches. *)
Definition beacon_state : Type := (dict Z bytes * list request)%type.

(** [DataLog._get_drand_signature(round_num, session)], with a session (the
    only way [process_pending_payloads] calls it). *)
Definition _get_drand_signature (E : Externals) (round_num : Z) (st : beacon_state)
    : option bytes * beacon_state :=
  let (cache, net) := st in
  match dget round_num cache with
  | Some ((_ :: _) as cached) => (Some cached, st)
  | _ =>
      let net1 := (Aiohttp, round_num) :: net in
      match aio_attempt (http_get E Aiohttp net round_num) with
      | Ret (Some sig) =>
          (Some sig, (if bytes_truthy sig then dset round_num sig cache else cache, net1))
      | _ =>
          let net2 := (Requests, round_num) :: net1 in
          match requests_attempt (http_get E Requests net1 round_num) with
          | Ret (Some sig) => (Some sig, (dset round_num sig cache, net2))
          | _ => (None, (cache, net2))
          end
      end
  end.

(** The retry loop of [_work]: [n] attempts left, [sig] the value so far. *)
Fixpoint fetch_with_retry (E : Externals) (rnd : Z) (n : nat) (sig : option bytes)
    (st : beacon_state) : option bytes * beacon_state :=
  match n with
  | O => (sig, st)
  | S n' =>
      if negb (sig_missing sig) then (sig, st) else
      let (sig', st') := _get_drand_signature E rnd st in
      if negb (sig_missing sig') then (sig', st') else fetch_with_retry E rnd n' sig' st'
  end.

(* ===================================================================== *)
(** ** [process_pending_payloads] *)

Record Stats : Type := {
  st_payloads : nat;
  st_decrypt_failures : nat;
  st_signature_fetch_attempts : nat;
  st_signature_fetch_failures : nat;
  st_v1 : nat;
  st_v2 : nat;
  st_v1_fail : nat;
  st_v2_fail : nat
}.

Definition stats0 : Stats := Build_Stats 0 0 0 0 0 0 0 0.

Definition count_version (version : Z) (s : Stats) : Stats :=
  Build_Stats (st_payloads s) (st_decrypt_failures s) (st_signature_fetch_attempts s)
    (st_signature_fetch_failures s)
    (if version =? 1 then S (st_v1 s) else st_v1 s)
    (if version =? 2 then S (st_v2 s) else st_v2 s)
    (st_v1_fail s) (st_v2_fail s).

Definition count_fetch (failed : bool) (s : Stats) : Stats :=
  Build_Stats (st_payloads s) (st_decrypt_failures s) (S (st_signature_fetch_attempts s))
    (if failed then S (st_signature_fetch_failures s) else st_signature_fetch_failures s)
    (st_v1 s) (st_v2 s) (st_v1_fail s) (st_v2_fail s).

Definition count_payload (s : Stats) : Stats :=
  Build_Stats (S (st_payloads s)) (st_decrypt_failures s) (st_signature_fetch_attempts s)
    (st_signature_fetch_failures s) (st_v1 s) (st_v2 s) (st_v1_fail s) (st_v2_fail s).

Definition count_failure (version : Z) (s : Stats) : Stats :=
  Build_Stats (st_payloads s) (S (st_decrypt_failures s)) (st_signature_fetch_attempts s)
    (st_signature_fetch_failures s) (st_v1 s) (st_v2 s)
    (if version =? 1 then S (st_v1_fail s) else st_v1_fail s)
    (if version =? 2 then S (st_v2_fail s) else st_v2_fail s).

(** A vector per challenge ticker. *)
Definition vecs : Type := dict string (list pyval).

(** An element of [rounds[rnd_key]]: [(ts, hk, data, version)]; [data] is
    a [dict] whenever [version] is 1 or 2, and the item holds its entries. *)
Definition item : Type := (nat * string * list (string * pyval) * Z)%type.

(** [json.loads(raw.decode()) if raw else {}], [{}] on any exception. *)
Definition parse_raw (E : Externals) (raw : bytes) : pyval :=
  match raw with
  | [] => PDict []
  | _ :: _ =>
      match (s <- decode_utf8 raw ;; json_loads E s) with
      | Ret v => v
      | Raise _ => PDict []
      end
  end.

(** The version tag of a decoded payload. *)
Definition version_of (data : pyval) : Z :=
  match data with
  | PDict d =>
      if eq_int (match dget "v"%string d with Some v => v | None => PNone end) 2 then 2
      else if dmem "ciphertext"%string d then 1
      else 0
  | _ => 0
  end.

(** [except (TypeError, ValueError)] *)
Definition is_Type_or_ValueError (e : exn) : bool := is_TypeError e || is_ValueError e.

(** [int(data.get("round", 0))], 0 on [TypeError] and [ValueError]. *)
Definition round_key (E : Externals) (d : list (string * pyval)) : res Z :=
  try_except (py_int E (match dget "round"%string d with Some v => v | None => PInt 0 end))
             is_Type_or_ValueError (Ret 0).

Definition pair_eqb (a b : nat * string) : bool :=
  Nat.eqb (fst a) (fst b) && String.eqb (snd a) (snd b).

(** [mature.add(x)] *)
Definition set_add (x : nat * string) (s : list (nat * string)) : list (nat * string) :=
  if existsb (pair_eqb x) s then s else s ++ [x].

(** What the first loop builds: [rounds], [mature] and [stats]. *)
Definition scan_state : Type := (dict Z (list item) * list (nat * string) * Stats)%type.

(** The body of [for hk, raw in by_hk.items()]. *)
Definition scan_hk (E : Externals) (ts : nat) (acc : scan_state) (kv : string * bytes)
    : res scan_state :=
  let '(rounds, mature, stats) := acc in
  let (hk, raw) := kv in
  let mature' := set_add (ts, hk) mature in
  let data := parse_raw E raw in
  let version := version_of data in
  let stats' := count_version version stats in
  match data with
  | PDict d =>
      if version =? 0 then Ret (rounds, mature', stats') else
      rnd_key <- round_key E d ;;
      let old := match dget rnd_key rounds with Some l => l | None => [] end in
      Ret (dset rnd_key (old ++ [(ts, hk, d, version)]) rounds, mature', stats')
  | _ => Ret (rounds, mature', stats')
  end.

(** [blocks[ts]] *)
Definition block_at (blocks : list Z) (ts : nat) : res Z :=
  match nth_error blocks ts with
  | Some b => Ret b
  | None => Raise IndexError
  end.

(** The body of [for ts, by_hk in payloads.items()]. *)
Definition scan_ts (E : Externals) (blocks : list Z) (current_block : Z)
    (acc : scan_state) (entry : nat * dict string bytes) : res scan_state :=
  let (ts, by_hk) := entry in
  b <- block_at blocks ts ;;
  if 300 <=? current_block - b then foldM (scan_hk E ts) by_hk acc else Ret acc.

Definition scan (E : Externals) (blocks : list Z) (current_block : Z)
    (payloads : dict nat (dict string bytes)) : res scan_state :=
  foldM (scan_ts E blocks current_block) payloads ([], [], stats0).

(** First occurrence of [":::"]. *)
Definition colon (c : ascii) : bool := Ascii.eqb c ":"%char.

Fixpoint split_at_sep (l : list ascii) : option (list ascii * list ascii) :=
  match l with
  | [] => None
  | c :: l' =>
      match l' with
      | c2 :: c3 :: r =>
          if colon c && colon c2 && colon c3 then Some ([], r)
          else match split_at_sep l' with
               | Some (a, b) => Some (c :: a, b)
               | None => None
               end
      | _ => None
      end
  end.

(** [s.rsplit(":::", 1)] when the separator occurs. *)
Definition rsplit_sep (s : string) : option (string * string) :=
  match split_at_sep (rev (list_ascii_of_string s)) with
  | Some (a, b) => Some (string_of_list_ascii (rev b), string_of_list_ascii (rev a))
  | None => None
  end.

(** [s.replace]: every single quote becomes a double quote. *)
Fixpoint replace_quotes (s : string) : string :=
  match s with
  | EmptyString => EmptyString
  | String c s' =>
      String (if Ascii.eqb c "'"%char then ascii_of_nat 34 else c) (replace_quotes s')
  end.

(** The [try] of the V1 branch: [Ret (Some v)] assigns [vecs]. *)
Definition v1_attempt (cfg : Config) (E : Externals) (d : list (string * pyval))
    (hk : string) (sig : bytes) : res (option vecs) :=
  ct_hex <- py_getitem (PDict d) "ciphertext" ;;
  ct <- py_fromhex ct_hex ;;
  out <- tld E ct sig ;;
  pt <- match out with
        | TldBytes b => decode_utf8 b
        | TldStr _ => Raise AttributeError
        end ;;
  match rsplit_sep pt with
  | None => Raise ValueError
  | Some (emb_str, hk_in) =>
      if String.eqb hk_in hk then
        obj <- json_loads E (replace_quotes emb_str) ;;
        v <- _validate_submission cfg obj ;;
        Ret (Some v)
      else Ret None
  end.

(** The [try] of the V2 branch, after a successful decryption. *)
Definition v2_attempt (cfg : Config) (E : Externals) (pt_bytes : bytes) (hk : string)
    : res (option vecs) :=
  s <- decode_utf8 pt_bytes ;;
  obj <- json_loads E s ;;
  match obj with
  | PDict o =>
      match dget "hotkey"%string o with
      | Some (PStr h) =>
          if String.eqb h hk then v <- _validate_submission cfg obj ;; Ret (Some v)
          else Ret None
      | _ => Ret None
      end
  | _ => Ret None
  end.

Record WorkState : Type := {
  w_beacon : beacon_state;
  w_stats : Stats;
  w_dec : dict nat (dict string vecs)
}.

(** [dec.setdefault(ts, {})[hk] = vecs] *)
Definition dec_record (ts : nat) (hk : string) (v : vecs) (ws : WorkState) : WorkState :=
  let (by_hk, dec) := dsetdefault ts [] (w_dec ws) in
  {| w_beacon := w_beacon ws; w_stats := w_stats ws;
     w_dec := dset ts (dset hk v by_hk) dec |}.

Definition with_stats (f : Stats -> Stats) (ws : WorkState) : WorkState :=
  {| w_beacon := w_beacon ws; w_stats := f (w_stats ws); w_dec := w_dec ws |}.

Definition is_str (v : option pyval) : bool :=
  match v with Some (PStr _) => true | _ => false end.

(** The body of [for ts, hk, data, version in items] in [_work]. *)
Definition work_item (cfg : Config) (E : Externals) (sig : option bytes) (it : item)
    : SE WorkState unit :=
  let '(ts, hk, d, version) := it in
  let zero := _zero_vecs cfg in
  match sig with
  | None | Some [] => modify (dec_record ts hk zero)
  | Some ((_ :: _) as sigb) =>
      if (version =? 1) && is_str (dget "ciphertext"%string d) then
        sbind (modify (with_stats count_payload)) (fun _ =>
        match v1_attempt cfg E d hk sigb with
        | Ret (Some v) => modify (dec_record ts hk v)
        | Ret None => modify (dec_record ts hk zero)
        | Raise _ =>
            sbind (modify (with_stats (count_failure 1))) (fun _ =>
            modify (dec_record ts hk zero))
        end)
      else if version =? 2 then
        sbind (modify (with_stats count_payload)) (fun _ =>
        sbind (lift (_decrypt_v2_payload cfg E (PDict d) sig)) (fun pt_bytes =>
        match pt_bytes with
        | None | Some [] =>
            sbind (modify (with_stats (count_failure 2))) (fun _ =>
            modify (dec_record ts hk zero))
        | Some ((_ :: _) as pt) =>
            match v2_attempt cfg E pt hk with
            | Ret (Some v) => modify (dec_record ts hk v)
            | Ret None => modify (dec_record ts hk zero)
            | Raise _ =>
                sbind (modify (with_stats (count_failure 2))) (fun _ =>
                modify (dec_record ts hk zero))
            end
        end))
      else modify (dec_record ts hk zero)
  end.

(** [_work(rnd, items, sess)] *)
Definition _work (cfg : Config) (E : Externals) (rnd : Z) (items : list item)
    : SE WorkState unit :=
  fun ws =>
    let '(sig, ws1) :=
      if 0 <? rnd then
        let (sig, b) := fetch_with_retry E rnd DRAND_SIGNATURE_RETRIES None (w_beacon ws) in
        let failed := sig_missing sig && match items with [] => false | _ => true end in
        (sig, {| w_beacon := b; w_stats := count_fetch failed (w_stats ws); w_dec := w_dec ws |})
      else (None, ws) in
    sfor items (work_item cfg E sig) ws1.

(** The write-back of the decrypted vectors (the first loop under the
    second lock). *)
Definition challenges_set_emb (t : string) (s : Z) (hk : string) (vec : list pyval)
    : SE DataLog unit :=
  fun L =>
    match dget t (challenges L) with
    | None => (Raise KeyError, L)
    | Some ch =>
        let (r, ch') := set_emb s hk vec ch in
        (r, with_challenges L (dset t ch' (challenges L)))
    end.

Definition merge_vecs (s : Z) (hk : string) (v : vecs) : SE DataLog unit :=
  sfor v (fun tv : string * list pyval =>
    if existsb ne_zero (snd tv) then challenges_set_emb (fst tv) s hk (snd tv)
    else sret tt).

Definition merge_dec (cfg : Config) (blocks : list Z) (dec : dict nat (dict string vecs))
    : SE DataLog unit :=
  sfor dec (fun entry : nat * dict string vecs =>
    sbind (lift (block_at blocks (fst entry))) (fun block =>
    if negb (block mod sample_every cfg =? 0) then sret tt else
    let s := block / sample_every cfg in
    sfor (snd entry) (fun hv : string * vecs => merge_vecs s (fst hv) (snd hv)))).

(** The body of [for ts, hk in mature]. *)
Definition remove_entry (rp : dict nat (dict string bytes)) (x : nat * string)
    : dict nat (dict string bytes) :=
  let (ts, hk) := x in
  let rp1 := match dget ts rp with
             | Some by_hk => dset ts (dpop hk by_hk) rp
             | None => rp
             end in
  match dget ts rp1 with
  | Some [] => dpop ts rp1
  | _ => rp1
  end.

Definition remove_mature (mature : list (nat * string)) : SE DataLog unit :=
  modify (fun L => with_raw_payloads L (fold_left remove_entry mature (raw_payloads L))).

(** The ledger together with the record of the beacon requests made. *)
Record World : Type := {
  ledger : DataLog;
  net : list request
}.

(** [DataLog.process_pending_payloads()].  The round groups are worked in
    the order of [rounds.items()]; the value is the statistics that the
    method logs, [None] when it returns before any work. *)
Definition process_pending_payloads (cfg : Config) (E : Externals) : SE World (option Stats) :=
  fun W =>
    let L := ledger W in
    let payloads := raw_payloads L in
    let blocks := blocks L in
    match payloads with
    | [] => (Ret None, W)
    | _ :: _ =>
        match last (map Some blocks) None with
        | None => (Raise IndexError, W)
        | Some current_block =>
            match scan E blocks current_block payloads with
            | Raise e => (Raise e, W)
            | Ret (rounds, mature, stats) =>
                match mature with
                | [] => (Ret None, W)
                | _ :: _ =>
                    let ws0 := {| w_beacon := (_drand_cache L, net W);
                                  w_stats := stats; w_dec := [] |} in
                    let (r, ws) :=
                      sfor rounds (fun ri : Z * list item => _work cfg E (fst ri) (snd ri)) ws0 in
                    let L1 := with_drand_cache L (fst (w_beacon ws)) in
                    let net1 := snd (w_beacon ws) in
                    match r with
                    | Raise e => (Raise e, {| ledger := L1; net := net1 |})
                    | Ret _ =>
                        let (r2, L2) :=
                          sbind (merge_dec cfg blocks (w_dec ws))
                                (fun _ => remove_mature mature) L1 in
                        match r2 with
                        | Raise e => (Raise e, {| ledger := L2; net := net1 |})
                        | Ret _ => (Ret (Some (w_stats ws)), {| ledger := L2; net := net1 |})
                        end
                    end
                end
            end
        end
    end.

(** [DataLog.prune_hotkeys(active)] *)
Definition prune_sample (active : list string) (d : Sample) : Sample :=
  {| hotkeys := filter (fun hk => hk_in hk active) (hotkeys d);
     price := price d;
     emb := filter (fun kv : string * list f16 => hk_in (fst kv) active) (emb d) |}.

Definition prune_hotkeys (active : list string) (L : DataLog) : DataLog :=
  with_challenges L
    (map (fun tc : string * ChallengeData =>
            (fst tc,
             with_sidx (snd tc)
               (map (fun sd : Z * Sample => (fst sd, prune_sample active (snd sd)))
                    (sidx (snd tc)))))
         (challenges L)).

(* ===================================================================== *)
(** ** [get_training_data_sync] *)

(** [sorted(set(...))] on strings. *)
Fixpoint insert_str (x : string) (l : list string) : list string :=
  match l with
  | [] => [x]
  | y :: l' =>
      if String.eqb x y then l
      else if String.ltb x y then x :: l
      else y :: insert_str x l'
  end.

Definition sorted_set (l : list string) : list string :=
  fold_left (fun acc x => insert_str x acc) l [].

(** [sorted(ch.sidx.items())]: by sample index. *)
Fixpoint insert_sample (x : Z * Sample) (l : list (Z * Sample)) : list (Z * Sample) :=
  match l with
  | [] => [x]
  | y :: l' => if fst x <=? fst y then x :: l else y :: insert_sample x l'
  end.

Definition sorted_items (d : dict Z Sample) : list (Z * Sample) :=
  fold_right insert_sample [] d.

(** [hk2idx[hk]] *)
Fixpoint index_of (hk : string) (l : list string) : res nat :=
  match l with
  | [] => Raise KeyError
  | x :: l' => if String.eqb hk x then Ret O else i <- index_of hk l' ;; Ret (S i)
  end.

(** [mat[i] = arr]: the row must have the width of the matrix, or one
    element, which is broadcast. *)
Definition assign_row (width : Z) (mat : list (list f16)) (i : nat) (arr : list f16)
    : res (list (list f16)) :=
  row <- (if len arr =? width then Ret arr
          else match arr with
               | [x] => Ret (repeat x (Z.to_nat width))
               | _ => Raise ValueError
               end) ;;
  Ret (firstn i mat ++ row :: skipn (S i) mat).

(** A NumPy [float32]. *)
Definition f32_of_float (f : float) : spec_float :=
  match Prim2SF f with
  | S754_finite s m e => binary_normalize 24 128 (cond_Zopp s (Zpos m)) e s
  | sf => sf
  end.

Record LoopState : Type := {
  ls_X : list (list f16);
  ls_y : list float;
  ls_prev_price : option float;
  ls_unchanged_streak : Z
}.

(** [int(getattr(config, "MAX_UNCHANGED_TIMESTEPS", 0) or 0)] *)
Definition max_unchanged (cfg : Config) : Z :=
  match MAX_UNCHANGED_TIMESTEPS cfg with Some z => z | None => 0 end.

(** The update of [prev_price] and [unchanged_streak] on one sample. *)
Definition update_streak (price_now : option float) (prev : option float) (streak : Z)
    : option float * Z :=
  match price_now with
  | Some p =>
      match prev with
      | None => (Some p, 0)
      | Some q => if negb (PrimFloat.eqb p q) then (Some p, 0) else (prev, streak + 1)
      end
  | None => (prev, streak)
  end.

(** The feature row of one sample and whether any stored vector has a
    non-zero element. *)
Definition build_row (ch : ChallengeData) (all_hks : list string) (data : Sample)
    : res (list (list f16) * bool) :=
  foldM (fun (acc : list (list f16) * bool) (kv : string * list f16) =>
           let (mat, any_nonzero) := acc in
           let (hk, arr) := kv in
           let any' := any_nonzero || existsb f16_nonzero arr in
           i <- index_of hk all_hks ;;
           mat' <- assign_row (dim ch) mat i arr ;;
           Ret (mat', any'))
        (emb data)
        (repeat (repeat (S754_zero false) (Z.to_nat (dim ch))) (List.length all_hks), false).

(** The body of [for sidx, data in sorted(ch.sidx.items())], after the
    test of the block ceiling. *)
Definition sample_step (cfg : Config) (ch : ChallengeData) (all_hks : list string)
    (st : LoopState) (s : Z) (data : Sample) : res LoopState :=
  let ahead := blocks_ahead ch / sample_every cfg in
  let future := dget (s + ahead) (sidx ch) in
  let price_now := price data in
  let price_fut := match future with Some f => price f | None => None end in
  let (prev, streak) :=
    update_streak price_now (ls_prev_price st) (ls_unchanged_streak st) in
  let skip := {| ls_X := ls_X st; ls_y := ls_y st;
                 ls_prev_price := prev; ls_unchanged_streak := streak |} in
  if (0 <? max_unchanged cfg) && (max_unchanged cfg <? streak) then Ret skip else
  match future, price_now, price_fut with
  | Some _, Some p0, Some p1 =>
      if PrimFloat.leb p0 0 || PrimFloat.leb p1 0 then Ret skip else
      match emb data with
      | [] => Ret skip
      | _ :: _ =>
          ma <- build_row ch all_hks data ;;
          let (mat, any_nonzero) := ma in
          if negb any_nonzero then Ret skip else
          let label := if PrimFloat.eqb p0 0 then 0%float
                       else PrimFloat.div (PrimFloat.sub p1 p0) p0 in
          Ret {| ls_X := ls_X st ++ [List.concat mat]; ls_y := ls_y st ++ [label];
                 ls_prev_price := prev; ls_unchanged_streak := streak |}
      end
  | _, _, _ => Ret skip
  end.

(** [max_block_number and block > max_block_number] *)
Definition past_ceiling (max_block_number : option Z) (block : Z) : bool :=
  match max_block_number with
  | Some m => negb (m =? 0) && (m <? block)
  | None => false
  end.

Fixpoint dataset_loop (cfg : Config) (ch : ChallengeData) (all_hks : list string)
    (max_block_number : option Z) (items : list (Z * Sample)) (st : LoopState)
    : res LoopState :=
  match items with
  | [] => Ret st
  | (s, data) :: rest =>
      if past_ceiling max_block_number (s * sample_every cfg) then Ret st else
      st' <- sample_step cfg ch all_hks st s data ;;
      dataset_loop cfg ch all_hks max_block_number rest st'
  end.

(** What [res[t]] holds: [((X, hk2idx), y)]. *)
Definition dataset : Type :=
  ((list (list f16) * dict string nat) * list spec_float)%type.

Definition loop_start : LoopState :=
  {| ls_X := []; ls_y := []; ls_prev_price := None; ls_unchanged_streak := 0 |}.

Definition all_hotkeys (ch : ChallengeData) : list string :=
  sorted_set (flat_map (fun sd : Z * Sample => dkeys (emb (snd sd))) (sidx ch)).

(** The body of [for t, ch in self.challenges.items()]. *)
Definition challenge_dataset (cfg : Config) (max_block_number : option Z)
    (out : dict string dataset) (tc : string * ChallengeData) : res (dict string dataset) :=
  let (t, ch) := tc in
  let all_hks := all_hotkeys ch in
  match all_hks with
  | [] => Ret out
  | _ :: _ =>
      let hk2idx := combine all_hks (seq 0 (List.length all_hks)) in
      st <- dataset_loop cfg ch all_hks max_block_number (sorted_items (sidx ch)) loop_start ;;
      match ls_X st with
      | [] => Ret out
      | _ :: _ => Ret (dset t ((ls_X st, hk2idx), map f32_of_float (ls_y st)) out)
      end
  end.

(** [DataLog.get_training_data_sync(max_block_number)] *)
Definition get_training_data_sync (cfg : Config) (max_block_number : option Z) (L : DataLog)
    : res (dict string dataset) :=
  foldM (challenge_dataset cfg max_block_number) (challenges L) [].

(* ===================================================================== *)
(** ** Persistence *)

Definition FileSystem : Type := dict string bytes.

(** [path.endswith(".gz")] *)
Definition endswith_gz (path : string) : bool :=
  let n := String.length path in
  match Nat.leb 3 n with
  | true => String.eqb (substring (n - 3) 3 path) ".gz"
  | false => false
  end.

Definition pickled_of (L : DataLog) : Pickled :=
  {| p_blocks := blocks L; p_challenges := challenges L;
     p_raw_payloads := raw_payloads L; p_lock := _lock L;
     p_drand_cache := Some (_drand_cache L) |}.

(** [DataLog.save(path)]: the ledger is pickled while its lock is held.
    Opening the file for writing creates or truncates it; what a failing
    [pickle.dump] leaves in it is not modelled further. *)
Definition save (E : Externals) (path : string) (L : DataLog) : SE FileSystem unit :=
  fun fs =>
    match pickle_dumps E (pickled_of (with_lock L true)) with
    | Raise e => (Raise e, dset path [] fs)
    | Ret b =>
        (Ret tt, dset path (if endswith_gz path then gzip_compress E b else b) fs)
    end.

(** [DataLog.load(path)] *)
Definition load (cfg : Config) (E : Externals) (path : string) (fs : FileSystem) : DataLog :=
  match dget path fs with
  | None => DataLog_init cfg
  | Some content =>
      match (b <- (if endswith_gz path then gzip_decompress E content else Ret content) ;;
             pickle_loads E b) with
      | Ret obj =>
          {| blocks := p_blocks obj;
             challenges := p_challenges obj;
             raw_payloads := p_raw_payloads obj;
             _lock := false;
             _drand_cache := match p_drand_cache obj with Some c => c | None => [] end |}
      | Raise _ => DataLog_init cfg
      end
  end.

(* ===================================================================== *)
(** ** Sequences of ledger operations *)

Inductive op : Type :=
| OpAppend (block : Z) (prices : dict string float) (payloads : dict string pyval)
           (hks : list string)
| OpProcessPending
| OpPruneHotkeys (active : list string).

(** One operation; an exception leaves the state reached when it was
    raised (the callers log it and go on). *)
Definition run_op (cfg : Config) (E : Externals) (W : World) (o : op) : World :=
  match o with
  | OpAppend block prices payloads hks =>
      {| ledger := snd (append_step cfg E block prices payloads hks (ledger W));
         net := net W |}
  | OpProcessPending => snd (process_pending_payloads cfg E W)
  | OpPruneHotkeys active =>
      {| ledger := prune_hotkeys active (ledger W); net := net W |}
  end.

Definition run_ops (cfg : Config) (E : Externals) (ops : list op) (W : World) : World :=
  fold_left (run_op cfg E) ops W.

(* ===================================================================== *)
(** ** A small configuration and stand-ins for the library calls

    The examples below run the model; they need some value for every
    library call.  The stand-ins keep the shape of the real ones and none
    of their cryptography: the time-lock hands back its ciphertext, the
    public key of a scalar is the scalar, the AEAD returns the ciphertext
    it is given. *)

(** [b.hex()] *)
Definition hex_char (n : Z) : ascii :=
  if n <? 10 then ascii_of_N (Z.to_N (48 + n)) else ascii_of_N (Z.to_N (87 + n)).

Fixpoint tohex (b : bytes) : string :=
  match b with
  | [] => EmptyString
  | x :: b' => String (hex_char (byte_val x / 16)) (String (hex_char (byte_val x mod 16)) (tohex b'))
  end.

Definition ex_cfg : Config :=
  {| CHALLENGES := [ {| c_ticker := "BTC"; c_name := "BTC-USD"; c_dim := 2; c_blocks_ahead := 100 |} ];
     CHALLENGE_MAP := [ ("BTC"%string,
                         {| c_ticker := "BTC"; c_name := "BTC-USD"; c_dim := 2; c_blocks_ahead := 100 |}) ];
     CHALLENGE_NAME_TO_TICKER := [ ("BTC-USD"%string, "BTC"%string) ];
     ASSET_EMBEDDING_DIMS := [ ("BTC"%string, 2) ];
     SAMPLE_EVERY := 100;
     OWNER_HPKE_PUBLIC_KEY_HEX := Some "0a0b"%string;
     MAX_UNCHANGED_TIMESTEPS := Some 0 |}.

(** JSON text is written here with single quotes and turned into the real
    text by [replace_quotes]. *)
Definition poison_text : string := replace_quotes "{'v': 2, 'round': Infinity}".
Definition poison_value : pyval :=
  PDict [ ("v"%string, PInt 2); ("round"%string, PFloat infinity) ].

Definition ex_json_loads (s : string) : res pyval :=
  if String.eqb s poison_text then Ret poison_value
  else if String.eqb s "{}" then Ret (PDict [])
  else Raise JSONDecodeError.

Definition ex_json_dumps (v : pyval) : res string :=
  match v with
  | PDict ((_, PInt 2) :: (_, PFloat _) :: []) => Ret poison_text
  | _ => Ret "{}"%string
  end.

Definition ex_E : Externals :=
  {| json_loads := ex_json_loads;
     json_dumps := ex_json_dumps;
     int_of_str := fun _ => None;
     str_lower := lower;
     tld := fun ct _ => Ret (TldBytes ct);
     x25519_public := fun ske => Ret ske;
     x25519_exchange := fun _ pk => Ret pk;
     hkdf_sha256 := fun n _ _ => Ret (repeat x00 (Z.to_nat n));
     chacha20poly1305_decrypt := fun _ _ ct _ => Ret ct;
     http_get := fun _ _ _ => Raise (LibraryError "unreachable");
     pickle_dumps := fun _ => Raise (LibraryError "pickle");
     pickle_loads := fun _ => Raise (LibraryError "pickle");
     gzip_compress := fun b => b;
     gzip_decompress := fun b => Ret b |}.

(** A V2 payload built for the configured owner key, with everything but
    its [owner_pk] field. *)
Definition ex_ske : bytes := repeat x01 32.
Definition ex_key : bytes := repeat x02 32.
Definition ex_owner_pk : bytes := [x0a; x0b].
Definition ex_binding : bytes := _binding "hk-1" 7 ex_owner_pk ex_ske.

Definition ex_v2_fields : list (string * pyval) :=
  [ ("v"%string, PInt 2);
    ("hk"%string, PStr "hk-1");
    ("round"%string, PInt 7);
    ("W_time"%string, PDict [ ("ct"%string, PStr (tohex (ex_ske ++ ex_key))) ]);
    ("W_owner"%string, PDict [ ("pke"%string, PStr (tohex ex_ske));
                               ("nonce"%string, PStr "000000000000000000000000");
                               ("ct"%string, PStr (tohex ex_key)) ]);
    ("C"%string, PDict [ ("nonce"%string, PStr "000000000000000000000000");
                         ("ct"%string, PStr "7b7d") ]);
    ("binding"%string, PStr (tohex ex_binding)) ].

Definition ex_payload_no_owner : pyval := PDict ex_v2_fields.

Definition ex_payload_numeric_owner : pyval :=
  PDict (("owner_pk"%string, PInt 2571) :: ex_v2_fields).

Definition ex_sig : bytes := [x2a].

(** The configured key followed by a no-break space (U+00A0). *)
Definition ex_cfg_nbsp : Config :=
  {| CHALLENGES := CHALLENGES ex_cfg;
     CHALLENGE_MAP := CHALLENGE_MAP ex_cfg;
     CHALLENGE_NAME_TO_TICKER := CHALLENGE_NAME_TO_TICKER ex_cfg;
     ASSET_EMBEDDING_DIMS := ASSET_EMBEDDING_DIMS ex_cfg;
     SAMPLE_EVERY := SAMPLE_EVERY ex_cfg;
     OWNER_HPKE_PUBLIC_KEY_HEX := Some ("0a0b" ++ str_of_codes [ 0xC2; 0xA0 ])%string;
     MAX_UNCHANGED_TIMESTEPS := MAX_UNCHANGED_TIMESTEPS ex_cfg |}.

(** The example payload declaring the configured key in upper case. *)
Definition ex_payload_upper_owner : pyval :=
  PDict (ex_v2_fields ++ [ ("owner_pk"%string, PStr "0A0B") ]).

(** The commitment as the specification words it: one separator, after
    the hotkey context. *)
Definition binding_one_separator (hk : string) (rnd : Z) (owner_pk pke : bytes) : bytes :=
  SHA256.digest (str_encode hk ++ str_encode ":" ++ str_encode (str_of_int rnd)
                 ++ owner_pk ++ pke).

(* ===================================================================== *)
(** ** The V2 protocol steps, as a relation

    [v2_accepts cfg E payload sig pt]: every step of the hybrid unlock
    protocol holds on [payload] and the last one yields [pt]. *)
Inductive v2_accepts (cfg : Config) (E : Externals) (payload : pyval)
    (sig : option bytes) (pt : bytes) : Prop :=
| V2_accepts
    (sigb owner_pk pke declared ct skeK shared nonce wct c_nonce c_ct : bytes)
    (owner_v : pyval) (hk : string) (rnd : Z) (skeK_raw : tld_out) (k1n : bytes * bytes)
    (Hsig : sig = Some sigb)
    (Hsigne : sigb <> [])
    (Hcfg : configured_owner_pk_hex cfg <> EmptyString)
    (Hown : py_get payload "owner_pk" PNone = Ret owner_v)
    (Hsame : owner_pk_differs E owner_v (configured_owner_pk_hex cfg) = false)
    (Hopk : fromhex (configured_owner_pk_hex cfg) = Ret owner_pk)
    (Hpke : hex_at payload "W_owner" "pke" = Ret pke)
    (Hctx : binding_context E payload = Ret (hk, rnd))
    (Hdecl : declared_binding payload = Ret declared)
    (Hbind : declared = _binding hk rnd owner_pk pke)
    (Hct : hex_at payload "W_time" "ct" = Ret ct)
    (Htld : tld E ct sigb = Ret skeK_raw)
    (Hdec : decode_skeK skeK_raw = Ret skeK)
    (Hlen : len skeK = 64)
    (Hder : _derive_pke E (firstn 32 skeK) = Ret pke)
    (Hsh : x25519_exchange E (firstn 32 skeK) owner_pk = Ret shared)
    (Hk1 : _hkdf_key_nonce E shared (str_encode "mantis-owner-wrap") 32 12 = Ret k1n)
    (Hnonce : hex_at payload "W_owner" "nonce" = Ret nonce)
    (Hwct : hex_at payload "W_owner" "ct" = Ret wct)
    (Hwrap : chacha20poly1305_decrypt E (fst k1n) nonce wct declared = Ret (skipn 32 skeK))
    (Hcn : hex_at payload "C" "nonce" = Ret c_nonce)
    (Hcc : hex_at payload "C" "ct" = Ret c_ct)
    (Hpt : chacha20poly1305_decrypt E (skipn 32 skeK) c_nonce c_ct declared = Ret pt).

(** The example payload again, declaring the commitment as the
    specification words it. *)
Definition ex_payload_spec_binding : pyval :=
  PDict (dset "binding"%string
              (PStr (tohex (binding_one_separator "hk-1" 7 ex_owner_pk ex_ske)))
              ex_v2_fields).

(* ===================================================================== *)
(** ** Assumptions on the configuration and vocabulary of the statements *)

(** What the statements assume of [config.py]: the tickers of
    [CHALLENGES] are distinct, the dimensions are not negative, and
    [ASSET_EMBEDDING_DIMS] gives a ticker the dimension of its challenge. *)
Record config_wf (cfg : Config) : Prop := {
  wf_tickers : NoDup (map c_ticker (CHALLENGES cfg));
  wf_dim_nonneg : forall c, In c (CHALLENGES cfg) -> 0 <= c_dim c;
  wf_dims : forall c d, In c (CHALLENGES cfg) ->
                        dget (c_ticker c) (ASSET_EMBEDDING_DIMS cfg) = Some d -> d = c_dim c
}.

(** The input [sub] supplies the list [l] for the challenge [c]: at the
    position of [c] in a sequence, or under a key that resolves to its
    ticker in a mapping. *)
Definition supplied_for (cfg : Config) (sub : pyval) (c : Challenge) (l : list pyval) : Prop :=
  match sub with
  | PList s =>
      exists i, nth_error (CHALLENGES cfg) i = Some c /\ nth_error s i = Some (PList l)
  | PDict d =>
      exists key, In (key, PList l) d /\ key <> "hotkey"%string
                  /\ resolve_ticker cfg key = Some (c_ticker c)
  | _ => False
  end.

(** [vec] is [[float(v) for v in l]]. *)
Definition as_floats (l vec : list pyval) : Prop :=
  exists fl, mapM float_of_number l = Ret fl /\ vec = map PFloat fl.

Definition ex_submission : pyval := PList [ PList [ PFloat 0.5; PInt (-1) ] ].

(** The block arguments of the [append_step] calls of a sequence of
    operations, in order. *)
Fixpoint appended (ops : list op) : list Z :=
  match ops with
  | [] => []
  | OpAppend block _ _ _ :: rest => block :: appended rest
  | _ :: rest => appended rest
  end.

Definition ex_world : World := {| ledger := DataLog_init ex_cfg; net := [] |}.

(** A challenge with three samples at the same price, one hotkey with a
    non-zero vector in each. *)
Definition ex_sample : Sample :=
  {| hotkeys := [ "hk-1"%string ];
     price := Some 1%float;
     emb := [ ("hk-1"%string, [ f16_of_float 1; f16_of_float 0 ]) ] |}.

Definition ex_challenge : ChallengeData :=
  {| dim := 2; blocks_ahead := 100;
     sidx := [ (0, ex_sample); (1, ex_sample); (2, ex_sample) ] |}.

Definition ex_ledger_flat_price : DataLog :=
  with_challenges (DataLog_init ex_cfg) [ ("BTC"%string, ex_challenge) ].

(** The same with a NaN price in the middle sample. *)
Definition ex_sample_nan : Sample :=
  {| hotkeys := hotkeys ex_sample; price := Some nan; emb := emb ex_sample |}.

Definition ex_challenge_nan : ChallengeData :=
  {| dim := 2; blocks_ahead := 100;
     sidx := [ (0, ex_sample); (1, ex_sample_nan); (2, ex_sample) ] |}.

(** The conditions under which a sample is left out: a price missing or
    not above zero, now or at the horizon, or, with a positive configured
    maximum, a streak above it. *)
Definition left_out (cfg : Config) (ch : ChallengeData) (st : LoopState) (s : Z)
    (data : Sample) : Prop :=
  let future := dget (s + blocks_ahead ch / sample_every cfg) (sidx ch) in
  let streak := snd (update_streak (price data) (ls_prev_price st) (ls_unchanged_streak st)) in
  price data = None
  \/ future = None
  \/ (exists f, future = Some f /\ price f = None)
  \/ (exists p, price data = Some p /\ PrimFloat.leb p 0 = true)
  \/ (exists f p, future = Some f /\ price f = Some p /\ PrimFloat.leb p 0 = true)
  \/ (0 < max_unchanged cfg /\ max_unchanged cfg < streak).

(** [prev_price] and [unchanged_streak] after the samples of a list, from
    the start of the loop: the running streak.  It is 0 at a price that
    differs from the last one seen (or is the first), one more at an equal
    price, and as before at a sample with no price. *)
Definition running_streak (samples : list (Z * Sample)) : option float * Z :=
  fold_left (fun acc sd => update_streak (price (snd sd)) (fst acc) (snd acc))
            samples (None, 0).

(** The sample [(s, data)], which comes after the samples [pre], is to be
    left out: a price, now or at the horizon, is missing or at most 0, or
    the maximum is positive and the running streak at the sample is above
    it. *)
Definition excluded (cfg : Config) (ch : ChallengeData) (pre : list (Z * Sample)) (s : Z)
    (data : Sample) : Prop :=
  let future := dget (s + blocks_ahead ch / sample_every cfg) (sidx ch) in
  price data = None
  \/ future = None
  \/ (exists f, future = Some f /\ price f = None)
  \/ (exists p, price data = Some p /\ PrimFloat.leb p 0 = true)
  \/ (exists f p, future = Some f /\ price f = Some p /\ PrimFloat.leb p 0 = true)
  \/ (0 < max_unchanged cfg
      /\ max_unchanged cfg < snd (running_streak (pre ++ [ (s, data) ]))).

(** No sample of the list is beyond the block ceiling. *)
Definition within_ceiling (cfg : Config) (max_block_number : option Z)
    (samples : list (Z * Sample)) : Prop :=
  forall sd, In sd samples -> past_ceiling max_block_number (fst sd * sample_every cfg) = false.

(** A maximum of one repetition, and a challenge with four samples at one
    price. *)
Definition ex_cfg_streak : Config :=
  {| CHALLENGES := CHALLENGES ex_cfg;
     CHALLENGE_MAP := CHALLENGE_MAP ex_cfg;
     CHALLENGE_NAME_TO_TICKER := CHALLENGE_NAME_TO_TICKER ex_cfg;
     ASSET_EMBEDDING_DIMS := ASSET_EMBEDDING_DIMS ex_cfg;
     SAMPLE_EVERY := SAMPLE_EVERY ex_cfg;
     OWNER_HPKE_PUBLIC_KEY_HEX := OWNER_HPKE_PUBLIC_KEY_HEX ex_cfg;
     MAX_UNCHANGED_TIMESTEPS := Some 1 |}.

Definition ex_challenge_long : ChallengeData :=
  {| dim := 2; blocks_ahead := 100;
     sidx := [ (0, ex_sample); (1, ex_sample); (2, ex_sample); (3, ex_sample) ] |}.

(* ===================================================================== *)
(** ** Vocabulary for the write-back of decrypted vectors *)

(** [self.challenges[t].sidx.get(s)] and the embedding stored there for a
    hotkey. *)
Definition sample_at (L : DataLog) (t : string) (s : Z) : option Sample :=
  match dget t (challenges L) with
  | Some ch => dget s (sidx ch)
  | None => None
  end.

Definition emb_at (L : DataLog) (t : string) (s : Z) (hk : string) : option (list f16) :=
  match sample_at L t s with
  | Some d => dget hk (emb d)
  | None => None
  end.

(** The decrypt results [dec] hold, for the hotkey [hk] at a timestep
    whose block is aligned to the sampling interval and has sample index
    [s], the vector [vec] for the ticker [t], and [vec] has a non-zero
    element. *)
Definition nonzero_aligned (cfg : Config) (bl : list Z) (dec : dict nat (dict string vecs))
    (t : string) (s : Z) (hk : string) (vec : list pyval) : Prop :=
  exists ts by_hk vs b,
    In (ts, by_hk) dec /\ In (hk, vs) by_hk /\ In (t, vec) vs
    /\ nth_error bl ts = Some b
    /\ b mod sample_every cfg = 0
    /\ s = b / sample_every cfg
    /\ existsb ne_zero vec = true.

(** What the write-back needs of its inputs: the timesteps of [dec] are
    positions of the block list, its tickers are challenges of the ledger,
    and its vectors are lists of numbers that NumPy converts. *)
Definition merge_ready (bl : list Z) (dec : dict nat (dict string vecs)) (L : DataLog) : Prop :=
  forall ts by_hk, In (ts, by_hk) dec ->
    (exists b, nth_error bl ts = Some b)
    /\ forall hk vs t vec, In (hk, vs) by_hk -> In (t, vec) vs ->
         dmem t (challenges L) = true /\ exists arr, np_array_f16 vec = Ret arr.

(** One call [self.challenges[t].set_emb(sidx, hk, vec)] of the
    write-back, and the calls that the loops make, in order. *)
Definition write : Type := (string * Z * string * list pyval)%type.

Definition apply_write (w : write) : SE DataLog unit :=
  let '(t, s, hk, vec) := w in challenges_set_emb t s hk vec.

Definition vecs_writes (s : Z) (hv : string * vecs) : list write :=
  map (fun tv : string * list pyval => (fst tv, s, fst hv, snd tv))
      (filter (fun tv : string * list pyval => existsb ne_zero (snd tv)) (snd hv)).

Definition entry_writes (cfg : Config) (bl : list Z) (entry : nat * dict string vecs)
    : list write :=
  match nth_error bl (fst entry) with
  | Some b =>
      if b mod sample_every cfg =? 0
      then flat_map (vecs_writes (b / sample_every cfg)) (snd entry)
      else []
  | None => []
  end.

Definition merge_writes (cfg : Config) (bl : list Z) (dec : dict nat (dict string vecs))
    : list write :=
  flat_map (entry_writes cfg bl) dec.

Definition write_key_eqb (w : write) (t : string) (s : Z) (hk : string) : bool :=
  let '(t', s', hk', _) := w in String.eqb t' t && (s' =? s) && String.eqb hk' hk.

(* ===================================================================== *)
(** ** A payload whose round is an infinite float

    [json.loads] reads [Infinity], and a number such as [1e999], as the
    float infinity; [json.dumps] writes it back as [Infinity]. *)

Definition ex_prices : dict string float := [ ("BTC"%string, 1%float) ].

(** Three sampled blocks; at the first, one hotkey submits the payload
    with the infinite round and another submits nothing. *)
Definition ex_ops_poisoned : list op :=
  [ OpAppend 100 ex_prices [ ("hk-bad"%string, poison_value) ]
             [ "hk-bad"%string; "hk-good"%string ];
    OpAppend 200 ex_prices [] [ "hk-bad"%string; "hk-good"%string ];
    OpAppend 400 ex_prices [] [ "hk-bad"%string; "hk-good"%string ] ].

Definition ex_world_poisoned : World := run_ops ex_cfg ex_E ex_ops_poisoned ex_world.

(** A mature pending entry that parses as a V1 or V2 payload with an
    infinite float as its round. *)
Definition infinite_round_pending (E : Externals) (L : DataLog) (ts : nat) (hk : string)
    : Prop :=
  exists by_hk raw d f sgn b current_block,
    In (ts, by_hk) (raw_payloads L) /\ In (hk, raw) by_hk
    /\ nth_error (blocks L) ts = Some b
    /\ last (map Some (blocks L)) None = Some current_block
    /\ 300 <= current_block - b
    /\ parse_raw E raw = PDict d
    /\ version_of (PDict d) <> 0
    /\ dget "round"%string d = Some (PFloat f)
    /\ Prim2SF f = S754_infinity sgn.

(** Every pending timestep is a position of the block list. *)
Definition pending_in_range (L : DataLog) : Prop :=
  forall ts by_hk, In (ts, by_hk) (raw_payloads L) -> exists b, nth_error (blocks L) ts = Some b.

(** Decrypt results for the write-back examples: a non-zero vector at an
    aligned block, an all-zero one at the same block, and a non-zero one at
    a block that is not aligned. *)
Definition ex_blocks : list Z := [ 100; 150 ].

Definition ex_dec : dict nat (dict string vecs) :=
  [ (0%nat, [ ("hk-1"%string, [ ("BTC"%string, [ PFloat 0.5; PInt 0 ]) ]);
              ("hk-2"%string, [ ("BTC"%string, [ PFloat 0; PFloat 0 ]) ]) ]);
    (1%nat, [ ("hk-3"%string, [ ("BTC"%string, [ PFloat 0.25; PFloat 0 ]) ]) ]) ].

(** Stand-ins for pickle and gzip that round-trip one ledger. *)
Definition ex_pickled : Pickled := pickled_of (with_lock ex_ledger_flat_price true).

Definition ex_E_persist : Externals :=
  {| json_loads := json_loads ex_E;
     json_dumps := json_dumps ex_E;
     int_of_str := int_of_str ex_E;
     str_lower := str_lower ex_E;
     tld := tld ex_E;
     x25519_public := x25519_public ex_E;
     x25519_exchange := x25519_exchange ex_E;
     hkdf_sha256 := hkdf_sha256 ex_E;
     chacha20poly1305_decrypt := chacha20poly1305_decrypt ex_E;
     http_get := http_get ex_E;
     pickle_dumps := fun _ => Ret [ x80; x05 ];
     pickle_loads := fun b => if bytes_eqb b [ x80; x05 ] then Ret ex_pickled
                              else Raise (LibraryError "unpickling");
     gzip_compress := fun b => x1f :: x8b :: b;
     gzip_decompress := fun b => match b with
                                 | x1f :: x8b :: r => Ret r
                                 | _ => Raise (LibraryError "not gzip")
                                 end |}.

(** [dec[ts][hk]] holds all-zero vectors for every challenge. *)
Definition zeroed (cfg : Config) (dec : dict nat (dict string vecs)) (ts : nat) (hk : string)
    : Prop :=
  exists by_hk, dget ts dec = Some by_hk /\ dget hk by_hk = Some (_zero_vecs cfg).

(* ===================================================================== *)
(** ** Vocabulary for the maturity gate *)

(** The pairs that the first loop adds to [mature]: every hotkey of every
    pending timestep whose block is at least 300 below [current_block]. *)
Definition mature_keys (bl : list Z) (current_block : Z)
    (payloads : dict nat (dict string bytes)) : list (nat * string) :=
  flat_map (fun entry : nat * dict string bytes =>
              match nth_error bl (fst entry) with
              | Some b => if 300 <=? current_block - b
                          then map (fun kv : string * bytes => (fst entry, fst kv)) (snd entry)
                          else []
              | None => []
              end)
           payloads.

(** What the removal loop leaves at one timestep, from what was there. *)
Fixpoint residue (mature : list (nat * string)) (ts : nat)
    (cur : option (dict string bytes)) : option (dict string bytes) :=
  match mature with
  | [] => cur
  | (ts', hk) :: rest =>
      residue rest ts
        (if Nat.eqb ts' ts then
           match cur with
           | None => None
           | Some by_hk => match dpop hk by_hk with [] => None | r => Some r end
           end
         else cur)
  end.

(** Keys are unique, as in any Python [dict]. *)
Definition pending_unique (rp : dict nat (dict string bytes)) : Prop :=
  NoDup (dkeys rp) /\ forall ts by_hk, dget ts rp = Some by_hk -> NoDup (dkeys by_hk).

(** What the completion of a pass assumes: [ASSET_EMBEDDING_DIMS] has
    only tickers of [CHALLENGES], and the ledger has a [ChallengeData] for
    each of those (as [__init__] builds it). *)
Definition dims_are_tickers (cfg : Config) : Prop :=
  forall t d, dget t (ASSET_EMBEDDING_DIMS cfg) = Some d -> In t (map c_ticker (CHALLENGES cfg)).

Definition has_challenges (cfg : Config) (L : DataLog) : Prop :=
  forall t, In t (map c_ticker (CHALLENGES cfg)) -> dmem t (challenges L) = true.

(** No mature payload of version 1 or 2 has a round on which [int] raises
    [OverflowError]. *)
Definition rounds_coercible (E : Externals) (L : DataLog) : Prop :=
  forall ts by_hk hk raw d,
    In (ts, by_hk) (raw_payloads L) -> In (hk, raw) by_hk ->
    parse_raw E raw = PDict d -> version_of (PDict d) <> 0 ->
    round_key E d <> Raise OverflowError.

(** Vectors that the write-back can take. *)
Definition good_vecs (cfg : Config) (v : vecs) : Prop :=
  forall t vec, In (t, vec) v ->
    In t (map c_ticker (CHALLENGES cfg)) /\ exists arr, np_array_f16 vec = Ret arr.

Definition good_dec (cfg : Config) (keys : list nat) (dec : dict nat (dict string vecs)) : Prop :=
  forall ts by_hk, In (ts, by_hk) dec ->
    In ts keys /\ forall hk v, In (hk, v) by_hk -> good_vecs cfg v.

Definition item_ts (it : item) : nat := fst (fst (fst it)).

Definition good_rounds (keys : list nat) (rounds : dict Z (list item)) : Prop :=
  forall rnd items it, In (rnd, items) rounds -> In it items -> In (item_ts it) keys.

(* ===================================================================== *)
(** ** Stand-ins for an end-to-end run *)

(** The JSON text of the example V2 payload, with the owner key it was
    built for, and the text of its plaintext. *)
Definition ex_v2_text : string :=
  replace_quotes
    ("{'v': 2, 'hk': 'hk-1', 'round': 7, 'owner_pk': '0A0B', 'W_time': {'ct': '"
     ++ tohex (ex_ske ++ ex_key)%list
     ++ "'}, 'W_owner': {'pke': '" ++ tohex ex_ske
     ++ "', 'nonce': '000000000000000000000000', 'ct': '" ++ tohex ex_key
     ++ "'}, 'C': {'nonce': '000000000000000000000000', 'ct': '"
     ++ tohex (str_encode (replace_quotes "{'hotkey': 'hk-1', 'BTC': [0.5, -1]}"))
     ++ "'}, 'binding': '" ++ tohex ex_binding ++ "'}")%string.

Definition ex_v2_payload : pyval :=
  PDict (ex_v2_fields
         ++ [ ("owner_pk"%string, PStr "0A0B");
              ("C"%string,
               PDict [ ("nonce"%string, PStr "000000000000000000000000");
                       ("ct"%string,
                        PStr (tohex (str_encode
                                (replace_quotes "{'hotkey': 'hk-1', 'BTC': [0.5, -1]}")))) ]) ]).

Definition ex_live_json_loads (s : string) : res pyval :=
  if String.eqb s ex_v2_text then
    Ret (PDict (dset "C"%string
                  (PDict [ ("nonce"%string, PStr "000000000000000000000000");
                           ("ct"%string,
                            PStr (tohex (str_encode
                                    (replace_quotes "{'hotkey': 'hk-1', 'BTC': [0.5, -1]}")))) ])
                  (ex_v2_fields ++ [ ("owner_pk"%string, PStr "0A0B") ])))
  else if String.eqb s (replace_quotes "{'hotkey': 'hk-1', 'BTC': [0.5, -1]}") then
    Ret (PDict [ ("hotkey"%string, PStr "hk-1");
                 ("BTC"%string, PList [ PFloat 0.5; PInt (-1) ]) ])
  else if String.eqb s "{}" then Ret (PDict [])
  else Raise JSONDecodeError.

Definition ex_live_json_dumps (v : pyval) : res string :=
  match v with
  | PDict ((_, PInt 2) :: (_, PStr _) :: _) => Ret ex_v2_text
  | _ => Ret "{}"%string
  end.

(** The beacon: the [aiohttp] transport is down; [requests] answers. *)
Definition ex_live_http_get (tr : transport) (history : list request) (round_num : Z)
    : res http_response :=
  match tr with
  | Aiohttp => Raise (LibraryError "connection refused")
  | Requests =>
      Ret {| status := 200;
             json_body := Ret (PDict [ ("round"%string, PInt round_num);
                                       ("signature"%string, PStr "2a") ]) |}
  end.

Definition ex_E_live : Externals :=
  {| json_loads := ex_live_json_loads;
     json_dumps := ex_live_json_dumps;
     int_of_str := int_of_str ex_E;
     str_lower := str_lower ex_E;
     tld := tld ex_E;
     x25519_public := x25519_public ex_E;
     x25519_exchange := x25519_exchange ex_E;
     hkdf_sha256 := hkdf_sha256 ex_E;
     chacha20poly1305_decrypt := chacha20poly1305_decrypt ex_E;
     http_get := ex_live_http_get;
     pickle_dumps := pickle_dumps ex_E;
     pickle_loads := pickle_loads ex_E;
     gzip_compress := gzip_compress ex_E;
     gzip_decompress := gzip_decompress ex_E |}.

Definition ex_world_live : World :=
  run_ops ex_cfg ex_E_live
    [ OpAppend 100 ex_prices [ ("hk-1"%string, ex_v2_payload) ] [ "hk-1"%string; "hk-2"%string ];
      OpAppend 200 ex_prices [] [ "hk-1"%string; "hk-2"%string ];
      OpAppend 400 ex_prices [] [ "hk-1"%string; "hk-2"%string ] ]
    ex_world.

Definition ex_live_outcome : res (option Stats) * World :=
  Eval vm_compute in process_pending_payloads ex_cfg ex_E_live ex_world_live.

(* ===================================================================== *)
(** ** The message that [_binding] hashes *)

(** The bytes absorbed by the hash object in [_binding], in order. *)
Definition binding_message (hk : string) (rnd : Z) (owner_pk pke : bytes) : bytes :=
  str_encode hk ++ str_encode ":" ++ str_encode (str_of_int rnd)
  ++ str_encode ":" ++ owner_pk ++ str_encode ":" ++ pke.

(** A V2 payload that declares a binding of one byte. *)
Definition ex_payload_short_binding : pyval :=
  PDict (dset "binding"%string (PStr "00") ex_v2_fields).

(** The value of a string of decimal digits, most significant first. *)
Definition digit_val (c : ascii) : Z := Z.of_N (N_of_ascii c) - 48.

Definition dec_acc (l : list ascii) (a : Z) : Z :=
  fold_left (fun a c => 10 * a + digit_val c) l a.

Definition is_digit (c : ascii) : Prop := 0 <= digit_val c < 10.

(* ===================================================================== *)
(** ** Ledgers built by the operations *)

(** A fresh ledger, with the beacon requests made so far by the process. *)
Definition fresh_world (cfg : Config) (history : list request) : World :=
  {| ledger := DataLog_init cfg; net := history |}.

(** In a sample, [hotkeys] lists the keys of [emb], each once. *)
Definition sample_wf (d : Sample) : Prop :=
  NoDup (hotkeys d) /\ NoDup (dkeys (emb d))
  /\ forall hk, In hk (hotkeys d) <-> In hk (dkeys (emb d)).

Definition samples_wf (L : DataLog) : Prop :=
  forall t ch s d, In (t, ch) (challenges L) -> In (s, d) (sidx ch) -> sample_wf d.


(** The number of items of a version in a round group, and in all of
    them. *)
Definition n_version (v : Z) (items : list item) : nat :=
  List.length (filter (fun it : item => snd it =? v) items).

Definition total_version (v : Z) (rounds : dict Z (list item)) : nat :=
  list_sum (map (fun ri : Z * list item => n_version v (snd ri)) rounds).

(** The counters of the decryption, with [c1] items of version 1 and
    [c2] of version 2 handled so far. *)
Definition stats_ok (s : Stats) (c1 c2 : nat) : Prop :=
  (st_v1_fail s <= c1)%nat /\ (st_v2_fail s <= c2)%nat
  /\ (st_payloads s <= c1 + c2)%nat
  /\ st_decrypt_failures s = (st_v1_fail s + st_v2_fail s)%nat
  /\ (st_decrypt_failures s <= st_payloads s)%nat
  /\ (st_signature_fetch_failures s <= st_signature_fetch_attempts s)%nat.

(** Every stored embedding of a challenge has the width of the challenge,
    which is the dimension that the configuration gives its ticker. *)
Definition widths_ok (cfg : Config) (chs : dict string ChallengeData) : Prop :=
  forall t ch, In (t, ch) chs ->
    (exists c, In c (CHALLENGES cfg) /\ c_ticker c = t /\ dim ch = c_dim c)
    /\ forall s d hk arr, In (s, d) (sidx ch) -> In (hk, arr) (emb d) -> len arr = dim ch.

(** The decrypt results hold only vectors that came out of
    [_validate_submission] (the all-zero vectors are what it returns for
    [None]). *)
Definition dec_validated (cfg : Config) (dec : dict nat (dict string vecs)) : Prop :=
  forall ts by_hk hk v, In (ts, by_hk) dec -> In (hk, v) by_hk ->
    exists sub, _validate_submission cfg sub = Ret v.

(* ===================================================================== *)
(** ** Further example runs *)

Definition ex_payloads_poisoned : dict string pyval := [ ("hk-bad"%string, poison_value) ].

Definition ex_hotkeys : list string := [ "hk-bad"%string; "hk-good"%string ].

(** One sampled block: its entries are pending and not yet mature. *)
Definition ex_world_young : World :=
  run_ops ex_cfg ex_E [ OpAppend 100 ex_prices ex_payloads_poisoned ex_hotkeys ]
          (fresh_world ex_cfg []).

(** What follows on the ledger with the infinite round: the chain goes
    on, the metagraph drops a hotkey, and passes are tried again. *)
Definition ex_ops_later : list op :=
  [ OpAppend 500 ex_prices [] ex_hotkeys;
    OpProcessPending;
    OpPruneHotkeys [ "hk-good"%string ];
    OpProcessPending ].

(** The operations of the end-to-end run, and the same followed by a
    pass. *)
Definition ex_ops_live : list op :=
  [ OpAppend 100 ex_prices [ ("hk-1"%string, ex_v2_payload) ] [ "hk-1"%string; "hk-2"%string ];
    OpAppend 200 ex_prices [] [ "hk-1"%string; "hk-2"%string ];
    OpAppend 400 ex_prices [] [ "hk-1"%string; "hk-2"%string ] ].

Definition ex_ops_live_pass : list op := ex_ops_live ++ [ OpProcessPending ].

Definition ex_ledger_after_pass : DataLog :=
  ledger (run_ops ex_cfg ex_E_live ex_ops_live_pass (fresh_world ex_cfg [])).

(* ===================================================================== *)
(** ** The price fetch of the validator ([validator.py]) *)

(** [float(v)] on what [json.loads] gives; [float_of_str] is [float(s)]
    for a [str]. *)
Definition py_float (float_of_str : string -> res float) (v : pyval) : res float :=
  match v with
  | PStr s => float_of_str s
  | PBool _ | PInt _ | PFloat _ => float_of_number v
  | PNone | PList _ | PDict _ => Raise TypeError
  end.

(** [[c["ticker"] for c in config.CHALLENGES]] *)
Definition tickers (cfg : Config) : list string := map c_ticker (CHALLENGES cfg).

(** [{t: 0.0 for t in tickers}] *)
Definition base_prices (cfg : Config) : dict string float :=
  fold_left (fun d t => dset t 0%float d) (tickers cfg) [].

(** [0 < fv < float('inf')] *)
Definition positive_finite (fv : float) : bool :=
  PrimFloat.ltb 0 fv && PrimFloat.ltb fv infinity.

(** The body of [for t in tickers].  [fetched.get(t)] raises
    [AttributeError] when [fetched] is no dictionary; what [float] raises
    is passed over by the inner [try]. *)
Definition price_step (float_of_str : string -> res float) (fetched : pyval)
    (out : dict string float) (t : string) : res (dict string float) :=
  v <- py_get fetched t PNone ;;
  Ret (match py_float float_of_str v with
       | Ret fv => if positive_finite fv then dset t fv out else out
       | Raise _ => out
       end).

(** [get_asset_prices(session)].  [response] is the text of the answer to
    the GET of [config.PRICE_DATA_URL], or the exception of the request,
    of [raise_for_status] or of [resp.text()]. *)
Definition get_asset_prices (cfg : Config) (E : Externals)
    (float_of_str : string -> res float) (response : res string) : dict string float :=
  let base := base_prices cfg in
  match (text <- response ;;
         data <- json_loads E text ;;
         f0 <- py_get data "prices" (PDict []) ;;
         let fetched := if truthy f0 then f0 else PDict [] in
         foldM (price_step float_of_str fetched) (tickers cfg) base) with
  | Ret out => out
  | Raise _ => base
  end.

(** The price that the loop of [get_asset_prices] leaves for a ticker:
    the fetched value when [float] accepts it and it is positive and
    finite, and 0.0 otherwise. *)
Definition fetched_price (float_of_str : string -> res float)
    (fetched : dict string pyval) (t : string) : float :=
  match py_float float_of_str (match dget t fetched with Some v => v | None => PNone end) with
  | Ret fv => if positive_finite fv then fv else 0%float
  | Raise _ => 0%float
  end.

(** A price is usable when it is 0.0, the mark of a missing price, or
    positive and finite. *)
Definition price_ok (p : float) : Prop := p = 0%float \/ positive_finite p = true.

(** A price server that knows one asset, as a number, and sends a text
    for another. *)
Definition ex_price_json : pyval :=
  PDict [ ("prices"%string,
           PDict [ ("BTC"%string, PFloat 64000.5); ("ETH"%string, PStr "n/a") ]) ].

Definition ex_E_prices : Externals :=
  {| json_loads := fun _ => Ret ex_price_json;
     json_dumps := json_dumps ex_E;
     int_of_str := int_of_str ex_E;
     str_lower := str_lower ex_E;
     tld := tld ex_E;
     x25519_public := x25519_public ex_E;
     x25519_exchange := x25519_exchange ex_E;
     hkdf_sha256 := hkdf_sha256 ex_E;
     chacha20poly1305_decrypt := chacha20poly1305_decrypt ex_E;
     http_get := http_get ex_E;
     pickle_dumps := pickle_dumps ex_E;
     pickle_loads := pickle_loads ex_E;
     gzip_compress := gzip_compress ex_E;
     gzip_decompress := gzip_decompress ex_E |}.

Definition ex_float_of_str (s : string) : res float := Raise ValueError.

(* ===================================================================== *)
(** ** The loops of the validator ([validator.py])

    [run_main_loop] and [decrypt_loop] are two tasks of one event loop
    that share the ledger.  They touch it in sections that hold its lock:
    [prune_hotkeys] and [append_step] in a turn of the main loop, the
    snapshot and the write-back in a pass of [process_pending_payloads].
    Between two sections of one task, at its awaits, sections of the
    other can run. *)

(** What one turn of the main loop meets. *)
Record Turn : Type := {
  (** [get_current_block_with_retry] *)
  t_block : Z;
  (** what [mg.sync] raises, if it is called and raises *)
  t_sync : option exn;
  (** [mg.hotkeys] at the call of [prune_hotkeys] *)
  t_pruned : list string;
  (** the answer of the price server *)
  t_response : res string;
  (** [get_miner_payloads], with the logging of its result *)
  t_payloads : res (dict string pyval);
  (** [mg.hotkeys] at the call of [append_step] *)
  t_hotkeys : list string
}.

(** The sections of the main loop: the pruning, and the rest of a turn
    from [get_asset_prices] to [append_step]. *)
Inductive main_step : Type :=
| MainPrune (active : list string)
| MainAppend (block : Z) (response : res string) (payloads : res (dict string pyval))
             (hks : list string).

(** The sections of one turn of the [while] loop of [run_main_loop],
    with [last_block] as the turn finds it.  The turn ends at once when
    the block is the one seen last or is not a sampled one, and when
    [mg.sync] raises ([except Exception]: it is logged); what follows
    [append_step] works on deep copies. *)
Definition turn_steps (cfg : Config) (last_block : Z) (tn : Turn) : list main_step :=
  let b := t_block tn in
  if b =? last_block then [] else
  if negb (b mod sample_every cfg =? 0) then [] else
  if b mod 100 =? 0 then
    match t_sync tn with
    | Some _ => []
    | None => [ MainPrune (t_pruned tn);
                MainAppend b (t_response tn) (t_payloads tn) (t_hotkeys tn) ]
    end
  else [ MainAppend b (t_response tn) (t_payloads tn) (t_hotkeys tn) ].

(** The sections of the main loop over its turns; after a turn,
    [last_block] is the block of the turn. *)
Fixpoint main_steps (cfg : Config) (last_block : Z) (turns : list Turn) : list main_step :=
  match turns with
  | [] => []
  | tn :: rest => turn_steps cfg last_block tn ++ main_steps cfg (t_block tn) rest
  end.

(** One section of the main loop on the ledger.  With no price at all
    ([if not asset_prices]) the turn ends; so it does when
    [get_miner_payloads] raises; an exception of [append_step] leaves the
    ledger as it is when raised. *)
Definition run_main_step (cfg : Config) (E : Externals) (float_of_str : string -> res float)
    (W : World) (m : main_step) : World :=
  match m with
  | MainPrune active => run_op cfg E W (OpPruneHotkeys active)
  | MainAppend b response payloads hks =>
      match get_asset_prices cfg E float_of_str response with
      | [] => W
      | prices =>
          match payloads with
          | Raise _ => W
          | Ret p => run_op cfg E W (OpAppend b prices p hks)
          end
      end
  end.

Definition run_main_steps (cfg : Config) (E : Externals) (float_of_str : string -> res float)
    (ms : list main_step) (W : World) : World :=
  fold_left (run_main_step cfg E float_of_str) ms W.

(** One turn of [decrypt_loop]: a pass of [process_pending_payloads],
    with the sections [mid] of the main loop that run while the pass
    awaits the beacon.  The snapshot ([payloads], [blocks]) is taken
    before them; the write-back and the removal work on the ledger as
    they left it.  The main loop does not touch the beacon cache.  A pass
    that returns or raises before its work has no await after the
    snapshot: the sections then run after it.  The exception of a pass is
    logged. *)
Definition decrypt_pass (cfg : Config) (E : Externals) (float_of_str : string -> res float)
    (mid : list main_step) (W : World) : World :=
  let L := ledger W in
  let payloads := raw_payloads L in
  let blocks := blocks L in
  let after := run_main_steps cfg E float_of_str mid W in
  match payloads with
  | [] => after
  | _ :: _ =>
      match last (map Some blocks) None with
      | None => after
      | Some current_block =>
          match scan E blocks current_block payloads with
          | Raise _ => after
          | Ret (rounds, mature, stats) =>
              match mature with
              | [] => after
              | _ :: _ =>
                  let ws0 := {| w_beacon := (_drand_cache L, net W);
                                w_stats := stats; w_dec := [] |} in
                  let (r, ws) :=
                    sfor rounds (fun ri : Z * list item => _work cfg E (fst ri) (snd ri)) ws0 in
                  let L1 := with_drand_cache (ledger after) (fst (w_beacon ws)) in
                  let net1 := snd (w_beacon ws) in
                  match r with
                  | Raise _ => {| ledger := L1; net := net1 |}
                  | Ret _ =>
                      let (r2, L2) :=
                        sbind (merge_dec cfg blocks (w_dec ws))
                              (fun _ => remove_mature mature) L1 in
                      {| ledger := L2; net := net1 |}
                  end
              end
          end
      end
  end.

(** The two loops together: a section of the main loop outside any pass,
    or a pass with the sections that fall into it. *)
Inductive event : Type :=
| EvMain (m : main_step)
| EvPass (mid : list main_step).

Definition run_event (cfg : Config) (E : Externals) (float_of_str : string -> res float)
    (W : World) (ev : event) : World :=
  match ev with
  | EvMain m => run_main_step cfg E float_of_str W m
  | EvPass mid => decrypt_pass cfg E float_of_str mid W
  end.

Definition run_events (cfg : Config) (E : Externals) (float_of_str : string -> res float)
    (evs : list event) (W : World) : World :=
  fold_left (run_event cfg E float_of_str) evs W.

(** The sections of the main loop in a run, in their order. *)
Definition main_of (evs : list event) : list main_step :=
  flat_map (fun ev => match ev with EvMain m => [ m ] | EvPass mid => mid end) evs.

(** Every price of every sample is usable. *)
Definition prices_ok (chs : dict string ChallengeData) : Prop :=
  forall t ch s d p, In (t, ch) chs -> In (s, d) (sidx ch) -> price d = Some p -> price_ok p.

(** Every block of the ledger is a sampled one. *)
Definition aligned (cfg : Config) (L : DataLog) : Prop :=
  Forall (fun b => b mod sample_every cfg = 0) (blocks L).

(** The blocks that the main loop appends are sampled ones. *)
Definition sampled (cfg : Config) (m : main_step) : Prop :=
  match m with
  | MainAppend b _ _ _ => b mod sample_every cfg = 0
  | MainPrune _ => True
  end.

(** Turns of the main loop at the given block, with a metagraph of two
    hotkeys and a price server that is down, and a run of the two loops:
    three sampled blocks, then a fourth whose pruning comes before a pass
    and whose append falls into it. *)
Definition ex_turn (b : Z) (payloads : dict string pyval) : Turn :=
  {| t_block := b;
     t_sync := None;
     t_pruned := [ "hk-1"%string; "hk-2"%string ];
     t_response := Raise (LibraryError "connection refused");
     t_payloads := Ret payloads;
     t_hotkeys := [ "hk-1"%string; "hk-2"%string ] |}.

Definition ex_turns : list Turn :=
  [ ex_turn 100 [ ("hk-1"%string, ex_v2_payload) ];
    ex_turn 150 [];
    ex_turn 200 [];
    ex_turn 400 [];
    ex_turn 500 [] ].

Definition ex_append (b : Z) (payloads : dict string pyval) : main_step :=
  MainAppend b (Raise (LibraryError "connection refused")) (Ret payloads)
             [ "hk-1"%string; "hk-2"%string ].

Definition ex_events : list event :=
  [ EvMain (MainPrune [ "hk-1"%string; "hk-2"%string ]);
    EvMain (ex_append 100 [ ("hk-1"%string, ex_v2_payload) ]);
    EvMain (MainPrune [ "hk-1"%string; "hk-2"%string ]);
    EvMain (ex_append 200 []);
    EvPass [ MainPrune [ "hk-1"%string; "hk-2"%string ]; ex_append 400 [] ];
    EvMain (MainPrune [ "hk-1"%string; "hk-2"%string ]);
    EvPass [ ex_append 500 [] ] ].

Definition ex_shared : World :=
  run_events ex_cfg ex_E_live ex_float_of_str ex_events (fresh_world ex_cfg []).

(* ===================================================================== *)
(** * Properties *)

(** ** Sanity checks of the model against known values *)

Example sha256_abc :
  tohex (SHA256.digest (str_encode "abc"))
  = "ba7816bf8f01cfea414140de5dae2223b00361a396177a9cb410ff61f20015ad"%string.
Proof. vm_compute. reflexivity. Qed.

Example sha256_empty :
  tohex (SHA256.digest [])
  = "e3b0c44298fc1c149afbf4c8996fb92427ae41e4649b934ca495991b7852b855"%string.
Proof. vm_compute. reflexivity. Qed.

Example fromhex_skips_space : fromhex "0A 0b" = Ret [x0a; x0b].
Proof. reflexivity. Qed.

Example fromhex_odd : fromhex "abc" = Raise ValueError.
Proof. reflexivity. Qed.

Example int_of_float_inf : int_of_float infinity = Raise OverflowError.
Proof. reflexivity. Qed.

Example int_of_float_trunc : int_of_float (-2.75)%float = Ret (-2).
Proof. vm_compute. reflexivity. Qed.

Example float_of_int_one : float_of_int 1 = Ret 1%float.
Proof. vm_compute. reflexivity. Qed.

Example unit_range_examples :
  map in_unit_range [ PFloat (-1); PFloat 1; PFloat (-1.5); PFloat nan; PInt 2; PBool true ]
  = [ true; true; false; false; false; true ].
Proof. vm_compute. reflexivity. Qed.

Example version_tags :
  map version_of
      [ PDict [ ("v"%string, PInt 2) ];
        PDict [ ("v"%string, PFloat 2) ];
        PDict [ ("v"%string, PBool true); ("ciphertext"%string, PStr "00") ];
        PDict [ ("v"%string, PStr "2") ];
        PList [] ]
  = [ 2; 2; 1; 0; 0 ].
Proof. vm_compute. reflexivity. Qed.

Example float16_rounding :
  f16_of_float 0.5 = S754_finite false 1024 (-11)
  /\ f16_of_float 0x1p-30 = S754_zero false
  /\ f16_of_float 70000 = S754_infinity false.
Proof. repeat split; vm_compute; reflexivity. Qed.

Example rsplit_examples :
  rsplit_sep "[[0.5]]:::hk-1" = Some ("[[0.5]]", "hk-1")%string
  /\ rsplit_sep "a::::b" = Some ("a:", "b")%string
  /\ rsplit_sep "a:::b:::c" = Some ("a:::b", "c")%string
  /\ rsplit_sep "no separator" = None.
Proof. repeat split. Qed.

(** ** Results and bytes *)

Lemma bind_Ret_inv {A B : Type} (m : res A) (k : A -> res B) (b : B) :
  bind m k = Ret b -> exists a, m = Ret a /\ k a = Ret b.
Proof.
  destruct m as [a|e]; simpl; intros Hk.
  - exists a. split; [reflexivity | exact Hk].
  - discriminate Hk.
Qed.

Lemma bytes_eqb_eq (a b : bytes) : bytes_eqb a b = true <-> a = b.
Proof.
  revert b. induction a as [|x a IH]; intros [|y b]; simpl; split; intros Hab;
    try reflexivity; try discriminate.
  - apply andb_true_iff in Hab. destruct Hab as [Hxy Hrest].
    apply Byte.byte_dec_bl in Hxy. apply IH in Hrest. subst. reflexivity.
  - injection Hab as -> ->. apply andb_true_iff. split.
    + apply Byte.byte_dec_lb. reflexivity.
    + apply IH. reflexivity.
Qed.

Lemma bytes_eqb_refl (a : bytes) : bytes_eqb a a = true.
Proof. apply bytes_eqb_eq. reflexivity. Qed.

(** Inversion of one step of a computation that ended in [Ret]. *)
Ltac bind_inv H :=
  let a := fresh "a" in
  let Ha := fresh "Hstep" in
  apply bind_Ret_inv in H; destruct H as (a & Ha & H).

Ltac gate_inv H :=
  match type of H with
  | (if ?c then Ret None else _) = Ret (Some _) =>
      let Hc := fresh "Hgate" in
      destruct c eqn:Hc; [discriminate H|]
  end.

(** ** V2 decryption *)

(** The body returns a plaintext exactly when every protocol step holds. *)
Lemma v2_body_some_iff (cfg : Config) (E : Externals) (payload : pyval)
    (sig : option bytes) (pt : bytes) :
  _decrypt_v2_body cfg E payload sig = Ret (Some pt) <-> v2_accepts cfg E payload sig pt.
Proof.
  split.
  - unfold _decrypt_v2_body. intros H.
    destruct sig as [[|s0 sigb]|]; try discriminate H.
    gate_inv H. bind_inv H. gate_inv H. bind_inv H. bind_inv H. bind_inv H.
    bind_inv H. gate_inv H.
    unfold v2_after_binding in H.
    bind_inv H. bind_inv H. bind_inv H. gate_inv H. bind_inv H. gate_inv H.
    bind_inv H. bind_inv H. bind_inv H. bind_inv H. bind_inv H. gate_inv H.
    bind_inv H. bind_inv H. bind_inv H.
    injection H as <-.
    apply negb_false_iff in Hgate1, Hgate2, Hgate3, Hgate4.
    apply bytes_eqb_eq in Hgate1, Hgate3, Hgate4.
    apply Z.eqb_eq in Hgate2.
    apply String.eqb_neq in Hgate.
    destruct a2 as [hk rnd]. simpl in *. subst.
    eapply V2_accepts with (sigb := s0 :: sigb); eauto; try discriminate.
  - intros [sigb owner_pk pke declared ct skeK shared nonce wct c_nonce c_ct
             owner_v hk rnd skeK_raw k1n Hsig Hsigne Hcfg Hown Hsame Hopk Hpke Hctx
             Hdecl Hbind Hct Htld Hdec Hlen Hder Hsh Hk1 Hnonce Hwct Hwrap Hcn Hcc Hpt].
    subst sig. destruct sigb as [|s0 sigb]; [contradiction|].
    unfold _decrypt_v2_body.
    apply String.eqb_neq in Hcfg. rewrite Hcfg.
    rewrite Hown. cbn [bind]. rewrite Hsame.
    rewrite Hopk. cbn [bind]. rewrite Hpke. cbn [bind]. rewrite Hctx. cbn [bind fst snd].
    rewrite Hdecl. cbn [bind]. rewrite <- Hbind. rewrite bytes_eqb_refl. cbn [negb].
    unfold v2_after_binding.
    rewrite Hct. cbn [bind]. rewrite Htld. cbn [bind]. rewrite Hdec. cbn [bind].
    rewrite Hlen. cbn [Z.eqb Pos.eqb negb]. rewrite Hder. cbn [bind].
    rewrite bytes_eqb_refl. cbn [negb]. rewrite Hsh. cbn [bind]. rewrite Hk1. cbn [bind].
    rewrite Hnonce. cbn [bind]. rewrite Hwct. cbn [bind]. rewrite Hwrap. cbn [bind].
    rewrite bytes_eqb_refl. cbn [negb]. rewrite Hcn. cbn [bind]. rewrite Hcc. cbn [bind].
    rewrite Hpt. reflexivity.
Qed.

Lemma decrypt_v2_some_iff (cfg : Config) (E : Externals) (payload : pyval)
    (sig : option bytes) (pt : bytes) :
  _decrypt_v2_payload cfg E payload sig = Ret (Some pt) <-> v2_accepts cfg E payload sig pt.
Proof.
  rewrite <- v2_body_some_iff. unfold _decrypt_v2_payload, try_except.
  destruct (_decrypt_v2_body cfg E payload sig) as [r|e]; simpl.
  - reflexivity.
  - split; discriminate.
Qed.

Lemma decrypt_v2_returns (cfg : Config) (E : Externals) (payload : pyval) (sig : option bytes) :
  exists r : option bytes, _decrypt_v2_payload cfg E payload sig = Ret r.
Proof.
  unfold _decrypt_v2_payload, try_except.
  destruct (_decrypt_v2_body cfg E payload sig) as [r|e]; simpl; eauto.
Qed.

(** C1. V2 decryption is total and fails closed: for every payload, every
    signature value (absent, empty or not) and every configuration,
    [_decrypt_v2_payload] returns, and what it returns is a plaintext or
    [None]; an exception raised by any step inside the body (a missing
    field, malformed hexadecimal, a failing library call such as the AEAD
    rejecting its tag) becomes [None]; a plaintext is returned exactly when
    every protocol step holds, so the failure of any one step (wrong
    length, binding mismatch, ...) yields [None]. *)
Theorem decrypt_v2_fail_closed (cfg : Config) (E : Externals) (payload : pyval)
    (sig : option bytes) :
  (exists r : option bytes, _decrypt_v2_payload cfg E payload sig = Ret r)
  /\ (forall e, _decrypt_v2_body cfg E payload sig = Raise e ->
                _decrypt_v2_payload cfg E payload sig = Ret None)
  /\ (forall pt, _decrypt_v2_payload cfg E payload sig = Ret (Some pt)
                 <-> v2_accepts cfg E payload sig pt)
  /\ ((forall pt, ~ v2_accepts cfg E payload sig pt) ->
      _decrypt_v2_payload cfg E payload sig = Ret None).
Proof.
  split; [apply decrypt_v2_returns|].
  split.
  { intros e He. unfold _decrypt_v2_payload. rewrite He. reflexivity. }
  split; [intros pt; apply decrypt_v2_some_iff|].
  intros Hno. destruct (decrypt_v2_returns cfg E payload sig) as [[pt|] Hr].
  - apply decrypt_v2_some_iff in Hr. destruct (Hno pt Hr).
  - exact Hr.
Qed.

(** Each kind of step failure named by the specification, on its own. *)
Lemma decrypt_v2_missing_field (cfg : Config) (E : Externals) (d : list (string * pyval))
    (sig : option bytes) (k : string) :
  In k ["W_owner"; "hk"; "round"; "binding"; "W_time"; "C"]%string ->
  dget k d = None ->
  _decrypt_v2_payload cfg E (PDict d) sig = Ret None.
Proof.
  intros Hk Hmiss.
  destruct (decrypt_v2_returns cfg E (PDict d) sig) as [[pt|] Hr]; [|exact Hr].
  exfalso. apply decrypt_v2_some_iff in Hr. destruct Hr.
  unfold hex_at, binding_context, declared_binding, py_getitem in *.
  simpl in Hk.
  repeat (destruct Hk as [<-|Hk]; [
    repeat match goal with
           | H : context [dget _ d] |- _ => rewrite Hmiss in H; simpl in H; try discriminate H
           end | ]).
  - destruct (dget "hk"%string d); discriminate.
  - contradiction.
Qed.

(** ** The binding gate *)

Lemma binding_preimage (hk : string) (rnd : Z) (owner_pk pke : bytes) :
  _binding hk rnd owner_pk pke
  = SHA256.digest (str_encode hk ++ str_encode ":" ++ str_encode (str_of_int rnd)
                   ++ str_encode ":" ++ owner_pk ++ str_encode ":" ++ pke).
Proof.
  unfold _binding, _sha256. cbn [fold_left]. rewrite <- !app_assoc. reflexivity.
Qed.

(** The body once the steps before the comparison have produced their
    values. *)
Lemma v2_body_at_gate (cfg : Config) (E : Externals) (payload : pyval)
    (sigb : bytes) (owner_v : pyval) (owner_pk pke declared : bytes)
    (hk : string) (rnd : Z) :
  sigb <> [] ->
  configured_owner_pk_hex cfg <> EmptyString ->
  py_get payload "owner_pk" PNone = Ret owner_v ->
  owner_pk_differs E owner_v (configured_owner_pk_hex cfg) = false ->
  fromhex (configured_owner_pk_hex cfg) = Ret owner_pk ->
  hex_at payload "W_owner" "pke" = Ret pke ->
  binding_context E payload = Ret (hk, rnd) ->
  declared_binding payload = Ret declared ->
  _decrypt_v2_body cfg E payload (Some sigb)
  = if bytes_eqb (_binding hk rnd owner_pk pke) declared
    then v2_after_binding E payload sigb owner_pk pke (_binding hk rnd owner_pk pke)
    else Ret None.
Proof.
  intros Hne Hcfg Hown Hsame Hopk Hpke Hctx Hdecl.
  destruct sigb as [|s0 sigb]; [contradiction|].
  unfold _decrypt_v2_body.
  apply String.eqb_neq in Hcfg. rewrite Hcfg, Hown. cbn [bind].
  rewrite Hsame, Hopk. cbn [bind]. rewrite Hpke. cbn [bind].
  rewrite Hctx. cbn [bind fst snd]. rewrite Hdecl. cbn [bind].
  destruct (bytes_eqb (_binding hk rnd owner_pk pke) declared); reflexivity.
Qed.

(** C2, as the specification states it, fails: the commitment with a single
    separator is another hash than the one the code recomputes, and a
    payload that declares it (everything else being right) is rejected,
    while the same payload declaring the code's commitment decrypts. *)
Lemma binding_single_separator_rejected :
  _binding "hk-1" 7 ex_owner_pk ex_ske <> binding_one_separator "hk-1" 7 ex_owner_pk ex_ske
  /\ declared_binding ex_payload_spec_binding
     = Ret (binding_one_separator "hk-1" 7 ex_owner_pk ex_ske)
  /\ _decrypt_v2_payload ex_cfg ex_E ex_payload_spec_binding (Some ex_sig) = Ret None
  /\ _decrypt_v2_payload ex_cfg ex_E ex_payload_no_owner (Some ex_sig) = Ret (Some [x7b; x7d]).
Proof.
  split; [|split; [|split]].
  - vm_compute. discriminate.
  - vm_compute. reflexivity.
  - vm_compute. reflexivity.
  - vm_compute. reflexivity.
Qed.

(** C2, amended.  The recomputed commitment is the SHA-256 of the hotkey
    context, the decimal round, the configured owner key and the ephemeral
    public key, with a [":"] between each two of them (three separators).
    Once the steps before the comparison have produced their values, the
    decryption goes on past the gate if and only if that hash equals the
    declared binding, and returns [None] otherwise; whatever the payload, a
    plaintext comes out only if the declared binding is that hash. *)
Theorem binding_gate (cfg : Config) (E : Externals) (payload : pyval) (sig : option bytes) :
  (forall hk rnd owner_pk pke,
      _binding hk rnd owner_pk pke
      = SHA256.digest (str_encode hk ++ str_encode ":" ++ str_encode (str_of_int rnd)
                       ++ str_encode ":" ++ owner_pk ++ str_encode ":" ++ pke))
  /\ (forall sigb owner_v owner_pk pke declared hk rnd,
         sig = Some sigb -> sigb <> [] ->
         configured_owner_pk_hex cfg <> EmptyString ->
         py_get payload "owner_pk" PNone = Ret owner_v ->
         owner_pk_differs E owner_v (configured_owner_pk_hex cfg) = false ->
         fromhex (configured_owner_pk_hex cfg) = Ret owner_pk ->
         hex_at payload "W_owner" "pke" = Ret pke ->
         binding_context E payload = Ret (hk, rnd) ->
         declared_binding payload = Ret declared ->
         (_binding hk rnd owner_pk pke = declared ->
          _decrypt_v2_body cfg E payload sig
          = v2_after_binding E payload sigb owner_pk pke (_binding hk rnd owner_pk pke))
         /\ (_binding hk rnd owner_pk pke <> declared ->
             _decrypt_v2_payload cfg E payload sig = Ret None))
  /\ (forall pt,
         _decrypt_v2_payload cfg E payload sig = Ret (Some pt) ->
         exists hk rnd owner_pk pke,
           fromhex (configured_owner_pk_hex cfg) = Ret owner_pk
           /\ hex_at payload "W_owner" "pke" = Ret pke
           /\ binding_context E payload = Ret (hk, rnd)
           /\ declared_binding payload = Ret (_binding hk rnd owner_pk pke)).
Proof.
  split; [intros; apply binding_preimage|]. split.
  - intros sigb owner_v owner_pk pke declared hk rnd -> Hne Hcfg Hown Hsame Hopk Hpke Hctx Hdecl.
    pose proof (v2_body_at_gate cfg E payload sigb owner_v owner_pk pke declared hk rnd
                  Hne Hcfg Hown Hsame Hopk Hpke Hctx Hdecl) as Hbody.
    split; intros Hcmp.
    + rewrite Hbody. rewrite (proj2 (bytes_eqb_eq _ _) Hcmp). reflexivity.
    + unfold _decrypt_v2_payload. rewrite Hbody.
      destruct (bytes_eqb (_binding hk rnd owner_pk pke) declared) eqn:Heq.
      * apply bytes_eqb_eq in Heq. contradiction.
      * reflexivity.
  - intros pt Hpt. apply decrypt_v2_some_iff in Hpt. destruct Hpt.
    exists hk, rnd, owner_pk, pke. subst declared. auto.
Qed.

(** ** The owner key gate *)

Lemma owner_gate_unconfigured (cfg : Config) (E : Externals) (payload : pyval)
    (sig : option bytes) :
  configured_owner_pk_hex cfg = EmptyString ->
  _decrypt_v2_payload cfg E payload sig = Ret None.
Proof.
  intros Hcfg. unfold _decrypt_v2_payload, _decrypt_v2_body. rewrite Hcfg.
  destruct sig as [[|s0 sigb]|]; reflexivity.
Qed.

(** C5, as stated, fails: a payload with no [owner_pk] field, and one whose
    [owner_pk] is a number, are not compared with the configured key at
    all, and decrypt. *)
Lemma owner_key_not_compared :
  OWNER_HPKE_PUBLIC_KEY_HEX ex_cfg = Some "0a0b"%string
  /\ py_getitem ex_payload_no_owner "owner_pk" = Raise KeyError
  /\ _decrypt_v2_payload ex_cfg ex_E ex_payload_no_owner (Some ex_sig) = Ret (Some [x7b; x7d])
  /\ py_getitem ex_payload_numeric_owner "owner_pk" = Ret (PInt 2571)
  /\ _decrypt_v2_payload ex_cfg ex_E ex_payload_numeric_owner (Some ex_sig)
     = Ret (Some [x7b; x7d]).
Proof.
  repeat split; vm_compute; reflexivity.
Qed.

(** ** Dictionaries *)

Section DictFacts.
Context {K V : Type} `{EqKey K}.

Lemma keqb_refl (k : K) : keqb k k = true.
Proof. apply keqb_eq. reflexivity. Qed.

Lemma keqb_neq (a b : K) : keqb a b = false <-> a <> b.
Proof.
  split.
  - intros Hf Hab. apply keqb_eq in Hab. congruence.
  - intros Hab. destruct (keqb a b) eqn:Hk; [|reflexivity].
    apply keqb_eq in Hk. contradiction.
Qed.

Lemma dget_dset_same (k : K) (v : V) (d : dict K V) : dget k (dset k v d) = Some v.
Proof.
  induction d as [|[k' v'] d IH]; simpl.
  - rewrite keqb_refl. reflexivity.
  - destruct (keqb k k') eqn:Hk; simpl; rewrite Hk; [reflexivity | exact IH].
Qed.

Lemma dget_dset_other (k k' : K) (v : V) (d : dict K V) :
  k <> k' -> dget k (dset k' v d) = dget k d.
Proof.
  intros Hne. induction d as [|[k0 v0] d IH]; simpl.
  - apply keqb_neq in Hne. rewrite Hne. reflexivity.
  - destruct (keqb k' k0) eqn:Hk; simpl.
    + apply keqb_eq in Hk. subst k0.
      apply keqb_neq in Hne. rewrite Hne. reflexivity.
    + destruct (keqb k k0); [reflexivity | exact IH].
Qed.

Lemma dget_dpop_same (k : K) (d : dict K V) :
  NoDup (dkeys d) -> dget k (dpop k d) = None.
Proof.
  induction d as [|[k' v'] d IH]; simpl; intros Hnd.
  - reflexivity.
  - inversion Hnd as [|? ? Hnotin Hnd']; subst.
    destruct (keqb k k') eqn:Hk.
    + apply keqb_eq in Hk. subst k'.
      clear IH Hnd Hnd'. induction d as [|[k0 v0] d IHd]; simpl.
      * reflexivity.
      * destruct (keqb k k0) eqn:Hk0.
        -- apply keqb_eq in Hk0. subst k0. exfalso. apply Hnotin. left. reflexivity.
        -- apply IHd. intros Hin. apply Hnotin. right. exact Hin.
    + simpl. rewrite Hk. apply IH. exact Hnd'.
Qed.

Lemma dget_dpop_other (k k' : K) (d : dict K V) :
  k <> k' -> dget k (dpop k' d) = dget k d.
Proof.
  intros Hne. induction d as [|[k0 v0] d IH]; simpl.
  - reflexivity.
  - destruct (keqb k' k0) eqn:Hk; simpl.
    + apply keqb_eq in Hk. subst k0. apply keqb_neq in Hne. rewrite Hne. reflexivity.
    + destruct (keqb k k0); [reflexivity | exact IH].
Qed.

Lemma dget_In (k : K) (v : V) (d : dict K V) : dget k d = Some v -> In (k, v) d.
Proof.
  induction d as [|[k' v'] d IH]; simpl; intros Hg.
  - discriminate.
  - destruct (keqb k k') eqn:Hk.
    + apply keqb_eq in Hk. injection Hg as ->. subst. left. reflexivity.
    + right. apply IH. exact Hg.
Qed.

Lemma dget_None_notin (k : K) (d : dict K V) : dget k d = None <-> ~ In k (dkeys d).
Proof.
  induction d as [|[k' v'] d IH]; simpl.
  - split; [intros _ [] | reflexivity].
  - destruct (keqb k k') eqn:Hk.
    + apply keqb_eq in Hk. subst. split; [discriminate|]. intros Hn. exfalso. apply Hn. left. reflexivity.
    + apply keqb_neq in Hk. rewrite IH. split.
      * intros Hn [Heq|Hin]; [congruence | contradiction].
      * intros Hn Hin. apply Hn. right. exact Hin.
Qed.

Lemma dkeys_dset (k : K) (v : V) (d : dict K V) :
  dkeys (dset k v d) = if dmem k d then dkeys d else dkeys d ++ [k].
Proof.
  unfold dmem. induction d as [|[k' v'] d IH]; simpl.
  - reflexivity.
  - destruct (keqb k k') eqn:Hk; simpl.
    + reflexivity.
    + rewrite IH. destruct (dget k d); reflexivity.
Qed.

(** A loop that assigns a value at a key per element. *)
Lemma dget_fold_dset_notin {A : Type} (key : A -> K) (val : A -> V) (l : list A)
    (k : K) (d : dict K V) :
  ~ In k (map key l) ->
  dget k (fold_left (fun d a => dset (key a) (val a) d) l d) = dget k d.
Proof.
  revert d. induction l as [|a l IH]; simpl; intros d Hn.
  - reflexivity.
  - rewrite IH by (intros Hin; apply Hn; right; exact Hin).
    apply dget_dset_other. intros Heq. apply Hn. left. symmetry. exact Heq.
Qed.

Lemma dget_fold_dset {A : Type} (key : A -> K) (val : A -> V) (l : list A)
    (a : A) (d : dict K V) :
  NoDup (map key l) -> In a l ->
  dget (key a) (fold_left (fun d a => dset (key a) (val a) d) l d) = Some (val a).
Proof.
  revert d. induction l as [|b l IH]; simpl; intros d Hnd Hin.
  - contradiction.
  - inversion Hnd as [|? ? Hnotin Hnd']; subst.
    destruct Hin as [->|Hin].
    + rewrite dget_fold_dset_notin by exact Hnotin. apply dget_dset_same.
    + apply IH; assumption.
Qed.

End DictFacts.

(** ** The owner key gate, in full *)

(** [str.strip] removes Unicode white space, and only at the ends. *)
Example strip_examples :
  strip (" 0a0b" ++ str_of_codes [ 0xC2; 0xA0; 10 ])%string = "0a0b"%string
  /\ strip (str_of_codes [ 0xE2; 0x80; 0x83; 0xE3; 0x80; 0x80; 0xC2; 0x85; 0x1F ]) = EmptyString
  /\ strip "0a 0b"%string = "0a 0b"%string
  /\ strip (str_of_codes [ 0xE2; 0x80; 0x8B; 0x30 ]) = str_of_codes [ 0xE2; 0x80; 0x8B; 0x30 ]
  /\ strip (str_of_codes [ 0x30; 0xC3; 0xA0 ]) = str_of_codes [ 0x30; 0xC3; 0xA0 ].
Proof. repeat split; vm_compute; reflexivity. Qed.

(** A configured key followed by a no-break space is the key: a payload
    that declares it, in upper case, decrypts. *)
Example owner_key_with_no_break_space :
  configured_owner_pk_hex ex_cfg_nbsp = "0a0b"%string
  /\ _decrypt_v2_payload ex_cfg_nbsp ex_E ex_payload_upper_owner (Some ex_sig)
     = Ret (Some [x7b; x7d]).
Proof. split; vm_compute; reflexivity. Qed.

(** After the comparison, the body reads no [owner_pk] of the payload. *)
Lemma getitem_beside_owner_pk (d : list (string * pyval)) (x : pyval) (k : string) :
  k <> "owner_pk"%string ->
  py_getitem (PDict (dset "owner_pk"%string x d)) k = py_getitem (PDict d) k.
Proof. intros Hne. cbn [py_getitem]. rewrite dget_dset_other by exact Hne. reflexivity. Qed.

Lemma hex_at_beside_owner_pk (d : list (string * pyval)) (x : pyval) (a b : string) :
  a <> "owner_pk"%string ->
  hex_at (PDict (dset "owner_pk"%string x d)) a b = hex_at (PDict d) a b.
Proof. intros Hne. unfold hex_at. rewrite getitem_beside_owner_pk by exact Hne. reflexivity. Qed.

Lemma after_binding_beside_owner_pk (E : Externals) (d : list (string * pyval)) (x : pyval)
    (sigb owner_pk pke binding : bytes) :
  v2_after_binding E (PDict (dset "owner_pk"%string x d)) sigb owner_pk pke binding
  = v2_after_binding E (PDict d) sigb owner_pk pke binding.
Proof.
  unfold v2_after_binding. rewrite !hex_at_beside_owner_pk by discriminate. reflexivity.
Qed.

(** A payload that passes the comparison is decrypted as the payload that
    declares the configured key itself. *)
Lemma decrypt_with_configured_key (cfg : Config) (E : Externals) (d : list (string * pyval))
    (sig : option bytes) :
  owner_pk_differs E (match dget "owner_pk"%string d with Some v => v | None => PNone end)
                   (configured_owner_pk_hex cfg) = false ->
  _decrypt_v2_payload cfg E (PDict d) sig
  = _decrypt_v2_payload cfg E
      (PDict (dset "owner_pk"%string (PStr (configured_owner_pk_hex cfg)) d)) sig.
Proof.
  intros Hpass. unfold _decrypt_v2_payload. f_equal. unfold _decrypt_v2_body.
  destruct sig as [[|s0 sigb]|]; try reflexivity.
  destruct (String.eqb (configured_owner_pk_hex cfg) EmptyString); [reflexivity|].
  cbn [py_get bind]. rewrite dget_dset_same, Hpass. cbn [owner_pk_differs].
  rewrite String.eqb_refl. cbn [negb].
  destruct (fromhex (configured_owner_pk_hex cfg)) as [owner_pk|e]; [|reflexivity].
  cbn [bind]. rewrite hex_at_beside_owner_pk by discriminate.
  destruct (hex_at (PDict d) "W_owner" "pke") as [pke|e]; [|reflexivity]. cbn [bind].
  unfold binding_context, declared_binding. rewrite !getitem_beside_owner_pk by discriminate.
  destruct (hk_v <- py_getitem (PDict d) "hk" ;;
            rnd_v <- py_getitem (PDict d) "round" ;;
            rnd <- py_int E rnd_v ;; hk <- as_str hk_v ;; Ret (hk, rnd)) as [ctx|e];
    [|reflexivity].
  cbn [bind].
  destruct (b <- py_getitem (PDict d) "binding" ;; py_fromhex b) as [declared|e];
    [|reflexivity].
  cbn [bind].
  destruct (negb (bytes_eqb (_binding (fst ctx) (snd ctx) owner_pk pke) declared));
    [reflexivity|].
  symmetry. apply after_binding_beside_owner_pk.
Qed.

(** C5, amended.  V2 decryption returns [None] whenever no owner key is
    configured (the attribute unset, empty or blank), and whenever the
    payload's [owner_pk] is a string that differs, letter case aside, from
    the configured key with its surrounding white space removed.  A
    payload whose [owner_pk] is missing or is not a string is not
    compared: it is decrypted with the configured key, with the result of
    the same payload declaring that key; and so is one whose [owner_pk]
    is the key in another letter case. *)
Theorem owner_key_gate (cfg : Config) (E : Externals) (payload : pyval) (sig : option bytes) :
  (OWNER_HPKE_PUBLIC_KEY_HEX cfg = None -> _decrypt_v2_payload cfg E payload sig = Ret None)
  /\ (forall k, OWNER_HPKE_PUBLIC_KEY_HEX cfg = Some k -> strip k = EmptyString ->
                _decrypt_v2_payload cfg E payload sig = Ret None)
  /\ (forall k s, OWNER_HPKE_PUBLIC_KEY_HEX cfg = Some k ->
                  py_get payload "owner_pk" PNone = Ret (PStr s) ->
                  str_lower E s <> str_lower E (strip k) ->
                  _decrypt_v2_payload cfg E payload sig = Ret None)
  /\ (forall d, payload = PDict d ->
        dget "owner_pk"%string d = None
        \/ (exists v, dget "owner_pk"%string d = Some v /\ forall s, v <> PStr s) ->
        _decrypt_v2_payload cfg E payload sig
        = _decrypt_v2_payload cfg E
            (PDict (dset "owner_pk"%string (PStr (configured_owner_pk_hex cfg)) d)) sig)
  /\ (forall d s, payload = PDict d ->
        dget "owner_pk"%string d = Some (PStr s) ->
        str_lower E s = str_lower E (configured_owner_pk_hex cfg) ->
        _decrypt_v2_payload cfg E payload sig
        = _decrypt_v2_payload cfg E
            (PDict (dset "owner_pk"%string (PStr (configured_owner_pk_hex cfg)) d)) sig).
Proof.
  split; [|split; [|split; [|split]]].
  - intros Hnone. apply owner_gate_unconfigured.
    unfold configured_owner_pk_hex. rewrite Hnone. reflexivity.
  - intros k Hk Hblank. apply owner_gate_unconfigured.
    unfold configured_owner_pk_hex. rewrite Hk. exact Hblank.
  - intros k s Hk Hown Hdiff.
    unfold _decrypt_v2_payload, _decrypt_v2_body, configured_owner_pk_hex.
    rewrite Hk. destruct sig as [[|s0 sigb]|]; try reflexivity.
    destruct (String.eqb (strip k) EmptyString); [reflexivity|].
    rewrite Hown. cbn [bind owner_pk_differs].
    apply String.eqb_neq in Hdiff. rewrite Hdiff. reflexivity.
  - intros d -> Hown. apply decrypt_with_configured_key.
    destruct Hown as [-> | (v & -> & Hv)]; [reflexivity|].
    destruct v; try reflexivity. exfalso. exact (Hv s eq_refl).
  - intros d s -> Hown Hsame. apply decrypt_with_configured_key.
    rewrite Hown. cbn [owner_pk_differs]. rewrite Hsame, String.eqb_refl. reflexivity.
Qed.


(** ** The submission validator *)

Lemma len_repeat {A : Type} (x : A) (d : Z) : 0 <= d -> len (repeat x (Z.to_nat d)) = d.
Proof. intros Hd. unfold len. rewrite repeat_length. lia. Qed.

Lemma zero_vecs_get (cfg : Config) (c : Challenge) :
  NoDup (map c_ticker (CHALLENGES cfg)) -> In c (CHALLENGES cfg) ->
  dget (c_ticker c) (_zero_vecs cfg) = Some (repeat (PFloat 0) (Z.to_nat (c_dim c))).
Proof.
  intros Hnd Hin. unfold _zero_vecs.
  apply (dget_fold_dset c_ticker (fun c => repeat (PFloat 0) (Z.to_nat (c_dim c)))); assumption.
Qed.

Lemma float_of_number_in_range (v : pyval) :
  is_number v && in_unit_range v = true -> exists f, float_of_number v = Ret f.
Proof.
  destruct v as [|b|z|f|s|l|d]; simpl; try discriminate; intros Hr.
  - eexists. reflexivity.
  - apply andb_true_iff in Hr. destruct Hr as [Hlo Hhi].
    apply Z.leb_le in Hlo, Hhi.
    assert (z = -1 \/ z = 0 \/ z = 1) as [->|[->| ->]] by lia; eexists; vm_compute; reflexivity.
  - eexists. reflexivity.
Qed.

Lemma mapM_float_total (l : list pyval) :
  all_in_range l = true ->
  exists fl, mapM float_of_number l = Ret fl /\ List.length fl = List.length l.
Proof.
  unfold all_in_range. induction l as [|v l IH]; simpl; intros Hall.
  - exists []. split; reflexivity.
  - apply andb_true_iff in Hall. destruct Hall as [Hv Hl].
    destruct (float_of_number_in_range v Hv) as [f Hf].
    destruct (IH Hl) as (fl & Hfl & Hlen).
    exists (f :: fl). rewrite Hf, Hfl. simpl. split; [reflexivity | congruence].
Qed.

(** What the validator promises of the vector [vec] it returns for the
    challenge [c] on the input [sub]. *)
Definition vector_ok (cfg : Config) (sub : pyval) (c : Challenge) (vec : list pyval) : Prop :=
  len vec = c_dim c
  /\ (vec = repeat (PFloat 0) (Z.to_nat (c_dim c))
      \/ exists l, supplied_for cfg sub c l /\ len l = c_dim c /\ all_in_range l = true
                   /\ (vec = l \/ as_floats l vec)).

Definition vectors_ok (cfg : Config) (sub : pyval) (out : dict string (list pyval)) : Prop :=
  forall c, In c (CHALLENGES cfg) ->
            exists vec, dget (c_ticker c) out = Some vec /\ vector_ok cfg sub c vec.

Lemma zero_vecs_ok (cfg : Config) (sub : pyval) :
  config_wf cfg -> vectors_ok cfg sub (_zero_vecs cfg).
Proof.
  intros [Hnd Hdim _] c Hc. eexists. split; [apply zero_vecs_get; assumption|].
  split; [apply len_repeat; auto | left; reflexivity].
Qed.

Lemma validate_entry_ok (cfg : Config) (d : list (string * pyval))
    (out : dict string (list pyval)) (kv : string * pyval) :
  config_wf cfg -> In kv d -> vectors_ok cfg (PDict d) out ->
  exists out', validate_entry cfg out kv = Ret out' /\ vectors_ok cfg (PDict d) out'.
Proof.
  intros Hwf Hin Hout. destruct kv as [key vec]. unfold validate_entry.
  assert (exists out', Ret out = Ret out' /\ vectors_ok cfg (PDict d) out') as Hskip
    by (exists out; split; [reflexivity | exact Hout]).
  destruct (String.eqb key "hotkey") eqn:Hhot; [exact Hskip|].
  destruct (resolve_ticker cfg key) as [t|] eqn:Hres; [|exact Hskip].
  destruct (String.eqb t EmptyString); [exact Hskip|].
  destruct vec as [|b|z|f|s|l|dd]; try exact Hskip.
  destruct (dget t (ASSET_EMBEDDING_DIMS cfg)) as [dm|] eqn:Hdm; [|exact Hskip].
  destruct (len l =? dm) eqn:Hlen; [|exact Hskip]. cbn [negb].
  destruct (all_in_range l) eqn:Hall; [|exact Hskip]. cbn [negb].
  destruct (mapM_float_total l Hall) as (fl & Hfl & Hfllen).
  rewrite Hfl. cbn [bind]. exists (dset t (map PFloat fl) out). split; [reflexivity|].
  apply Z.eqb_eq in Hlen. apply String.eqb_neq in Hhot.
  intros c Hc. destruct (String.eqb (c_ticker c) t) eqn:Hct.
  - apply String.eqb_eq in Hct. subst t.
    rewrite dget_dset_same. exists (map PFloat fl). split; [reflexivity|].
    assert (dm = c_dim c) as -> by (eapply wf_dims; eauto).
    split.
    + unfold len in *. rewrite length_map. congruence.
    + right. exists l. split; [|split; [exact Hlen|split; [exact Hall|]]].
      * simpl. exists key. auto.
      * right. exists fl. auto.
  - apply String.eqb_neq in Hct. rewrite dget_dset_other by exact Hct. apply Hout. exact Hc.
Qed.

Lemma validate_dict_ok (cfg : Config) (d rest : list (string * pyval))
    (out : dict string (list pyval)) :
  config_wf cfg -> incl rest d -> vectors_ok cfg (PDict d) out ->
  exists out', foldM (validate_entry cfg) rest out = Ret out' /\ vectors_ok cfg (PDict d) out'.
Proof.
  intros Hwf. revert out. induction rest as [|kv rest IH]; simpl; intros out Hincl Hout.
  - eauto.
  - destruct (validate_entry_ok cfg d out kv Hwf (Hincl kv (or_introl eq_refl)) Hout)
      as (out1 & Hstep & Hout1).
    rewrite Hstep. cbn [bind]. apply IH; [|exact Hout1].
    intros x Hx. apply Hincl. right. exact Hx.
Qed.

Lemma validate_list_ok (cfg : Config) (s : list pyval) :
  config_wf cfg -> List.length s = List.length (CHALLENGES cfg) ->
  vectors_ok cfg (PList s) (validate_list s (CHALLENGES cfg)).
Proof.
  intros [Hnd Hdim _] Hlen c Hc.
  destruct (In_nth_error _ _ Hc) as [i Hi].
  assert (exists v, nth_error s i = Some v) as [v Hv].
  { destruct (nth_error s i) eqn:Hs; [eauto|].
    apply nth_error_None in Hs. assert (i < List.length (CHALLENGES cfg))%nat.
    { apply nth_error_Some. congruence. }
    lia. }
  assert (In (v, c) (combine s (CHALLENGES cfg))) as Hvc.
  { clear -Hi Hv. revert s i Hi Hv. induction (CHALLENGES cfg) as [|c0 cs IH]; intros s i Hi Hv.
    - destruct i; discriminate.
    - destruct s as [|v0 s]; [destruct i; discriminate|].
      destruct i as [|i]; simpl in *.
      + left. congruence.
      + right. eapply IH; eauto. }
  unfold validate_list.
  pose proof (dget_fold_dset (fun vc : pyval * Challenge => c_ticker (snd vc))
                (fun vc => positional_vector (fst vc) (c_dim (snd vc)))
                (combine s (CHALLENGES cfg)) (v, c) []) as Hget.
  simpl in Hget. rewrite Hget; [| |exact Hvc].
  - eexists. split; [reflexivity|]. unfold positional_vector.
    destruct v as [|b|z|f|st|l|dd];
      try (split; [apply len_repeat; auto | left; reflexivity]).
    destruct ((len l =? c_dim c) && all_in_range l) eqn:Hok.
    + apply andb_true_iff in Hok. destruct Hok as [Hl Hr]. apply Z.eqb_eq in Hl.
      split; [exact Hl|]. right. exists l. repeat split; auto.
      simpl. exists i. auto.
    + split; [apply len_repeat; auto | left; reflexivity].
  - rewrite <- (map_map snd c_ticker).
    replace (map snd (combine s (CHALLENGES cfg))) with (CHALLENGES cfg); [exact Hnd|].
    clear -Hlen. revert s Hlen. induction (CHALLENGES cfg) as [|c0 cs IH]; intros s Hlen.
    + destruct s; reflexivity.
    + destruct s as [|v0 s]; [discriminate|]. simpl. f_equal. apply IH. simpl in Hlen. lia.
Qed.

(** C4. The validator is total: on every input, under the assumptions on
    the configuration, [_validate_submission] returns (it raises nothing)
    a mapping that has every configured ticker, each with a vector of the
    configured dimension of its challenge; that vector is all zeros, unless
    the input supplies for this challenge a list of that length whose
    elements are all numbers in [-1, 1], in which case it may be that list
    (or its elements converted by [float]). *)
Theorem validate_submission_total (cfg : Config) (sub : pyval) :
  config_wf cfg ->
  exists out,
    _validate_submission cfg sub = Ret out
    /\ forall c, In c (CHALLENGES cfg) ->
         exists vec,
           dget (c_ticker c) out = Some vec
           /\ len vec = c_dim c
           /\ (vec = repeat (PFloat 0) (Z.to_nat (c_dim c))
               \/ exists l, supplied_for cfg sub c l /\ len l = c_dim c
                            /\ all_in_range l = true /\ (vec = l \/ as_floats l vec)).
Proof.
  intros Hwf. unfold _validate_submission.
  destruct sub as [|b|z|f|s|l|d];
    try (eexists; split; [reflexivity | apply (zero_vecs_ok cfg _ Hwf)]).
  - destruct (len l =? len (CHALLENGES cfg)) eqn:Hlen.
    + eexists. split; [reflexivity|]. apply validate_list_ok; [exact Hwf|].
      apply Z.eqb_eq in Hlen. unfold len in Hlen. lia.
    + eexists. split; [reflexivity | apply (zero_vecs_ok cfg _ Hwf)].
  - apply validate_dict_ok; [exact Hwf | apply incl_refl | apply zero_vecs_ok; exact Hwf].
Qed.

Lemma validate_submission_total_witness :
  exists out,
    _validate_submission ex_cfg ex_submission = Ret out
    /\ forall c, In c (CHALLENGES ex_cfg) ->
         exists vec,
           dget (c_ticker c) out = Some vec
           /\ len vec = c_dim c
           /\ (vec = repeat (PFloat 0) (Z.to_nat (c_dim c))
               \/ exists l, supplied_for ex_cfg ex_submission c l /\ len l = c_dim c
                            /\ all_in_range l = true /\ (vec = l \/ as_floats l vec)).
Proof.
  apply (validate_submission_total ex_cfg ex_submission).
  constructor; simpl.
  - constructor; [intros [] | constructor].
  - intros c [<-|[]]. simpl. lia.
  - intros c d [<-|[]]. simpl. intros Hd. injection Hd as <-. reflexivity.
Defined.

Example validate_keeps_valid_vector :
  _validate_submission ex_cfg ex_submission
  = Ret [ ("BTC"%string, [ PFloat 0.5; PInt (-1) ]) ].
Proof. vm_compute. reflexivity. Qed.

Example validate_zeroes_out_of_range :
  _validate_submission ex_cfg (PDict [ ("BTC-USD"%string, PList [ PFloat 0.5; PFloat 1.5 ]) ])
  = Ret [ ("BTC"%string, [ PFloat 0; PFloat 0 ]) ].
Proof. vm_compute. reflexivity. Qed.

Example validate_nan_rejected :
  _validate_submission ex_cfg (PDict [ ("BTC"%string, PList [ PFloat nan; PFloat 0 ]) ])
  = Ret [ ("BTC"%string, [ PFloat 0; PFloat 0 ]) ].
Proof. vm_compute. reflexivity. Qed.

(** ** A stateful computation that leaves a view of the state alone *)

Definition preserves {S T A : Type} (view : S -> T) (m : SE S A) : Prop :=
  forall s, view (snd (m s)) = view s.

Lemma preserves_sret {S T A : Type} (view : S -> T) (a : A) : preserves view (sret a).
Proof. intros s. reflexivity. Qed.

Lemma preserves_lift {S T A : Type} (view : S -> T) (r : res A) : preserves view (lift r).
Proof. intros s. reflexivity. Qed.

Lemma preserves_sbind {S T A B : Type} (view : S -> T) (m : SE S A) (k : A -> SE S B) :
  preserves view m -> (forall a, preserves view (k a)) -> preserves view (sbind m k).
Proof.
  intros Hm Hk s. unfold sbind. specialize (Hm s).
  destruct (m s) as [[a|e] s']; simpl in *.
  - rewrite Hk. exact Hm.
  - exact Hm.
Qed.

Lemma preserves_sfor {S T A : Type} (view : S -> T) (l : list A) (body : A -> SE S unit) :
  (forall x, preserves view (body x)) -> preserves view (sfor l body).
Proof.
  intros Hbody. induction l as [|x l IH]; simpl.
  - apply preserves_sret.
  - apply preserves_sbind; [apply Hbody | intros _; exact IH].
Qed.

(** ** The block sequence *)

Lemma append_step_blocks (cfg : Config) (E : Externals) (block : Z)
    (prices : dict string float) (payloads : dict string pyval) (hks : list string)
    (L : DataLog) :
  blocks (snd (append_step cfg E block prices payloads hks L)) = blocks L ++ [block].
Proof.
  unfold append_step, sbind, modify.
  match goal with |- context [sfor hks ?body ?s0] =>
    pose proof (preserves_sfor blocks hks body) as Hp; specialize (Hp
      ltac:(intros hk; apply preserves_sbind; [apply preserves_lift|];
            intros raw s; destruct (dget _ (raw_payloads s)); reflexivity) s0)
  end.
  etransitivity; [exact Hp|]. reflexivity.
Qed.

(** The write-back touches [challenges] only. *)
Lemma challenges_set_emb_frame {T : Type} (view : DataLog -> T) (t : string) (s : Z)
    (hk : string) (vec : list pyval) :
  (forall L c, view (with_challenges L c) = view L) ->
  preserves view (challenges_set_emb t s hk vec).
Proof.
  intros Hview L. unfold challenges_set_emb.
  destruct (dget t (challenges L)); [|reflexivity].
  destruct (set_emb s hk vec c). simpl. apply Hview.
Qed.

Lemma merge_dec_frame {T : Type} (view : DataLog -> T) (cfg : Config) (bl : list Z)
    (dec : dict nat (dict string vecs)) :
  (forall L c, view (with_challenges L c) = view L) ->
  preserves view (merge_dec cfg bl dec).
Proof.
  intros Hview. unfold merge_dec. apply preserves_sfor. intros entry.
  apply preserves_sbind; [apply preserves_lift|]. intros b.
  destruct (negb (b mod sample_every cfg =? 0)); [apply preserves_sret|].
  apply preserves_sfor. intros hv. unfold merge_vecs. apply preserves_sfor. intros tv.
  destruct (existsb ne_zero (snd tv));
    [apply challenges_set_emb_frame; exact Hview | apply preserves_sret].
Qed.

Lemma merge_dec_blocks (cfg : Config) (bl : list Z) (dec : dict nat (dict string vecs)) :
  preserves blocks (merge_dec cfg bl dec).
Proof. apply merge_dec_frame. reflexivity. Qed.

Lemma merge_dec_raw_payloads (cfg : Config) (bl : list Z) (dec : dict nat (dict string vecs)) :
  preserves raw_payloads (merge_dec cfg bl dec).
Proof. apply merge_dec_frame. reflexivity. Qed.

Lemma process_pending_blocks (cfg : Config) (E : Externals) :
  preserves (fun W => blocks (ledger W)) (process_pending_payloads cfg E).
Proof.
  intros W. unfold process_pending_payloads.
  destruct (raw_payloads (ledger W)); [reflexivity|].
  destruct (last (map Some (blocks (ledger W))) None); [|reflexivity].
  destruct (scan E (blocks (ledger W)) z (p :: d)) as [[[rounds mature] stats]|e]; [|reflexivity].
  destruct mature; [reflexivity|].
  destruct (sfor rounds _ _) as [r ws].
  destruct r as [u|e]; [|reflexivity].
  unfold sbind.
  pose proof (merge_dec_blocks cfg (blocks (ledger W)) (w_dec ws)
                (with_drand_cache (ledger W) (fst (w_beacon ws)))) as Hm.
  destruct (merge_dec cfg (blocks (ledger W)) (w_dec ws) _) as [[u'|e] L2]; simpl in *.
  - exact Hm.
  - exact Hm.
Qed.

Lemma run_op_blocks (cfg : Config) (E : Externals) (W : World) (o : op) :
  blocks (ledger (run_op cfg E W o)) = blocks (ledger W) ++ appended [o].
Proof.
  destruct o as [block prices payloads hks| |active]; simpl.
  - apply append_step_blocks.
  - rewrite app_nil_r. apply (process_pending_blocks cfg E W).
  - rewrite app_nil_r. reflexivity.
Qed.

Lemma run_ops_blocks (cfg : Config) (E : Externals) (ops : list op) (W : World) :
  blocks (ledger (run_ops cfg E ops W)) = blocks (ledger W) ++ appended ops.
Proof.
  unfold run_ops. revert W. induction ops as [|o ops IH]; intros W; simpl.
  - rewrite app_nil_r. reflexivity.
  - rewrite IH, run_op_blocks. rewrite <- app_assoc. f_equal.
    destruct o; reflexivity.
Qed.

(** C9, as stated, fails: [append_step] appends whatever block it is
    given, and a smaller block after a larger one leaves a list that is
    not strictly increasing. *)
Lemma blocks_not_increasing :
  blocks (ledger (run_ops ex_cfg ex_E [ OpAppend 500 [] [] []; OpAppend 300 [] [] [] ] ex_world))
  = [500; 300]
  /\ ~ StronglySorted Z.lt [500; 300].
Proof.
  split; [vm_compute; reflexivity|].
  intros Hs. inversion Hs as [|? ? _ Hall]; subst.
  inversion Hall as [|? ? Hlt _]; subst. lia.
Qed.

(** C9, amended.  The block list is only ever extended at its end: after
    any sequence of [append_step], [process_pending_payloads] and
    [prune_hotkeys] calls it is the list before, unchanged, followed by
    the block arguments of the [append_step] calls in order; it is then
    strictly increasing exactly when those arguments continue the list
    increasingly, which [append_step] does not check. *)
Theorem blocks_append_only (cfg : Config) (E : Externals) (ops : list op) (W : World) :
  blocks (ledger (run_ops cfg E ops W)) = blocks (ledger W) ++ appended ops
  /\ (forall ts b, nth_error (blocks (ledger W)) ts = Some b ->
                   nth_error (blocks (ledger (run_ops cfg E ops W))) ts = Some b)
  /\ (StronglySorted Z.lt (blocks (ledger (run_ops cfg E ops W)))
      <-> StronglySorted Z.lt (blocks (ledger W) ++ appended ops)).
Proof.
  pose proof (run_ops_blocks cfg E ops W) as Hb. split; [exact Hb|]. split.
  - intros ts b Hts. rewrite Hb. rewrite nth_error_app1; [exact Hts|].
    apply nth_error_Some. congruence.
  - rewrite Hb. reflexivity.
Qed.

(** ** Dataset construction *)

Example training_data_flat_price :
  exists row0 row1 idx y,
    get_training_data_sync ex_cfg None ex_ledger_flat_price
    = Ret [ ("BTC"%string, (([ row0; row1 ], idx), y)) ].
Proof. do 4 eexists. vm_compute. reflexivity. Qed.

(** C7, as stated, fails.  With a configured maximum of 0 the streak
    filter is off: the second of three samples at one price has a streak of
    1, above the maximum, and its row is emitted all the same.  And a NaN
    price, which is not strictly positive, does not make the price test
    skip the sample. *)
Lemma streak_above_zero_maximum_emitted :
  max_unchanged ex_cfg = 0
  /\ (exists st1 st2,
        sample_step ex_cfg ex_challenge [ "hk-1"%string ] loop_start 0 ex_sample = Ret st1
        /\ sample_step ex_cfg ex_challenge [ "hk-1"%string ] st1 1 ex_sample = Ret st2
        /\ ls_unchanged_streak st2 = 1
        /\ List.length (ls_X st1) = 1%nat
        /\ List.length (ls_X st2) = 2%nat)
  /\ (exists st1 st2,
        sample_step ex_cfg ex_challenge_nan [ "hk-1"%string ] loop_start 0 ex_sample = Ret st1
        /\ sample_step ex_cfg ex_challenge_nan [ "hk-1"%string ] st1 1 ex_sample_nan = Ret st2
        /\ PrimFloat.ltb 0 nan = false
        /\ List.length (ls_X st2) = 2%nat).
Proof.
  split; [reflexivity|]. split.
  - do 2 eexists. repeat split; vm_compute; reflexivity.
  - do 2 eexists. repeat split; vm_compute; reflexivity.
Qed.

(** One step of the loop on a sample that is to be left out, from any
    state: the step returns with [X] and [y] unchanged, the streak
    updated, and the loop goes on from there (or stops, at the block
    ceiling). *)
Lemma left_out_step (cfg : Config) (ch : ChallengeData) (all_hks : list string)
    (st : LoopState) (s : Z) (data : Sample) :
  left_out cfg ch st s data ->
  exists st',
    sample_step cfg ch all_hks st s data = Ret st'
    /\ ls_X st' = ls_X st
    /\ ls_y st' = ls_y st
    /\ (ls_prev_price st', ls_unchanged_streak st')
       = update_streak (price data) (ls_prev_price st) (ls_unchanged_streak st)
    /\ forall max_block_number rest,
         dataset_loop cfg ch all_hks max_block_number ((s, data) :: rest) st
         = if past_ceiling max_block_number (s * sample_every cfg) then Ret st
           else dataset_loop cfg ch all_hks max_block_number rest st'.
Proof.
  unfold left_out. intros Hout.
  assert (exists st',
             sample_step cfg ch all_hks st s data = Ret st'
             /\ ls_X st' = ls_X st /\ ls_y st' = ls_y st
             /\ (ls_prev_price st', ls_unchanged_streak st')
                = update_streak (price data) (ls_prev_price st) (ls_unchanged_streak st))
    as (st' & Hstep & HX & Hy & Hs).
  { unfold sample_step.
    destruct (update_streak (price data) (ls_prev_price st) (ls_unchanged_streak st))
      as [prev streak] eqn:Hu.
    cbn [snd] in Hout.
    destruct ((0 <? max_unchanged cfg) && (max_unchanged cfg <? streak)) eqn:Hf.
    { eexists. split; [reflexivity|]. repeat split. }
    destruct (dget (s + blocks_ahead ch / sample_every cfg) (sidx ch)) as [f|] eqn:Hfut;
      [|eexists; split; [reflexivity|]; repeat split].
    destruct (price data) as [p0|] eqn:Hp0; [|eexists; split; [reflexivity|]; repeat split].
    destruct (price f) as [p1|] eqn:Hp1; [|eexists; split; [reflexivity|]; repeat split].
    destruct (PrimFloat.leb p0 0 || PrimFloat.leb p1 0) eqn:Hle;
      [eexists; split; [reflexivity|]; repeat split|].
    exfalso. apply orb_false_iff in Hle. destruct Hle as [Hle0 Hle1].
    destruct Hout as [H1|[H2|[(f' & H3 & H3')|[(p & H4 & H4')|[(f' & p & H5 & H5' & H5'')|[H6 H6']]]]]].
    - discriminate.
    - discriminate.
    - injection H3 as <-. congruence.
    - injection H4 as <-. congruence.
    - injection H5 as <-. assert (p = p1) as -> by congruence. congruence.
    - apply Z.ltb_lt in H6, H6'. rewrite H6, H6' in Hf. discriminate. }
  exists st'. repeat split; try assumption.
  intros mb rest. cbn [dataset_loop]. rewrite Hstep. reflexivity.
Qed.

(** Every step, whatever it does with the sample, carries the streak on
    by [update_streak], and adds at most one row, with its label. *)
Lemma sample_step_effect (cfg : Config) (ch : ChallengeData) (all_hks : list string)
    (st st' : LoopState) (s : Z) (data : Sample) :
  sample_step cfg ch all_hks st s data = Ret st' ->
  (ls_prev_price st', ls_unchanged_streak st')
  = update_streak (price data) (ls_prev_price st) (ls_unchanged_streak st)
  /\ exists rows labels,
       ls_X st' = ls_X st ++ rows /\ ls_y st' = ls_y st ++ labels
       /\ List.length rows = List.length labels /\ (List.length rows <= 1)%nat.
Proof.
  unfold sample_step.
  destruct (update_streak (price data) (ls_prev_price st) (ls_unchanged_streak st))
    as [prev streak].
  assert (forall st0,
             Ret {| ls_X := ls_X st; ls_y := ls_y st;
                    ls_prev_price := prev; ls_unchanged_streak := streak |} = Ret st0 ->
             (ls_prev_price st0, ls_unchanged_streak st0) = (prev, streak)
             /\ exists rows labels,
                  ls_X st0 = ls_X st ++ rows /\ ls_y st0 = ls_y st ++ labels
                  /\ List.length rows = List.length labels /\ (List.length rows <= 1)%nat)
    as Hskip.
  { intros st0 Heq. injection Heq as <-. split; [reflexivity|].
    exists [], []. cbn [ls_X ls_y List.length]. rewrite !app_nil_r. auto. }
  destruct ((0 <? max_unchanged cfg) && (max_unchanged cfg <? streak)); [apply Hskip|].
  destruct (dget (s + blocks_ahead ch / sample_every cfg) (sidx ch)) as [f|]; [|apply Hskip].
  destruct (price data) as [p0|]; [|apply Hskip].
  destruct (price f) as [p1|]; [|apply Hskip].
  destruct (PrimFloat.leb p0 0 || PrimFloat.leb p1 0); [apply Hskip|].
  destruct (emb data) as [|kv l]; [apply Hskip|].
  destruct (build_row ch all_hks _) as [[mat any]|e]; cbn [bind]; [|discriminate].
  destruct (negb any); [apply Hskip|].
  intros Heq. injection Heq as <-. split; [reflexivity|].
  eexists [ _ ], [ _ ]. cbn [ls_X ls_y List.length]. auto.
Qed.

Definition streak_step (acc : option float * Z) (sd : Z * Sample) : option float * Z :=
  update_streak (price (snd sd)) (fst acc) (snd acc).

Lemma running_streak_snoc (pre : list (Z * Sample)) (s : Z) (data : Sample) :
  running_streak (pre ++ [ (s, data) ])
  = update_streak (price data) (fst (running_streak pre)) (snd (running_streak pre)).
Proof. unfold running_streak. rewrite fold_left_app. reflexivity. Qed.

(** The loop over samples within the ceiling: the streak of its final
    state is the fold of [update_streak] over all of them, emitted or
    not, and [X] and [y] have grown by at most one row per sample. *)
Lemma dataset_loop_effect (cfg : Config) (ch : ChallengeData) (all_hks : list string)
    (mb : option Z) (items : list (Z * Sample)) (st stf : LoopState) :
  dataset_loop cfg ch all_hks mb items st = Ret stf ->
  (exists rows labels,
      ls_X stf = ls_X st ++ rows /\ ls_y stf = ls_y st ++ labels
      /\ List.length rows = List.length labels
      /\ (List.length rows <= List.length items)%nat)
  /\ (within_ceiling cfg mb items ->
      (ls_prev_price stf, ls_unchanged_streak stf)
      = fold_left streak_step items (ls_prev_price st, ls_unchanged_streak st)).
Proof.
  revert st. induction items as [|[s data] items IH]; intros st Hrun; cbn [dataset_loop] in Hrun.
  - injection Hrun as <-. split; [|reflexivity].
    exists [], []. rewrite !app_nil_r. auto.
  - destruct (past_ceiling mb (s * sample_every cfg)) eqn:Hpast.
    + injection Hrun as <-. split.
      * exists [], []. rewrite !app_nil_r. cbn [List.length]. repeat split; lia.
      * intros Hin. specialize (Hin (s, data) (or_introl eq_refl)). cbn [fst] in Hin. congruence.
    + destruct (sample_step cfg ch all_hks st s data) as [st1|e] eqn:Hstep; [|discriminate].
      cbn [bind] in Hrun.
      destruct (sample_step_effect cfg ch all_hks st st1 s data Hstep)
        as (Hs1 & rows1 & labels1 & HX1 & Hy1 & Hl1 & Hle1).
      destruct (IH st1 Hrun) as ((rows & labels & HX & Hy & Hl & Hle) & Hstreak).
      split.
      * exists (rows1 ++ rows), (labels1 ++ labels).
        rewrite HX, HX1, Hy, Hy1, <- !app_assoc, !length_app. cbn [List.length].
        repeat split; lia.
      * intros Hin. cbn [fold_left]. unfold streak_step at 2. cbn [fst snd]. rewrite <- Hs1.
        apply Hstreak. intros sd Hsd. apply Hin. right. exact Hsd.
Qed.

Lemma dataset_loop_app (cfg : Config) (ch : ChallengeData) (all_hks : list string)
    (mb : option Z) (pre post : list (Z * Sample)) (st : LoopState) :
  within_ceiling cfg mb pre ->
  dataset_loop cfg ch all_hks mb (pre ++ post) st
  = (st' <- dataset_loop cfg ch all_hks None pre st ;; dataset_loop cfg ch all_hks mb post st').
Proof.
  revert st. induction pre as [|[s data] pre IH]; intros st Hin; [reflexivity|].
  pose proof (Hin (s, data) (or_introl eq_refl)) as Hs. cbn [fst] in Hs.
  cbn [app dataset_loop]. rewrite Hs.
  change (past_ceiling None (s * sample_every cfg)) with false. cbv iota.
  destruct (sample_step cfg ch all_hks st s data) as [st1|e]; cbn [bind]; [|reflexivity].
  apply IH. intros sd Hsd. apply Hin. right. exact Hsd.
Qed.

(** C7, amended.  When the loop of [get_training_data_sync] has run over
    the samples [pre] of a challenge, its streak is the running streak of
    all of them, emitted or not: 0 at a price that differs from the last
    one seen (or is the first), one more at an equal price, unchanged at a
    sample with no price; and it has at most one row per sample.  The
    next sample is carried into that streak whatever becomes of it.  It
    adds no row when its price, now or at the horizon, is missing or at
    most 0, or when the configured maximum is positive and its running
    streak is above it: the loop goes on with [X] and [y] as they were,
    so that every row of the result is a row of another sample.  Any
    other sample whose embeddings have a non-zero element adds its row;
    with a maximum of 0 or less the streak decides nothing. *)
Theorem excluded_samples_emit_no_row (cfg : Config) (ch : ChallengeData)
    (all_hks : list string) (pre : list (Z * Sample)) (st : LoopState) :
  dataset_loop cfg ch all_hks None pre loop_start = Ret st ->
  (ls_prev_price st, ls_unchanged_streak st) = running_streak pre
  /\ List.length (ls_X st) = List.length (ls_y st)
  /\ (List.length (ls_X st) <= List.length pre)%nat
  /\ (forall s data st',
        sample_step cfg ch all_hks st s data = Ret st' ->
        (ls_prev_price st', ls_unchanged_streak st') = running_streak (pre ++ [ (s, data) ]))
  /\ (forall s data,
        excluded cfg ch pre s data ->
        exists st',
          sample_step cfg ch all_hks st s data = Ret st'
          /\ ls_X st' = ls_X st /\ ls_y st' = ls_y st
          /\ forall mb post,
               within_ceiling cfg mb pre ->
               dataset_loop cfg ch all_hks mb (pre ++ (s, data) :: post) loop_start
               = (if past_ceiling mb (s * sample_every cfg) then Ret st
                  else dataset_loop cfg ch all_hks mb post st')
               /\ forall stf,
                    dataset_loop cfg ch all_hks mb (pre ++ (s, data) :: post) loop_start
                    = Ret stf ->
                    exists rows labels,
                      ls_X stf = ls_X st ++ rows /\ ls_y stf = ls_y st ++ labels
                      /\ List.length rows = List.length labels
                      /\ (List.length rows <= List.length post)%nat)
  /\ (forall s data mat,
        ~ excluded cfg ch pre s data ->
        emb data <> [] ->
        build_row ch all_hks data = Ret (mat, true) ->
        exists st' label,
          sample_step cfg ch all_hks st s data = Ret st'
          /\ ls_X st' = ls_X st ++ [ List.concat mat ]
          /\ ls_y st' = ls_y st ++ [ label ])
  /\ (max_unchanged cfg <= 0 ->
      forall pre' s data, excluded cfg ch pre s data -> excluded cfg ch pre' s data).
Proof.
  intros Hrun.
  destruct (dataset_loop_effect cfg ch all_hks None pre loop_start st Hrun)
    as ((rows0 & labels0 & HX0 & Hy0 & Hl0 & Hle0) & Hstreak).
  specialize (Hstreak ltac:(intros sd _; reflexivity)).
  cbn [loop_start ls_X ls_y ls_prev_price ls_unchanged_streak app] in HX0, Hy0, Hstreak.
  assert ((ls_prev_price st, ls_unchanged_streak st) = running_streak pre) as Hst
    by exact Hstreak.
  assert (forall s data,
             update_streak (price data) (ls_prev_price st) (ls_unchanged_streak st)
             = running_streak (pre ++ [ (s, data) ])) as Hnext.
  { intros s data. rewrite running_streak_snoc, <- Hst. reflexivity. }
  split; [exact Hst|]. split; [rewrite HX0, Hy0; exact Hl0|].
  split; [rewrite HX0; exact Hle0|]. split; [|split; [|split]].
  - intros s data st' Hstep. rewrite <- Hnext.
    exact (proj1 (sample_step_effect cfg ch all_hks st st' s data Hstep)).
  - intros s data Hex.
    assert (left_out cfg ch st s data) as Hout.
    { unfold left_out. cbv zeta. rewrite (Hnext s data). exact Hex. }
    destruct (left_out_step cfg ch all_hks st s data Hout)
      as (st' & Hstep & HX & Hy & _ & Hloop).
    exists st'. split; [exact Hstep|]. split; [exact HX|]. split; [exact Hy|].
    intros mb post Hin.
    assert (dataset_loop cfg ch all_hks mb (pre ++ (s, data) :: post) loop_start
            = (if past_ceiling mb (s * sample_every cfg) then Ret st
               else dataset_loop cfg ch all_hks mb post st')) as Hwhole.
    { rewrite (dataset_loop_app cfg ch all_hks mb pre _ loop_start Hin), Hrun. cbn [bind].
      apply Hloop. }
    split; [exact Hwhole|].
    intros stf Hf. rewrite Hwhole in Hf.
    destruct (past_ceiling mb (s * sample_every cfg)).
    + injection Hf as <-. exists [], []. rewrite !app_nil_r. cbn [List.length].
      repeat split; lia.
    + destruct (dataset_loop_effect cfg ch all_hks mb post st' stf Hf)
        as ((rows & labels & HXf & Hyf & Hlf & Hlef) & _).
      exists rows, labels. rewrite HXf, Hyf, HX, Hy. auto.
  - intros s data mat Hnot Hemb Hrow. unfold excluded in Hnot. cbv zeta in Hnot.
    rewrite <- (Hnext s data) in Hnot. unfold sample_step.
    destruct (update_streak (price data) (ls_prev_price st) (ls_unchanged_streak st))
      as [prev streak]. cbn [snd] in Hnot.
    destruct ((0 <? max_unchanged cfg) && (max_unchanged cfg <? streak)) eqn:Hf.
    { exfalso. apply Hnot. apply andb_true_iff in Hf. destruct Hf as [H1 H2].
      apply Z.ltb_lt in H1, H2. do 5 right. auto. }
    destruct (dget (s + blocks_ahead ch / sample_every cfg) (sidx ch)) as [f|];
      [|exfalso; apply Hnot; right; left; reflexivity].
    destruct (price data) as [p0|]; [|exfalso; apply Hnot; left; reflexivity].
    destruct (price f) as [p1|] eqn:Hp1;
      [|exfalso; apply Hnot; right; right; left; exists f; auto].
    destruct (PrimFloat.leb p0 0) eqn:H0;
      [exfalso; apply Hnot; right; right; right; left; exists p0; auto|].
    destruct (PrimFloat.leb p1 0) eqn:H1;
      [exfalso; apply Hnot; right; right; right; right; left; exists f, p1; auto|].
    cbn [orb]. destruct (emb data) as [|kv l]; [contradiction|].
    rewrite Hrow. cbn [bind negb]. eexists. eexists. split; [reflexivity|].
    cbn [ls_X ls_y]. split; reflexivity.
  - intros Hmax pre' s data Hex. unfold excluded in *. cbv zeta in *.
    destruct Hex as [H|[H|[H|[H|[H|[H _]]]]]]; [auto | auto | auto | auto 6 | auto 6 | lia].
Qed.

Lemma excluded_samples_emit_no_row_witness :
  exists st,
    dataset_loop ex_cfg_streak ex_challenge_long [ "hk-1"%string ] None
                 [ (0, ex_sample); (1, ex_sample) ] loop_start = Ret st
    /\ List.length (ls_X st) = 2%nat
    /\ running_streak [ (0, ex_sample); (1, ex_sample) ] = (Some 1%float, 1)
    /\ max_unchanged ex_cfg_streak = 1
    /\ (exists f, dget 3 (sidx ex_challenge_long) = Some f /\ price f = Some 1%float)
    /\ excluded ex_cfg_streak ex_challenge_long [ (0, ex_sample); (1, ex_sample) ] 2 ex_sample
    /\ exists st',
         sample_step ex_cfg_streak ex_challenge_long [ "hk-1"%string ] st 2 ex_sample = Ret st'
         /\ ls_X st' = ls_X st /\ ls_y st' = ls_y st
         /\ ls_unchanged_streak st' = 2.
Proof.
  destruct (dataset_loop ex_cfg_streak ex_challenge_long [ "hk-1"%string ] None
                         [ (0, ex_sample); (1, ex_sample) ] loop_start) as [st|e] eqn:Hrun;
    [|vm_compute in Hrun; discriminate].
  assert (excluded ex_cfg_streak ex_challenge_long [ (0, ex_sample); (1, ex_sample) ] 2
                   ex_sample) as Hex.
  { unfold excluded. do 5 right. vm_compute. split; reflexivity. }
  destruct (excluded_samples_emit_no_row ex_cfg_streak ex_challenge_long [ "hk-1"%string ]
              [ (0, ex_sample); (1, ex_sample) ] st Hrun)
    as (_ & _ & _ & Hcarry & Hout & _).
  destruct (Hout 2 ex_sample Hex) as (st' & Hstep & HX & Hy & _).
  exists st. split; [reflexivity|].
  split; [vm_compute in Hrun; injection Hrun as <-; reflexivity|].
  split; [vm_compute; reflexivity|]. split; [reflexivity|].
  split; [eexists; split; vm_compute; reflexivity|]. split; [exact Hex|].
  exists st'. split; [exact Hstep|]. split; [exact HX|]. split; [exact Hy|].
  pose proof (Hcarry 2 ex_sample st' Hstep) as Hc.
  assert (running_streak ([ (0, ex_sample); (1, ex_sample) ] ++ [ (2, ex_sample) ])
          = (Some 1%float, 2)) as Hr by (vm_compute; reflexivity).
  rewrite Hr in Hc. injection Hc as _ Hc. exact Hc.
Defined.

(** ** Loops in the state-and-exception monad *)

Lemma sfor_app {S A : Type} (l1 l2 : list A) (body : A -> SE S unit) (s : S) :
  sfor (l1 ++ l2) body s = sbind (sfor l1 body) (fun _ => sfor l2 body) s.
Proof.
  revert s. induction l1 as [|x l1 IH]; intros s; simpl.
  - reflexivity.
  - unfold sbind. destruct (body x s) as [[u|e] s1]; [|reflexivity].
    rewrite IH. reflexivity.
Qed.

Lemma sfor_ext {S A : Type} (l : list A) (b1 b2 : A -> SE S unit) :
  (forall x s, In x l -> b1 x s = b2 x s) -> forall s, sfor l b1 s = sfor l b2 s.
Proof.
  induction l as [|x l IH]; intros Hb s; simpl.
  - reflexivity.
  - unfold sbind. rewrite Hb by (left; reflexivity).
    destruct (b2 x s) as [[u|e] s1]; [|reflexivity].
    apply IH. intros y s' Hy. apply Hb. right. exact Hy.
Qed.

Lemma sfor_flat_map {S A B : Type} (f : A -> list B) (l : list A) (body : B -> SE S unit)
    (s : S) :
  sfor l (fun x => sfor (f x) body) s = sfor (flat_map f l) body s.
Proof.
  revert s. induction l as [|x l IH]; intros s; simpl.
  - reflexivity.
  - rewrite sfor_app. unfold sbind.
    destruct (sfor (f x) body s) as [[u|e] s1]; [apply IH | reflexivity].
Qed.

Lemma sfor_filter_map {S A B : Type} (p : A -> bool) (g : A -> B) (l : list A)
    (body : B -> SE S unit) (s : S) :
  sfor l (fun x => if p x then body (g x) else sret tt) s = sfor (map g (filter p l)) body s.
Proof.
  revert s. induction l as [|x l IH]; intros s; simpl.
  - reflexivity.
  - destruct (p x); simpl.
    + unfold sbind. destruct (body (g x) s) as [[u|e] s1]; [apply IH | reflexivity].
    + unfold sbind. simpl. apply IH.
Qed.

(** ** The write-back of decrypted vectors *)

Lemma merge_vecs_flat (s : Z) (hv : string * vecs) (L : DataLog) :
  merge_vecs s (fst hv) (snd hv) L = sfor (vecs_writes s hv) apply_write L.
Proof.
  unfold merge_vecs, vecs_writes.
  rewrite <- (sfor_filter_map (fun tv : string * list pyval => existsb ne_zero (snd tv))
                (fun tv : string * list pyval => (fst tv, s, fst hv, snd tv))).
  reflexivity.
Qed.

Lemma merge_dec_flat (cfg : Config) (bl : list Z) (dec : dict nat (dict string vecs)) :
  (forall entry, In entry dec -> exists b, nth_error bl (fst entry) = Some b) ->
  forall L, merge_dec cfg bl dec L = sfor (merge_writes cfg bl dec) apply_write L.
Proof.
  intros Hin L. unfold merge_dec, merge_writes.
  rewrite <- sfor_flat_map. apply sfor_ext. intros entry L' Hentry.
  destruct (Hin entry Hentry) as [b Hb].
  unfold entry_writes, block_at, sbind, lift. rewrite Hb.
  destruct (b mod sample_every cfg =? 0); simpl; [|reflexivity].
  rewrite <- sfor_flat_map. apply sfor_ext. intros hv L'' _. apply merge_vecs_flat.
Qed.

Lemma in_merge_writes (cfg : Config) (bl : list Z) (dec : dict nat (dict string vecs))
    (t : string) (s : Z) (hk : string) (vec : list pyval) :
  In (t, s, hk, vec) (merge_writes cfg bl dec) <-> nonzero_aligned cfg bl dec t s hk vec.
Proof.
  unfold merge_writes, nonzero_aligned. rewrite in_flat_map. split.
  - intros ([ts by_hk] & Hentry & Hw). unfold entry_writes in Hw. simpl in Hw.
    destruct (nth_error bl ts) as [b|] eqn:Hb; [|contradiction].
    destruct (b mod sample_every cfg =? 0) eqn:Hal; [|contradiction].
    apply in_flat_map in Hw. destruct Hw as ([hk' vs] & Hhv & Hw).
    unfold vecs_writes in Hw. apply in_map_iff in Hw.
    destruct Hw as ([t' vec'] & Heq & Hf). apply filter_In in Hf. destruct Hf as [Htv Hnz].
    simpl in *. injection Heq as Ht Hs Hhk Hvec. subst t' hk' vec' s.
    exists ts, by_hk, vs, b. apply Z.eqb_eq in Hal. auto 10.
  - intros (ts & by_hk & vs & b & Hentry & Hhv & Htv & Hb & Hal & -> & Hnz).
    exists (ts, by_hk). split; [exact Hentry|].
    unfold entry_writes. simpl. rewrite Hb. apply Z.eqb_eq in Hal. rewrite Hal.
    apply in_flat_map. exists (hk, vs). split; [exact Hhv|].
    unfold vecs_writes. apply in_map_iff. exists (t, vec). split; [reflexivity|].
    apply filter_In. auto.
Qed.

(** One [set_emb] call on a ticker of the ledger, with a vector that
    converts: it stores the converted vector for that hotkey, and nothing
    else among the embeddings changes. *)
Lemma apply_write_effect (t : string) (s : Z) (hk : string) (vec : list pyval)
    (arr : list f16) (L : DataLog) :
  dmem t (challenges L) = true ->
  np_array_f16 vec = Ret arr ->
  exists L',
    apply_write (t, s, hk, vec) L = (Ret tt, L')
    /\ emb_at L' t s hk = Some arr
    /\ (forall t' s' hk', write_key_eqb (t, s, hk, vec) t' s' hk' = false ->
                          emb_at L' t' s' hk' = emb_at L t' s' hk')
    /\ (forall t', dmem t' (challenges L') = dmem t' (challenges L)).
Proof.
  intros Hmem Harr. unfold apply_write, challenges_set_emb, dmem in *.
  destruct (dget t (challenges L)) as [ch|] eqn:Hch; [|discriminate].
  unfold set_emb, dsetdefault. rewrite Harr.
  set (old := match dget s (sidx ch) with Some d => d | None => empty_sample end).
  set (sx := match dget s (sidx ch) with Some _ => sidx ch | None => dset s empty_sample (sidx ch) end).
  set (d' := {| hotkeys := if hk_in hk (hotkeys old) then hotkeys old else hotkeys old ++ [hk];
                price := price old; emb := dset hk arr (emb old) |}).
  assert (forall s', s' <> s -> dget s' (dset s d' sx) = dget s' (sidx ch)) as Hother.
  { intros s' Hs. rewrite dget_dset_other by exact Hs. unfold sx.
    destruct (dget s (sidx ch)); [reflexivity | apply dget_dset_other; exact Hs]. }
  assert (dget hk (emb d') = Some arr) as Hsame by (apply dget_dset_same).
  assert (forall k, k <> hk -> dget k (emb d') = match dget s (sidx ch) with
                                                  | Some d => dget k (emb d)
                                                  | None => None
                                                  end) as Hdiff.
  { intros k Hne. simpl. rewrite dget_dset_other by exact Hne. unfold old.
    destruct (dget s (sidx ch)); reflexivity. }
  exists (with_challenges L (dset t (with_sidx ch (dset s d' sx)) (challenges L))).
  split.
  { unfold old, sx, d'. destruct (dget s (sidx ch)); reflexivity. }
  split.
  { unfold emb_at, sample_at. simpl. rewrite dget_dset_same. simpl.
    rewrite dget_dset_same. exact Hsame. }
  split.
  { intros t' s' hk' Hkey. unfold write_key_eqb in Hkey.
    unfold emb_at, sample_at. simpl.
    destruct (String.eqb_spec t t') as [Ht|Ht].
    - subst t'. rewrite dget_dset_same, Hch. simpl.
      destruct (Z.eqb_spec s s') as [Hs|Hs].
      + subst s'. rewrite dget_dset_same.
        destruct (String.eqb_spec hk hk') as [Hk|Hk]; [discriminate Hkey|].
        rewrite Hdiff by congruence. destruct (dget s (sidx ch)); reflexivity.
      + rewrite Hother by congruence. reflexivity.
    - rewrite dget_dset_other by congruence. reflexivity. }
  intros t'. simpl.
  destruct (String.eqb_spec t' t) as [Ht|Ht].
  - subst t'. rewrite dget_dset_same, Hch. reflexivity.
  - rewrite dget_dset_other by exact Ht. reflexivity.
Qed.

(** A sequence of [set_emb] calls: an embedding is unchanged unless one of
    the calls is for it, and then it is the converted vector of one of
    them. *)
Lemma apply_writes_effect (ws : list write) (L : DataLog) :
  (forall t s hk vec, In (t, s, hk, vec) ws ->
     dmem t (challenges L) = true /\ exists arr, np_array_f16 vec = Ret arr) ->
  exists L',
    sfor ws apply_write L = (Ret tt, L')
    /\ (forall t', dmem t' (challenges L') = dmem t' (challenges L))
    /\ forall t s hk,
         ((forall vec, ~ In (t, s, hk, vec) ws) /\ emb_at L' t s hk = emb_at L t s hk)
         \/ (exists vec arr,
               In (t, s, hk, vec) ws /\ np_array_f16 vec = Ret arr
               /\ emb_at L' t s hk = Some arr).
Proof.
  revert L. induction ws as [|[[[t0 s0] hk0] vec0] ws IH]; intros L Hready.
  - exists L. split; [reflexivity|]. split; [reflexivity|].
    intros t s hk. left. split; [intros vec []|reflexivity].
  - destruct (Hready t0 s0 hk0 vec0 (or_introl eq_refl)) as [Hmem [arr0 Harr0]].
    destruct (apply_write_effect t0 s0 hk0 vec0 arr0 L Hmem Harr0)
      as (L1 & Hstep & Hset & Hothers & Hdom).
    destruct (IH L1) as (L' & Hrest & Hdom' & Hspec).
    { intros t s hk vec Hin. destruct (Hready t s hk vec (or_intror Hin)) as [Hm Ha].
      split; [rewrite Hdom; exact Hm | exact Ha]. }
    exists L'. split.
    { cbn [sfor]. unfold sbind. rewrite Hstep. exact Hrest. }
    split; [intros t'; rewrite Hdom', Hdom; reflexivity|].
    intros t s hk. destruct (Hspec t s hk) as [[Hnone Hsame]|(vec & arr & Hin & Harr & He)].
    + destruct (write_key_eqb (t0, s0, hk0, vec0) t s hk) eqn:Hkey.
      * right. unfold write_key_eqb in Hkey.
        apply andb_true_iff in Hkey. destruct Hkey as [Hkey Hk3].
        apply andb_true_iff in Hkey. destruct Hkey as [Hk1 Hk2].
        apply String.eqb_eq in Hk1, Hk3. apply Z.eqb_eq in Hk2. subst t0 s0 hk0.
        exists vec0, arr0. split; [left; reflexivity|]. split; [exact Harr0|].
        rewrite Hsame. exact Hset.
      * left. split.
        -- intros vec [Heq|Hin]; [|exact (Hnone vec Hin)].
           injection Heq as Ht Hs Hk Hv. subst. unfold write_key_eqb in Hkey.
           rewrite !String.eqb_refl, Z.eqb_refl in Hkey. discriminate.
        -- rewrite Hsame. apply Hothers. exact Hkey.
    + right. exists vec, arr. repeat split; auto. right. exact Hin.
Qed.

(** C6. In the write-back of [process_pending_payloads], with decrypt
    results whose timesteps, tickers and vectors the ledger can take, the
    loop completes, and for every challenge, sample index and hotkey: the
    stored embedding is left as it was unless the results hold, for that
    hotkey at a timestep whose block is aligned to the sampling interval
    and has that sample index, a vector of that challenge with at least
    one non-zero element; and when they hold one, the stored embedding is
    the [float16] array of such a vector.  So an all-zero vector is never
    written, nor any vector of a timestep whose block is not aligned. *)
Theorem merge_writes_nonzero_only (cfg : Config) (bl : list Z)
    (dec : dict nat (dict string vecs)) (L : DataLog) :
  merge_ready bl dec L ->
  exists L',
    merge_dec cfg bl dec L = (Ret tt, L')
    /\ forall t s hk,
         ((forall vec, ~ nonzero_aligned cfg bl dec t s hk vec) ->
          emb_at L' t s hk = emb_at L t s hk)
         /\ (forall vec, nonzero_aligned cfg bl dec t s hk vec ->
             exists vec' arr,
               nonzero_aligned cfg bl dec t s hk vec'
               /\ np_array_f16 vec' = Ret arr
               /\ emb_at L' t s hk = Some arr).
Proof.
  intros Hready.
  destruct (apply_writes_effect (merge_writes cfg bl dec) L) as (L' & Hrun & _ & Hspec).
  { intros t s hk vec Hin. apply in_merge_writes in Hin.
    destruct Hin as (ts & by_hk & vs & b & Hentry & Hhv & Htv & _).
    destruct (Hready ts by_hk Hentry) as [_ Hvecs]. exact (Hvecs hk vs t vec Hhv Htv). }
  exists L'. split.
  { rewrite merge_dec_flat; [exact Hrun|].
    intros [ts by_hk] Hentry. exact (proj1 (Hready ts by_hk Hentry)). }
  intros t s hk. split.
  - intros Hnone. destruct (Hspec t s hk) as [[_ Hsame]|(vec & arr & Hin & _)].
    + exact Hsame.
    + apply in_merge_writes in Hin. destruct (Hnone vec Hin).
  - intros vec Hq. destruct (Hspec t s hk) as [[Hnone _]|(vec' & arr & Hin & Harr & He)].
    + apply in_merge_writes in Hq. destruct (Hnone vec Hq).
    + exists vec', arr. split; [apply in_merge_writes; exact Hin|]. split; assumption.
Qed.

(** ** The first loop of [process_pending_payloads] *)

Lemma foldM_raises {A B : Type} (f : B -> A -> res B) (l : list A) (e0 : exn) (x : A) :
  (forall b y, In y l -> (exists b', f b y = Ret b') \/ f b y = Raise e0) ->
  In x l -> (forall b, f b x = Raise e0) ->
  forall b, foldM f l b = Raise e0.
Proof.
  induction l as [|y l IH]; intros Hall Hin Hx b.
  - destruct Hin.
  - simpl. destruct Hin as [->|Hin].
    + rewrite Hx. reflexivity.
    + destruct (Hall b y (or_introl eq_refl)) as [[b' Hb]|Hb]; rewrite Hb; simpl.
      * apply IH; auto. intros b0 y0 Hy0. apply Hall. right. exact Hy0.
      * reflexivity.
Qed.

Lemma foldM_returns_or_raises {A B : Type} (f : B -> A -> res B) (l : list A) (e0 : exn) :
  (forall b y, In y l -> (exists b', f b y = Ret b') \/ f b y = Raise e0) ->
  forall b, (exists b', foldM f l b = Ret b') \/ foldM f l b = Raise e0.
Proof.
  induction l as [|y l IH]; intros Hall b; simpl.
  - left. eauto.
  - destruct (Hall b y (or_introl eq_refl)) as [[b' Hb]|Hb]; rewrite Hb; simpl.
    + apply IH. intros b0 y0 Hy0. apply Hall. right. exact Hy0.
    + right. reflexivity.
Qed.

(** [int(...)] of the round raises [TypeError], [ValueError] or
    [OverflowError]; only the last one passes the handler. *)
Lemma round_key_cases (E : Externals) (d : list (string * pyval)) :
  (exists z, round_key E d = Ret z) \/ round_key E d = Raise OverflowError.
Proof.
  unfold round_key, try_except, py_int.
  destruct (dget "round"%string d) as [[|b|z|f|s|l|dd]|]; simpl; eauto.
  - unfold int_of_float. destruct (Prim2SF f); simpl; eauto.
  - destruct (int_of_str E s); simpl; eauto.
Qed.

Lemma round_key_infinite (E : Externals) (d : list (string * pyval)) (f : float) (sgn : bool) :
  dget "round"%string d = Some (PFloat f) -> Prim2SF f = S754_infinity sgn ->
  round_key E d = Raise OverflowError.
Proof.
  intros Hd Hf. unfold round_key, py_int, int_of_float. rewrite Hd, Hf. reflexivity.
Qed.

Lemma scan_hk_cases (E : Externals) (ts : nat) (acc : scan_state) (kv : string * bytes) :
  (exists acc', scan_hk E ts acc kv = Ret acc') \/ scan_hk E ts acc kv = Raise OverflowError.
Proof.
  destruct acc as [[rounds mature] stats]. destruct kv as [hk raw]. unfold scan_hk.
  destruct (parse_raw E raw) as [|b|z|f|s|l|d]; eauto.
  destruct (version_of (PDict d) =? 0); eauto.
  destruct (round_key_cases E d) as [[z Hz]|Hz]; rewrite Hz; simpl; eauto.
Qed.

Lemma scan_ts_cases (E : Externals) (bl : list Z) (cur : Z) (acc : scan_state)
    (entry : nat * dict string bytes) :
  (exists b, nth_error bl (fst entry) = Some b) ->
  (exists acc', scan_ts E bl cur acc entry = Ret acc')
  \/ scan_ts E bl cur acc entry = Raise OverflowError.
Proof.
  destruct entry as [ts by_hk]. intros [b Hb]. unfold scan_ts, block_at. simpl in Hb.
  rewrite Hb. simpl. destruct (300 <=? cur - b); eauto.
  apply foldM_returns_or_raises. intros acc0 kv _. apply scan_hk_cases.
Qed.

(** The first loop stops with [OverflowError] as soon as a mature payload
    of version 1 or 2 has an infinite round. *)
Lemma scan_overflow (E : Externals) (L : DataLog) (ts : nat) (hk : string) (cur : Z) :
  pending_in_range L -> infinite_round_pending E L ts hk ->
  last (map Some (blocks L)) None = Some cur ->
  scan E (blocks L) cur (raw_payloads L) = Raise OverflowError.
Proof.
  intros Hrange (by_hk & raw & d & f & sgn & b & cur' & Hentry & Hhk & Hb & Hlast & Hmature
                 & Hparse & Hver & Hround & Hinf) Hcur.
  assert (cur' = cur) as -> by congruence.
  unfold scan. apply (foldM_raises _ _ _ (ts, by_hk)).
  - intros acc [ts0 by_hk0] Hin. apply scan_ts_cases. exact (Hrange ts0 by_hk0 Hin).
  - exact Hentry.
  - intros acc. unfold scan_ts, block_at. rewrite Hb. simpl.
    apply Z.leb_le in Hmature. rewrite Hmature.
    apply (foldM_raises _ _ _ (hk, raw)).
    + intros acc0 kv _. apply scan_hk_cases.
    + exact Hhk.
    + intros [[rounds mature] stats]. unfold scan_hk. rewrite Hparse.
      apply Z.eqb_neq in Hver. rewrite Hver.
      rewrite (round_key_infinite E d f sgn Hround Hinf). reflexivity.
Qed.

(** The whole pass then ends in that exception before anything was
    fetched, recorded or removed. *)
Lemma pass_aborts_on_infinite_round (cfg : Config) (E : Externals) (W : World)
    (ts : nat) (hk : string) :
  pending_in_range (ledger W) -> infinite_round_pending E (ledger W) ts hk ->
  process_pending_payloads cfg E W = (Raise OverflowError, W).
Proof.
  intros Hrange Hinf.
  pose proof Hinf as (by_hk & raw & d & f & sgn & b & cur & Hentry & _ & _ & Hlast & _).
  unfold process_pending_payloads.
  destruct (raw_payloads (ledger W)) as [|p rp] eqn:Hrp; [destruct Hentry|].
  rewrite Hlast. rewrite <- Hrp.
  rewrite (scan_overflow E (ledger W) ts hk cur Hrange Hinf Hlast). reflexivity.
Qed.

(** C10: the code departs from the claim on a round that is an infinite
    float.  Such a round is not coercible to an integer, but [int] raises
    [OverflowError] on it, which [except (TypeError, ValueError)] lets
    through: the pass ends in that exception with the ledger and the
    record of beacon requests as they were, so no zero vectors are
    recorded for the item and its entry stays in [raw_payloads]. *)
Theorem infinite_round_aborts_pass (cfg : Config) (E : Externals) (W : World)
    (ts : nat) (hk : string) :
  pending_in_range (ledger W) -> infinite_round_pending E (ledger W) ts hk ->
  process_pending_payloads cfg E W = (Raise OverflowError, W)
  /\ net (snd (process_pending_payloads cfg E W)) = net W
  /\ exists by_hk raw,
       In (ts, by_hk) (raw_payloads (ledger (snd (process_pending_payloads cfg E W))))
       /\ In (hk, raw) by_hk.
Proof.
  intros Hrange Hinf.
  rewrite (pass_aborts_on_infinite_round cfg E W ts hk Hrange Hinf).
  split; [reflexivity|]. split; [reflexivity|].
  destruct Hinf as (by_hk & raw & d & f & sgn & b & cur & Hentry & Hhk & _).
  exists by_hk, raw. simpl. auto.
Qed.

Lemma infinite_round_aborts_pass_witness :
  pending_in_range (ledger ex_world_poisoned)
  /\ infinite_round_pending ex_E (ledger ex_world_poisoned) 0 "hk-bad"
  /\ process_pending_payloads ex_cfg ex_E ex_world_poisoned
     = (Raise OverflowError, ex_world_poisoned)
  /\ net (snd (process_pending_payloads ex_cfg ex_E ex_world_poisoned)) = net ex_world_poisoned
  /\ exists by_hk raw,
       In (0%nat, by_hk)
          (raw_payloads (ledger (snd (process_pending_payloads ex_cfg ex_E ex_world_poisoned))))
       /\ In ("hk-bad"%string, raw) by_hk.
Proof.
  assert (pending_in_range (ledger ex_world_poisoned)) as Hrange.
  { intros ts by_hk Hin. vm_compute in Hin.
    destruct Hin as [Heq|[Heq|[Heq|[]]]]; injection Heq as <- _; vm_compute; eauto. }
  assert (infinite_round_pending ex_E (ledger ex_world_poisoned) 0 "hk-bad") as Hinf.
  { exists [ ("hk-bad"%string, str_encode poison_text); ("hk-good"%string, str_encode "{}") ],
           (str_encode poison_text),
           [ ("v"%string, PInt 2); ("round"%string, PFloat infinity) ],
           infinity, false, 100, 400.
    repeat split; try (vm_compute; reflexivity).
    - vm_compute. left. reflexivity.
    - vm_compute. left. reflexivity.
    - vm_compute. discriminate.
    - vm_compute. discriminate. }
  split; [exact Hrange|]. split; [exact Hinf|].
  apply (infinite_round_aborts_pass ex_cfg ex_E ex_world_poisoned 0 "hk-bad" Hrange Hinf).
Defined.

(** C3: the code departs from the claim on the same input.  Three blocks
    100, 200, 400 are appended; at the first, one hotkey submits a payload
    whose round is an infinite float and another submits nothing.  At
    block 400 both entries of timestep 0 are mature (400 - 100 >= 300), yet
    the pass raises [OverflowError] and neither entry is removed. *)
Theorem mature_entries_survive_aborted_pass :
  blocks (ledger ex_world_poisoned) = [ 100; 200; 400 ]
  /\ dget 0%nat (raw_payloads (ledger ex_world_poisoned))
     = Some [ ("hk-bad"%string, str_encode poison_text);
              ("hk-good"%string, str_encode "{}") ]
  /\ fst (process_pending_payloads ex_cfg ex_E ex_world_poisoned) = Raise OverflowError
  /\ raw_payloads (ledger (snd (process_pending_payloads ex_cfg ex_E ex_world_poisoned)))
     = raw_payloads (ledger ex_world_poisoned).
Proof.
  repeat split; vm_compute; reflexivity.
Qed.

Lemma merge_writes_nonzero_only_witness :
  merge_ready ex_blocks ex_dec (DataLog_init ex_cfg)
  /\ exists L',
       merge_dec ex_cfg ex_blocks ex_dec (DataLog_init ex_cfg) = (Ret tt, L')
       /\ forall t s hk,
            ((forall vec, ~ nonzero_aligned ex_cfg ex_blocks ex_dec t s hk vec) ->
             emb_at L' t s hk = emb_at (DataLog_init ex_cfg) t s hk)
            /\ (forall vec, nonzero_aligned ex_cfg ex_blocks ex_dec t s hk vec ->
                exists vec' arr,
                  nonzero_aligned ex_cfg ex_blocks ex_dec t s hk vec'
                  /\ np_array_f16 vec' = Ret arr
                  /\ emb_at L' t s hk = Some arr).
Proof.
  assert (merge_ready ex_blocks ex_dec (DataLog_init ex_cfg)) as Hready.
  { intros ts by_hk Hin. simpl in Hin.
    destruct Hin as [Heq|[Heq|[]]]; injection Heq as <- <-.
    - split; [eexists; reflexivity|]. intros hk vs t vec Hhv Htv.
      destruct Hhv as [Heq|[Heq|[]]]; injection Heq as <- <-;
        destruct Htv as [Heq|[]]; injection Heq as <- <-;
        (split; [reflexivity | eexists; vm_compute; reflexivity]).
    - split; [eexists; reflexivity|]. intros hk vs t vec Hhv Htv.
      destruct Hhv as [Heq|[]]; injection Heq as <- <-;
        destruct Htv as [Heq|[]]; injection Heq as <- <-;
        (split; [reflexivity | eexists; vm_compute; reflexivity]). }
  split; [exact Hready|].
  apply (merge_writes_nonzero_only ex_cfg ex_blocks ex_dec (DataLog_init ex_cfg) Hready).
Defined.

Example merge_example :
  exists L' arr,
    merge_dec ex_cfg ex_blocks ex_dec (DataLog_init ex_cfg) = (Ret tt, L')
    /\ emb_at L' "BTC" 1 "hk-1" = Some arr
    /\ emb_at L' "BTC" 1 "hk-2" = None
    /\ emb_at L' "BTC" 1 "hk-3" = None
    /\ sample_at L' "BTC" 1
       = Some {| hotkeys := [ "hk-1"%string ]; price := None; emb := [ ("hk-1"%string, arr) ] |}.
Proof. do 2 eexists. repeat split; vm_compute; reflexivity. Qed.

(** ** Persistence *)

(** C8. Saving a ledger and loading the file again gives back its block
    sequence and its challenges (so every sample's price, embeddings and
    hotkey order), its pending payloads and its signature cache, with a
    fresh lock; for a path that ends in [.gz] or not.  Pickle and gzip are
    library code: the statement takes from them that the bytes pickled for
    this ledger unpickle to the same attributes and that what gzip wrote
    for them reads back. *)
Theorem load_after_save (cfg : Config) (E : Externals) (path : string) (L : DataLog)
    (fs : FileSystem) (b : bytes) :
  pickle_dumps E (pickled_of (with_lock L true)) = Ret b ->
  pickle_loads E b = Ret (pickled_of (with_lock L true)) ->
  gzip_decompress E (gzip_compress E b) = Ret b ->
  fst (save E path L fs) = Ret tt
  /\ blocks (load cfg E path (snd (save E path L fs))) = blocks L
  /\ challenges (load cfg E path (snd (save E path L fs))) = challenges L
  /\ raw_payloads (load cfg E path (snd (save E path L fs))) = raw_payloads L
  /\ _drand_cache (load cfg E path (snd (save E path L fs))) = _drand_cache L
  /\ _lock (load cfg E path (snd (save E path L fs))) = false.
Proof.
  intros Hdump Hload Hgz. unfold save. rewrite Hdump. cbn [fst snd].
  split; [reflexivity|]. unfold load. rewrite dget_dset_same.
  destruct (endswith_gz path).
  - rewrite Hgz. cbn [bind]. rewrite Hload. repeat split.
  - cbn [bind]. rewrite Hload. repeat split.
Qed.

Lemma load_after_save_witness :
  fst (save ex_E_persist "mantis_datalog.pkl.gz" ex_ledger_flat_price []) = Ret tt
  /\ blocks (load ex_cfg ex_E_persist "mantis_datalog.pkl.gz"
                  (snd (save ex_E_persist "mantis_datalog.pkl.gz" ex_ledger_flat_price [])))
     = blocks ex_ledger_flat_price
  /\ challenges (load ex_cfg ex_E_persist "mantis_datalog.pkl.gz"
                      (snd (save ex_E_persist "mantis_datalog.pkl.gz" ex_ledger_flat_price [])))
     = challenges ex_ledger_flat_price
  /\ raw_payloads (load ex_cfg ex_E_persist "mantis_datalog.pkl.gz"
                        (snd (save ex_E_persist "mantis_datalog.pkl.gz" ex_ledger_flat_price [])))
     = raw_payloads ex_ledger_flat_price
  /\ _drand_cache (load ex_cfg ex_E_persist "mantis_datalog.pkl.gz"
                        (snd (save ex_E_persist "mantis_datalog.pkl.gz" ex_ledger_flat_price [])))
     = _drand_cache ex_ledger_flat_price
  /\ _lock (load ex_cfg ex_E_persist "mantis_datalog.pkl.gz"
                 (snd (save ex_E_persist "mantis_datalog.pkl.gz" ex_ledger_flat_price [])))
     = false.
Proof.
  apply (load_after_save ex_cfg ex_E_persist "mantis_datalog.pkl.gz" ex_ledger_flat_price []
           [ x80; x05 ]); reflexivity.
Defined.

Example endswith_gz_examples :
  endswith_gz "mantis_datalog.pkl.gz" = true /\ endswith_gz "mantis_datalog.pkl" = false
  /\ endswith_gz "gz" = false.
Proof. repeat split. Qed.

Example load_missing_file : load ex_cfg ex_E "nowhere.pkl" [] = DataLog_init ex_cfg.
Proof. reflexivity. Qed.

(** ** Round groups without a usable round *)

(** A round that is missing, or on which [int] raises [TypeError] or
    [ValueError], gives the key 0. *)
Lemma round_key_missing (E : Externals) (d : list (string * pyval)) :
  dget "round"%string d = None -> round_key E d = Ret 0.
Proof. intros Hd. unfold round_key. rewrite Hd. reflexivity. Qed.

Lemma round_key_not_coercible (E : Externals) (d : list (string * pyval)) (v : pyval)
    (e : exn) :
  dget "round"%string d = Some v -> py_int E v = Raise e -> e <> OverflowError ->
  round_key E d = Ret 0.
Proof.
  intros Hd He Hne. unfold round_key, try_except. rewrite Hd, He.
  destruct v as [|b|z|f|s|l|dd]; simpl in He; try discriminate He;
    try (injection He as <-; reflexivity).
  - unfold int_of_float in He. destruct (Prim2SF f); try discriminate He;
      injection He as <-; [contradiction | reflexivity].
  - destruct (int_of_str E s); [discriminate He | injection He as <-; reflexivity].
Qed.

Lemma dec_record_zeroed (cfg : Config) (ts : nat) (hk : string) (ws : WorkState) :
  zeroed cfg (w_dec (dec_record ts hk (_zero_vecs cfg) ws)) ts hk
  /\ forall ts' hk', zeroed cfg (w_dec ws) ts' hk' ->
                     zeroed cfg (w_dec (dec_record ts hk (_zero_vecs cfg) ws)) ts' hk'.
Proof.
  unfold zeroed, dec_record, dsetdefault.
  match goal with
  | |- context [match ?x with Some _ => _ | None => _ end] =>
      destruct x as [by_hk|] eqn:Hts
  end; simpl.
  - split.
    + exists (dset hk (_zero_vecs cfg) by_hk). rewrite !dget_dset_same. auto.
    + intros ts' hk' (by_hk' & Hd & Hz).
      destruct (Nat.eq_dec ts' ts) as [->|Hne].
      * rewrite dget_dset_same. eexists. split; [reflexivity|].
        assert (by_hk' = by_hk) as ->.
        { assert (Some by_hk' = Some by_hk) as Heq by (rewrite <- Hd; exact Hts).
          injection Heq as ->. reflexivity. }
        destruct (String.eqb_spec hk' hk) as [->|Hk].
        -- apply dget_dset_same.
        -- rewrite dget_dset_other by exact Hk. exact Hz.
      * rewrite dget_dset_other by exact Hne. eauto.
  - split.
    + exists (dset hk (_zero_vecs cfg) []). rewrite !dget_dset_same. auto.
    + intros ts' hk' (by_hk' & Hd & Hz).
      destruct (Nat.eq_dec ts' ts) as [->|Hne].
      * exfalso. assert (Some by_hk' = None) as Heq by (rewrite <- Hd; exact Hts).
        discriminate Heq.
      * rewrite !dget_dset_other by exact Hne. eauto.
Qed.

Lemma dec_record_frame (ts : nat) (hk : string) (v : vecs) (ws : WorkState) :
  w_beacon (dec_record ts hk v ws) = w_beacon ws
  /\ w_stats (dec_record ts hk v ws) = w_stats ws.
Proof.
  unfold dec_record. destruct (dsetdefault ts [] (w_dec ws)). split; reflexivity.
Qed.

(** [_work] on a round key that is not positive: no signature is fetched
    (the request record and the cache are untouched), and every item of the
    group gets all-zero vectors. *)
Lemma work_without_round (cfg : Config) (E : Externals) (rnd : Z) (items : list item)
    (ws : WorkState) :
  rnd <= 0 ->
  exists ws',
    _work cfg E rnd items ws = (Ret tt, ws')
    /\ w_beacon ws' = w_beacon ws
    /\ w_stats ws' = w_stats ws
    /\ (forall ts hk d v, In (ts, hk, d, v) items -> zeroed cfg (w_dec ws') ts hk)
    /\ (forall ts hk, zeroed cfg (w_dec ws) ts hk -> zeroed cfg (w_dec ws') ts hk).
Proof.
  intros Hrnd. unfold _work.
  assert ((0 <? rnd) = false) as -> by (apply Z.ltb_ge; exact Hrnd).
  revert ws. induction items as [|[[[ts hk] d] v] items IH]; intros ws.
  - exists ws. repeat split; auto. intros ts hk d v [].
  - cbn [sfor]. unfold sbind. cbn [work_item modify].
    destruct (IH (dec_record ts hk (_zero_vecs cfg) ws)) as (ws' & Hrun & Hb & Hs & Hitems & Hkeep).
    destruct (dec_record_zeroed cfg ts hk ws) as [Hnew Hold].
    destruct (dec_record_frame ts hk (_zero_vecs cfg) ws) as [Hfb Hfs].
    exists ws'. split; [exact Hrun|]. split; [rewrite Hb; exact Hfb|].
    split; [rewrite Hs; exact Hfs|]. split.
    + intros ts' hk' d' v' [Heq|Hin].
      * injection Heq as <- <- _ _. apply Hkeep. exact Hnew.
      * eapply Hitems. exact Hin.
    + intros ts' hk' Hz. apply Hkeep, Hold, Hz.
Qed.

(** ** More on dictionaries *)

Section DictMore.
Context {K V : Type} `{EqKey K}.

Lemma In_dset (k k' : K) (v v' : V) (d : dict K V) :
  In (k', v') (dset k v d) -> (k' = k /\ v' = v) \/ In (k', v') d.
Proof.
  induction d as [|[k0 v0] d IH]; simpl.
  - intros [Heq|[]]. injection Heq as <- <-. left. auto.
  - destruct (keqb k k0) eqn:Hk; simpl.
    + apply keqb_eq in Hk. subst k0. intros [Heq|Hin].
      * injection Heq as <- <-. left. auto.
      * right. right. exact Hin.
    + intros [Heq|Hin]; [right; left; exact Heq|].
      destruct (IH Hin) as [Hl|Hr]; [left; exact Hl | right; right; exact Hr].
Qed.

Lemma In_dpop (k : K) (x : K * V) (d : dict K V) : In x (dpop k d) -> In x d.
Proof.
  induction d as [|[k0 v0] d IH]; simpl; [auto|].
  destruct (keqb k k0); simpl.
  - intros Hin. right. exact Hin.
  - intros [Heq|Hin]; [left; exact Heq | right; apply IH; exact Hin].
Qed.

Lemma dkeys_dpop_incl (k k' : K) (d : dict K V) :
  In k' (dkeys (dpop k d)) -> In k' (dkeys d).
Proof.
  unfold dkeys. intros Hin. apply in_map_iff in Hin. destruct Hin as (x & <- & Hx).
  apply in_map. eapply In_dpop. exact Hx.
Qed.

Lemma NoDup_dpop (k : K) (d : dict K V) : NoDup (dkeys d) -> NoDup (dkeys (dpop k d)).
Proof.
  induction d as [|[k0 v0] d IH]; simpl; intros Hnd; [constructor|].
  inversion Hnd as [|? ? Hnotin Hnd']; subst.
  destruct (keqb k k0); simpl; [exact Hnd'|].
  constructor; [|apply IH; exact Hnd'].
  intros Hin. apply Hnotin. eapply dkeys_dpop_incl. exact Hin.
Qed.

Lemma dkeys_dset_present (k : K) (v v0 : V) (d : dict K V) :
  dget k d = Some v0 -> dkeys (dset k v d) = dkeys d.
Proof. intros Hg. rewrite dkeys_dset. unfold dmem. rewrite Hg. reflexivity. Qed.

End DictMore.

(** ** The removal loop *)

Lemma remove_entry_get (rp : dict nat (dict string bytes)) (ts : nat) (hk : string) :
  pending_unique rp ->
  pending_unique (remove_entry rp (ts, hk))
  /\ (forall ts', ts' <> ts -> dget ts' (remove_entry rp (ts, hk)) = dget ts' rp)
  /\ dget ts (remove_entry rp (ts, hk))
     = match dget ts rp with
       | None => None
       | Some by_hk => match dpop hk by_hk with [] => None | r => Some r end
       end.
Proof.
  intros [Hkeys Hinner]. unfold remove_entry.
  destruct (dget ts rp) as [by_hk|] eqn:Hts.
  - assert (NoDup (dkeys (dset ts (dpop hk by_hk) rp))) as Hkeys1.
    { rewrite (dkeys_dset_present ts _ by_hk); assumption. }
    rewrite dget_dset_same.
    destruct (dpop hk by_hk) as [|kv r] eqn:Hpop.
    + split; [split|split].
      * apply NoDup_dpop. exact Hkeys1.
      * intros ts' by' Hg. destruct (Nat.eq_dec ts' ts) as [->|Hne].
        -- rewrite dget_dpop_same in Hg by exact Hkeys1. discriminate.
        -- rewrite dget_dpop_other, dget_dset_other in Hg by exact Hne. eauto.
      * intros ts' Hne. rewrite dget_dpop_other, dget_dset_other by exact Hne. reflexivity.
      * apply dget_dpop_same. exact Hkeys1.
    + split; [split|split].
      * exact Hkeys1.
      * intros ts' by' Hg. destruct (Nat.eq_dec ts' ts) as [->|Hne].
        -- rewrite dget_dset_same in Hg. injection Hg as <-. rewrite <- Hpop.
           apply NoDup_dpop. eauto.
        -- rewrite dget_dset_other in Hg by exact Hne. eauto.
      * intros ts' Hne. apply dget_dset_other. exact Hne.
      * apply dget_dset_same.
  - rewrite Hts. split; [split; assumption|]. split; [reflexivity | exact Hts].
Qed.

Lemma remove_mature_residue (mature : list (nat * string)) (rp : dict nat (dict string bytes))
    (ts : nat) :
  pending_unique rp ->
  dget ts (fold_left remove_entry mature rp) = residue mature ts (dget ts rp).
Proof.
  revert rp. induction mature as [|[ts' hk] mature IH]; intros rp Hu; simpl.
  - reflexivity.
  - destruct (remove_entry_get rp ts' hk Hu) as (Hu1 & Hother & Hsame).
    rewrite IH by exact Hu1. f_equal.
    destruct (Nat.eqb_spec ts' ts) as [->|Hne].
    + exact Hsame.
    + apply Hother. congruence.
Qed.

Lemma residue_None (mature : list (nat * string)) (ts : nat) : residue mature ts None = None.
Proof.
  induction mature as [|[ts' hk] mature IH]; simpl; [reflexivity|].
  destruct (Nat.eqb ts' ts); exact IH.
Qed.

(** A timestep none of whose hotkeys is in [mature] is left as it is. *)
Lemma residue_untouched (mature : list (nat * string)) (ts : nat)
    (cur : option (dict string bytes)) :
  (forall hk, ~ In (ts, hk) mature) -> residue mature ts cur = cur.
Proof.
  revert cur. induction mature as [|[ts' hk] mature IH]; intros cur Hno; simpl.
  - reflexivity.
  - destruct (Nat.eqb_spec ts' ts) as [->|Hne].
    + exfalso. apply (Hno hk). left. reflexivity.
    + apply IH. intros hk' Hin. apply (Hno hk'). right. exact Hin.
Qed.

(** What is left at a timestep is never an empty dictionary unless it was
    one, has unique keys, and only keys that were there. *)
Lemma residue_shape (mature : list (nat * string)) (ts : nat) (by_hk r : dict string bytes) :
  NoDup (dkeys by_hk) -> residue mature ts (Some by_hk) = Some r ->
  NoDup (dkeys r) /\ (forall hk, In hk (dkeys r) -> In hk (dkeys by_hk))
  /\ (by_hk <> [] -> r <> []).
Proof.
  revert by_hk. induction mature as [|[ts' hk] mature IH]; intros by_hk Hnd Hres; simpl in Hres.
  - injection Hres as <-. auto.
  - destruct (Nat.eqb ts' ts).
    + destruct (dpop hk by_hk) as [|kv r0] eqn:Hpop.
      * rewrite residue_None in Hres. discriminate.
      * assert (NoDup (dkeys (kv :: r0))) as Hnd0 by (rewrite <- Hpop; apply NoDup_dpop; exact Hnd).
        destruct (IH (kv :: r0) Hnd0 Hres) as (Hr1 & Hr2 & Hr3).
        split; [exact Hr1|]. split.
        -- intros hk' Hin. apply (dkeys_dpop_incl hk). rewrite Hpop. apply Hr2. exact Hin.
        -- intros _. apply Hr3. discriminate.
    + apply IH; assumption.
Qed.

Lemma residue_absent (mature : list (nat * string)) (ts : nat) (hk : string)
    (by_hk r : dict string bytes) :
  NoDup (dkeys by_hk) -> dget hk by_hk = None ->
  residue mature ts (Some by_hk) = Some r -> dget hk r = None.
Proof.
  intros Hnd Habs Hres. destruct (residue_shape mature ts by_hk r Hnd Hres) as (_ & Hkeys & _).
  apply dget_None_notin. intros Hin. apply Hkeys in Hin.
  apply dget_None_notin in Habs. contradiction.
Qed.

(** A pair of [mature] is gone afterwards. *)
Lemma residue_removed (mature : list (nat * string)) (ts : nat) (hk : string)
    (by_hk r : dict string bytes) :
  NoDup (dkeys by_hk) -> In (ts, hk) mature ->
  residue mature ts (Some by_hk) = Some r -> dget hk r = None.
Proof.
  revert by_hk. induction mature as [|[ts' hk'] mature IH]; intros by_hk Hnd Hin Hres.
  - destruct Hin.
  - simpl in Hres. destruct Hin as [Heq|Hin].
    + injection Heq as -> ->. rewrite Nat.eqb_refl in Hres.
      destruct (dpop hk by_hk) as [|kv r0] eqn:Hpop.
      * rewrite residue_None in Hres. discriminate.
      * apply (residue_absent mature ts hk (kv :: r0) r); [| |exact Hres].
        -- rewrite <- Hpop. apply NoDup_dpop. exact Hnd.
        -- rewrite <- Hpop. apply dget_dpop_same. exact Hnd.
    + destruct (Nat.eqb ts' ts).
      * destruct (dpop hk' by_hk) as [|kv r0] eqn:Hpop.
        -- rewrite residue_None in Hres. discriminate.
        -- apply (IH (kv :: r0)); [|exact Hin|exact Hres].
           rewrite <- Hpop. apply NoDup_dpop. exact Hnd.
      * apply (IH by_hk); assumption.
Qed.

(** A timestep all of whose hotkeys are in [mature] is deleted. *)
Lemma residue_deleted (mature : list (nat * string)) (ts : nat) (by_hk : dict string bytes) :
  NoDup (dkeys by_hk) -> by_hk <> [] ->
  (forall hk, In hk (dkeys by_hk) -> In (ts, hk) mature) ->
  residue mature ts (Some by_hk) = None.
Proof.
  intros Hnd Hne Hall. destruct (residue mature ts (Some by_hk)) as [r|] eqn:Hres; [|reflexivity].
  exfalso. destruct (residue_shape mature ts by_hk r Hnd Hres) as (_ & Hkeys & Hnonempty).
  destruct r as [|[hk v] r]; [exact (Hnonempty Hne eq_refl)|].
  assert (In hk (dkeys ((hk, v) :: r))) as Hin by (left; reflexivity).
  pose proof (residue_removed mature ts hk by_hk _ Hnd (Hall hk (Hkeys hk Hin)) Hres) as Hgone.
  simpl in Hgone. rewrite String.eqb_refl in Hgone. discriminate.
Qed.

(** ** The maturity gate *)

Lemma pair_eqb_eq (a b : nat * string) : pair_eqb a b = true <-> a = b.
Proof.
  destruct a as [n s], b as [m t]. unfold pair_eqb. simpl.
  rewrite andb_true_iff, Nat.eqb_eq, String.eqb_eq. split.
  - intros [-> ->]. reflexivity.
  - intros Heq. injection Heq as -> ->. auto.
Qed.

Lemma set_add_In (x y : nat * string) (m : list (nat * string)) :
  In x (set_add y m) <-> x = y \/ In x m.
Proof.
  unfold set_add. destruct (existsb (pair_eqb y) m) eqn:Hex.
  - apply existsb_exists in Hex. destruct Hex as (z & Hz & Heq).
    apply pair_eqb_eq in Heq. subst z. split; [auto|]. intros [->|Hin]; assumption.
  - rewrite in_app_iff. simpl. split.
    + intros [Hin|[Heq|[]]]; auto.
    + intros [Heq|Hin]; auto.
Qed.

Definition mature_of (acc : scan_state) : list (nat * string) := snd (fst acc).

Lemma scan_hk_mature (E : Externals) (ts : nat) (acc acc' : scan_state) (kv : string * bytes) :
  scan_hk E ts acc kv = Ret acc' -> mature_of acc' = set_add (ts, fst kv) (mature_of acc).
Proof.
  destruct acc as [[rounds mature] stats]. destruct kv as [hk raw]. unfold scan_hk.
  destruct (parse_raw E raw) as [|b|z|f|s|l|d]; try (intros Heq; injection Heq as <-; reflexivity).
  destruct (version_of (PDict d) =? 0); [intros Heq; injection Heq as <-; reflexivity|].
  destruct (round_key E d) as [z|e]; simpl; [|discriminate].
  intros Heq. injection Heq as <-. reflexivity.
Qed.

Lemma scan_hks_mature (E : Externals) (ts : nat) (by_hk : dict string bytes)
    (acc acc' : scan_state) :
  foldM (scan_hk E ts) by_hk acc = Ret acc' ->
  forall x, In x (mature_of acc')
            <-> In x (mature_of acc) \/ In x (map (fun kv : string * bytes => (ts, fst kv)) by_hk).
Proof.
  revert acc. induction by_hk as [|kv by_hk IH]; intros acc Hrun x; simpl in *.
  - injection Hrun as <-. tauto.
  - destruct (scan_hk E ts acc kv) as [acc1|e] eqn:Hstep; [|discriminate].
    simpl in Hrun. rewrite (IH acc1 Hrun x), (scan_hk_mature E ts acc acc1 kv Hstep), set_add_In.
    split; intros Hx; repeat destruct Hx as [Hx|Hx]; auto.
Qed.

Lemma scan_mature (E : Externals) (bl : list Z) (cur : Z)
    (payloads : dict nat (dict string bytes)) (acc acc' : scan_state) :
  foldM (scan_ts E bl cur) payloads acc = Ret acc' ->
  forall x, In x (mature_of acc') <-> In x (mature_of acc) \/ In x (mature_keys bl cur payloads).
Proof.
  revert acc. induction payloads as [|[ts by_hk] payloads IH]; intros acc Hrun x.
  - simpl in *. injection Hrun as <-. tauto.
  - cbn [foldM] in Hrun.
    destruct (scan_ts E bl cur acc (ts, by_hk)) as [acc1|e] eqn:Hstep; [|discriminate].
    cbn [bind] in Hrun. rewrite (IH acc1 Hrun x).
    unfold mature_keys. cbn [flat_map fst snd]. rewrite in_app_iff.
    unfold scan_ts, block_at in Hstep.
    destruct (nth_error bl ts) as [b|]; [|discriminate]. cbn [bind] in Hstep.
    destruct (300 <=? cur - b).
    + rewrite (scan_hks_mature E ts by_hk acc acc1 Hstep x). unfold mature_keys. tauto.
    + injection Hstep as <-. simpl. unfold mature_keys. tauto.
Qed.

Lemma in_mature_keys (bl : list Z) (cur : Z) (payloads : dict nat (dict string bytes))
    (ts : nat) (hk : string) :
  In (ts, hk) (mature_keys bl cur payloads)
  <-> exists by_hk b, In (ts, by_hk) payloads /\ In hk (dkeys by_hk)
                      /\ nth_error bl ts = Some b /\ 300 <= cur - b.
Proof.
  unfold mature_keys. rewrite in_flat_map. split.
  - intros ([ts' by_hk] & Hentry & Hin). simpl in Hin.
    destruct (nth_error bl ts') as [b|] eqn:Hb; [|destruct Hin].
    destruct (300 <=? cur - b) eqn:Hm; [|destruct Hin].
    apply in_map_iff in Hin. destruct Hin as ([hk' raw] & Heq & Hkv).
    simpl in Heq. injection Heq as -> ->.
    exists by_hk, b. apply Z.leb_le in Hm. repeat split; auto.
    unfold dkeys. apply in_map_iff. exists (hk, raw). auto.
  - intros (by_hk & b & Hentry & Hhk & Hb & Hm). exists (ts, by_hk). split; [exact Hentry|].
    simpl. rewrite Hb. apply Z.leb_le in Hm. rewrite Hm.
    unfold dkeys in Hhk. apply in_map_iff in Hhk. destruct Hhk as ([hk' raw] & <- & Hkv).
    apply in_map_iff. exists (hk', raw). auto.
Qed.

(** The ways a pass can end, and what each leaves in [raw_payloads]. *)
Lemma pass_outcomes (cfg : Config) (E : Externals) (W W' : World) (r : res (option Stats)) :
  process_pending_payloads cfg E W = (r, W') ->
  (r = Ret None /\ W' = W
   /\ (raw_payloads (ledger W) = []
       \/ exists cur rounds stats,
            last (map Some (blocks (ledger W))) None = Some cur
            /\ scan E (blocks (ledger W)) cur (raw_payloads (ledger W)) = Ret (rounds, [], stats)))
  \/ ((exists e, r = Raise e) /\ raw_payloads (ledger W') = raw_payloads (ledger W))
  \/ (exists stats cur rounds mature stats0,
        r = Ret (Some stats)
        /\ last (map Some (blocks (ledger W))) None = Some cur
        /\ scan E (blocks (ledger W)) cur (raw_payloads (ledger W)) = Ret (rounds, mature, stats0)
        /\ raw_payloads (ledger W')
           = fold_left remove_entry mature (raw_payloads (ledger W))).
Proof.
  unfold process_pending_payloads. intros Hrun.
  destruct (raw_payloads (ledger W)) as [|p rp] eqn:Hrp.
  { injection Hrun as <- <-. left. auto. }
  rewrite <- Hrp in *.
  destruct (last (map Some (blocks (ledger W))) None) as [cur|] eqn:Hlast.
  2: { injection Hrun as <- <-. right. left. split; [eauto | reflexivity]. }
  destruct (scan E (blocks (ledger W)) cur (raw_payloads (ledger W)))
    as [[[rounds mature] stats0]|e] eqn:Hscan.
  2: { injection Hrun as <- <-. right. left. split; [eauto | reflexivity]. }
  destruct mature as [|m0 mature].
  { injection Hrun as <- <-. left. split; [reflexivity|]. split; [reflexivity|]. right. eauto. }
  destruct (sfor rounds _ _) as [r0 ws].
  destruct r0 as [u|e].
  2: { injection Hrun as <- <-. right. left. split; [eauto | reflexivity]. }
  unfold sbind in Hrun.
  pose proof (merge_dec_raw_payloads cfg (blocks (ledger W)) (w_dec ws)
                (with_drand_cache (ledger W) (fst (w_beacon ws)))) as Hm.
  destruct (merge_dec cfg (blocks (ledger W)) (w_dec ws) _) as [[u'|e] L2].
  - cbn [remove_mature modify snd] in *. injection Hrun as <- <-.
    right. right. exists (w_stats ws), cur, rounds, (m0 :: mature), stats0.
    split; [reflexivity|]. split; [reflexivity|]. split; [first [exact Hscan | reflexivity]|].
    cbn [ledger raw_payloads with_raw_payloads]. rewrite Hm. reflexivity.
  - cbn [snd] in Hm. injection Hrun as <- <-. right. left. split; [eauto | exact Hm].
Qed.

(** The maturity gate holds on every pass that returns: a pending timestep
    whose block is less than 300 below the newest block is left as it is,
    and one that is at least 300 below (and has entries) is gone, with all
    its entries. *)
Lemma maturity_gate_when_pass_returns (cfg : Config) (E : Externals) (W : World)
    (r : option Stats) (cur : Z) :
  pending_unique (raw_payloads (ledger W)) ->
  fst (process_pending_payloads cfg E W) = Ret r ->
  last (map Some (blocks (ledger W))) None = Some cur ->
  forall ts by_hk b,
    dget ts (raw_payloads (ledger W)) = Some by_hk ->
    nth_error (blocks (ledger W)) ts = Some b ->
    (cur - b < 300 ->
     dget ts (raw_payloads (ledger (snd (process_pending_payloads cfg E W)))) = Some by_hk)
    /\ (300 <= cur - b -> by_hk <> [] ->
        dget ts (raw_payloads (ledger (snd (process_pending_payloads cfg E W)))) = None).
Proof.
  intros Hu Hret Hlast ts by_hk b Hts Hb.
  assert (forall mature rounds stats,
             scan E (blocks (ledger W)) cur (raw_payloads (ledger W)) = Ret (rounds, mature, stats) ->
             (cur - b < 300 -> forall hk, ~ In (ts, hk) mature)
             /\ (300 <= cur - b -> forall hk, In hk (dkeys by_hk) -> In (ts, hk) mature))
    as Hmature.
  { intros mature rounds stats Hscan.
    pose proof (scan_mature E _ cur _ _ _ Hscan) as Hin. simpl in Hin.
    split.
    - intros Himm hk Hhk. apply Hin in Hhk. destruct Hhk as [[]|Hhk].
      apply in_mature_keys in Hhk. destruct Hhk as (by' & b' & _ & _ & Hb' & Hm).
      assert (b' = b) as -> by congruence. lia.
    - intros Hm hk Hhk. apply Hin. right. apply in_mature_keys.
      exists by_hk, b. repeat split; auto. apply dget_In. exact Hts. }
  destruct (process_pending_payloads cfg E W) as [r0 W'] eqn:Hrun. cbn [fst snd] in *.
  destruct (pass_outcomes cfg E W W' r0 Hrun)
    as [(Hr & HW & Hwhy)|[([e He] & _)|(stats & cur' & rounds & mature & stats0 & Hr & Hl & Hscan & Hrp)]].
  - rewrite HW. destruct Hwhy as [Hnil|(cur' & rounds & stats & Hl & Hscan)].
    + rewrite Hnil in Hts. discriminate.
    + assert (cur' = cur) as -> by congruence.
      destruct (Hmature [] rounds stats Hscan) as [_ Hall].
      split; [intros _; exact Hts|]. intros Hm Hne. exfalso.
      destruct by_hk as [|[hk raw] by_hk]; [exact (Hne eq_refl)|].
      apply (Hall Hm hk). left. reflexivity.
  - rewrite He in Hret. discriminate.
  - assert (cur' = cur) as -> by congruence.
    destruct (Hmature mature rounds stats0 Hscan) as [Hnone Hall].
    rewrite Hrp, (remove_mature_residue mature _ ts Hu), Hts. split.
    + intros Himm. apply residue_untouched. exact (Hnone Himm).
    + intros Hm Hne. apply residue_deleted; [exact (proj2 Hu ts by_hk Hts) | exact Hne|].
      exact (Hall Hm).
Qed.

(** ** A pass completes unless a round overflows *)

Lemma In_fold_dset {K V A : Type} `{EqKey K} (key : A -> K) (val : A -> V) (l : list A)
    (d : dict K V) (k : K) (v : V) :
  In (k, v) (fold_left (fun d a => dset (key a) (val a) d) l d) ->
  In (k, v) d \/ exists a, In a l /\ k = key a /\ v = val a.
Proof.
  revert d. induction l as [|a l IH]; simpl; intros d Hin.
  - left. exact Hin.
  - destruct (IH _ Hin) as [Hd|(a' & Ha' & Hk & Hv)].
    + destruct (In_dset _ _ _ _ _ Hd) as [[-> ->]|Hd']; [|left; exact Hd'].
      right. exists a. auto.
    + right. exists a'. auto.
Qed.

Lemma zeros_convert (n : nat) : exists arr, np_array_f16 (repeat (PFloat 0) n) = Ret arr.
Proof.
  unfold np_array_f16. induction n as [|n [arr IH]]; simpl.
  - eauto.
  - rewrite IH. simpl. eauto.
Qed.

Lemma floats_convert (fl : list float) : exists arr, np_array_f16 (map PFloat fl) = Ret arr.
Proof.
  unfold np_array_f16. induction fl as [|f fl [arr IH]]; simpl.
  - eauto.
  - rewrite IH. simpl. eauto.
Qed.

Lemma np_float16_of_number (v : pyval) (f : float) :
  float_of_number v = Ret f -> np_float16 v = Ret (f16_of_float f).
Proof.
  intros Hf. destruct v; try discriminate; unfold np_float16; rewrite Hf; reflexivity.
Qed.

Lemma in_range_convert (l : list pyval) :
  all_in_range l = true -> exists arr, np_array_f16 l = Ret arr.
Proof.
  unfold np_array_f16, all_in_range. induction l as [|v l IH]; simpl; intros Hall.
  - eauto.
  - apply andb_true_iff in Hall. destruct Hall as [Hv Hl].
    destruct (float_of_number_in_range v Hv) as [f Hf].
    destruct (IH Hl) as [arr Harr].
    rewrite (np_float16_of_number v f Hf). simpl. rewrite Harr. simpl. eauto.
Qed.

Lemma zero_vecs_good (cfg : Config) : good_vecs cfg (_zero_vecs cfg).
Proof.
  intros t vec Hin. unfold _zero_vecs in Hin.
  apply In_fold_dset in Hin. destruct Hin as [[]|(c & Hc & -> & ->)].
  split; [apply in_map; exact Hc | apply zeros_convert].
Qed.

Lemma positional_vector_converts (v : pyval) (d : Z) :
  exists arr, np_array_f16 (positional_vector v d) = Ret arr.
Proof.
  unfold positional_vector. destruct v as [|b|z|f|s|l|dd]; try apply zeros_convert.
  destruct ((len l =? d) && all_in_range l) eqn:Hok; [|apply zeros_convert].
  apply andb_true_iff in Hok. apply in_range_convert. exact (proj2 Hok).
Qed.

Lemma validate_good (cfg : Config) (sub : pyval) (out : vecs) :
  dims_are_tickers cfg -> _validate_submission cfg sub = Ret out -> good_vecs cfg out.
Proof.
  intros Hdims. unfold _validate_submission.
  assert (forall o, Ret (_zero_vecs cfg) = Ret o -> good_vecs cfg o) as Hzero.
  { intros o Heq. injection Heq as <-. apply zero_vecs_good. }
  destruct sub as [|b|z|f|s|l|d]; try apply Hzero.
  - destruct (len l =? len (CHALLENGES cfg)); [|apply Hzero].
    intros Heq. injection Heq as <-. intros t vec Hin. unfold validate_list in Hin.
    apply In_fold_dset in Hin. destruct Hin as [[]|([v c] & Hvc & -> & ->)].
    split.
    + apply in_map. simpl. eapply in_combine_r. exact Hvc.
    + apply positional_vector_converts.
  - assert (forall rest o0 o, good_vecs cfg o0 ->
                              foldM (validate_entry cfg) rest o0 = Ret o -> good_vecs cfg o) as Hfold.
    { induction rest as [|[key vec] rest IH]; intros o0 o Hgood Hrun.
      - simpl in Hrun. injection Hrun as <-. exact Hgood.
      - cbn [foldM] in Hrun.
        destruct (validate_entry cfg o0 (key, vec)) as [o1|e] eqn:Hstep; [|discriminate].
        cbn [bind] in Hrun. refine (IH o1 o _ Hrun).
        unfold validate_entry in Hstep.
        destruct (String.eqb key "hotkey"); [injection Hstep as <-; exact Hgood|].
        destruct (resolve_ticker cfg key) as [t|]; [|injection Hstep as <-; exact Hgood].
        destruct (String.eqb t EmptyString); [injection Hstep as <-; exact Hgood|].
        destruct vec as [|b|z|f|s|l|dd]; try (injection Hstep as <-; exact Hgood).
        destruct (dget t (ASSET_EMBEDDING_DIMS cfg)) as [dm|] eqn:Hdm;
          [|injection Hstep as <-; exact Hgood].
        destruct (negb (len l =? dm)); [injection Hstep as <-; exact Hgood|].
        destruct (negb (all_in_range l)); [injection Hstep as <-; exact Hgood|].
        destruct (mapM float_of_number l) as [fl|e]; [|discriminate].
        cbn [bind] in Hstep. injection Hstep as <-.
        intros t' vec' Hin. destruct (In_dset _ _ _ _ _ Hin) as [[-> ->]|Hold].
        + split; [exact (Hdims t dm Hdm) | apply floats_convert].
        + exact (Hgood t' vec' Hold). }
    intros Hrun. exact (Hfold d (_zero_vecs cfg) out (zero_vecs_good cfg) Hrun).
Qed.

Lemma dec_record_good (cfg : Config) (keys : list nat) (ts : nat) (hk : string) (v : vecs)
    (ws : WorkState) :
  In ts keys -> good_vecs cfg v -> good_dec cfg keys (w_dec ws) ->
  good_dec cfg keys (w_dec (dec_record ts hk v ws)).
Proof.
  intros Hts Hv Hgood. unfold dec_record, dsetdefault.
  match goal with
  | |- context [match ?x with Some _ => _ | None => _ end] =>
      destruct x as [by_hk|] eqn:Hget
  end; simpl.
  - intros ts' by' Hin. destruct (In_dset _ _ _ _ _ Hin) as [[-> ->]|Hold].
    + split; [exact Hts|]. intros hk' v' Hin'.
      destruct (In_dset _ _ _ _ _ Hin') as [[-> ->]|Hold']; [exact Hv|].
      apply dget_In in Hget. exact (proj2 (Hgood ts by_hk Hget) hk' v' Hold').
    + exact (Hgood ts' by' Hold).
  - intros ts' by' Hin. destruct (In_dset _ _ _ _ _ Hin) as [[-> ->]|Hold].
    + split; [exact Hts|]. intros hk' v' Hin'. simpl in Hin'.
      destruct Hin' as [Heq|[]]. injection Heq as <- <-. exact Hv.
    + destruct (In_dset _ _ _ _ _ Hold) as [[-> ->]|Hold'].
      * split; [exact Hts|]. intros hk' v' [].
      * exact (Hgood ts' by' Hold').
Qed.

Lemma v1_attempt_good (cfg : Config) (E : Externals) (d : list (string * pyval))
    (hk : string) (sig : bytes) (v : vecs) :
  dims_are_tickers cfg -> v1_attempt cfg E d hk sig = Ret (Some v) -> good_vecs cfg v.
Proof.
  intros Hdims. unfold v1_attempt. intros H.
  bind_inv H. bind_inv H. bind_inv H. bind_inv H.
  destruct (rsplit_sep a2) as [[emb_str hk_in]|]; [|discriminate].
  destruct (String.eqb hk_in hk); [|discriminate].
  bind_inv H. bind_inv H. injection H as <-.
  eapply validate_good; eauto.
Qed.

Lemma v2_attempt_good (cfg : Config) (E : Externals) (pt : bytes) (hk : string) (v : vecs) :
  dims_are_tickers cfg -> v2_attempt cfg E pt hk = Ret (Some v) -> good_vecs cfg v.
Proof.
  intros Hdims. unfold v2_attempt. intros H.
  bind_inv H. bind_inv H.
  destruct a0 as [|b|z|f|s|l|o]; try discriminate.
  destruct (dget "hotkey"%string o) as [[|b|z|f|s|l|o']|]; try discriminate.
  destruct (String.eqb s hk); [|discriminate].
  bind_inv H. injection H as <-.
  eapply validate_good; eauto.
Qed.

(** An item never makes [_work] raise. *)
Lemma work_item_good (cfg : Config) (E : Externals) (keys : list nat) (sig : option bytes)
    (it : item) (ws : WorkState) :
  dims_are_tickers cfg -> In (item_ts it) keys -> good_dec cfg keys (w_dec ws) ->
  exists ws', work_item cfg E sig it ws = (Ret tt, ws') /\ good_dec cfg keys (w_dec ws').
Proof.
  intros Hdims Hts Hgood. destruct it as [[[ts hk] d] version]. unfold item_ts in Hts.
  simpl in Hts. unfold work_item.
  pose proof (zero_vecs_good cfg) as Hz.
  assert (forall ws0 v, good_dec cfg keys (w_dec ws0) -> good_vecs cfg v ->
            exists ws', modify (dec_record ts hk v) ws0 = (Ret tt, ws')
                        /\ good_dec cfg keys (w_dec ws')) as Hrec.
  { intros ws0 v Hg Hv. eexists. split; [reflexivity|]. apply dec_record_good; assumption. }
  destruct sig as [[|s0 sigb]|]; try (apply Hrec; assumption).
  destruct ((version =? 1) && is_str (dget "ciphertext"%string d)).
  - unfold sbind. cbn [modify].
    destruct (v1_attempt cfg E d hk (s0 :: sigb)) as [[v|]|e] eqn:Hv1.
    + apply Hrec; [exact Hgood | eapply v1_attempt_good; eauto].
    + apply Hrec; assumption.
    + cbn [modify]. apply Hrec; assumption.
  - destruct (version =? 2); [|apply Hrec; assumption].
    unfold sbind. cbn [modify lift].
    match goal with
    | |- context [_decrypt_v2_payload ?c ?e ?p ?s] =>
        destruct (decrypt_v2_returns c e p s) as [pt Hpt]; rewrite Hpt
    end.
    destruct pt as [[|p0 pt]|].
    + cbn [modify]. apply Hrec; assumption.
    + destruct (v2_attempt cfg E (p0 :: pt) hk) as [[v|]|e] eqn:Hv2.
      * apply Hrec; [exact Hgood | eapply v2_attempt_good; eauto].
      * apply Hrec; assumption.
      * cbn [modify]. apply Hrec; assumption.
    + cbn [modify]. apply Hrec; assumption.
Qed.

Lemma work_items_good (cfg : Config) (E : Externals) (keys : list nat) (sig : option bytes)
    (items : list item) (ws : WorkState) :
  dims_are_tickers cfg -> (forall it, In it items -> In (item_ts it) keys) ->
  good_dec cfg keys (w_dec ws) ->
  exists ws', sfor items (work_item cfg E sig) ws = (Ret tt, ws')
              /\ good_dec cfg keys (w_dec ws').
Proof.
  intros Hdims. revert ws. induction items as [|it items IH]; intros ws Hitems Hgood.
  - exists ws. split; [reflexivity | exact Hgood].
  - cbn [sfor]. unfold sbind.
    destruct (work_item_good cfg E keys sig it ws Hdims (Hitems it (or_introl eq_refl)) Hgood)
      as (w2 & Hstep & Hw2).
    rewrite Hstep. apply IH; [|exact Hw2].
    intros it' Hin. apply Hitems. right. exact Hin.
Qed.

Lemma work_good (cfg : Config) (E : Externals) (keys : list nat) (rnd : Z)
    (items : list item) (ws : WorkState) :
  dims_are_tickers cfg -> (forall it, In it items -> In (item_ts it) keys) ->
  good_dec cfg keys (w_dec ws) ->
  exists ws', _work cfg E rnd items ws = (Ret tt, ws') /\ good_dec cfg keys (w_dec ws').
Proof.
  intros Hdims Hitems Hgood. unfold _work.
  destruct (0 <? rnd).
  - destruct (fetch_with_retry E rnd DRAND_SIGNATURE_RETRIES None (w_beacon ws)) as [sg b].
    apply work_items_good; assumption.
  - apply work_items_good; assumption.
Qed.

Lemma works_good (cfg : Config) (E : Externals) (keys : list nat)
    (rounds : dict Z (list item)) (ws : WorkState) :
  dims_are_tickers cfg ->
  (forall rnd items it, In (rnd, items) rounds -> In it items -> In (item_ts it) keys) ->
  good_dec cfg keys (w_dec ws) ->
  exists ws',
    sfor rounds (fun ri : Z * list item => _work cfg E (fst ri) (snd ri)) ws = (Ret tt, ws')
    /\ good_dec cfg keys (w_dec ws').
Proof.
  intros Hdims. revert ws. induction rounds as [|[rnd items] rounds IH]; intros ws Hr Hgood.
  - exists ws. split; [reflexivity | exact Hgood].
  - cbn [sfor]. unfold sbind. cbn [fst snd].
    destruct (work_good cfg E keys rnd items ws Hdims) as (ws1 & Hstep & Hg1).
    { intros it Hin. eapply Hr; [left; reflexivity | exact Hin]. }
    { exact Hgood. }
    rewrite Hstep. apply IH; [|exact Hg1].
    intros rnd' items' it Hin Hit. eapply Hr; [right; exact Hin | exact Hit].
Qed.

Definition rounds_of (acc : scan_state) : dict Z (list item) := fst (fst acc).

Lemma scan_hk_good (E : Externals) (keys : list nat) (ts : nat) (acc : scan_state)
    (kv : string * bytes) :
  In ts keys -> good_rounds keys (rounds_of acc) ->
  (forall d, parse_raw E (snd kv) = PDict d -> version_of (PDict d) <> 0 ->
             round_key E d <> Raise OverflowError) ->
  exists acc', scan_hk E ts acc kv = Ret acc' /\ good_rounds keys (rounds_of acc').
Proof.
  intros Hts Hgood Hco. destruct acc as [[rounds mature] stats]. destruct kv as [hk raw].
  unfold scan_hk. simpl in Hco, Hgood.
  destruct (parse_raw E raw) as [|b|z|f|s|l|d]; try (eexists; split; [reflexivity | exact Hgood]).
  destruct (version_of (PDict d) =? 0) eqn:Hv; [eexists; split; [reflexivity | exact Hgood]|].
  apply Z.eqb_neq in Hv.
  destruct (round_key_cases E d) as [[z Hz]|Hz]; [|destruct (Hco d eq_refl Hv Hz)].
  rewrite Hz. cbn [bind]. eexists. split; [reflexivity|]. simpl.
  intros rnd items it Hin Hit. destruct (In_dset _ _ _ _ _ Hin) as [[-> ->]|Hold].
  - apply in_app_or in Hit. destruct Hit as [Hit|[<-|[]]]; [|exact Hts].
    destruct (dget z rounds) as [old|] eqn:Hget; [|destruct Hit].
    apply dget_In in Hget. exact (Hgood z old it Hget Hit).
  - exact (Hgood rnd items it Hold Hit).
Qed.

Lemma scan_hks_good (E : Externals) (keys : list nat) (ts : nat) (by_hk : dict string bytes)
    (acc : scan_state) :
  In ts keys -> good_rounds keys (rounds_of acc) ->
  (forall hk raw d, In (hk, raw) by_hk -> parse_raw E raw = PDict d ->
                    version_of (PDict d) <> 0 -> round_key E d <> Raise OverflowError) ->
  exists acc', foldM (scan_hk E ts) by_hk acc = Ret acc' /\ good_rounds keys (rounds_of acc').
Proof.
  intros Hts. revert acc. induction by_hk as [|[hk raw] by_hk IH]; intros acc Hgood Hco.
  - exists acc. split; [reflexivity | exact Hgood].
  - cbn [foldM].
    destruct (scan_hk_good E keys ts acc (hk, raw) Hts Hgood) as (acc1 & Hstep & Hg1).
    { intros d Hp Hv. exact (Hco hk raw d (or_introl eq_refl) Hp Hv). }
    rewrite Hstep. cbn [bind]. apply IH; [exact Hg1|].
    intros hk' raw' d Hin. apply (Hco hk' raw' d). right. exact Hin.
Qed.

(** The first loop returns when no mature round overflows. *)
Lemma scan_returns (E : Externals) (L : DataLog) (cur : Z) :
  pending_in_range L -> rounds_coercible E L ->
  exists rounds mature stats,
    scan E (blocks L) cur (raw_payloads L) = Ret (rounds, mature, stats)
    /\ good_rounds (dkeys (raw_payloads L)) rounds.
Proof.
  intros Hrange Hco. unfold scan.
  assert (forall rest acc,
             incl rest (raw_payloads L) ->
             good_rounds (dkeys (raw_payloads L)) (rounds_of acc) ->
             exists acc', foldM (scan_ts E (blocks L) cur) rest acc = Ret acc'
                          /\ good_rounds (dkeys (raw_payloads L)) (rounds_of acc')) as Hfold.
  { induction rest as [|[ts by_hk] rest IH]; intros acc Hincl Hgood.
    - exists acc. split; [reflexivity | exact Hgood].
    - cbn [foldM].
      assert (In (ts, by_hk) (raw_payloads L)) as Hentry by (apply Hincl; left; reflexivity).
      assert (exists acc1, scan_ts E (blocks L) cur acc (ts, by_hk) = Ret acc1
                           /\ good_rounds (dkeys (raw_payloads L)) (rounds_of acc1))
        as (acc1 & Hstep & Hg1).
      { unfold scan_ts, block_at. destruct (Hrange ts by_hk Hentry) as [b Hb].
        rewrite Hb. cbn [bind]. destruct (300 <=? cur - b).
        - apply scan_hks_good; [|exact Hgood|].
          + unfold dkeys. apply in_map_iff. exists (ts, by_hk). auto.
          + intros hk raw d Hin. exact (Hco ts by_hk hk raw d Hentry Hin).
        - exists acc. split; [reflexivity | exact Hgood]. }
      rewrite Hstep. cbn [bind]. apply IH; [|exact Hg1].
      intros x Hx. apply Hincl. right. exact Hx. }
  destruct (Hfold (raw_payloads L) ([], [], stats0) (incl_refl _)) as ([[rounds mature] stats] & Hrun & Hg).
  { intros rnd items it []. }
  exists rounds, mature, stats. split; [exact Hrun | exact Hg].
Qed.

Lemma good_dec_ready (cfg : Config) (L : DataLog) (bl : list Z) (keys : list nat)
    (dec : dict nat (dict string vecs)) :
  has_challenges cfg L -> (forall ts, In ts keys -> exists b, nth_error bl ts = Some b) ->
  good_dec cfg keys dec -> merge_ready bl dec L.
Proof.
  intros Hch Hkeys Hgood ts by_hk Hentry. destruct (Hgood ts by_hk Hentry) as [Hts Hvs].
  split; [exact (Hkeys ts Hts)|]. intros hk vs t vec Hhv Htv.
  destruct (Hvs hk vs Hhv t vec Htv) as [Ht Harr]. split; [exact (Hch t Ht) | exact Harr].
Qed.

Lemma merge_dec_returns (cfg : Config) (bl : list Z) (dec : dict nat (dict string vecs))
    (L : DataLog) :
  merge_ready bl dec L -> exists L', merge_dec cfg bl dec L = (Ret tt, L').
Proof.
  intros Hready.
  destruct (apply_writes_effect (merge_writes cfg bl dec) L) as (L' & Hrun & _).
  { intros t s hk vec Hin. apply in_merge_writes in Hin.
    destruct Hin as (ts & by_hk & vs & b & Hentry & Hhv & Htv & _).
    exact (proj2 (Hready ts by_hk Hentry) hk vs t vec Hhv Htv). }
  exists L'. rewrite merge_dec_flat; [exact Hrun|].
  intros [ts by_hk] Hentry. exact (proj1 (Hready ts by_hk Hentry)).
Qed.

Lemma last_Some_of_nth (bl : list Z) (ts : nat) (b : Z) :
  nth_error bl ts = Some b -> exists cur, last (map Some bl) None = Some cur.
Proof.
  intros Hb. destruct bl as [|b0 bl]; [destruct ts; discriminate|]. clear Hb.
  revert b0. induction bl as [|b1 bl IH]; intros b0.
  - exists b0. reflexivity.
  - destruct (IH b1) as [cur Hcur]. exists cur. exact Hcur.
Qed.

(** A pass returns, whatever the payloads, the beacon and the library
    calls do, unless a mature payload has a round that overflows [int]. *)
Lemma pass_completes (cfg : Config) (E : Externals) (W : World) :
  dims_are_tickers cfg -> has_challenges cfg (ledger W) ->
  pending_in_range (ledger W) -> rounds_coercible E (ledger W) ->
  exists r, fst (process_pending_payloads cfg E W) = Ret r.
Proof.
  intros Hdims Hch Hrange Hco. unfold process_pending_payloads.
  destruct (raw_payloads (ledger W)) as [|[ts0 by0] rp] eqn:Hrp; [eexists; reflexivity|].
  rewrite <- Hrp.
  assert (In (ts0, by0) (raw_payloads (ledger W))) as Hin0 by (rewrite Hrp; left; reflexivity).
  destruct (Hrange ts0 by0 Hin0) as [b0 Hb0].
  destruct (last_Some_of_nth _ _ _ Hb0) as [cur Hcur]. rewrite Hcur.
  destruct (scan_returns E (ledger W) cur Hrange Hco) as (rounds & mature & stats & Hscan & Hrounds).
  rewrite Hscan. destruct mature as [|m0 mature]; [eexists; reflexivity|].
  destruct (works_good cfg E (dkeys (raw_payloads (ledger W))) rounds
              {| w_beacon := (_drand_cache (ledger W), net W); w_stats := stats; w_dec := [] |}
              Hdims Hrounds) as (ws & Hwork & Hdec).
  { intros ts by_hk []. }
  rewrite Hwork.
  destruct (merge_dec_returns cfg (blocks (ledger W)) (w_dec ws)
              (with_drand_cache (ledger W) (fst (w_beacon ws)))) as [L2 Hmerge].
  { apply (good_dec_ready cfg _ _ (dkeys (raw_payloads (ledger W)))); [exact Hch| |exact Hdec].
    intros ts Hts. unfold dkeys in Hts. apply in_map_iff in Hts.
    destruct Hts as ([ts' by_hk] & <- & Hentry). exact (Hrange ts' by_hk Hentry). }
  unfold sbind. rewrite Hmerge. eexists. reflexivity.
Qed.

(** The maturity gate, on a ledger without the overflowing round. *)
Lemma maturity_gate (cfg : Config) (E : Externals) (W : World) (cur : Z) :
  dims_are_tickers cfg -> has_challenges cfg (ledger W) ->
  pending_in_range (ledger W) -> pending_unique (raw_payloads (ledger W)) ->
  rounds_coercible E (ledger W) ->
  last (map Some (blocks (ledger W))) None = Some cur ->
  (exists r, fst (process_pending_payloads cfg E W) = Ret r)
  /\ forall ts by_hk b,
       dget ts (raw_payloads (ledger W)) = Some by_hk ->
       nth_error (blocks (ledger W)) ts = Some b ->
       (cur - b < 300 ->
        dget ts (raw_payloads (ledger (snd (process_pending_payloads cfg E W)))) = Some by_hk)
       /\ (300 <= cur - b -> by_hk <> [] ->
           dget ts (raw_payloads (ledger (snd (process_pending_payloads cfg E W)))) = None).
Proof.
  intros Hdims Hch Hrange Hu Hco Hlast.
  destruct (pass_completes cfg E W Hdims Hch Hrange Hco) as [r Hr].
  split; [eauto|]. exact (maturity_gate_when_pass_returns cfg E W r cur Hu Hr Hlast).
Qed.

(** ** An end-to-end run

    Blocks 100, 200 and 400 are sampled with one challenge of dimension 2;
    at block 100 a hotkey submits a V2 payload for round 7.  At block 400
    the entry is mature: the pass fetches the signature (the first
    transport fails, the second answers), decrypts, validates, writes the
    vector at sample index 1 and removes every pending entry of
    timestep 0. *)
Example scenario_v2 :
  process_pending_payloads ex_cfg ex_E_live ex_world_live = ex_live_outcome
  /\ (exists stats, fst ex_live_outcome = Ret (Some stats)
                    /\ st_v2 stats = 1%nat /\ st_decrypt_failures stats = 0%nat)
  /\ emb_at (ledger (snd ex_live_outcome)) "BTC" 1 "hk-1"
     = Some [ f16_of_float 0.5; f16_of_float (-1) ]
  /\ dkeys (raw_payloads (ledger (snd ex_live_outcome))) = [ 1%nat; 2%nat ]
  /\ net (snd ex_live_outcome) = [ (Requests, 7); (Aiohttp, 7) ]
  /\ _drand_cache (ledger (snd ex_live_outcome)) = [ (7, [ x2a ]) ].
Proof.
  split; [vm_compute; reflexivity|].
  split; [eexists; repeat split|].
  repeat split; vm_compute; reflexivity.
Qed.

(* ===================================================================== *)
(** * Further properties of the ledger and of the validator loop *)

(** ** The digest and the binding *)

Lemma compress_length (h block : list Z) :
  List.length h = 8%nat -> List.length (SHA256.compress h block) = 8%nat.
Proof.
  intros Hh. unfold SHA256.compress. rewrite length_map, length_combine, Hh. reflexivity.
Qed.

Lemma blocks_length (fuel : nat) (l h : list Z) :
  List.length h = 8%nat -> List.length (SHA256.blocks fuel l h) = 8%nat.
Proof.
  revert l h. induction fuel as [|fuel IH]; intros l h Hh; simpl.
  - exact Hh.
  - destruct l as [|x l]; [exact Hh|]. apply IH. apply compress_length. exact Hh.
Qed.

Lemma digest_length (msg : bytes) : List.length (SHA256.digest msg) = 32%nat.
Proof.
  unfold SHA256.digest. rewrite length_map.
  match goal with |- context [SHA256.blocks ?n ?p ?h] =>
    pose proof (blocks_length n p h eq_refl) as Hb; destruct (SHA256.blocks n p h) as [|a [|b [|c [|d [|e [|f [|g [|i [|j r]]]]]]]]]; try discriminate Hb
  end.
  reflexivity.
Qed.

(** X1. Whatever parts it is given, [_sha256] returns 32 bytes, and so
    does [_binding] for every hotkey context, round and pair of keys. *)
Theorem binding_is_32_bytes :
  (forall parts, len (_sha256 parts) = 32)
  /\ (forall hk rnd owner_pk pke, len (_binding hk rnd owner_pk pke) = 32).
Proof.
  assert (forall parts, len (_sha256 parts) = 32) as Hsha.
  { intros parts. unfold len, _sha256. rewrite digest_length. reflexivity. }
  split; [exact Hsha|]. intros hk rnd owner_pk pke. unfold _binding. apply Hsha.
Qed.

(** X2. A V2 payload whose declared binding does not decode to exactly
    32 bytes is never decrypted, whatever the rest of it holds. *)
Theorem short_binding_rejected (cfg : Config) (E : Externals) (payload : pyval)
    (sig : option bytes) (declared : bytes) :
  declared_binding payload = Ret declared ->
  len declared <> 32 ->
  _decrypt_v2_payload cfg E payload sig = Ret None.
Proof.
  intros Hdecl Hlen.
  destruct (decrypt_v2_returns cfg E payload sig) as [[pt|] Hr]; [|exact Hr].
  exfalso. apply decrypt_v2_some_iff in Hr.
  destruct Hr as [sigb owner_pk pke declared' ? ? ? ? ? ? ? ? hk rnd ? ? ? ? ? ? ? ? ? ? Hd Hb].
  assert (declared' = declared) as -> by congruence.
  apply Hlen. rewrite Hb. unfold len, _binding, _sha256. rewrite digest_length. reflexivity.
Qed.

Lemma short_binding_rejected_witness :
  declared_binding ex_payload_short_binding = Ret [x00]
  /\ _decrypt_v2_payload ex_cfg ex_E ex_payload_short_binding (Some ex_sig) = Ret None.
Proof.
  split; [reflexivity|].
  apply (short_binding_rejected ex_cfg ex_E ex_payload_short_binding (Some ex_sig) [x00]).
  - reflexivity.
  - discriminate.
Defined.

(** ** The decoding of the time-locked secret *)

(** [bytes.fromhex] raises nothing but [ValueError]. *)
Lemma fromhex_cases (s : string) :
  (exists b, fromhex s = Ret b) \/ fromhex s = Raise ValueError.
Proof.
  assert (forall n s, (String.length s <= n)%nat ->
                      (exists b, fromhex s = Ret b) \/ fromhex s = Raise ValueError) as Hn.
  { induction n as [|n IH]; intros s0 Hlen.
    - destruct s0; [left; eexists; reflexivity | simpl in Hlen; lia].
    - destruct s0 as [|c s1]; [left; eexists; reflexivity|].
      simpl in Hlen. cbn [fromhex].
      destruct (is_space c); [apply IH; lia|].
      destruct (hex_digit c) as [hi|]; [|right; reflexivity].
      destruct s1 as [|d s2]; [right; reflexivity|].
      destruct (hex_digit d) as [lo|]; [|right; reflexivity].
      simpl in Hlen. destruct (IH s2 ltac:(lia)) as [[b Hb]|Hb]; rewrite Hb; simpl; eauto. }
  exact (Hn (String.length s) s (le_n _)).
Qed.

(** X3. Decoding what the time-lock hands back never raises.  A [str] is
    taken as hexadecimal, and as its UTF-8 bytes when it is not
    hexadecimal; a byte string is taken as it is, unless it has 128 bytes
    that are ASCII hexadecimal, which are then decoded. *)
Theorem decode_skeK_total (out : tld_out) :
  exists b,
    decode_skeK out = Ret b
    /\ match out with
       | TldStr s =>
           fromhex s = Ret b \/ (fromhex s = Raise ValueError /\ b = str_encode s)
       | TldBytes raw =>
           (b = raw /\ (len raw <> 128
                        \/ decode_ascii raw = Raise UnicodeDecodeError
                        \/ exists s, decode_ascii raw = Ret s /\ fromhex s = Raise ValueError))
           \/ (len raw = 128 /\ exists s, decode_ascii raw = Ret s /\ fromhex s = Ret b)
       end.
Proof.
  destruct out as [s|raw]; unfold decode_skeK.
  - destruct (fromhex_cases s) as [[b Hb]|Hb]; rewrite Hb; simpl.
    + exists b. auto.
    + exists (str_encode s). auto.
  - destruct (len raw =? 128) eqn:Hlen.
    + apply Z.eqb_eq in Hlen. unfold decode_ascii.
      destruct (forallb (fun x => byte_val x <? 128) raw); simpl.
      * destruct (fromhex_cases (string_of_list_byte raw)) as [[b Hb]|Hb]; rewrite Hb; simpl.
        -- exists b. split; [reflexivity|]. right. split; [exact Hlen|]. eauto.
        -- exists raw. split; [reflexivity|]. left. split; [reflexivity|]. right. right. eauto.
      * exists raw. split; [reflexivity|]. left. auto.
    + apply Z.eqb_neq in Hlen. exists raw. split; [reflexivity|]. left. auto.
Qed.

(** One byte written by [hex] is read back by [fromhex]. *)
Lemma fromhex_tohex_byte (x : byte) (s : string) :
  fromhex (String (hex_char (byte_val x / 16)) (String (hex_char (byte_val x mod 16)) s))
  = (rest <- fromhex s ;; Ret (x :: rest)).
Proof. destruct x; reflexivity. Qed.

Lemma fromhex_tohex (b : bytes) : fromhex (tohex b) = Ret b.
Proof.
  induction b as [|x b IH]; [reflexivity|].
  cbn [tohex]. rewrite fromhex_tohex_byte, IH. reflexivity.
Qed.

Lemma tohex_ascii (b : bytes) :
  forallb (fun x => byte_val x <? 128) (str_encode (tohex b)) = true.
Proof.
  induction b as [|x b IH]; [reflexivity|].
  unfold str_encode, list_byte_of_string in *. cbn [tohex list_ascii_of_string map forallb].
  rewrite IH. destruct x; reflexivity.
Qed.

Lemma tohex_length (b : bytes) : len (str_encode (tohex b)) = 2 * len b.
Proof.
  unfold len, str_encode, list_byte_of_string. rewrite length_map.
  induction b as [|x b IH]; [reflexivity|].
  cbn [tohex list_ascii_of_string List.length]. lia.
Qed.

(** X4. The three wire encodings of a 64-byte secret decode to the same
    64 bytes: the raw bytes, their hexadecimal text as a [str], and that
    text as 128 ASCII bytes. *)
Theorem secret_wire_encodings (k : bytes) :
  len k = 64 ->
  decode_skeK (TldBytes k) = Ret k
  /\ decode_skeK (TldStr (tohex k)) = Ret k
  /\ decode_skeK (TldBytes (str_encode (tohex k))) = Ret k.
Proof.
  intros Hlen. unfold decode_skeK. split; [|split].
  - rewrite Hlen. reflexivity.
  - rewrite fromhex_tohex. reflexivity.
  - rewrite tohex_length, Hlen. cbn [Z.mul Pos.mul Z.eqb Pos.eqb].
    unfold decode_ascii. rewrite tohex_ascii.
    unfold str_encode. rewrite string_of_list_byte_of_string. cbn [bind].
    rewrite fromhex_tohex. reflexivity.
Qed.

Lemma secret_wire_encodings_witness :
  decode_skeK (TldBytes (ex_ske ++ ex_key)) = Ret (ex_ske ++ ex_key)
  /\ decode_skeK (TldStr (tohex (ex_ske ++ ex_key))) = Ret (ex_ske ++ ex_key)
  /\ decode_skeK (TldBytes (str_encode (tohex (ex_ske ++ ex_key)))) = Ret (ex_ske ++ ex_key).
Proof. apply (secret_wire_encodings (ex_ske ++ ex_key)). reflexivity. Defined.

(** ** The message of the binding is unambiguous for keys of fixed length *)

Lemma app_inv_length_tail {A : Type} (l1 l2 s1 s2 : list A) :
  l1 ++ s1 = l2 ++ s2 -> List.length s1 = List.length s2 -> l1 = l2 /\ s1 = s2.
Proof.
  intros Heq Hlen.
  assert (List.length l1 = List.length l2) as Hl.
  { apply (f_equal (@List.length A)) in Heq. rewrite !length_app in Heq. lia. }
  revert l2 Heq Hl. induction l1 as [|x l1 IH]; intros [|y l2] Heq Hl;
    simpl in *; try discriminate.
  - auto.
  - injection Heq as -> Heq. destruct (IH l2 Heq ltac:(lia)) as [-> ->]. auto.
Qed.

Lemma split_at_last_sep {A : Type} (c : A) (h h' r r' : list A) :
  ~ In c r -> ~ In c r' -> h ++ c :: r = h' ++ c :: r' -> h = h' /\ r = r'.
Proof.
  intros Hr Hr'. revert h'. induction h as [|x h IH]; intros [|y h'] Heq; simpl in *.
  - injection Heq as ->. auto.
  - injection Heq as -> ->. exfalso. apply Hr. apply in_or_app. right. left. reflexivity.
  - injection Heq as -> <-. exfalso. apply Hr'. apply in_or_app. right. left. reflexivity.
  - injection Heq as -> Heq. destruct (IH h' Heq) as [-> ->]. auto.
Qed.

Lemma digit_char_val (d : Z) : 0 <= d < 10 -> digit_val (digit_char d) = d.
Proof.
  intros Hd. unfold digit_val, digit_char. rewrite N_ascii_embedding by lia. lia.
Qed.

Lemma dec_acc_app (p q : list ascii) (a : Z) : dec_acc (p ++ q) a = dec_acc q (dec_acc p a).
Proof. unfold dec_acc. apply fold_left_app. Qed.

(** The digits that [str] writes for a natural number: they come before
    the accumulator, are decimal digits, and read back as the number. *)
Lemma str_of_pos_aux_spec (fuel : nat) (n : Z) (acc : string) :
  0 <= n ->
  exists p,
    list_ascii_of_string (str_of_pos_aux fuel n acc) = p ++ list_ascii_of_string acc
    /\ Forall is_digit p
    /\ (fuel <> O -> p <> [])
    /\ (n < 2 ^ Z.of_nat fuel -> dec_acc p 0 = n).
Proof.
  revert n acc. induction fuel as [|fuel IH]; intros n acc Hn.
  - exists []. repeat split; auto. intros Hlt. simpl in Hlt. simpl. lia.
  - cbn [str_of_pos_aux].
    assert (0 <= n mod 10 < 10) as Hmod by (apply Z.mod_pos_bound; lia).
    assert (is_digit (digit_char (n mod 10))) as Hdig.
    { unfold is_digit. rewrite digit_char_val by exact Hmod. exact Hmod. }
    destruct (n <? 10) eqn:Hsmall.
    + apply Z.ltb_lt in Hsmall. exists [digit_char (n mod 10)]. repeat split.
      * constructor; [exact Hdig | constructor].
      * discriminate.
      * intros _. unfold dec_acc. cbn [fold_left]. rewrite digit_char_val by exact Hmod.
        rewrite Z.mod_small by lia. lia.
    + apply Z.ltb_ge in Hsmall.
      destruct (IH (n / 10) (String (digit_char (n mod 10)) acc)) as (p & Hp & Hdigs & _ & Hval).
      { apply Z.div_pos; lia. }
      exists (p ++ [digit_char (n mod 10)]). repeat split.
      * rewrite Hp. cbn [list_ascii_of_string]. rewrite <- app_assoc. reflexivity.
      * apply Forall_app. split; [exact Hdigs | constructor; [exact Hdig | constructor]].
      * intros _ Hnil. apply app_eq_nil in Hnil. destruct Hnil as [_ Hnil]. discriminate.
      * intros Hlt. rewrite dec_acc_app. rewrite Hval.
        -- unfold dec_acc. cbn [fold_left]. rewrite digit_char_val by exact Hmod.
           pose proof (Z.div_mod n 10 ltac:(lia)). lia.
        -- apply Z.div_lt_upper_bound; [lia|].
           rewrite Nat2Z.inj_succ, Z.pow_succ_r in Hlt by lia. lia.
Qed.

Lemma str_of_nonneg_spec (n : Z) :
  0 <= n ->
  exists p, list_ascii_of_string (str_of_pos_aux (Z.to_nat (Z.log2 n) + 1) n EmptyString) = p
            /\ Forall is_digit p /\ p <> [] /\ dec_acc p 0 = n.
Proof.
  intros Hn.
  destruct (str_of_pos_aux_spec (Z.to_nat (Z.log2 n) + 1) n EmptyString Hn)
    as (p & Hp & Hdigs & Hne & Hval).
  exists p. simpl in Hp. rewrite app_nil_r in Hp. repeat split; auto.
  - apply Hne. lia.
  - apply Hval. rewrite Nat2Z.inj_add, Z2Nat.id by apply Z.log2_nonneg.
    destruct (Z.eq_dec n 0) as [->|Hnz]; [reflexivity|].
    apply Z.log2_spec. lia.
Qed.

Lemma str_of_int_inj (n m : Z) : str_of_int n = str_of_int m -> n = m.
Proof.
  intros Heq. apply (f_equal list_ascii_of_string) in Heq. unfold str_of_int in Heq.
  assert (forall p, Forall is_digit p -> p <> [] -> forall q, "-"%char :: q <> p) as Hmix.
  { intros p Hp Hne q Hq. subst p. inversion Hp as [|? ? Hd _].
    unfold is_digit, digit_val in Hd. simpl in Hd. lia. }
  destruct (n <? 0) eqn:Hn, (m <? 0) eqn:Hm;
    [apply Z.ltb_lt in Hn, Hm | apply Z.ltb_lt in Hn; apply Z.ltb_ge in Hm
     | apply Z.ltb_ge in Hn; apply Z.ltb_lt in Hm | apply Z.ltb_ge in Hn, Hm].
  - destruct (str_of_nonneg_spec (- n) ltac:(lia)) as (p & Hp & _ & _ & Hv).
    destruct (str_of_nonneg_spec (- m) ltac:(lia)) as (q & Hq & _ & _ & Hw).
    cbn [list_ascii_of_string] in Heq. rewrite Hp, Hq in Heq. injection Heq as ->. lia.
  - destruct (str_of_nonneg_spec (- n) ltac:(lia)) as (p & Hp & _).
    destruct (str_of_nonneg_spec m Hm) as (q & Hq & Hd & Hne & _).
    cbn [list_ascii_of_string] in Heq. rewrite Hp, Hq in Heq. destruct (Hmix q Hd Hne p Heq).
  - destruct (str_of_nonneg_spec n Hn) as (p & Hp & Hd & Hne & _).
    destruct (str_of_nonneg_spec (- m) ltac:(lia)) as (q & Hq & _).
    cbn [list_ascii_of_string] in Heq. rewrite Hp, Hq in Heq.
    symmetry in Heq. destruct (Hmix p Hd Hne q Heq).
  - destruct (str_of_nonneg_spec n Hn) as (p & Hp & _ & _ & Hv).
    destruct (str_of_nonneg_spec m Hm) as (q & Hq & _ & _ & Hw).
    rewrite Hp, Hq in Heq. subst q. lia.
Qed.

(** [str] of an [int] holds no colon. *)
Lemma str_of_int_no_colon (n : Z) : ~ In x3a (str_encode (str_of_int n)).
Proof.
  unfold str_encode, list_byte_of_string. intros Hin. apply in_map_iff in Hin.
  destruct Hin as (c & Hc & Hin).
  assert (c = ":"%char) as ->.
  { rewrite <- (ascii_of_byte_of_ascii c), Hc. reflexivity. }
  assert (forall p, Forall is_digit p -> ~ In ":"%char p) as Hdig.
  { intros p Hp Hcol. rewrite Forall_forall in Hp. specialize (Hp _ Hcol).
    unfold is_digit, digit_val in Hp. simpl in Hp. lia. }
  unfold str_of_int in Hin. destruct (n <? 0) eqn:Hn.
  - apply Z.ltb_lt in Hn.
    destruct (str_of_nonneg_spec (- n) ltac:(lia)) as (p & Hp & Hd & _).
    cbn [list_ascii_of_string] in Hin. rewrite Hp in Hin.
    destruct Hin as [Hin|Hin]; [discriminate Hin | exact (Hdig p Hd Hin)].
  - apply Z.ltb_ge in Hn.
    destruct (str_of_nonneg_spec n Hn) as (p & Hp & Hd & _).
    rewrite Hp in Hin. exact (Hdig p Hd Hin).
Qed.

Lemma str_encode_inj (s t : string) : str_encode s = str_encode t -> s = t.
Proof.
  unfold str_encode. intros Heq.
  rewrite <- (string_of_list_byte_of_string s), <- (string_of_list_byte_of_string t), Heq.
  reflexivity.
Qed.

(** X5. [_binding] is the SHA-256 of the hotkey context, the decimal
    round, the owner key and the ephemeral key with a colon between each
    two.  For keys of fixed lengths that message determines its four
    components, so two contexts share a binding only through a collision
    of the hash; without the constraint on the lengths a colon can move
    from one key to the other and the binding is the same. *)
Theorem binding_encoding_unambiguous :
  (forall hk rnd owner_pk pke,
      _binding hk rnd owner_pk pke = SHA256.digest (binding_message hk rnd owner_pk pke))
  /\ (forall hk rnd owner_pk pke hk' rnd' owner_pk' pke',
         len owner_pk = len owner_pk' -> len pke = len pke' ->
         binding_message hk rnd owner_pk pke = binding_message hk' rnd' owner_pk' pke' ->
         hk = hk' /\ rnd = rnd' /\ owner_pk = owner_pk' /\ pke = pke')
  /\ (forall hk rnd a b c,
         _binding hk rnd (a ++ str_encode ":" ++ b) c
         = _binding hk rnd a (b ++ str_encode ":" ++ c)).
Proof.
  split; [intros; apply binding_preimage|]. split.
  - intros hk rnd o p hk' rnd' o' p' Ho Hp Heq. unfold binding_message in Heq.
    unfold len in Ho, Hp. apply Nat2Z.inj in Ho, Hp.
    rewrite !app_assoc in Heq.
    apply app_inv_length_tail in Heq; [|exact Hp]. destruct Heq as [Heq ->].
    apply app_inv_length_tail in Heq; [|reflexivity]. destruct Heq as [Heq _].
    apply app_inv_length_tail in Heq; [|exact Ho]. destruct Heq as [Heq ->].
    apply app_inv_length_tail in Heq; [|reflexivity]. destruct Heq as [Heq _].
    rewrite <- !app_assoc in Heq.
    change (str_encode ":") with [x3a] in Heq. cbn [app] in Heq.
    apply split_at_last_sep in Heq; try apply str_of_int_no_colon.
    destruct Heq as [Hhk Hrnd].
    apply str_encode_inj in Hhk, Hrnd. apply str_of_int_inj in Hrnd. auto.
  - intros hk rnd a b c. rewrite !binding_preimage. rewrite <- !app_assoc. reflexivity.
Qed.

(** ** What the validator lets through *)

(** A property of the vectors of [_validate_submission] follows from the
    three ways a vector is produced. *)
Lemma validate_each (cfg : Config) (P : string -> list pyval -> Prop) :
  (forall c, In c (CHALLENGES cfg) -> P (c_ticker c) (repeat (PFloat 0) (Z.to_nat (c_dim c)))) ->
  (forall c l, In c (CHALLENGES cfg) -> len l = c_dim c -> all_in_range l = true ->
               P (c_ticker c) l) ->
  (forall t dm l fl, dget t (ASSET_EMBEDDING_DIMS cfg) = Some dm -> len l = dm ->
                     all_in_range l = true -> mapM float_of_number l = Ret fl ->
                     P t (map PFloat fl)) ->
  forall sub out, _validate_submission cfg sub = Ret out ->
  forall t vec, In (t, vec) out -> P t vec.
Proof.
  intros Hzero Hpos Hmap sub out. unfold _validate_submission.
  assert (forall t vec, In (t, vec) (_zero_vecs cfg) -> P t vec) as Hz.
  { intros t vec Hin. unfold _zero_vecs in Hin. apply In_fold_dset in Hin.
    destruct Hin as [[]|(c & Hc & -> & ->)]. apply Hzero. exact Hc. }
  assert (forall o, Ret (_zero_vecs cfg) = Ret o -> forall t vec, In (t, vec) o -> P t vec)
    as Hzero'.
  { intros o Heq. injection Heq as <-. exact Hz. }
  destruct sub as [|b|z|f|s|l|d]; try apply Hzero'.
  - destruct (len l =? len (CHALLENGES cfg)); [|apply Hzero'].
    intros Heq. injection Heq as <-. intros t vec Hin. unfold validate_list in Hin.
    apply In_fold_dset in Hin. destruct Hin as [[]|([v c] & Hvc & -> & ->)].
    cbn [fst snd]. apply in_combine_r in Hvc. unfold positional_vector.
    destruct v as [|b|z|f|s|l0|dd]; try (apply Hzero; exact Hvc).
    destruct ((len l0 =? c_dim c) && all_in_range l0) eqn:Hok; [|apply Hzero; exact Hvc].
    apply andb_true_iff in Hok. destruct Hok as [Hl Hr]. apply Z.eqb_eq in Hl.
    apply Hpos; assumption.
  - assert (forall rest o0 o, (forall t vec, In (t, vec) o0 -> P t vec) ->
                              foldM (validate_entry cfg) rest o0 = Ret o ->
                              forall t vec, In (t, vec) o -> P t vec) as Hfold.
    { induction rest as [|[key vec] rest IH]; intros o0 o Hgood Hrun.
      - simpl in Hrun. injection Hrun as <-. exact Hgood.
      - cbn [foldM] in Hrun.
        destruct (validate_entry cfg o0 (key, vec)) as [o1|e] eqn:Hstep; [|discriminate].
        cbn [bind] in Hrun. refine (IH o1 o _ Hrun).
        unfold validate_entry in Hstep.
        destruct (String.eqb key "hotkey"); [injection Hstep as <-; exact Hgood|].
        destruct (resolve_ticker cfg key) as [t|]; [|injection Hstep as <-; exact Hgood].
        destruct (String.eqb t EmptyString); [injection Hstep as <-; exact Hgood|].
        destruct vec as [|b|z|f|s|l|dd]; try (injection Hstep as <-; exact Hgood).
        destruct (dget t (ASSET_EMBEDDING_DIMS cfg)) as [dm|] eqn:Hdm;
          [|injection Hstep as <-; exact Hgood].
        destruct (len l =? dm) eqn:Hlen; [|injection Hstep as <-; exact Hgood].
        destruct (all_in_range l) eqn:Hall; [|injection Hstep as <-; exact Hgood].
        cbn [negb] in Hstep.
        destruct (mapM float_of_number l) as [fl|e] eqn:Hfl; [|discriminate].
        cbn [bind] in Hstep. injection Hstep as <-.
        intros t' vec' Hin. destruct (In_dset _ _ _ _ _ Hin) as [[-> ->]|Hold].
        + apply Z.eqb_eq in Hlen. eapply Hmap; eauto.
        + exact (Hgood t' vec' Hold). }
    intros Hrun. exact (Hfold d (_zero_vecs cfg) out Hz Hrun).
Qed.

Lemma float_of_number_stays_in_range (v : pyval) (f : float) :
  is_number v && in_unit_range v = true -> float_of_number v = Ret f ->
  in_unit_range (PFloat f) = true.
Proof.
  destruct v as [|b|z|g|s|l|d]; simpl; try discriminate; intros Hr Hf.
  - injection Hf as <-. destruct b; reflexivity.
  - apply andb_true_iff in Hr. destruct Hr as [Hlo Hhi]. apply Z.leb_le in Hlo, Hhi.
    assert (z = -1 \/ z = 0 \/ z = 1) as [->|[->| ->]] by lia;
      vm_compute in Hf; injection Hf as <-; reflexivity.
  - injection Hf as <-. exact Hr.
Qed.

Lemma floats_stay_in_range (l : list pyval) (fl : list float) :
  all_in_range l = true -> mapM float_of_number l = Ret fl ->
  all_in_range (map PFloat fl) = true.
Proof.
  unfold all_in_range. revert fl. induction l as [|v l IH]; intros fl Hall Hfl; simpl in *.
  - injection Hfl as <-. reflexivity.
  - apply andb_true_iff in Hall. destruct Hall as [Hv Hl].
    destruct (float_of_number v) as [f|e] eqn:Hf; [|discriminate]. cbn [bind] in Hfl.
    destruct (mapM float_of_number l) as [fl'|e]; [|discriminate]. cbn [bind] in Hfl.
    injection Hfl as <-. cbn [map forallb is_number andb].
    rewrite (float_of_number_stays_in_range v f Hv Hf). apply (IH fl' Hl eq_refl).
Qed.

(** X6. Every element of every vector that [_validate_submission]
    returns is a number between -1 and 1: nothing out of range, no NaN
    and no value of another type reaches the ledger through it, on any
    input and with any configuration. *)
Theorem validated_vectors_in_range (cfg : Config) (sub : pyval) (out : vecs) :
  _validate_submission cfg sub = Ret out ->
  forall t vec v, In (t, vec) out -> In v vec ->
    is_number v = true /\ in_unit_range v = true.
Proof.
  intros Hrun t vec v Hin Hv.
  assert (all_in_range vec = true) as Hall.
  { apply (validate_each cfg (fun _ vec => all_in_range vec = true)) with (sub := sub)
        (out := out) (t := t); try assumption.
    - intros c _. unfold all_in_range. induction (Z.to_nat (c_dim c)) as [|n IH]; [reflexivity|].
      cbn [repeat forallb]. rewrite IH. reflexivity.
    - intros c l _ _ Hr. exact Hr.
    - intros t0 dm l fl _ _ Hr Hfl. exact (floats_stay_in_range l fl Hr Hfl). }
  unfold all_in_range in Hall. rewrite forallb_forall in Hall.
  apply andb_true_iff. exact (Hall v Hv).
Qed.

Lemma validated_vectors_in_range_witness :
  _validate_submission ex_cfg ex_submission = Ret [ ("BTC"%string, [ PFloat 0.5; PInt (-1) ]) ]
  /\ forall t vec v,
       In (t, vec) [ ("BTC"%string, [ PFloat 0.5; PInt (-1) ]) ] -> In v vec ->
       is_number v = true /\ in_unit_range v = true.
Proof.
  split; [vm_compute; reflexivity|].
  apply (validated_vectors_in_range ex_cfg ex_submission). vm_compute. reflexivity.
Defined.

(** ** Invariants of stateful computations *)

(** [keeps P m]: the state after [m] satisfies [P] when the state before
    does, whether [m] returns or raises. *)
Definition keeps {S A : Type} (P : S -> Prop) (m : SE S A) : Prop :=
  forall s, P s -> P (snd (m s)).

Lemma keeps_sret {S A : Type} (P : S -> Prop) (a : A) : keeps P (sret a).
Proof. intros s Hs. exact Hs. Qed.

Lemma keeps_lift {S A : Type} (P : S -> Prop) (r : res A) : keeps P (lift r).
Proof. intros s Hs. exact Hs. Qed.

Lemma keeps_sbind {S A B : Type} (P : S -> Prop) (m : SE S A) (k : A -> SE S B) :
  keeps P m -> (forall a, keeps P (k a)) -> keeps P (sbind m k).
Proof.
  intros Hm Hk s Hs. unfold sbind. specialize (Hm s Hs).
  destruct (m s) as [[a|e] s']; simpl in *.
  - apply Hk. exact Hm.
  - exact Hm.
Qed.

Lemma keeps_sfor {S A : Type} (P : S -> Prop) (l : list A) (body : A -> SE S unit) :
  (forall x, In x l -> keeps P (body x)) -> keeps P (sfor l body).
Proof.
  induction l as [|x l IH]; intros Hbody; simpl.
  - apply keeps_sret.
  - apply keeps_sbind; [apply Hbody; left; reflexivity|].
    intros _. apply IH. intros y Hy. apply Hbody. right. exact Hy.
Qed.

Section DictMaps.
Context {K V : Type} `{EqKey K}.

Lemma In_dset_other (k k' : K) (v v' : V) (d : dict K V) :
  k' <> k -> In (k', v') d -> In (k', v') (dset k v d).
Proof.
  intros Hne. induction d as [|[k0 v0] d IH]; simpl; [auto|].
  destruct (keqb k k0) eqn:Hk; simpl.
  - apply keqb_eq in Hk. subst k0. intros [Heq|Hin]; [|right; exact Hin].
    injection Heq as Heq _. congruence.
  - intros [Heq|Hin]; [left; exact Heq | right; apply IH; exact Hin].
Qed.

Lemma NoDup_dset (k : K) (v : V) (d : dict K V) :
  NoDup (dkeys d) -> NoDup (dkeys (dset k v d)).
Proof.
  intros Hnd. rewrite dkeys_dset. unfold dmem.
  destruct (dget k d) eqn:Hg; [exact Hnd|].
  apply dget_None_notin in Hg.
  apply NoDup_app; [exact Hnd | constructor; [intros [] | constructor] |].
  intros x Hx [<-|[]]. contradiction.
Qed.

(** A map over the entries that keeps the keys. *)
Lemma dget_map_entries (g : K * V -> K * V) (k : K) (d : dict K V) :
  (forall x, fst (g x) = fst x) ->
  dget k (map g d) = option_map (fun v => snd (g (k, v))) (dget k d).
Proof.
  intros Hg. induction d as [|[k0 v0] d IH]; simpl; [reflexivity|].
  pose proof (Hg (k0, v0)) as Hk0. destruct (g (k0, v0)) as [k1 v1] eqn:Hgx.
  simpl in Hk0. subst k1.
  destruct (keqb k k0) eqn:Hk.
  - apply keqb_eq in Hk. subst k0. simpl. rewrite Hgx. reflexivity.
  - exact IH.
Qed.

Lemma dkeys_map_entries (g : K * V -> K * V) (d : dict K V) :
  (forall x, fst (g x) = fst x) -> dkeys (map g d) = dkeys d.
Proof.
  intros Hg. unfold dkeys. rewrite map_map. apply map_ext. exact Hg.
Qed.

Lemma dget_filter_keys (p : K -> bool) (k : K) (d : dict K V) :
  dget k (filter (fun kv : K * V => p (fst kv)) d) = if p k then dget k d else None.
Proof.
  induction d as [|[k0 v0] d IH]; simpl; [destruct (p k); reflexivity|].
  destruct (p k0) eqn:Hp0; simpl.
  - destruct (keqb k k0) eqn:Hk.
    + apply keqb_eq in Hk. subst k0. rewrite Hp0. reflexivity.
    + exact IH.
  - destruct (keqb k k0) eqn:Hk.
    + apply keqb_eq in Hk. subst k0. rewrite Hp0 in IH |- *. exact IH.
    + exact IH.
Qed.

End DictMaps.

(** ** What [append_step] leaves in the ledger *)

(** The prices are recorded before the loop over the hotkeys, which
    touches the pending payloads only. *)
Lemma append_step_challenges (cfg : Config) (E : Externals) (block : Z)
    (prices : dict string float) (payloads : dict string pyval) (hks : list string)
    (L : DataLog) :
  challenges (snd (append_step cfg E block prices payloads hks L))
  = map (fun tc : string * ChallengeData =>
           match dget (fst tc) prices with
           | Some p => (fst tc, set_price (snd tc) (block / sample_every cfg) p)
           | None => tc
           end) (challenges L).
Proof.
  unfold append_step, sbind, modify.
  match goal with |- context [sfor hks ?body ?s0] =>
    pose proof (preserves_sfor challenges hks body) as Hp; specialize (Hp
      ltac:(intros hk; apply preserves_sbind; [apply preserves_lift|];
            intros raw s; destruct (dget _ (raw_payloads s)); reflexivity) s0)
  end.
  etransitivity; [exact Hp|]. reflexivity.
Qed.

Lemma append_step_cache (cfg : Config) (E : Externals) (block : Z)
    (prices : dict string float) (payloads : dict string pyval) (hks : list string)
    (L : DataLog) :
  _drand_cache (snd (append_step cfg E block prices payloads hks L)) = _drand_cache L.
Proof.
  unfold append_step, sbind, modify.
  match goal with |- context [sfor hks ?body ?s0] =>
    pose proof (preserves_sfor _drand_cache hks body) as Hp; specialize (Hp
      ltac:(intros hk; apply preserves_sbind; [apply preserves_lift|];
            intros raw s; destruct (dget _ (raw_payloads s)); reflexivity) s0)
  end.
  etransitivity; [exact Hp|]. reflexivity.
Qed.

(** The pending payloads of a ledger are well formed: every timestep is a
    position of the block list, and no key occurs twice. *)
Definition pending_wf (L : DataLog) : Prop :=
  pending_in_range L /\ pending_unique (raw_payloads L).

Lemma pending_wf_store (L : DataLog) (ts : nat) (by_hk : dict string bytes) :
  pending_wf L -> (exists b, nth_error (blocks L) ts = Some b) -> NoDup (dkeys by_hk) ->
  pending_wf (with_raw_payloads L (dset ts by_hk (raw_payloads L))).
Proof.
  intros [Hrange [Hkeys Hinner]] Hts Hnd. split; [|split].
  - intros ts' by' Hin. cbn [raw_payloads with_raw_payloads blocks] in *.
    destruct (In_dset _ _ _ _ _ Hin) as [[-> _]|Hold]; [exact Hts | exact (Hrange ts' by' Hold)].
  - cbn [raw_payloads with_raw_payloads]. apply NoDup_dset. exact Hkeys.
  - cbn [raw_payloads with_raw_payloads]. intros ts' by' Hg.
    destruct (Nat.eq_dec ts' ts) as [->|Hne].
    + rewrite dget_dset_same in Hg. injection Hg as <-. exact Hnd.
    + rewrite dget_dset_other in Hg by exact Hne. exact (Hinner ts' by' Hg).
Qed.

Lemma append_step_pending (cfg : Config) (E : Externals) (block : Z)
    (prices : dict string float) (payloads : dict string pyval) (hks : list string)
    (L : DataLog) :
  pending_wf L -> pending_wf (snd (append_step cfg E block prices payloads hks L)).
Proof.
  intros Hwf. unfold append_step, sbind, modify.
  match goal with |- context [sfor hks ?body ?s0] =>
    apply (keeps_sfor pending_wf hks body)
  end.
  - intros hk _. apply keeps_sbind; [apply keeps_lift|]. intros raw s Hs.
    destruct (dget _ (raw_payloads s)) as [by_hk|] eqn:Hg; [|exact Hs].
    cbn [snd]. apply pending_wf_store; [exact Hs | |].
    + apply dget_In in Hg. exact (proj1 Hs _ _ Hg).
    + apply NoDup_dset. exact (proj2 (proj2 Hs) _ _ Hg).
  - match goal with |- pending_wf (with_challenges ?L1 _) =>
      assert (pending_wf L1) as H1
    end.
    { cbn [blocks with_blocks raw_payloads]. rewrite length_app. cbn [List.length].
      replace (List.length (blocks L) + 1 - 1)%nat with (List.length (blocks L)) by lia.
      assert (pending_wf (with_blocks L (blocks L ++ [block]))) as Hb.
      { destruct Hwf as [Hrange Hu]. split; [|exact Hu].
        intros ts by_hk Hin. destruct (Hrange ts by_hk Hin) as [b Hb].
        exists b. cbn [blocks with_blocks]. rewrite nth_error_app1; [exact Hb|].
        apply nth_error_Some. congruence. }
      apply (pending_wf_store _ _ [] Hb); [|constructor].
      exists block. cbn [blocks with_blocks]. rewrite nth_error_app2 by lia.
      rewrite Nat.sub_diag. reflexivity. }
    destruct H1 as [Hr Hu]. split; [exact Hr | exact Hu].
Qed.



Lemma set_price_get (ch : ChallengeData) (s s' : Z) (p : float) :
  dget s' (sidx (set_price ch s p))
  = if s' =? s
    then Some {| hotkeys := match dget s (sidx ch) with Some d => hotkeys d | None => [] end;
                 price := Some p;
                 emb := match dget s (sidx ch) with Some d => emb d | None => [] end |}
    else dget s' (sidx ch).
Proof.
  unfold set_price, dsetdefault.
  destruct (dget s (sidx ch)) as [d|] eqn:Hd; cbn [sidx with_sidx];
    destruct (Z.eqb_spec s' s) as [->|Hne];
    rewrite ?dget_dset_same, ?dget_dset_other by exact Hne; reflexivity.
Qed.

(** X8. [append_step] records the price of every challenge that has one
    in [prices] at the sample index [block // SAMPLE_EVERY], keeping the
    hotkeys and embeddings already stored there; every other sample, and
    every embedding, is left as it was.  This holds whether or not the call
    goes on to raise while it stores the payloads. *)
Theorem append_step_prices (cfg : Config) (E : Externals) (block : Z)
    (prices : dict string float) (payloads : dict string pyval) (hks : list string)
    (L : DataLog) :
  (forall t p, dget t prices = Some p -> dmem t (challenges L) = true ->
     exists d,
       sample_at (snd (append_step cfg E block prices payloads hks L)) t
                 (block / sample_every cfg) = Some d
       /\ price d = Some p
       /\ hotkeys d = match sample_at L t (block / sample_every cfg) with
                      | Some d0 => hotkeys d0 | None => [] end
       /\ emb d = match sample_at L t (block / sample_every cfg) with
                  | Some d0 => emb d0 | None => [] end)
  /\ (forall t s, s <> block / sample_every cfg \/ dget t prices = None ->
        sample_at (snd (append_step cfg E block prices payloads hks L)) t s = sample_at L t s)
  /\ (forall t s hk,
        emb_at (snd (append_step cfg E block prices payloads hks L)) t s hk = emb_at L t s hk).
Proof.
  assert (forall t s,
             sample_at (snd (append_step cfg E block prices payloads hks L)) t s
             = match dget t (challenges L) with
               | None => None
               | Some ch =>
                   match dget t prices with
                   | Some p => dget s (sidx (set_price ch (block / sample_every cfg) p))
                   | None => dget s (sidx ch)
                   end
               end) as Hat.
  { intros t s. unfold sample_at. rewrite append_step_challenges.
    rewrite dget_map_entries by (intros [t0 c0]; cbn [fst]; destruct (dget t0 prices); reflexivity).
    destruct (dget t (challenges L)) as [ch|]; [|reflexivity].
    cbn [option_map fst snd]. destruct (dget t prices); reflexivity. }
  split; [|split].
  - intros t p Hp Hmem. unfold dmem in Hmem. rewrite Hat. unfold sample_at.
    destruct (dget t (challenges L)) as [ch|]; [|discriminate].
    rewrite Hp, set_price_get, Z.eqb_refl. eexists. split; [reflexivity|].
    repeat split.
  - intros t s Hwhy. rewrite Hat. unfold sample_at.
    destruct (dget t (challenges L)) as [ch|]; [|reflexivity].
    destruct (dget t prices) as [p|] eqn:Hp; [|reflexivity].
    destruct Hwhy as [Hne|Hnone]; [|discriminate].
    rewrite set_price_get. apply Z.eqb_neq in Hne. rewrite Hne. reflexivity.
  - intros t s hk. unfold emb_at. rewrite Hat. unfold sample_at.
    destruct (dget t (challenges L)) as [ch|]; [|reflexivity].
    destruct (dget t prices) as [p|]; [|reflexivity].
    rewrite set_price_get. destruct (Z.eqb_spec s (block / sample_every cfg)) as [->|Hne].
    + destruct (dget (block / sample_every cfg) (sidx ch)); reflexivity.
    + reflexivity.
Qed.

(** ** The hotkey list of a sample mirrors its embeddings *)

Lemma hk_in_iff (hk : string) (l : list string) : hk_in hk l = true <-> In hk l.
Proof.
  unfold hk_in. rewrite existsb_exists. split.
  - intros (x & Hx & Heq). apply String.eqb_eq in Heq. subst x. exact Hx.
  - intros Hin. exists hk. split; [exact Hin | apply String.eqb_refl].
Qed.

Lemma sample_wf_empty : sample_wf empty_sample.
Proof. split; [constructor|]. split; [constructor|]. intros hk. reflexivity. Qed.

Definition challenge_wf (ch : ChallengeData) : Prop :=
  forall s d, In (s, d) (sidx ch) -> sample_wf d.

Lemma default_sample_wf (ch : ChallengeData) (s : Z) :
  challenge_wf ch ->
  sample_wf (fst (dsetdefault s empty_sample (sidx ch)))
  /\ forall s' d', In (s', d') (snd (dsetdefault s empty_sample (sidx ch))) -> sample_wf d'.
Proof.
  intros Hch. unfold dsetdefault. destruct (dget s (sidx ch)) as [d|] eqn:Hd; cbn [fst snd].
  - split; [apply (Hch s); apply dget_In; exact Hd | exact Hch].
  - split; [apply sample_wf_empty|]. intros s' d' Hin.
    destruct (In_dset _ _ _ _ _ Hin) as [[_ ->]|Hold]; [apply sample_wf_empty | eauto].
Qed.

Lemma set_price_wf (ch : ChallengeData) (s : Z) (p : float) :
  challenge_wf ch -> challenge_wf (set_price ch s p).
Proof.
  intros Hch. destruct (default_sample_wf ch s Hch) as [Hd Hsx]. unfold set_price.
  destruct (dsetdefault s empty_sample (sidx ch)) as [d sx]. cbn [fst snd] in *.
  intros s' d' Hin. cbn [sidx with_sidx] in Hin.
  destruct (In_dset _ _ _ _ _ Hin) as [[_ ->]|Hold]; [exact Hd | eauto].
Qed.

Lemma set_emb_wf (ch : ChallengeData) (s : Z) (hk : string) (vec : list pyval) :
  challenge_wf ch -> challenge_wf (snd (set_emb s hk vec ch)).
Proof.
  intros Hch. destruct (default_sample_wf ch s Hch) as [Hd Hsx]. unfold set_emb.
  destruct (dsetdefault s empty_sample (sidx ch)) as [d sx]. cbn [fst snd] in *.
  destruct (np_array_f16 vec) as [arr|e]; cbn [snd]; [|exact Hsx].
  intros s' d' Hin. cbn [sidx with_sidx] in Hin.
  destruct (In_dset _ _ _ _ _ Hin) as [[_ ->]|Hold]; [|eauto].
  destruct Hd as (Hnd & Hne & Hiff). split; [|split]; cbn [hotkeys emb].
  - destruct (hk_in hk (hotkeys d)) eqn:Hin'; [exact Hnd|].
    apply NoDup_app; [exact Hnd | constructor; [intros [] | constructor] |].
    intros x Hx [<-|[]]. apply hk_in_iff in Hx. congruence.
  - apply NoDup_dset. exact Hne.
  - intros x. rewrite dkeys_dset. unfold dmem.
    destruct (hk_in hk (hotkeys d)) eqn:Hin'.
    + apply hk_in_iff in Hin'. apply Hiff in Hin'.
      destruct (dget hk (emb d)) eqn:Hg; [apply Hiff|].
      apply dget_None_notin in Hg. contradiction.
    + destruct (dget hk (emb d)) eqn:Hg.
      * exfalso. apply dget_In in Hg. assert (In hk (dkeys (emb d))) as Hk.
        { unfold dkeys. apply in_map_iff. eexists. split; [|exact Hg]. reflexivity. }
        apply Hiff, hk_in_iff in Hk. congruence.
      * rewrite !in_app_iff, Hiff. reflexivity.
Qed.

Lemma prune_sample_wf (active : list string) (d : Sample) :
  sample_wf d -> sample_wf (prune_sample active d).
Proof.
  intros (Hnd & Hne & Hiff). unfold prune_sample. split; [|split]; cbn [hotkeys emb].
  - apply NoDup_filter. exact Hnd.
  - unfold dkeys in *. clear Hiff Hnd. induction (emb d) as [|[k v] l IH]; [constructor|].
    cbn [map fst] in Hne. inversion Hne as [|? ? Hnot Hne']; subst.
    cbn [filter fst]. destruct (hk_in k active); [|apply IH; exact Hne'].
    cbn [map fst]. constructor; [|apply IH; exact Hne'].
    intros Hin. apply Hnot. apply in_map_iff in Hin. destruct Hin as (x & Hx & Hf).
    apply filter_In in Hf. apply in_map_iff. exists x. split; [exact Hx | exact (proj1 Hf)].
  - intros hk. rewrite filter_In, Hiff. unfold dkeys. rewrite !in_map_iff. split.
    + intros [([k v] & Hk & Hin) Ha]. cbn [fst] in Hk. subst k.
      exists (hk, v). split; [reflexivity|]. apply filter_In. auto.
    + intros ([k v] & Hk & Hin). cbn [fst] in Hk. subst k. apply filter_In in Hin.
      destruct Hin as [Hin Ha]. split; [|exact Ha]. exists (hk, v). auto.
Qed.

(** ** What a pass leaves in the ledger *)

(** The write-back changes [challenges] by [set_emb] calls only: a
    property of the challenges that each such call keeps holds after the
    pass, however the pass ends. *)
Lemma merge_dec_keeps (cfg : Config) (bl : list Z) (dec : dict nat (dict string vecs))
    (P : dict string ChallengeData -> Prop) :
  (forall t s hk vec chs ch,
      dget t chs = Some ch -> P chs -> P (dset t (snd (set_emb s hk vec ch)) chs)) ->
  keeps (fun L => P (challenges L)) (merge_dec cfg bl dec).
Proof.
  intros Hset. unfold merge_dec. apply keeps_sfor. intros entry _.
  apply keeps_sbind; [apply keeps_lift|]. intros b.
  destruct (negb (b mod sample_every cfg =? 0)); [apply keeps_sret|].
  apply keeps_sfor. intros hv _. unfold merge_vecs. apply keeps_sfor. intros tv _.
  destruct (existsb ne_zero (snd tv)); [|apply keeps_sret].
  intros L HL. unfold challenges_set_emb.
  destruct (dget (fst tv) (challenges L)) as [ch|] eqn:Hch; [|exact HL].
  pose proof (Hset (fst tv) (b / sample_every cfg) (fst hv) (snd tv) _ ch Hch HL) as Hnew.
  destruct (set_emb (b / sample_every cfg) (fst hv) (snd tv) ch) as [r ch']. exact Hnew.
Qed.

Lemma pass_keeps_challenges (cfg : Config) (E : Externals)
    (P : dict string ChallengeData -> Prop) :
  (forall t s hk vec chs ch,
      dget t chs = Some ch -> P chs -> P (dset t (snd (set_emb s hk vec ch)) chs)) ->
  keeps (fun W => P (challenges (ledger W))) (process_pending_payloads cfg E).
Proof.
  intros Hset W HW. unfold process_pending_payloads.
  destruct (raw_payloads (ledger W)); [exact HW|].
  destruct (last (map Some (blocks (ledger W))) None); [|exact HW].
  destruct (scan E (blocks (ledger W)) z (p :: d)) as [[[rounds mature] stats]|e]; [|exact HW].
  destruct mature; [exact HW|].
  destruct (sfor rounds _ _) as [r ws].
  destruct r as [u|e]; [|exact HW].
  pose proof (keeps_sbind (fun L => P (challenges L))
                (merge_dec cfg (blocks (ledger W)) (w_dec ws))
                (fun _ => remove_mature (p0 :: mature))
                (merge_dec_keeps cfg _ _ P Hset)
                ltac:(intros _ L HL; exact HL)
                (with_drand_cache (ledger W) (fst (w_beacon ws))) HW) as Hk.
  destruct (sbind _ _ _) as [[u'|e] L2]; exact Hk.
Qed.

Lemma pass_has_challenges (cfg : Config) (E : Externals) (W : World) :
  has_challenges cfg (ledger W) ->
  has_challenges cfg (ledger (snd (process_pending_payloads cfg E W))).
Proof.
  intros Hhas.
  refine (pass_keeps_challenges cfg E
            (fun chs => forall t, In t (map c_ticker (CHALLENGES cfg)) -> dmem t chs = true)
            _ W Hhas).
  intros t s hk vec chs ch Hch HP t' Ht'. unfold dmem.
  destruct (String.eqb_spec t' t) as [->|Hne].
  - rewrite dget_dset_same. reflexivity.
  - rewrite dget_dset_other by exact Hne. exact (HP t' Ht').
Qed.

Lemma pass_samples_wf (cfg : Config) (E : Externals) (W : World) :
  samples_wf (ledger W) -> samples_wf (ledger (snd (process_pending_payloads cfg E W))).
Proof.
  intros Hwf t0 ch0 s0 d0 Hin0 Hs0.
  refine (pass_keeps_challenges cfg E
            (fun chs => forall t ch, In (t, ch) chs -> challenge_wf ch) _ W
            (fun t ch Hin s d Hs => Hwf t ch s d Hin Hs) t0 ch0 Hin0 s0 d0 Hs0).
  intros t s hk vec chs ch Hch HP t' ch' Hin.
  destruct (In_dset _ _ _ _ _ Hin) as [[_ ->]|Hold]; [|exact (HP t' ch' Hold)].
  apply set_emb_wf. apply (HP t). apply dget_In. exact Hch.
Qed.

Lemma remove_entry_keys (rp : dict nat (dict string bytes)) (x : nat * string) (ts : nat)
    (by_hk : dict string bytes) :
  In (ts, by_hk) (remove_entry rp x) -> In ts (dkeys rp).
Proof.
  destruct x as [ts0 hk]. unfold remove_entry.
  assert (forall rp1, In (ts, by_hk) (match dget ts0 rp1 with Some [] => dpop ts0 rp1 | _ => rp1 end) ->
                      In (ts, by_hk) rp1) as Hdel.
  { intros rp1 Hin. destruct (dget ts0 rp1) as [[|kv r]|]; [eapply In_dpop; exact Hin | exact Hin ..]. }
  intros Hin. apply Hdel in Hin.
  destruct (dget ts0 rp) as [old|] eqn:Hg.
  - destruct (In_dset _ _ _ _ _ Hin) as [[-> _]|Hold].
    + apply dget_In in Hg. unfold dkeys. apply in_map_iff. eexists. split; [|exact Hg]. reflexivity.
    + unfold dkeys. apply in_map_iff. eexists. split; [|exact Hold]. reflexivity.
  - unfold dkeys. apply in_map_iff. eexists. split; [|exact Hin]. reflexivity.
Qed.

Lemma remove_mature_wf (mature : list (nat * string)) (rp : dict nat (dict string bytes)) :
  pending_unique rp ->
  pending_unique (fold_left remove_entry mature rp)
  /\ forall ts by_hk, In (ts, by_hk) (fold_left remove_entry mature rp) -> In ts (dkeys rp).
Proof.
  revert rp. induction mature as [|[ts0 hk0] mature IH]; intros rp Hu; cbn [fold_left].
  - split; [exact Hu|]. intros ts by_hk Hin. unfold dkeys. apply in_map_iff.
    eexists. split; [|exact Hin]. reflexivity.
  - destruct (remove_entry_get rp ts0 hk0 Hu) as (Hu1 & _).
    destruct (IH _ Hu1) as [Hu2 Hkeys]. split; [exact Hu2|].
    intros ts by_hk Hin. specialize (Hkeys ts by_hk Hin).
    unfold dkeys in Hkeys. apply in_map_iff in Hkeys. destruct Hkeys as ([ts' by'] & <- & Hin').
    eapply remove_entry_keys. exact Hin'.
Qed.

Lemma pass_pending_wf (cfg : Config) (E : Externals) (W : World) :
  pending_wf (ledger W) -> pending_wf (ledger (snd (process_pending_payloads cfg E W))).
Proof.
  intros [Hrange Hu].
  pose proof (process_pending_blocks cfg E W) as Hb. cbn beta in Hb.
  destruct (process_pending_payloads cfg E W) as [r W'] eqn:Hrun. cbn [snd] in *.
  assert (pending_unique (raw_payloads (ledger W'))
          /\ forall ts by_hk, In (ts, by_hk) (raw_payloads (ledger W')) ->
                              In ts (dkeys (raw_payloads (ledger W)))) as [Hu' Hkeys].
  { destruct (pass_outcomes cfg E W W' r Hrun)
      as [(_ & -> & _)|[(_ & Hsame)|(stats & cur & rounds & mature & stats0 & _ & _ & _ & Hrp)]].
    - split; [exact Hu|]. intros ts by_hk Hin. unfold dkeys. apply in_map_iff.
      eexists. split; [|exact Hin]. reflexivity.
    - rewrite Hsame. split; [exact Hu|]. intros ts by_hk Hin. unfold dkeys. apply in_map_iff.
      eexists. split; [|exact Hin]. reflexivity.
    - rewrite Hrp. apply remove_mature_wf. exact Hu. }
  split; [|exact Hu'].
  intros ts by_hk Hin. rewrite Hb. specialize (Hkeys ts by_hk Hin).
  unfold dkeys in Hkeys. apply in_map_iff in Hkeys. destruct Hkeys as ([ts' by'] & <- & Hin').
  exact (Hrange ts' by' Hin').
Qed.

(** ** Every ledger built by the operations *)

Lemma run_ops_keeps (cfg : Config) (E : Externals) (P : World -> Prop) :
  (forall W o, P W -> P (run_op cfg E W o)) ->
  forall ops W, P W -> P (run_ops cfg E ops W).
Proof.
  intros Hop ops. unfold run_ops. induction ops as [|o ops IH]; intros W HW; cbn [fold_left].
  - exact HW.
  - apply IH. apply Hop. exact HW.
Qed.

Lemma init_challenges (cfg : Config) (t : string) (ch : ChallengeData) :
  In (t, ch) (challenges (DataLog_init cfg)) ->
  exists c, In c (CHALLENGES cfg) /\ t = c_ticker c
            /\ ch = {| dim := c_dim c; blocks_ahead := c_blocks_ahead c; sidx := [] |}.
Proof.
  cbn [challenges DataLog_init]. intros Hin. apply In_fold_dset in Hin.
  destruct Hin as [[]|(c & Hc & -> & ->)]. eauto.
Qed.

Lemma init_has_challenges (cfg : Config) : has_challenges cfg (DataLog_init cfg).
Proof.
  intros t Ht. unfold dmem. cbn [challenges DataLog_init].
  destruct (dget t _) eqn:Hg; [reflexivity|]. exfalso.
  apply dget_None_notin in Hg. apply Hg. clear Hg.
  assert (forall l d, In t (dkeys d) \/ In t (map c_ticker l) ->
            In t (dkeys (fold_left (fun d c => dset (c_ticker c)
                     {| dim := c_dim c; blocks_ahead := c_blocks_ahead c; sidx := [] |} d) l d)))
    as Hfold.
  { induction l as [|c l IH]; intros d Hor; cbn [fold_left].
    - destruct Hor as [Hd|[]]. exact Hd.
    - apply IH. rewrite dkeys_dset. destruct Hor as [Hd|[Hc|Hl]].
      + left. destruct (dmem (c_ticker c) d); [exact Hd | apply in_or_app; left; exact Hd].
      + left. subst t. unfold dmem. destruct (dget (c_ticker c) d) eqn:Hg.
        * apply dget_In in Hg. unfold dkeys. apply in_map_iff. eexists. split; [|exact Hg]. reflexivity.
        * apply in_or_app. right. left. reflexivity.
      + right. exact Hl. }
  apply Hfold. right. exact Ht.
Qed.

(** The invariants of the ledgers that the operations build. *)
Definition ledger_inv (cfg : Config) (W : World) : Prop :=
  pending_wf (ledger W) /\ has_challenges cfg (ledger W) /\ samples_wf (ledger W).

Lemma ledger_inv_fresh (cfg : Config) (history : list request) :
  ledger_inv cfg (fresh_world cfg history).
Proof.
  split; [|split].
  - split; [intros ts by_hk []|]. split; [constructor | intros ts by_hk Hg; discriminate].
  - apply init_has_challenges.
  - intros t ch s d Hin Hs. apply init_challenges in Hin.
    destruct Hin as (c & _ & _ & ->). destruct Hs.
Qed.

Lemma ledger_inv_step (cfg : Config) (E : Externals) (W : World) (o : op) :
  ledger_inv cfg W -> ledger_inv cfg (run_op cfg E W o).
Proof.
  intros (Hp & Hc & Hs). unfold ledger_inv.
  destruct o as [block prices payloads hks| |active]; cbn [run_op ledger].
  - split; [apply append_step_pending; exact Hp|]. split.
    + intros t Ht. unfold dmem. rewrite append_step_challenges.
      rewrite dget_map_entries by (intros [t0 c0]; cbn [fst]; destruct (dget t0 prices); reflexivity).
      specialize (Hc t Ht). unfold dmem in Hc.
      destruct (dget t (challenges (ledger W))); [reflexivity | discriminate].
    + intros t ch s d Hin. rewrite append_step_challenges in Hin.
      apply in_map_iff in Hin. destruct Hin as ([t0 ch0] & Heq & Hin). cbn [fst snd] in Heq.
      destruct (dget t0 prices) as [p|].
      * injection Heq as <- <-. apply set_price_wf.
        intros s' d' Hs'. exact (Hs t0 ch0 s' d' Hin Hs').
      * injection Heq as <- <-. exact (Hs t0 ch0 s d Hin).
  - split; [apply pass_pending_wf; exact Hp|].
    split; [apply pass_has_challenges; exact Hc | apply pass_samples_wf; exact Hs].
  - split; [exact Hp|]. split.
    + intros t Ht. unfold dmem, prune_hotkeys. cbn [challenges with_challenges].
      rewrite dget_map_entries by (intros [t0 c0]; reflexivity).
      specialize (Hc t Ht). unfold dmem in Hc.
      destruct (dget t (challenges (ledger W))); [reflexivity | discriminate].
    + intros t ch s d Hin Hsd. unfold prune_hotkeys in Hin. cbn [challenges with_challenges] in Hin.
      apply in_map_iff in Hin. destruct Hin as ([t0 ch0] & Heq & Hin). cbn [fst snd] in Heq.
      injection Heq as <- <-. cbn [sidx with_sidx] in Hsd.
      apply in_map_iff in Hsd. destruct Hsd as ([s0 d0] & Heq & Hsd). cbn [fst snd] in Heq.
      injection Heq as <- <-. apply prune_sample_wf. exact (Hs t0 ch0 s0 d0 Hin Hsd).
Qed.

Lemma ledger_inv_reached (cfg : Config) (E : Externals) (ops : list op)
    (history : list request) :
  ledger_inv cfg (run_ops cfg E ops (fresh_world cfg history)).
Proof.
  apply (run_ops_keeps cfg E (ledger_inv cfg)).
  - intros W o. apply ledger_inv_step.
  - apply ledger_inv_fresh.
Qed.

(** X9. In every ledger that [append_step], [process_pending_payloads]
    and [prune_hotkeys] build from a fresh one, in any order and however
    the calls end, the [hotkeys] list of every sample holds exactly the
    keys of its [emb] dictionary, each once. *)
Theorem hotkeys_mirror_embeddings (cfg : Config) (E : Externals) (ops : list op)
    (history : list request) :
  forall t ch s d,
    In (t, ch) (challenges (ledger (run_ops cfg E ops (fresh_world cfg history)))) ->
    In (s, d) (sidx ch) ->
    NoDup (hotkeys d) /\ NoDup (dkeys (emb d))
    /\ forall hk, In hk (hotkeys d) <-> In hk (dkeys (emb d)).
Proof.
  destruct (ledger_inv_reached cfg E ops history) as (_ & _ & Hs). exact Hs.
Qed.

Lemma hotkeys_mirror_embeddings_witness :
  exists ch d,
    dget "BTC"%string (challenges ex_ledger_after_pass) = Some ch
    /\ dget 1 (sidx ch) = Some d
    /\ hotkeys d = [ "hk-1"%string ]
    /\ NoDup (hotkeys d) /\ NoDup (dkeys (emb d))
    /\ forall hk, In hk (hotkeys d) <-> In hk (dkeys (emb d)).
Proof.
  eexists. eexists. split; [vm_compute; reflexivity|].
  split; [vm_compute; reflexivity|]. split; [reflexivity|].
  eapply (hotkeys_mirror_embeddings ex_cfg ex_E_live ex_ops_live_pass [] "BTC"%string _ 1).
  - apply dget_In. vm_compute. reflexivity.
  - apply dget_In. vm_compute. reflexivity.
Defined.

(** X10. In every such ledger the pending payloads are well formed: each
    pending timestep is an index of the block list, no timestep and no
    hotkey of a timestep occurs twice, and every configured ticker has its
    [ChallengeData]. *)
Theorem pending_entries_well_formed (cfg : Config) (E : Externals) (ops : list op)
    (history : list request) :
  pending_in_range (ledger (run_ops cfg E ops (fresh_world cfg history)))
  /\ pending_unique (raw_payloads (ledger (run_ops cfg E ops (fresh_world cfg history))))
  /\ has_challenges cfg (ledger (run_ops cfg E ops (fresh_world cfg history))).
Proof.
  destruct (ledger_inv_reached cfg E ops history) as ((Hr & Hu) & Hc & _). auto.
Qed.

(** ** The only exception that leaves a pass *)

Lemma foldM_keeps_or_raises {A B : Type} (f : B -> A -> res B) (l : list A) (e0 : exn)
    (Q : B -> Prop) :
  (forall b y, In y l -> Q b -> (exists b', f b y = Ret b' /\ Q b') \/ f b y = Raise e0) ->
  forall b, Q b -> (exists b', foldM f l b = Ret b' /\ Q b') \/ foldM f l b = Raise e0.
Proof.
  induction l as [|y l IH]; intros Hall b Hb; simpl.
  - left. eauto.
  - destruct (Hall b y (or_introl eq_refl) Hb) as [(b' & Hstep & Hb')|Hstep]; rewrite Hstep; simpl.
    + apply IH; [|exact Hb']. intros b0 y0 Hy0. apply Hall. right. exact Hy0.
    + right. reflexivity.
Qed.

Lemma scan_hk_good_or_overflow (E : Externals) (keys : list nat) (ts : nat) (acc : scan_state)
    (kv : string * bytes) :
  In ts keys -> good_rounds keys (rounds_of acc) ->
  (exists acc', scan_hk E ts acc kv = Ret acc' /\ good_rounds keys (rounds_of acc'))
  \/ scan_hk E ts acc kv = Raise OverflowError.
Proof.
  intros Hts Hgood.
  destruct (scan_hk_cases E ts acc kv) as [[acc' Hret]|Hraise]; [|right; exact Hraise].
  left. apply scan_hk_good; [exact Hts | exact Hgood|].
  intros d Hparse Hver Hover. destruct acc as [[rounds mature] stats]. destruct kv as [hk raw].
  unfold scan_hk in Hret. cbn [snd] in Hparse. rewrite Hparse in Hret.
  apply Z.eqb_neq in Hver. rewrite Hver, Hover in Hret. discriminate.
Qed.

Lemma scan_good_or_overflow (E : Externals) (L : DataLog) (cur : Z) :
  pending_in_range L ->
  (exists rounds mature stats,
      scan E (blocks L) cur (raw_payloads L) = Ret (rounds, mature, stats)
      /\ good_rounds (dkeys (raw_payloads L)) rounds)
  \/ scan E (blocks L) cur (raw_payloads L) = Raise OverflowError.
Proof.
  intros Hrange. unfold scan.
  destruct (foldM_keeps_or_raises (scan_ts E (blocks L) cur) (raw_payloads L) OverflowError
              (fun acc => good_rounds (dkeys (raw_payloads L)) (rounds_of acc)))
    with (b := (@nil (Z * list item), @nil (nat * string), stats0))
    as [([[rounds mature] stats] & Hrun & Hg)|Hrun].
  - intros acc [ts by_hk] Hentry Hacc. unfold scan_ts, block_at.
    destruct (Hrange ts by_hk Hentry) as [b Hb]. rewrite Hb. cbn [bind].
    destruct (300 <=? cur - b); [|left; eauto].
    apply foldM_keeps_or_raises; [|exact Hacc].
    intros acc0 kv _ Hacc0. apply scan_hk_good_or_overflow; [|exact Hacc0].
    unfold dkeys. apply in_map_iff. exists (ts, by_hk). auto.
  - intros rnd items it [].
  - left. exists rounds, mature, stats. auto.
  - right. exact Hrun.
Qed.

Lemma pass_returns_or_overflows (cfg : Config) (E : Externals) (W : World) :
  dims_are_tickers cfg -> has_challenges cfg (ledger W) -> pending_in_range (ledger W) ->
  (exists r, fst (process_pending_payloads cfg E W) = Ret r)
  \/ process_pending_payloads cfg E W = (Raise OverflowError, W).
Proof.
  intros Hdims Hch Hrange. unfold process_pending_payloads.
  destruct (raw_payloads (ledger W)) as [|[ts0 by0] rp] eqn:Hrp; [left; eexists; reflexivity|].
  rewrite <- Hrp.
  assert (In (ts0, by0) (raw_payloads (ledger W))) as Hin0 by (rewrite Hrp; left; reflexivity).
  destruct (Hrange ts0 by0 Hin0) as [b0 Hb0].
  destruct (last_Some_of_nth _ _ _ Hb0) as [cur Hcur]. rewrite Hcur.
  destruct (scan_good_or_overflow E (ledger W) cur Hrange)
    as [(rounds & mature & stats & Hscan & Hrounds)|Hscan]; rewrite Hscan; [|right; reflexivity].
  left. destruct mature as [|m0 mature]; [eexists; reflexivity|].
  destruct (works_good cfg E (dkeys (raw_payloads (ledger W))) rounds
              {| w_beacon := (_drand_cache (ledger W), net W); w_stats := stats; w_dec := [] |}
              Hdims Hrounds) as (ws & Hwork & Hdec).
  { intros ts by_hk []. }
  rewrite Hwork.
  destruct (merge_dec_returns cfg (blocks (ledger W)) (w_dec ws)
              (with_drand_cache (ledger W) (fst (w_beacon ws)))) as [L2 Hmerge].
  { apply (good_dec_ready cfg _ _ (dkeys (raw_payloads (ledger W)))); [exact Hch| |exact Hdec].
    intros ts Hts. unfold dkeys in Hts. apply in_map_iff in Hts.
    destruct Hts as ([ts' by_hk] & <- & Hentry). exact (Hrange ts' by_hk Hentry). }
  unfold sbind. rewrite Hmerge. eexists. reflexivity.
Qed.

(** X11. On every ledger built by the operations from a fresh one, with
    a configuration whose [ASSET_EMBEDDING_DIMS] names challenge tickers
    only, a pass returns or raises [OverflowError]: whatever the stored
    payloads, the beacon and the library calls do, no other exception
    leaves [process_pending_payloads], and when it raises the ledger and
    the record of requests are as they were. *)
Theorem pass_raises_overflow_only (cfg : Config) (E : Externals) (ops : list op)
    (history : list request) :
  dims_are_tickers cfg ->
  (exists r,
      fst (process_pending_payloads cfg E (run_ops cfg E ops (fresh_world cfg history))) = Ret r)
  \/ process_pending_payloads cfg E (run_ops cfg E ops (fresh_world cfg history))
     = (Raise OverflowError, run_ops cfg E ops (fresh_world cfg history)).
Proof.
  intros Hdims. destruct (ledger_inv_reached cfg E ops history) as ((Hr & _) & Hc & _).
  apply pass_returns_or_overflows; assumption.
Qed.

Lemma pass_raises_overflow_only_witness :
  dims_are_tickers ex_cfg
  /\ ((exists r,
         fst (process_pending_payloads ex_cfg ex_E
                (run_ops ex_cfg ex_E ex_ops_poisoned (fresh_world ex_cfg []))) = Ret r)
      \/ process_pending_payloads ex_cfg ex_E
           (run_ops ex_cfg ex_E ex_ops_poisoned (fresh_world ex_cfg []))
         = (Raise OverflowError, run_ops ex_cfg ex_E ex_ops_poisoned (fresh_world ex_cfg []))).
Proof.
  assert (dims_are_tickers ex_cfg) as Hd.
  { intros t d Hget. apply dget_In in Hget. destruct Hget as [Heq|[]].
    injection Heq as <- _. left. reflexivity. }
  split; [exact Hd|].
  apply (pass_raises_overflow_only ex_cfg ex_E ex_ops_poisoned [] Hd).
Defined.

(** X12. On every such ledger, a pass that returns has removed exactly
    the mature entries: a pending timestep whose block is less than 300
    below the newest block keeps all its entries, and one whose block is
    at least 300 below it is gone from [raw_payloads] with all of them. *)
Theorem pass_removes_exactly_mature (cfg : Config) (E : Externals) (ops : list op)
    (history : list request) (r : option Stats) (cur : Z) :
  fst (process_pending_payloads cfg E (run_ops cfg E ops (fresh_world cfg history))) = Ret r ->
  last (map Some (blocks (ledger (run_ops cfg E ops (fresh_world cfg history))))) None
  = Some cur ->
  forall ts by_hk b,
    dget ts (raw_payloads (ledger (run_ops cfg E ops (fresh_world cfg history)))) = Some by_hk ->
    nth_error (blocks (ledger (run_ops cfg E ops (fresh_world cfg history)))) ts = Some b ->
    (cur - b < 300 ->
     dget ts (raw_payloads (ledger (snd (process_pending_payloads cfg E
                                           (run_ops cfg E ops (fresh_world cfg history))))))
     = Some by_hk)
    /\ (300 <= cur - b -> by_hk <> [] ->
        dget ts (raw_payloads (ledger (snd (process_pending_payloads cfg E
                                              (run_ops cfg E ops (fresh_world cfg history))))))
        = None).
Proof.
  intros Hret Hlast.
  destruct (ledger_inv_reached cfg E ops history) as ((_ & Hu) & _).
  exact (maturity_gate_when_pass_returns cfg E _ r cur Hu Hret Hlast).
Qed.

Lemma pass_removes_exactly_mature_witness :
  (exists r,
      fst (process_pending_payloads ex_cfg ex_E_live
             (run_ops ex_cfg ex_E_live ex_ops_live (fresh_world ex_cfg []))) = Ret r)
  /\ last (map Some (blocks (ledger (run_ops ex_cfg ex_E_live ex_ops_live
                                       (fresh_world ex_cfg []))))) None = Some 400
  /\ dget 0%nat (raw_payloads (ledger (snd (process_pending_payloads ex_cfg ex_E_live
                                              (run_ops ex_cfg ex_E_live ex_ops_live
                                                 (fresh_world ex_cfg []))))))
     = None
  /\ dget 2%nat (raw_payloads (ledger (snd (process_pending_payloads ex_cfg ex_E_live
                                              (run_ops ex_cfg ex_E_live ex_ops_live
                                                 (fresh_world ex_cfg []))))))
     = Some [ ("hk-1"%string, str_encode "{}"); ("hk-2"%string, str_encode "{}") ].
Proof.
  assert (fst (process_pending_payloads ex_cfg ex_E_live
                 (run_ops ex_cfg ex_E_live ex_ops_live (fresh_world ex_cfg [])))
          = Ret (fst (match fst ex_live_outcome with
                      | Ret r => (r, tt)
                      | Raise _ => (None, tt)
                      end))) as Hr by (vm_compute; reflexivity).
  assert (last (map Some (blocks (ledger (run_ops ex_cfg ex_E_live ex_ops_live
                                             (fresh_world ex_cfg []))))) None = Some 400)
    as Hlast by (vm_compute; reflexivity).
  pose proof (pass_removes_exactly_mature ex_cfg ex_E_live ex_ops_live [] _ 400 Hr Hlast)
    as Hgate.
  split; [eexists; exact Hr|]. split; [exact Hlast|]. split.
  - apply (proj2 (Hgate 0%nat [ ("hk-1"%string, str_encode ex_v2_text);
                                ("hk-2"%string, str_encode "{}") ] 100
                        ltac:(vm_compute; reflexivity) ltac:(vm_compute; reflexivity)));
      [lia | discriminate].
  - apply (proj1 (Hgate 2%nat [ ("hk-1"%string, str_encode "{}");
                                ("hk-2"%string, str_encode "{}") ] 400
                        ltac:(vm_compute; reflexivity) ltac:(vm_compute; reflexivity))).
    lia.
Defined.

(** ** A pass with nothing mature *)

Lemma scan_nothing_mature (E : Externals) (bl : list Z) (cur : Z)
    (payloads : dict nat (dict string bytes)) (acc : scan_state) :
  (forall ts by_hk, In (ts, by_hk) payloads ->
     exists b, nth_error bl ts = Some b /\ cur - b < 300) ->
  foldM (scan_ts E bl cur) payloads acc = Ret acc.
Proof.
  induction payloads as [|[ts by_hk] payloads IH]; intros Hall; cbn [foldM].
  - reflexivity.
  - destruct (Hall ts by_hk (or_introl eq_refl)) as (b & Hb & Hyoung).
    unfold scan_ts at 1. unfold block_at. rewrite Hb. cbn [bind].
    assert ((300 <=? cur - b) = false) as -> by (apply Z.leb_gt; exact Hyoung).
    cbn [bind]. apply IH. intros ts' by' Hin. apply (Hall ts' by'). right. exact Hin.
Qed.

(** X13. When no pending timestep is 300 blocks or more below the newest
    block, a pass returns at once: it makes no beacon request, decrypts
    nothing, and leaves the ledger as it is. *)
Theorem pass_without_mature_entries (cfg : Config) (E : Externals) (W : World) (cur : Z) :
  last (map Some (blocks (ledger W))) None = Some cur ->
  (forall ts by_hk, In (ts, by_hk) (raw_payloads (ledger W)) ->
     exists b, nth_error (blocks (ledger W)) ts = Some b /\ cur - b < 300) ->
  process_pending_payloads cfg E W = (Ret None, W).
Proof.
  intros Hlast. unfold process_pending_payloads.
  destruct (raw_payloads (ledger W)) as [|p rp]; [reflexivity|].
  intros Hyoung. rewrite Hlast. unfold scan.
  rewrite (scan_nothing_mature E (blocks (ledger W)) cur (p :: rp) _ Hyoung). reflexivity.
Qed.

Lemma pass_without_mature_entries_witness :
  last (map Some (blocks (ledger ex_world_young))) None = Some 100
  /\ raw_payloads (ledger ex_world_young) <> []
  /\ process_pending_payloads ex_cfg ex_E ex_world_young = (Ret None, ex_world_young).
Proof.
  split; [vm_compute; reflexivity|]. split; [vm_compute; discriminate|].
  apply (pass_without_mature_entries ex_cfg ex_E ex_world_young 100);
    [vm_compute; reflexivity|].
  intros ts by_hk Hin. vm_compute in Hin. destruct Hin as [Heq|[]].
  injection Heq as <- _. exists 100. split; [vm_compute; reflexivity | lia].
Defined.

(** ** A payload with an infinite round blocks every later pass *)

Lemma In_dget_unique {K V : Type} `{EqKey K} (k : K) (v : V) (d : dict K V) :
  NoDup (dkeys d) -> In (k, v) d -> dget k d = Some v.
Proof.
  induction d as [|[k0 v0] d IH]; intros Hnd Hin; [destruct Hin|].
  cbn [dkeys map fst] in Hnd. inversion Hnd as [|? ? Hnot Hnd']; subst.
  cbn [dget]. destruct Hin as [Heq|Hin].
  - injection Heq as -> ->. rewrite keqb_refl. reflexivity.
  - destruct (keqb k k0) eqn:Hk; [|apply IH; assumption].
    apply keqb_eq in Hk. subst k0. exfalso. apply Hnot.
    apply in_map_iff. exists (k, v). auto.
Qed.

(** [append_step] leaves the pending entries of the earlier timesteps as
    they are, however it ends. *)
Lemma append_step_other_pending (cfg : Config) (E : Externals) (block : Z)
    (prices : dict string float) (payloads : dict string pyval) (hks : list string)
    (L : DataLog) (ts : nat) :
  ts <> List.length (blocks L) ->
  dget ts (raw_payloads (snd (append_step cfg E block prices payloads hks L)))
  = dget ts (raw_payloads L).
Proof.
  intros Hne. unfold append_step, sbind, modify. cbn [blocks with_blocks snd].
  rewrite length_app. cbn [List.length].
  replace (List.length (blocks L) + 1 - 1)%nat with (List.length (blocks L)) by lia.
  match goal with |- context [sfor hks ?body ?s0] =>
    pose proof (preserves_sfor (fun L0 => dget ts (raw_payloads L0)) hks body) as Hp;
    specialize (Hp
      ltac:(intros hk; apply preserves_sbind; [apply preserves_lift|];
            intros raw s; destruct (dget _ (raw_payloads s)); [|reflexivity];
            cbn [snd raw_payloads with_raw_payloads]; apply dget_dset_other; exact Hne) s0)
  end.
  cbn beta in Hp. etransitivity; [exact Hp|].
  cbn [raw_payloads with_raw_payloads with_challenges with_blocks].
  apply dget_dset_other. exact Hne.
Qed.

Lemma last_Some_app (bl : list Z) (block : Z) :
  last (map Some (bl ++ [block])) None = Some block.
Proof. rewrite map_app. cbn [map]. apply last_last. Qed.

Lemma prune_emb_at (active : list string) (L : DataLog) (t : string) (s : Z) (hk : string) :
  emb_at (prune_hotkeys active L) t s hk
  = if hk_in hk active then emb_at L t s hk else None.
Proof.
  unfold emb_at, sample_at, prune_hotkeys. cbn [challenges with_challenges].
  rewrite dget_map_entries by (intros [t0 c0]; reflexivity).
  destruct (dget t (challenges L)) as [ch|]; cbn [option_map snd sidx with_sidx];
    [|destruct (hk_in hk active); reflexivity].
  rewrite dget_map_entries by (intros [s0 d0]; reflexivity).
  destruct (dget s (sidx ch)) as [d|]; cbn [option_map snd];
    [|destruct (hk_in hk active); reflexivity].
  unfold prune_sample. cbn [emb].
  apply (dget_filter_keys (fun k => hk_in k active)).
Qed.

(** The state of a ledger that holds, at timestep [ts] of block [b], a
    mature payload with an infinite round. *)
Definition poisoned (E : Externals) (W0 W : World) (ts : nat) (hk : string) (b : Z) : Prop :=
  pending_wf (ledger W)
  /\ infinite_round_pending E (ledger W) ts hk
  /\ nth_error (blocks (ledger W)) ts = Some b
  /\ forall t s hk' arr, emb_at (ledger W) t s hk' = Some arr ->
                         emb_at (ledger W0) t s hk' = Some arr.

Lemma poisoned_step (cfg : Config) (E : Externals) (W0 W : World) (ts : nat) (hk : string)
    (b : Z) (o : op) :
  (forall block, In block (appended [o]) -> 300 <= block - b) ->
  poisoned E W0 W ts hk b -> poisoned E W0 (run_op cfg E W o) ts hk b.
Proof.
  intros Hadv (Hwf & Hinf & Hb & Hemb).
  destruct o as [block prices payloads hks| |active]; cbn [run_op].
  - assert (ts <> List.length (blocks (ledger W))) as Hts.
    { assert (ts < List.length (blocks (ledger W)))%nat by (apply nth_error_Some; congruence). lia. }
    split; [apply append_step_pending; exact Hwf|]. cbn [ledger]. split; [|split].
    + destruct Hinf as (by_hk & raw & d & f & sgn & b' & cur & Hentry & Hhk & Hb' & _ & _
                        & Hparse & Hver & Hround & Hsgn).
      assert (b' = b) as -> by congruence.
      exists by_hk, raw, d, f, sgn, b, block.
      split.
      { apply dget_In. rewrite append_step_other_pending by exact Hts.
        apply In_dget_unique; [exact (proj1 (proj2 Hwf)) | exact Hentry]. }
      split; [exact Hhk|]. rewrite append_step_blocks. split.
      { rewrite nth_error_app1; [exact Hb|]. apply nth_error_Some. congruence. }
      split; [apply last_Some_app|].
      split; [apply Hadv; left; reflexivity|]. auto.
    + rewrite append_step_blocks. rewrite nth_error_app1; [exact Hb|].
      apply nth_error_Some. congruence.
    + intros t s hk' arr Hat. apply Hemb.
      rewrite <- (proj2 (proj2 (append_step_prices cfg E block prices payloads hks (ledger W)))).
      exact Hat.
  - rewrite (pass_aborts_on_infinite_round cfg E W ts hk (proj1 Hwf) Hinf). cbn [snd].
    split; [exact Hwf|]. auto.
  - cbn [ledger]. split; [exact Hwf|]. split; [exact Hinf|]. split; [exact Hb|].
    intros t s hk' arr Hat. apply Hemb. cbn [ledger] in Hat. rewrite prune_emb_at in Hat.
    destruct (hk_in hk' active); [exact Hat | discriminate].
Qed.

Lemma poisoned_run (cfg : Config) (E : Externals) (W0 : World) (ts : nat) (hk : string)
    (b : Z) (ops : list op) (W : World) :
  (forall block, In block (appended ops) -> 300 <= block - b) ->
  poisoned E W0 W ts hk b -> poisoned E W0 (run_ops cfg E ops W) ts hk b.
Proof.
  unfold run_ops. revert W. induction ops as [|o ops IH]; intros W Hadv Hp; cbn [fold_left].
  - exact Hp.
  - apply IH.
    + intros block Hin. apply Hadv. destruct o; cbn [appended]; auto. right. exact Hin.
    + apply poisoned_step; [|exact Hp]. intros block Hin. apply Hadv.
      destruct o; cbn [appended] in *; try destruct Hin as [<-|[]]; try destruct Hin.
      left. reflexivity.
Qed.

(** X14. A mature pending payload whose round is an infinite float stops
    the decryption for good.  While the chain goes on (every block
    appended later is at least 300 above the block of that payload),
    whatever [append_step], [prune_hotkeys] and further passes are run in
    whatever order: the payload is still pending, every pass raises
    [OverflowError] and changes nothing, and no embedding is ever written
    again (an embedding present afterwards was present before). *)
Theorem infinite_round_blocks_every_pass (cfg : Config) (E : Externals) (W : World)
    (ts : nat) (hk : string) (b : Z) (ops : list op) :
  pending_in_range (ledger W) -> pending_unique (raw_payloads (ledger W)) ->
  infinite_round_pending E (ledger W) ts hk ->
  nth_error (blocks (ledger W)) ts = Some b ->
  (forall block, In block (appended ops) -> 300 <= block - b) ->
  infinite_round_pending E (ledger (run_ops cfg E ops W)) ts hk
  /\ process_pending_payloads cfg E (run_ops cfg E ops W)
     = (Raise OverflowError, run_ops cfg E ops W)
  /\ forall t s hk' arr,
       emb_at (ledger (run_ops cfg E ops W)) t s hk' = Some arr ->
       emb_at (ledger W) t s hk' = Some arr.
Proof.
  intros Hrange Hu Hinf Hb Hadv.
  destruct (poisoned_run cfg E W ts hk b ops W Hadv) as (Hwf & Hinf' & _ & Hemb).
  { split; [split; assumption|]. split; [exact Hinf|]. split; [exact Hb|]. auto. }
  split; [exact Hinf'|]. split; [|exact Hemb].
  apply (pass_aborts_on_infinite_round cfg E _ ts hk (proj1 Hwf) Hinf').
Qed.

Lemma infinite_round_blocks_every_pass_witness :
  infinite_round_pending ex_E (ledger ex_world_poisoned) 0 "hk-bad"
  /\ infinite_round_pending ex_E
       (ledger (run_ops ex_cfg ex_E ex_ops_later ex_world_poisoned)) 0 "hk-bad"
  /\ process_pending_payloads ex_cfg ex_E (run_ops ex_cfg ex_E ex_ops_later ex_world_poisoned)
     = (Raise OverflowError, run_ops ex_cfg ex_E ex_ops_later ex_world_poisoned)
  /\ forall t s hk' arr,
       emb_at (ledger (run_ops ex_cfg ex_E ex_ops_later ex_world_poisoned)) t s hk' = Some arr ->
       emb_at (ledger ex_world_poisoned) t s hk' = Some arr.
Proof.
  assert (pending_in_range (ledger ex_world_poisoned)) as Hrange.
  { intros ts by_hk Hin. vm_compute in Hin.
    destruct Hin as [Heq|[Heq|[Heq|[]]]]; injection Heq as <- _; vm_compute; eauto. }
  assert (pending_unique (raw_payloads (ledger ex_world_poisoned))) as Hu.
  { split.
    - vm_compute. repeat (constructor; [simpl; intuition lia|]). constructor.
    - intros ts by_hk Hget. apply dget_In in Hget. vm_compute in Hget.
      destruct Hget as [Heq|[Heq|[Heq|[]]]]; injection Heq as _ <-; vm_compute;
        repeat (constructor; [simpl; intuition discriminate|]); constructor. }
  assert (infinite_round_pending ex_E (ledger ex_world_poisoned) 0 "hk-bad") as Hinf.
  { exists [ ("hk-bad"%string, str_encode poison_text); ("hk-good"%string, str_encode "{}") ],
           (str_encode poison_text),
           [ ("v"%string, PInt 2); ("round"%string, PFloat infinity) ],
           infinity, false, 100, 400.
    repeat split; try (vm_compute; reflexivity).
    - vm_compute. left. reflexivity.
    - vm_compute. left. reflexivity.
    - vm_compute. discriminate.
    - vm_compute. discriminate. }
  split; [exact Hinf|].
  apply (infinite_round_blocks_every_pass ex_cfg ex_E ex_world_poisoned 0 "hk-bad" 100
           ex_ops_later Hrange Hu Hinf).
  - vm_compute. reflexivity.
  - intros block Hin. simpl in Hin. destruct Hin as [<-|[]]. lia.
Defined.

(** ** Pruning *)

Lemma filter_idem {A : Type} (p : A -> bool) (l : list A) : filter p (filter p l) = filter p l.
Proof.
  induction l as [|x l IH]; [reflexivity|]. cbn [filter].
  destruct (p x) eqn:Hp; [|exact IH]. cbn [filter]. rewrite Hp, IH. reflexivity.
Qed.

Lemma prune_sample_at (active : list string) (L : DataLog) (t : string) (s : Z) :
  sample_at (prune_hotkeys active L) t s = option_map (prune_sample active) (sample_at L t s).
Proof.
  unfold sample_at, prune_hotkeys. cbn [challenges with_challenges].
  rewrite dget_map_entries by (intros [t0 c0]; reflexivity).
  destruct (dget t (challenges L)) as [ch|]; cbn [option_map snd sidx with_sidx]; [|reflexivity].
  rewrite dget_map_entries by (intros [s0 d0]; reflexivity). reflexivity.
Qed.

(** X15. [prune_hotkeys] keeps, in every sample, exactly the embeddings
    and the hotkey entries of the hotkeys in [active], as they were and in
    their order; prices and sample indices stay, and so do the block list,
    the signature cache and the pending payloads (also those of the
    hotkeys removed).  Pruning twice with the same list is pruning once. *)
Theorem prune_keeps_active_only (active : list string) (L : DataLog) :
  (forall t s hk,
      emb_at (prune_hotkeys active L) t s hk
      = if hk_in hk active then emb_at L t s hk else None)
  /\ (forall t s d, sample_at L t s = Some d ->
        exists d',
          sample_at (prune_hotkeys active L) t s = Some d'
          /\ price d' = price d
          /\ hotkeys d' = filter (fun hk => hk_in hk active) (hotkeys d)
          /\ forall hk, In hk (hotkeys d') <-> In hk (hotkeys d) /\ In hk active)
  /\ (forall t s, sample_at L t s = None -> sample_at (prune_hotkeys active L) t s = None)
  /\ blocks (prune_hotkeys active L) = blocks L
  /\ raw_payloads (prune_hotkeys active L) = raw_payloads L
  /\ _drand_cache (prune_hotkeys active L) = _drand_cache L
  /\ prune_hotkeys active (prune_hotkeys active L) = prune_hotkeys active L.
Proof.
  split; [intros; apply prune_emb_at|]. split; [|split].
  - intros t s d Hd. exists (prune_sample active d). rewrite prune_sample_at, Hd.
    split; [reflexivity|]. split; [reflexivity|]. split; [reflexivity|].
    intros hk. cbn [prune_sample hotkeys]. rewrite filter_In, hk_in_iff. reflexivity.
  - intros t s Hd. rewrite prune_sample_at, Hd. reflexivity.
  - split; [reflexivity|]. split; [reflexivity|]. split; [reflexivity|].
    unfold prune_hotkeys. cbn [challenges with_challenges]. unfold with_challenges.
    cbn [blocks raw_payloads _lock _drand_cache]. f_equal.
    rewrite map_map. apply map_ext. intros [t ch]. cbn [fst snd]. f_equal.
    unfold with_sidx. cbn [dim blocks_ahead sidx]. f_equal.
    rewrite map_map. apply map_ext. intros [s d]. cbn [fst snd]. f_equal.
    unfold prune_sample. cbn [hotkeys price emb]. rewrite !filter_idem. reflexivity.
Qed.

(** ** The beacon signature cache *)

(** The ways a signature fetch can end. *)
Lemma get_signature_outcomes (E : Externals) (round_num : Z) (cache : dict Z bytes)
    (history : list request) :
  (exists c0 cached,
      dget round_num cache = Some (c0 :: cached)
      /\ _get_drand_signature E round_num (cache, history)
         = (Some (c0 :: cached), (cache, history)))
  \/ (exists sig : bytes,
         _get_drand_signature E round_num (cache, history)
         = (Some sig, (if bytes_truthy sig then dset round_num sig cache else cache,
                       (Aiohttp, round_num) :: history)))
  \/ (exists sig : bytes,
         _get_drand_signature E round_num (cache, history)
         = (Some sig, (dset round_num sig cache,
                       (Requests, round_num) :: (Aiohttp, round_num) :: history)))
  \/ _get_drand_signature E round_num (cache, history)
     = (None, (cache, (Requests, round_num) :: (Aiohttp, round_num) :: history)).
Proof.
  unfold _get_drand_signature. cbv beta iota.
  destruct (dget round_num cache) as [[|c0 cached]|].
  - destruct (aio_attempt _) as [[sig|]|e]; [right; left; eauto| |];
      (destruct (requests_attempt _) as [[sig2|]|e2]; [right; right; left; eauto | auto ..]).
  - left. eauto.
  - destruct (aio_attempt _) as [[sig|]|e]; [right; left; eauto| |];
      (destruct (requests_attempt _) as [[sig2|]|e2]; [right; right; left; eauto | auto ..]).
Qed.

(** X16. [_get_drand_signature] with a session: a round whose signature
    is cached is answered from the cache without any request; a call
    makes at most two requests (one per transport) and touches no other
    round of the cache; and a signature it returns, when not empty, is in
    the cache afterwards, so that asking again for the round gives the
    same signature without a request. *)
Theorem signature_cached_after_fetch (E : Externals) (round_num : Z)
    (cache : dict Z bytes) (history : list request) :
  (forall sig : bytes, dget round_num cache = Some sig -> sig <> [] ->
     _get_drand_signature E round_num (cache, history) = (Some sig, (cache, history)))
  /\ (exists made,
        snd (snd (_get_drand_signature E round_num (cache, history))) = made ++ history
        /\ (List.length made <= 2)%nat
        /\ forall q, In q made -> snd q = round_num)
  /\ (forall r, r <> round_num ->
        dget r (fst (snd (_get_drand_signature E round_num (cache, history)))) = dget r cache)
  /\ (forall sig : bytes,
        fst (_get_drand_signature E round_num (cache, history)) = Some sig ->
        sig <> [] ->
        dget round_num (fst (snd (_get_drand_signature E round_num (cache, history))))
        = Some sig
        /\ _get_drand_signature E round_num
             (snd (_get_drand_signature E round_num (cache, history)))
           = (Some sig, snd (_get_drand_signature E round_num (cache, history)))).
Proof.
  assert (forall (sig : bytes) (c : dict Z bytes) (h : list request),
            dget round_num c = Some sig -> sig <> [] ->
            _get_drand_signature E round_num (c, h) = (Some sig, (c, h))) as Hhit.
  { intros sig c h Hc Hne. unfold _get_drand_signature. cbv beta iota. rewrite Hc.
    destruct sig; [contradiction | reflexivity]. }
  split; [intros sig; apply Hhit|].
  assert (forall made : list request,
             (forall q, In q [(Requests, round_num); (Aiohttp, round_num)] -> snd q = round_num))
    as Hq by (intros _ q [<-|[<-|[]]]; reflexivity).
  destruct (get_signature_outcomes E round_num cache history)
    as [(c0 & cached & Hc & ->)|[[sig ->]|[[sig ->]| ->]]]; cbn [fst snd].
  - split; [exists []; split; [reflexivity|]; split; [cbn; lia | intros q []]|].
    split; [reflexivity|]. intros sg Hsg Hne. injection Hsg as <-.
    split; [exact Hc|]. apply Hhit; [exact Hc | discriminate].
  - split.
    { exists [(Aiohttp, round_num)]. split; [reflexivity|]. split; [cbn; lia|].
      intros q [<-|[]]. reflexivity. }
    split.
    { intros r Hne. destruct (bytes_truthy sig); [apply dget_dset_other; exact Hne | reflexivity]. }
    intros sg Hsg Hne. injection Hsg as ->.
    destruct sg as [|s0 sg]; [contradiction|]. cbn [bytes_truthy].
    split; [apply dget_dset_same|]. apply Hhit; [apply dget_dset_same | discriminate].
  - split.
    { exists [(Requests, round_num); (Aiohttp, round_num)]. split; [reflexivity|].
      split; [cbn; lia|]. apply Hq. exact []. }
    split; [intros r Hne; apply dget_dset_other; exact Hne|].
    intros sg Hsg Hne. injection Hsg as ->.
    split; [apply dget_dset_same|]. apply Hhit; [apply dget_dset_same | exact Hne].
  - split.
    { exists [(Requests, round_num); (Aiohttp, round_num)]. split; [reflexivity|].
      split; [cbn; lia|]. apply Hq. exact []. }
    split; [reflexivity|]. intros sg Hsg. discriminate Hsg.
Qed.

Lemma fetch_with_retry_spec (E : Externals) (rnd : Z) (n : nat) (sig0 : option bytes)
    (cache : dict Z bytes) (history : list request) :
  sig_missing sig0 = true ->
  exists made,
    snd (snd (fetch_with_retry E rnd n sig0 (cache, history))) = made ++ history
    /\ (List.length made <= 2 * n)%nat
    /\ (sig_missing (fst (fetch_with_retry E rnd n sig0 (cache, history))) = true ->
        (n <= List.length made)%nat)
    /\ (forall q, In q made -> snd q = rnd)
    /\ (forall s : bytes,
          fst (fetch_with_retry E rnd n sig0 (cache, history)) = Some s -> s <> [] ->
          dget rnd (fst (snd (fetch_with_retry E rnd n sig0 (cache, history)))) = Some s).
Proof.
  revert sig0 cache history. induction n as [|n IH]; intros sig0 cache history Hmiss.
  - exists []. cbn [fetch_with_retry fst snd]. split; [reflexivity|]. split; [cbn; lia|].
    split; [cbn; lia|]. split; [intros q []|].
    intros s Hs Hne. subst sig0. destruct s; [contradiction | discriminate Hmiss].
  - cbn [fetch_with_retry]. rewrite Hmiss. cbn [negb].
    destruct (get_signature_outcomes E rnd cache history)
      as [(c0 & cached & Hc & ->)|[[sig ->]|[[sig ->]| ->]]].
    + cbn [sig_missing negb fst snd]. exists []. split; [reflexivity|]. split; [cbn; lia|].
      split; [discriminate|]. split; [intros q []|].
      intros s Hs _. injection Hs as <-. exact Hc.
    + destruct sig as [|s0 sig]; cbn [sig_missing negb bytes_truthy].
      * destruct (IH (Some []) cache ((Aiohttp, rnd) :: history) eq_refl)
          as (made & Hmade & Hlen & Hlow & Hq & Hcached).
        exists (made ++ [(Aiohttp, rnd)]).
        split; [etransitivity; [exact Hmade | rewrite <- app_assoc; reflexivity]|].
        rewrite length_app. cbn [List.length].
        split; [lia|]. split; [intros Hm; specialize (Hlow Hm); lia|].
        split; [|exact Hcached].
        intros q Hin. apply in_app_or in Hin. destruct Hin as [Hin|[<-|[]]]; auto.
      * cbn [fst snd]. exists [(Aiohttp, rnd)]. split; [reflexivity|]. split; [cbn; lia|].
        split; [discriminate|]. split; [intros q [<-|[]]; reflexivity|].
        intros s Hs _. injection Hs as <-. apply dget_dset_same.
    + destruct sig as [|s0 sig]; cbn [sig_missing negb].
      * destruct (IH (Some []) (dset rnd [] cache)
                    ((Requests, rnd) :: (Aiohttp, rnd) :: history) eq_refl)
          as (made & Hmade & Hlen & Hlow & Hq & Hcached).
        exists (made ++ [(Requests, rnd); (Aiohttp, rnd)]).
        split; [etransitivity; [exact Hmade | rewrite <- app_assoc; reflexivity]|].
        rewrite length_app. cbn [List.length].
        split; [lia|]. split; [intros Hm; specialize (Hlow Hm); lia|].
        split; [|exact Hcached].
        intros q Hin. apply in_app_or in Hin. destruct Hin as [Hin|[<-|[<-|[]]]]; auto.
      * cbn [fst snd]. exists [(Requests, rnd); (Aiohttp, rnd)].
        split; [reflexivity|]. split; [cbn; lia|].
        split; [discriminate|]. split; [intros q [<-|[<-|[]]]; reflexivity|].
        intros s Hs _. injection Hs as <-. apply dget_dset_same.
    + cbn [sig_missing negb].
      destruct (IH None cache ((Requests, rnd) :: (Aiohttp, rnd) :: history) eq_refl)
        as (made & Hmade & Hlen & Hlow & Hq & Hcached).
      exists (made ++ [(Requests, rnd); (Aiohttp, rnd)]).
      split; [etransitivity; [exact Hmade | rewrite <- app_assoc; reflexivity]|].
      rewrite length_app. cbn [List.length].
      split; [lia|]. split; [intros Hm; specialize (Hlow Hm); lia|].
      split; [|exact Hcached].
      intros q Hin. apply in_app_or in Hin. destruct Hin as [Hin|[<-|[<-|[]]]]; auto.
Qed.

(** X17. The retry loop of [_work] makes at most six beacon requests for
    a round (three attempts, two transports), all for that round; it
    makes none when the signature is cached, and at least three before it
    gives up; and a signature it ends with, when not empty, is in the
    cache. *)
Theorem signature_fetch_bounded (E : Externals) (rnd : Z) (cache : dict Z bytes)
    (history : list request) :
  (exists made,
      snd (snd (fetch_with_retry E rnd DRAND_SIGNATURE_RETRIES None (cache, history)))
      = made ++ history
      /\ (List.length made <= 6)%nat
      /\ (sig_missing (fst (fetch_with_retry E rnd DRAND_SIGNATURE_RETRIES None
                                             (cache, history))) = true ->
          (3 <= List.length made)%nat)
      /\ (forall q, In q made -> snd q = rnd))
  /\ (forall s : bytes,
        fst (fetch_with_retry E rnd DRAND_SIGNATURE_RETRIES None (cache, history)) = Some s ->
        s <> [] ->
        dget rnd (fst (snd (fetch_with_retry E rnd DRAND_SIGNATURE_RETRIES None
                                             (cache, history)))) = Some s)
  /\ (forall s : bytes, dget rnd cache = Some s -> s <> [] ->
        fetch_with_retry E rnd DRAND_SIGNATURE_RETRIES None (cache, history)
        = (Some s, (cache, history))).
Proof.
  destruct (fetch_with_retry_spec E rnd DRAND_SIGNATURE_RETRIES None cache history eq_refl)
    as (made & Hmade & Hlen & Hlow & Hq & Hcached).
  split; [exists made; auto|]. split; [exact Hcached|].
  intros s Hs Hne. unfold DRAND_SIGNATURE_RETRIES. cbn [fetch_with_retry sig_missing negb].
  unfold _get_drand_signature. cbv beta iota. rewrite Hs.
  destruct s; [contradiction | reflexivity].
Qed.

(** ** Whose vectors a decrypted payload can set *)



(** ** The statistics of a pass *)

Lemma n_version_app (v : Z) (l1 l2 : list item) :
  n_version v (l1 ++ l2) = (n_version v l1 + n_version v l2)%nat.
Proof. unfold n_version. rewrite filter_app, length_app. reflexivity. Qed.

Lemma total_version_append (v : Z) (rounds : dict Z (list item)) (k : Z) (x : item) :
  total_version v
    (dset k (match dget k rounds with Some l => l | None => [] end ++ [x]) rounds)
  = (total_version v rounds + n_version v [x])%nat.
Proof.
  unfold total_version, list_sum. induction rounds as [|[k0 l0] rounds IH]; cbn [dget dset].
  - cbn [map fold_right snd app]. lia.
  - destruct (keqb k k0) eqn:Hk; cbn [map fold_right snd].
    + rewrite n_version_app. lia.
    + rewrite IH. lia.
Qed.

Lemma version_of_cases (data : pyval) :
  version_of data = 0 \/ version_of data = 1 \/ version_of data = 2.
Proof.
  unfold version_of. destruct data; auto.
  destruct (eq_int _ 2); auto. destruct (dmem "ciphertext"%string d); auto.
Qed.

(** After the first loop the counters of the versions count the items of
    the round groups, and the other counters are still 0. *)
Definition scanned (acc : scan_state) : Prop :=
  let '(rounds, _, stats) := acc in
  st_v1 stats = total_version 1 rounds /\ st_v2 stats = total_version 2 rounds
  /\ st_payloads stats = O /\ st_decrypt_failures stats = O
  /\ st_signature_fetch_attempts stats = O /\ st_signature_fetch_failures stats = O
  /\ st_v1_fail stats = O /\ st_v2_fail stats = O.

Lemma scan_hk_scanned (E : Externals) (ts : nat) (acc acc' : scan_state) (kv : string * bytes) :
  scanned acc -> scan_hk E ts acc kv = Ret acc' -> scanned acc'.
Proof.
  destruct acc as [[rounds mature] stats]. destruct kv as [hk raw]. unfold scan_hk.
  intros (H1 & H2 & Hrest) Hrun.
  assert (scanned (rounds, set_add (ts, hk) mature, count_version 0 stats)) as Hsame.
  { cbn [scanned count_version st_v1 st_v2 Z.eqb]. auto. }
  cbv zeta in Hrun.
  destruct (parse_raw E raw) as [| | | | | |d]; try (injection Hrun as <-; exact Hsame).
  destruct (version_of_cases (PDict d)) as [Hv|[Hv|Hv]]; rewrite Hv in Hrun;
    cbn [Z.eqb Pos.eqb] in Hrun.
  - injection Hrun as <-. exact Hsame.
  - destruct (round_key E d) as [z|e]; [|discriminate]. cbn [bind] in Hrun.
    injection Hrun as <-. cbn [scanned count_version st_v1 st_v2 st_payloads
      st_decrypt_failures st_signature_fetch_attempts st_signature_fetch_failures
      st_v1_fail st_v2_fail Z.eqb Pos.eqb].
    rewrite !total_version_append. unfold n_version.
    cbn [filter snd Z.eqb Pos.eqb List.length]. repeat split; try tauto; lia.
  - destruct (round_key E d) as [z|e]; [|discriminate]. cbn [bind] in Hrun.
    injection Hrun as <-. cbn [scanned count_version st_v1 st_v2 st_payloads
      st_decrypt_failures st_signature_fetch_attempts st_signature_fetch_failures
      st_v1_fail st_v2_fail Z.eqb Pos.eqb].
    rewrite !total_version_append. unfold n_version.
    cbn [filter snd Z.eqb Pos.eqb List.length]. repeat split; try tauto; lia.
Qed.

Lemma scan_scanned (E : Externals) (bl : list Z) (cur : Z)
    (payloads : dict nat (dict string bytes)) (acc acc' : scan_state) :
  scanned acc -> foldM (scan_ts E bl cur) payloads acc = Ret acc' -> scanned acc'.
Proof.
  revert acc. induction payloads as [|[ts by_hk] payloads IH]; intros acc Hacc Hrun.
  - cbn [foldM] in Hrun. injection Hrun as <-. exact Hacc.
  - cbn [foldM] in Hrun.
    destruct (scan_ts E bl cur acc (ts, by_hk)) as [acc1|e] eqn:Hstep; [|discriminate].
    cbn [bind] in Hrun. refine (IH acc1 _ Hrun).
    unfold scan_ts in Hstep. destruct (block_at bl ts) as [b|e]; [|discriminate].
    cbn [bind] in Hstep. destruct (300 <=? cur - b); [|injection Hstep as <-; exact Hacc].
    clear -Hacc Hstep. revert acc Hacc Hstep.
    induction by_hk as [|kv by_hk IHh]; intros acc Hacc Hstep.
    + cbn [foldM] in Hstep. injection Hstep as <-. exact Hacc.
    + cbn [foldM] in Hstep.
      destruct (scan_hk E ts acc kv) as [acc2|e] eqn:Hhk; [|discriminate].
      cbn [bind] in Hstep. exact (IHh acc2 (scan_hk_scanned E ts acc acc2 kv Hacc Hhk) Hstep).
Qed.

Lemma stats_ok_mono (s : Stats) (c1 c2 d1 d2 : nat) :
  (c1 <= d1)%nat -> (c2 <= d2)%nat -> stats_ok s c1 c2 -> stats_ok s d1 d2.
Proof. unfold stats_ok. intros H1 H2 (A & B & C & D & F & G). repeat split; lia. Qed.

Lemma work_item_stats (cfg : Config) (E : Externals) (sig : option bytes) (it : item)
    (ws : WorkState) (c1 c2 : nat) :
  stats_ok (w_stats ws) c1 c2 ->
  stats_ok (w_stats (snd (work_item cfg E sig it ws)))
           (c1 + n_version 1 [it]) (c2 + n_version 2 [it])
  /\ st_v1 (w_stats (snd (work_item cfg E sig it ws))) = st_v1 (w_stats ws)
  /\ st_v2 (w_stats (snd (work_item cfg E sig it ws))) = st_v2 (w_stats ws).
Proof.
  intros Hok. destruct it as [[[ts hk] d] version].
  assert (forall v ws0 a b,
             stats_ok (w_stats ws0) a b ->
             st_v1 (w_stats ws0) = st_v1 (w_stats ws) ->
             st_v2 (w_stats ws0) = st_v2 (w_stats ws) ->
             (a <= c1 + n_version 1 [(ts, hk, d, version)])%nat ->
             (b <= c2 + n_version 2 [(ts, hk, d, version)])%nat ->
             stats_ok (w_stats (snd (modify (dec_record ts hk v) ws0)))
                      (c1 + n_version 1 [(ts, hk, d, version)])
                      (c2 + n_version 2 [(ts, hk, d, version)])
             /\ st_v1 (w_stats (snd (modify (dec_record ts hk v) ws0))) = st_v1 (w_stats ws)
             /\ st_v2 (w_stats (snd (modify (dec_record ts hk v) ws0))) = st_v2 (w_stats ws))
    as Hrec.
  { intros v ws0 a b Hs Hv1 Hv2 Ha Hb. cbn [modify snd].
    rewrite (proj2 (dec_record_frame ts hk v ws0)).
    split; [apply (stats_ok_mono _ a b); assumption | auto]. }
  unfold work_item.
  destruct sig as [[|s0 sigb]|];
    try (apply (Hrec _ ws c1 c2); [exact Hok | reflexivity | reflexivity | lia | lia]).
  destruct ((version =? 1) && is_str (dget "ciphertext"%string d)) eqn:Hv1.
  - apply andb_true_iff in Hv1. destruct Hv1 as [Hver _]. apply Z.eqb_eq in Hver. subst version.
    unfold n_version. cbn [filter snd Z.eqb Pos.eqb List.length].
    unfold sbind. cbn [modify].
    destruct Hok as (A & B & C & D & F & G).
    destruct (v1_attempt cfg E d hk (s0 :: sigb)) as [[v|]|e];
      cbn [modify snd]; rewrite (proj2 (dec_record_frame _ _ _ _));
      unfold stats_ok in *;
      cbn [with_stats w_stats count_payload count_failure st_v1 st_v2 st_payloads
           st_decrypt_failures st_signature_fetch_attempts st_signature_fetch_failures
           st_v1_fail st_v2_fail Z.eqb Pos.eqb] in *;
      repeat split; lia.
  - destruct (version =? 2) eqn:Hv2;
      [|apply (Hrec _ ws c1 c2); [exact Hok | reflexivity | reflexivity | lia | lia]].
    apply Z.eqb_eq in Hv2. subst version.
    unfold n_version. cbn [filter snd Z.eqb Pos.eqb List.length].
    unfold sbind. cbn [modify lift].
    destruct Hok as (A & B & C & D & F & G).
    match goal with
    | |- context [_decrypt_v2_payload ?c ?e ?p ?s] =>
        destruct (decrypt_v2_returns c e p s) as [pt0 Hpt0];
        destruct (_decrypt_v2_payload c e p s) as [pt|e0]; [|discriminate Hpt0]
    end.
    destruct pt as [[|p0 pt]|];
      [| destruct (v2_attempt cfg E (p0 :: pt) hk) as [[v|]|e] |];
      cbn [modify snd]; rewrite (proj2 (dec_record_frame _ _ _ _));
      unfold stats_ok in *;
      cbn [with_stats w_stats count_payload count_failure st_v1 st_v2 st_payloads
           st_decrypt_failures st_signature_fetch_attempts st_signature_fetch_failures
           st_v1_fail st_v2_fail Z.eqb Pos.eqb] in *;
      repeat split; lia.
Qed.

Lemma work_items_stats (cfg : Config) (E : Externals) (sig : option bytes) (items : list item)
    (ws : WorkState) (c1 c2 : nat) :
  stats_ok (w_stats ws) c1 c2 ->
  stats_ok (w_stats (snd (sfor items (work_item cfg E sig) ws)))
           (c1 + n_version 1 items) (c2 + n_version 2 items)
  /\ st_v1 (w_stats (snd (sfor items (work_item cfg E sig) ws))) = st_v1 (w_stats ws)
  /\ st_v2 (w_stats (snd (sfor items (work_item cfg E sig) ws))) = st_v2 (w_stats ws).
Proof.
  revert ws c1 c2. induction items as [|it items IH]; intros ws c1 c2 Hok.
  - cbn [sfor sret snd]. unfold n_version. cbn [filter List.length].
    rewrite !Nat.add_0_r. auto.
  - cbn [sfor]. unfold sbind.
    destruct (work_item_stats cfg E sig it ws c1 c2 Hok) as (Hs & H1 & H2).
    destruct (work_item cfg E sig it ws) as [[u|e] ws1]; cbn [snd] in *.
    + destruct (IH ws1 _ _ Hs) as (Hs' & H1' & H2').
      change (it :: items) with ([it] ++ items). rewrite !n_version_app.
      rewrite !Nat.add_assoc. split; [exact Hs'|]. split; congruence.
    + change (it :: items) with ([it] ++ items). rewrite !n_version_app.
      split; [refine (stats_ok_mono _ _ _ _ _ _ _ Hs); lia | auto].
Qed.

Lemma work_stats (cfg : Config) (E : Externals) (rnd : Z) (items : list item)
    (ws : WorkState) (c1 c2 : nat) :
  stats_ok (w_stats ws) c1 c2 ->
  stats_ok (w_stats (snd (_work cfg E rnd items ws)))
           (c1 + n_version 1 items) (c2 + n_version 2 items)
  /\ st_v1 (w_stats (snd (_work cfg E rnd items ws))) = st_v1 (w_stats ws)
  /\ st_v2 (w_stats (snd (_work cfg E rnd items ws))) = st_v2 (w_stats ws).
Proof.
  intros Hok. unfold _work. destruct (0 <? rnd).
  - destruct (fetch_with_retry E rnd DRAND_SIGNATURE_RETRIES None (w_beacon ws)) as [sig b].
    match goal with
    | |- context [sfor items _ ?ws1] =>
        destruct (work_items_stats cfg E sig items ws1 c1 c2) as (Hs & H1 & H2)
    end.
    { cbn [w_stats]. destruct Hok as (A & B & C & D & F & G).
      unfold stats_ok;
        cbn [count_fetch st_v1 st_v2 st_payloads st_decrypt_failures
             st_signature_fetch_attempts st_signature_fetch_failures st_v1_fail st_v2_fail] in *.
      destruct (sig_missing sig && _); repeat split; lia. }
    split; [exact Hs|]. cbn [w_stats] in H1, H2.
    split; [rewrite H1 | rewrite H2]; reflexivity.
  - apply work_items_stats. exact Hok.
Qed.

Lemma works_stats (cfg : Config) (E : Externals) (rounds : dict Z (list item))
    (ws : WorkState) (c1 c2 : nat) :
  stats_ok (w_stats ws) c1 c2 ->
  stats_ok (w_stats (snd (sfor rounds
                            (fun ri : Z * list item => _work cfg E (fst ri) (snd ri)) ws)))
           (c1 + total_version 1 rounds) (c2 + total_version 2 rounds)
  /\ st_v1 (w_stats (snd (sfor rounds
                            (fun ri : Z * list item => _work cfg E (fst ri) (snd ri)) ws)))
     = st_v1 (w_stats ws)
  /\ st_v2 (w_stats (snd (sfor rounds
                            (fun ri : Z * list item => _work cfg E (fst ri) (snd ri)) ws)))
     = st_v2 (w_stats ws).
Proof.
  unfold total_version, list_sum.
  revert ws c1 c2. induction rounds as [|[rnd items] rounds IH]; intros ws c1 c2 Hok.
  - cbn [sfor sret snd map fold_right]. rewrite !Nat.add_0_r. auto.
  - cbn [sfor map fold_right fst snd]. unfold sbind.
    destruct (work_stats cfg E rnd items ws c1 c2 Hok) as (Hs & H1 & H2).
    destruct (_work cfg E rnd items ws) as [[u|e] ws1]; cbn [snd] in *.
    + destruct (IH ws1 _ _ Hs) as (Hs' & H1' & H2').
      rewrite !Nat.add_assoc. split; [exact Hs'|]. split; congruence.
    + split; [refine (stats_ok_mono _ _ _ _ _ _ _ Hs); lia | auto].
Qed.

(** X19. The statistics of a pass that worked are consistent: the
    decryption failures are the version 1 and version 2 failures
    together, each version has at most as many failures as payloads of
    that version were counted, the payloads handed to a decryption are at
    most those counted and at least the failures, and the failed
    signature fetches are at most the fetches attempted.  So every ratio
    that the method logs lies between 0 and 100 per cent. *)
Theorem pass_statistics_consistent (cfg : Config) (E : Externals) (W W' : World)
    (stats : Stats) :
  process_pending_payloads cfg E W = (Ret (Some stats), W') ->
  st_decrypt_failures stats = (st_v1_fail stats + st_v2_fail stats)%nat
  /\ (st_v1_fail stats <= st_v1 stats)%nat
  /\ (st_v2_fail stats <= st_v2 stats)%nat
  /\ (st_decrypt_failures stats <= st_payloads stats)%nat
  /\ (st_payloads stats <= st_v1 stats + st_v2 stats)%nat
  /\ (st_signature_fetch_failures stats <= st_signature_fetch_attempts stats)%nat.
Proof.
  unfold process_pending_payloads.
  destruct (raw_payloads (ledger W)) as [|p rp]; [discriminate|].
  destruct (last (map Some (blocks (ledger W))) None) as [cur|]; [|discriminate].
  destruct (scan E (blocks (ledger W)) cur (p :: rp)) as [[[rounds mature] scanned_stats]|e]
    eqn:Hscan; [|discriminate].
  destruct mature as [|m0 mature]; [discriminate|].
  assert (scanned (@nil (Z * list item), @nil (nat * string), stats0)) as Hinit
    by (repeat split).
  pose proof (scan_scanned E _ cur _ _ _ Hinit Hscan)
    as (H1 & H2 & H3 & H4 & H5 & H6 & H7 & H8).
  match goal with
  | |- context [sfor rounds _ ?ws0] =>
      destruct (works_stats cfg E rounds ws0 0 0) as (Hs & Hv1 & Hv2)
  end.
  { unfold stats_ok. cbn [w_stats]. lia. }
  destruct (sfor rounds _ _) as [[u|e] ws]; [|discriminate].
  destruct (sbind _ _ _) as [[u'|e] L2]; [|discriminate].
  intros Heq. injection Heq as <- _. cbn [snd w_stats] in *.
  destruct Hs as (A & B & C & D & F & G). rewrite Hv1, Hv2, H1, H2. repeat split; lia.
Qed.

Lemma pass_statistics_consistent_witness :
  exists stats,
    process_pending_payloads ex_cfg ex_E_live ex_world_live
    = (Ret (Some stats), snd ex_live_outcome)
    /\ st_v2 stats = 1%nat
    /\ st_decrypt_failures stats = (st_v1_fail stats + st_v2_fail stats)%nat
    /\ (st_v1_fail stats <= st_v1 stats)%nat
    /\ (st_v2_fail stats <= st_v2 stats)%nat
    /\ (st_decrypt_failures stats <= st_payloads stats)%nat
    /\ (st_payloads stats <= st_v1 stats + st_v2 stats)%nat
    /\ (st_signature_fetch_failures stats <= st_signature_fetch_attempts stats)%nat.
Proof.
  eexists. split; [vm_compute; reflexivity|]. split; [reflexivity|].
  apply (pass_statistics_consistent ex_cfg ex_E_live ex_world_live (snd ex_live_outcome)).
  vm_compute. reflexivity.
Defined.

(** ** The shape of the training data *)


Lemma index_of_In (hk : string) (l : list string) :
  In hk l -> exists i, index_of hk l = Ret i.
Proof.
  induction l as [|x l IH]; intros Hin; [destruct Hin|]. cbn [index_of].
  destruct (String.eqb_spec hk x) as [->|Hne]; [eauto|].
  destruct Hin as [Heq|Hin]; [congruence|].
  destruct (IH Hin) as [i Hi]. rewrite Hi. cbn [bind]. eauto.
Qed.

Lemma insert_str_In (x z : string) (l : list string) :
  In z (insert_str x l) <-> z = x \/ In z l.
Proof.
  induction l as [|y l IH]; cbn [insert_str].
  - cbn [In]. intuition.
  - destruct (String.eqb_spec x y) as [->|Hne].
    + cbn [In]. intuition.
    + destruct (String.ltb x y); cbn [In]; [intuition|]. rewrite IH. intuition.
Qed.

Lemma sorted_set_In (z : string) (l : list string) : In z (sorted_set l) <-> In z l.
Proof.
  unfold sorted_set.
  assert (forall acc, In z (fold_left (fun acc x => insert_str x acc) l acc)
                      <-> In z acc \/ In z l) as Hfold.
  { induction l as [|x l IH]; intros acc; cbn [fold_left In]; [intuition|].
    rewrite IH, insert_str_In. intuition. }
  rewrite Hfold. cbn [In]. intuition.
Qed.

Lemma all_hotkeys_In (ch : ChallengeData) (hk : string) :
  In hk (all_hotkeys ch) <-> exists s d, In (s, d) (sidx ch) /\ In hk (dkeys (emb d)).
Proof.
  unfold all_hotkeys. rewrite sorted_set_In, in_flat_map. split.
  - intros ([s d] & Hsd & Hin). exists s, d. auto.
  - intros (s & d & Hsd & Hin). exists (s, d). auto.
Qed.













(** ** The block ceiling *)

Lemma insert_sample_In (x z : Z * Sample) (l : list (Z * Sample)) :
  In z (insert_sample x l) <-> z = x \/ In z l.
Proof.
  induction l as [|y l IH]; cbn [insert_sample].
  - cbn [In]. intuition.
  - destruct (fst x <=? fst y); cbn [In]; [intuition|]. rewrite IH. intuition.
Qed.

Lemma sorted_items_In (z : Z * Sample) (d : dict Z Sample) : In z (sorted_items d) <-> In z d.
Proof.
  unfold sorted_items. induction d as [|x d IH]; cbn [fold_right]; [reflexivity|].
  rewrite insert_sample_In, IH. cbn [In]. intuition.
Qed.

Definition by_index (a b : Z * Sample) : Prop := fst a <= fst b.

Lemma insert_sample_sorted (x : Z * Sample) (l : list (Z * Sample)) :
  StronglySorted by_index l -> StronglySorted by_index (insert_sample x l).
Proof.
  induction 1 as [|y l Hs IH Hall]; cbn [insert_sample].
  - constructor; constructor.
  - destruct (fst x <=? fst y) eqn:Hle.
    + apply Z.leb_le in Hle. constructor; [constructor; assumption|].
      constructor; [exact Hle|]. rewrite Forall_forall in *. intros z Hz.
      specialize (Hall z Hz). unfold by_index in *. lia.
    + apply Z.leb_gt in Hle. constructor; [exact IH|].
      rewrite Forall_forall in *. intros z Hz. apply insert_sample_In in Hz.
      destruct Hz as [->|Hz]; [unfold by_index; lia | exact (Hall z Hz)].
Qed.

Lemma sorted_items_sorted (d : dict Z Sample) : StronglySorted by_index (sorted_items d).
Proof.
  unfold sorted_items. induction d as [|x d IH]; cbn [fold_right]; [constructor|].
  apply insert_sample_sorted. exact IH.
Qed.

Lemma dataset_loop_ceiling (cfg : Config) (ch : ChallengeData) (all_hks : list string)
    (m : Z) (items : list (Z * Sample)) (st : LoopState) :
  m <> 0 -> StronglySorted by_index items ->
  dataset_loop cfg ch all_hks (Some m) items st
  = dataset_loop cfg ch all_hks None
      (filter (fun sd : Z * Sample => fst sd * sample_every cfg <=? m) items) st.
Proof.
  intros Hm Hs. revert st. induction Hs as [|[s data] items Hs IH Hall]; intros st.
  - reflexivity.
  - cbn [dataset_loop filter fst past_ceiling]. apply Z.eqb_neq in Hm. rewrite Hm.
    cbn [negb andb]. destruct (m <? s * sample_every cfg) eqn:Hlt.
    + apply Z.ltb_lt in Hlt.
      assert ((s * sample_every cfg <=? m) = false) as -> by (apply Z.leb_gt; exact Hlt).
      assert (filter (fun sd : Z * Sample => fst sd * sample_every cfg <=? m) items = []) as ->.
      { clear IH Hs. induction items as [|[s' d'] items IHi]; [reflexivity|].
        inversion Hall as [|? ? Hle Hall']; subst. cbn [filter fst].
        unfold by_index in Hle. cbn [fst] in Hle.
        assert ((s' * sample_every cfg <=? m) = false) as ->.
        { apply Z.leb_gt. unfold sample_every in *. nia. }
        apply IHi. exact Hall'. }
      reflexivity.
    + apply Z.ltb_ge in Hlt.
      assert ((s * sample_every cfg <=? m) = true) as -> by (apply Z.leb_le; exact Hlt).
      cbn [dataset_loop past_ceiling].
      destruct (sample_step cfg ch all_hks st s data) as [st'|e]; cbn [bind]; [apply IH|].
      reflexivity.
Qed.

Lemma dataset_loop_zero_ceiling (cfg : Config) (ch : ChallengeData) (all_hks : list string)
    (items : list (Z * Sample)) (st : LoopState) :
  dataset_loop cfg ch all_hks (Some 0) items st = dataset_loop cfg ch all_hks None items st.
Proof.
  revert st. induction items as [|[s data] items IH]; intros st; [reflexivity|].
  cbn [dataset_loop past_ceiling Z.eqb negb andb].
  destruct (sample_step cfg ch all_hks st s data) as [st'|e]; cbn [bind]; [apply IH|].
  reflexivity.
Qed.

(** X21. The block ceiling of [get_training_data_sync].  With a ceiling
    [m] other than 0, the loop over the samples of a challenge, in the
    order of their index, does exactly what the loop without a ceiling does
    on the samples whose block (index times [SAMPLE_EVERY]) is at most
    [m]: no sample beyond the ceiling contributes a row or moves the
    streak.  A ceiling of 0 is no ceiling: the result is the one for
    [None]. *)
Theorem block_ceiling (cfg : Config) :
  (forall ch all_hks m st, m <> 0 ->
     dataset_loop cfg ch all_hks (Some m) (sorted_items (sidx ch)) st
     = dataset_loop cfg ch all_hks None
         (filter (fun sd : Z * Sample => fst sd * sample_every cfg <=? m)
                 (sorted_items (sidx ch))) st)
  /\ (forall L, get_training_data_sync cfg (Some 0) L = get_training_data_sync cfg None L).
Proof.
  split.
  - intros ch all_hks m st Hm. apply dataset_loop_ceiling; [exact Hm|].
    apply sorted_items_sorted.
  - intros L. unfold get_training_data_sync. generalize (@nil (string * dataset)).
    induction (challenges L) as [|[t ch] chs IH]; intros out; [reflexivity|].
    cbn [foldM]. unfold challenge_dataset at 1 3.
    destruct (all_hotkeys ch) as [|h hs]; cbn [bind]; [apply IH|].
    rewrite dataset_loop_zero_ceiling.
    destruct (dataset_loop cfg ch (h :: hs) None (sorted_items (sidx ch)) loop_start)
      as [st|e]; cbn [bind]; [|reflexivity].
    destruct (ls_X st); cbn [bind]; apply IH.
Qed.

(** ** The training data can always be extracted *)

Lemma mapM_length {A B : Type} (f : A -> res B) (l : list A) (r : list B) :
  mapM f l = Ret r -> List.length r = List.length l.
Proof.
  revert r. induction l as [|a l IH]; intros r Hr; cbn [mapM] in Hr.
  - injection Hr as <-. reflexivity.
  - bind_inv Hr. bind_inv Hr. injection Hr as <-. cbn [List.length]. f_equal. apply IH.
    exact Hstep0.
Qed.

Lemma ticker_unique (cfg : Config) (c c' : Challenge) :
  NoDup (map c_ticker (CHALLENGES cfg)) -> In c (CHALLENGES cfg) -> In c' (CHALLENGES cfg) ->
  c_ticker c = c_ticker c' -> c = c'.
Proof.
  induction (CHALLENGES cfg) as [|x l IH]; intros Hnd Hc Hc' Heq; [destruct Hc|].
  cbn [map] in Hnd. inversion Hnd as [|? ? Hnot Hnd']; subst.
  destruct Hc as [->|Hc], Hc' as [->|Hc'].
  - reflexivity.
  - exfalso. apply Hnot. rewrite Heq. apply in_map. exact Hc'.
  - exfalso. apply Hnot. rewrite <- Heq. apply in_map. exact Hc.
  - apply IH; assumption.
Qed.

(** The vectors of the validator have the dimension of their ticker. *)
Lemma validated_sized (cfg : Config) (sub : pyval) (v : vecs) :
  config_wf cfg -> dims_are_tickers cfg -> _validate_submission cfg sub = Ret v ->
  forall t vec, In (t, vec) v ->
    exists c, In c (CHALLENGES cfg) /\ c_ticker c = t /\ len vec = c_dim c.
Proof.
  intros [Hnd Hdim Hdims] Htick Hrun.
  apply (validate_each cfg
           (fun t vec => exists c, In c (CHALLENGES cfg) /\ c_ticker c = t
                                   /\ len vec = c_dim c)) with (sub := sub); [| | |exact Hrun].
  - intros c Hc. exists c. split; [exact Hc|]. split; [reflexivity|].
    apply len_repeat. apply Hdim. exact Hc.
  - intros c l Hc Hl _. exists c. auto.
  - intros t dm l fl Hdm Hl _ Hfl.
    specialize (Htick t dm Hdm). apply in_map_iff in Htick. destruct Htick as (c & <- & Hc).
    exists c. split; [exact Hc|]. split; [reflexivity|].
    rewrite <- (Hdims c dm Hc Hdm). unfold len in *. rewrite length_map.
    rewrite (mapM_length _ _ _ Hfl). exact Hl.
Qed.

Lemma dec_record_validated (cfg : Config) (ts : nat) (hk : string) (v : vecs)
    (ws : WorkState) :
  (exists sub, _validate_submission cfg sub = Ret v) ->
  dec_validated cfg (w_dec ws) -> dec_validated cfg (w_dec (dec_record ts hk v ws)).
Proof.
  intros Hv Hdec. unfold dec_record.
  assert (forall hk' v', In (hk', v') (fst (dsetdefault ts [] (w_dec ws))) ->
                         exists sub, _validate_submission cfg sub = Ret v') as Hby.
  { unfold dsetdefault.
    match goal with
    | |- context [@dget ?K ?V ?H ?k ?d] => destruct (@dget K V H k d) as [by_hk|] eqn:Hg; cbn [fst]
    end.
    - intros hk' v' Hin. apply dget_In in Hg. exact (Hdec ts by_hk hk' v' Hg Hin).
    - intros hk' v' []. }
  assert (dec_validated cfg (snd (dsetdefault ts [] (w_dec ws)))) as Hrest.
  { unfold dsetdefault.
    match goal with
    | |- context [@dget ?K ?V ?H ?k ?d] => destruct (@dget K V H k d) as [by_hk|]; cbn [snd]; [exact Hdec|]
    end.
    intros ts' by' hk' v' Hin Hin'.
    destruct (In_dset _ _ _ _ _ Hin) as [[_ ->]|Hold]; [destruct Hin'|].
    exact (Hdec ts' by' hk' v' Hold Hin'). }
  destruct (dsetdefault ts [] (w_dec ws)) as [by_hk dec]. cbn [fst snd w_dec] in *.
  intros ts' by' hk' v' Hin Hin'.
  destruct (In_dset _ _ _ _ _ Hin) as [[_ ->]|Hold]; [|exact (Hrest ts' by' hk' v' Hold Hin')].
  destruct (In_dset _ _ _ _ _ Hin') as [[_ ->]|Hold']; [exact Hv | exact (Hby hk' v' Hold')].
Qed.

Lemma zero_vecs_validated (cfg : Config) :
  exists sub, _validate_submission cfg sub = Ret (_zero_vecs cfg).
Proof. exists PNone. reflexivity. Qed.

Lemma work_item_validated (cfg : Config) (E : Externals) (sig : option bytes) (it : item) :
  keeps (fun ws => dec_validated cfg (w_dec ws)) (work_item cfg E sig it).
Proof.
  intros ws Hdec. destruct it as [[[ts hk] d] version].
  assert (forall ws0 v, (exists sub, _validate_submission cfg sub = Ret v) ->
                        dec_validated cfg (w_dec ws0) ->
                        dec_validated cfg (w_dec (snd (modify (dec_record ts hk v) ws0)))) as Hrec.
  { intros ws0 v Hv H0. cbn [modify snd]. apply dec_record_validated; assumption. }
  pose proof (zero_vecs_validated cfg) as Hz.
  unfold work_item.
  destruct sig as [[|s0 sigb]|]; try (apply Hrec; assumption).
  destruct ((version =? 1) && is_str (dget "ciphertext"%string d)).
  - unfold sbind. cbn [modify].
    destruct (v1_attempt cfg E d hk (s0 :: sigb)) as [[v|]|e] eqn:Hatt;
      try (apply Hrec; [exact Hz | exact Hdec]).
    apply Hrec; [|exact Hdec].
    unfold v1_attempt in Hatt. bind_inv Hatt. bind_inv Hatt. bind_inv Hatt. bind_inv Hatt.
    destruct (rsplit_sep a2) as [[emb_str hk_in']|]; [|discriminate].
    destruct (String.eqb hk_in' hk); [|discriminate].
    bind_inv Hatt. bind_inv Hatt. injection Hatt as <-. eauto.
  - destruct (version =? 2); [|apply Hrec; assumption].
    unfold sbind. cbn [modify lift].
    match goal with
    | |- context [_decrypt_v2_payload ?c ?e ?p ?s] =>
        destruct (_decrypt_v2_payload c e p s) as [pt|e0]; [|exact Hdec]
    end.
    destruct pt as [[|p0 pt]|]; try (apply Hrec; [exact Hz | exact Hdec]).
    destruct (v2_attempt cfg E (p0 :: pt) hk) as [[v|]|e] eqn:Hatt;
      try (apply Hrec; [exact Hz | exact Hdec]).
    apply Hrec; [|exact Hdec].
    unfold v2_attempt in Hatt. bind_inv Hatt. bind_inv Hatt.
    destruct a0 as [| | | | | |o]; try discriminate.
    destruct (dget "hotkey"%string o) as [[| | | |h| |]|]; try discriminate.
    destruct (String.eqb h hk); [|discriminate].
    bind_inv Hatt. injection Hatt as <-. eauto.
Qed.

Lemma works_validated (cfg : Config) (E : Externals) (rounds : dict Z (list item)) :
  keeps (fun ws => dec_validated cfg (w_dec ws))
        (sfor rounds (fun ri : Z * list item => _work cfg E (fst ri) (snd ri))).
Proof.
  apply keeps_sfor. intros [rnd items] _ ws Hdec. cbn [fst snd]. unfold _work.
  destruct (0 <? rnd).
  - destruct (fetch_with_retry E rnd DRAND_SIGNATURE_RETRIES None (w_beacon ws)) as [sig b].
    refine (keeps_sfor (fun ws => dec_validated cfg (w_dec ws)) items (work_item cfg E sig)
              _ _ _); [intros it _; apply work_item_validated | exact Hdec].
  - refine (keeps_sfor (fun ws => dec_validated cfg (w_dec ws)) items (work_item cfg E None)
              _ _ _); [intros it _; apply work_item_validated | exact Hdec].
Qed.

Lemma merge_dec_keeps_validated (cfg : Config) (bl : list Z)
    (dec : dict nat (dict string vecs)) (P : dict string ChallengeData -> Prop) :
  dec_validated cfg dec ->
  (forall t s hk vec chs ch sub v,
      _validate_submission cfg sub = Ret v -> In (t, vec) v ->
      dget t chs = Some ch -> P chs -> P (dset t (snd (set_emb s hk vec ch)) chs)) ->
  keeps (fun L => P (challenges L)) (merge_dec cfg bl dec).
Proof.
  intros Hdec Hset. unfold merge_dec. apply keeps_sfor. intros [ts by_hk] Hentry.
  apply keeps_sbind; [apply keeps_lift|]. intros b. cbn [fst snd].
  destruct (negb (b mod sample_every cfg =? 0)); [apply keeps_sret|].
  apply keeps_sfor. intros [hk v] Hhv. unfold merge_vecs. apply keeps_sfor. intros [t vec] Htv.
  cbn [fst snd] in *.
  destruct (existsb ne_zero vec); [|apply keeps_sret].
  intros L HL. unfold challenges_set_emb.
  destruct (dget t (challenges L)) as [ch|] eqn:Hch; [|exact HL].
  destruct (Hdec ts by_hk hk v Hentry Hhv) as [sub Hsub].
  pose proof (Hset t (b / sample_every cfg) hk vec _ ch sub v Hsub Htv Hch HL) as Hnew.
  destruct (set_emb (b / sample_every cfg) hk vec ch) as [r ch']. exact Hnew.
Qed.

Lemma pass_keeps_challenges_validated (cfg : Config) (E : Externals)
    (P : dict string ChallengeData -> Prop) :
  (forall t s hk vec chs ch sub v,
      _validate_submission cfg sub = Ret v -> In (t, vec) v ->
      dget t chs = Some ch -> P chs -> P (dset t (snd (set_emb s hk vec ch)) chs)) ->
  keeps (fun W => P (challenges (ledger W))) (process_pending_payloads cfg E).
Proof.
  intros Hset W HW. unfold process_pending_payloads.
  destruct (raw_payloads (ledger W)); [exact HW|].
  destruct (last (map Some (blocks (ledger W))) None); [|exact HW].
  destruct (scan E (blocks (ledger W)) z (p :: d)) as [[[rounds mature] stats]|e]; [|exact HW].
  destruct mature; [exact HW|].
  match goal with
  | |- context [sfor rounds _ ?ws0] =>
      pose proof (works_validated cfg E rounds ws0 ltac:(intros ? ? ? ? [])) as Hdec
  end.
  destruct (sfor rounds _ _) as [r ws]. cbn [snd] in Hdec.
  destruct r as [u|e]; [|exact HW].
  pose proof (keeps_sbind (fun L => P (challenges L))
                (merge_dec cfg (blocks (ledger W)) (w_dec ws))
                (fun _ => remove_mature (p0 :: mature))
                (merge_dec_keeps_validated cfg _ _ P Hdec Hset)
                ltac:(intros _ L HL; exact HL)
                (with_drand_cache (ledger W) (fst (w_beacon ws))) HW) as Hk.
  destruct (sbind _ _ _) as [[u'|e] L2]; exact Hk.
Qed.

Lemma set_emb_widths (cfg : Config) (chs : dict string ChallengeData) (t : string)
    (ch : ChallengeData) (s : Z) (hk : string) (vec : list pyval) (c : Challenge) :
  NoDup (map c_ticker (CHALLENGES cfg)) ->
  In c (CHALLENGES cfg) -> c_ticker c = t -> len vec = c_dim c ->
  dget t chs = Some ch -> widths_ok cfg chs ->
  widths_ok cfg (dset t (snd (set_emb s hk vec ch)) chs).
Proof.
  intros Hnd Hc Ht Hlen Hch Hok t' ch' Hin.
  destruct (In_dset _ _ _ _ _ Hin) as [[-> ->]|Hold]; [|exact (Hok t' ch' Hold)].
  destruct (Hok t ch (dget_In _ _ _ Hch)) as [(c0 & Hc0 & Ht0 & Hdim) Harr].
  assert (c0 = c) as -> by (apply (ticker_unique cfg); congruence).
  unfold set_emb, dsetdefault.
  assert (forall s' d' hk' arr',
             In (s', d') (match dget s (sidx ch) with
                          | Some _ => sidx ch
                          | None => dset s empty_sample (sidx ch)
                          end) ->
             In (hk', arr') (emb d') -> len arr' = dim ch) as Hsx.
  { intros s' d' hk' arr' Hs Hk. destruct (dget s (sidx ch)); [eauto|].
    destruct (In_dset _ _ _ _ _ Hs) as [[_ ->]|Hs']; [destruct Hk | eauto]. }
  assert (forall hk' arr',
             In (hk', arr') (emb (match dget s (sidx ch) with
                                  | Some d => d
                                  | None => empty_sample
                                  end)) -> len arr' = dim ch) as Hold.
  { intros hk' arr' Hk. destruct (dget s (sidx ch)) as [d|] eqn:Hd; [|destruct Hk].
    apply dget_In in Hd. eauto. }
  destruct (dget s (sidx ch)) as [d|];
    (destruct (np_array_f16 vec) as [arr|e] eqn:Hnp; cbn [snd dim sidx with_sidx];
     (split; [exists c; auto|]); [|exact Hsx]);
    intros s' d' hk' arr' Hs Hk;
    (destruct (In_dset _ _ _ _ _ Hs) as [[_ ->]|Hs']; [|exact (Hsx s' d' hk' arr' Hs' Hk)]);
    cbn [emb] in Hk;
    (destruct (In_dset _ _ _ _ _ Hk) as [[_ ->]|Hk']; [|exact (Hold hk' arr' Hk')]);
    unfold np_array_f16 in Hnp; apply mapM_length in Hnp; unfold len in *; congruence.
Qed.

Lemma widths_step (cfg : Config) (E : Externals) (W : World) (o : op) :
  config_wf cfg -> dims_are_tickers cfg ->
  widths_ok cfg (challenges (ledger W)) ->
  widths_ok cfg (challenges (ledger (run_op cfg E W o))).
Proof.
  intros Hwf Htick Hok. destruct o as [block prices payloads hks| |active]; cbn [run_op ledger].
  - rewrite append_step_challenges. intros t ch Hin.
    apply in_map_iff in Hin. destruct Hin as ([t0 ch0] & Heq & Hin). cbn [fst snd] in Heq.
    destruct (Hok t0 ch0 Hin) as [Hc Harr].
    destruct (dget t0 prices) as [p|]; injection Heq as <- <-; [|auto].
    unfold set_price, dsetdefault.
    destruct (dget (block / sample_every cfg) (sidx ch0)) as [d|] eqn:Hd;
      cbn [dim sidx with_sidx]; (split; [exact Hc|]); intros s' d' hk' arr' Hs Hk.
    + destruct (In_dset _ _ _ _ _ Hs) as [[_ ->]|Hs']; [|eauto].
      cbn [emb] in Hk. apply dget_In in Hd. eauto.
    + destruct (In_dset _ _ _ _ _ Hs) as [[_ ->]|Hs']; [destruct Hk|].
      destruct (In_dset _ _ _ _ _ Hs') as [[_ ->]|Hs'']; [destruct Hk | eauto].
  - refine (pass_keeps_challenges_validated cfg E (widths_ok cfg) _ W Hok).
    intros t s hk vec chs ch sub v Hsub Hin Hch Hchs.
    destruct (validated_sized cfg sub v Hwf Htick Hsub t vec Hin) as (c & Hc & Ht & Hlen).
    apply (set_emb_widths cfg chs t ch s hk vec c); auto. apply Hwf.
  - unfold prune_hotkeys. cbn [challenges with_challenges]. intros t ch Hin.
    apply in_map_iff in Hin. destruct Hin as ([t0 ch0] & Heq & Hin). cbn [fst snd] in Heq.
    injection Heq as <- <-. destruct (Hok t0 ch0 Hin) as [Hc Harr].
    cbn [dim sidx with_sidx]. split; [exact Hc|]. intros s' d' hk' arr' Hs Hk.
    apply in_map_iff in Hs. destruct Hs as ([s0 d0] & Heq & Hs). cbn [fst snd] in Heq.
    injection Heq as <- <-. cbn [prune_sample emb] in Hk. apply filter_In in Hk.
    exact (Harr s0 d0 hk' arr' Hs (proj1 Hk)).
Qed.

Lemma widths_reached (cfg : Config) (E : Externals) (ops : list op) (history : list request) :
  config_wf cfg -> dims_are_tickers cfg ->
  widths_ok cfg (challenges (ledger (run_ops cfg E ops (fresh_world cfg history)))).
Proof.
  intros Hwf Htick.
  apply (run_ops_keeps cfg E (fun W => widths_ok cfg (challenges (ledger W)))).
  - intros W o. apply widths_step; assumption.
  - intros t ch Hin. apply init_challenges in Hin. destruct Hin as (c & Hc & -> & ->).
    cbn [dim sidx]. split; [exists c; auto|]. intros s d hk arr [].
Qed.

Lemma build_row_returns (ch : ChallengeData) (all_hks : list string) (data : Sample) :
  (forall hk arr, In (hk, arr) (emb data) -> In hk all_hks /\ len arr = dim ch) ->
  exists r, build_row ch all_hks data = Ret r.
Proof.
  unfold build_row. generalize (repeat (repeat (S754_zero false) (Z.to_nat (dim ch)))
                                       (List.length all_hks)).
  generalize false. induction (emb data) as [|[hk arr] l IH]; intros any mat Hall.
  - eexists. reflexivity.
  - cbn [foldM]. destruct (Hall hk arr (or_introl eq_refl)) as [Hin Hlen].
    destruct (index_of_In hk all_hks Hin) as [i Hi]. rewrite Hi. cbn [bind].
    unfold assign_row. apply Z.eqb_eq in Hlen. rewrite Hlen. cbn [bind].
    apply IH. intros hk' arr' Hin'. apply Hall. right. exact Hin'.
Qed.

Lemma dataset_loop_returns (cfg : Config) (ch : ChallengeData) (mb : option Z)
    (items : list (Z * Sample)) (st : LoopState) :
  (forall s d hk arr, In (s, d) items -> In (hk, arr) (emb d) ->
     In hk (all_hotkeys ch) /\ len arr = dim ch) ->
  exists st', dataset_loop cfg ch (all_hotkeys ch) mb items st = Ret st'.
Proof.
  revert st. induction items as [|[s data] items IH]; intros st Hall; cbn [dataset_loop].
  - eauto.
  - destruct (past_ceiling mb (s * sample_every cfg)); [eauto|].
    assert (exists st1, sample_step cfg ch (all_hotkeys ch) st s data = Ret st1) as [st1 Hst1].
    { unfold sample_step. destruct (update_streak _ _ _) as [prev streak].
      destruct ((0 <? max_unchanged cfg) && (max_unchanged cfg <? streak)); [eauto|].
      destruct (dget _ (sidx ch)) as [fut|]; [|eauto].
      destruct (price data) as [p0|]; [|eauto].
      destruct (price fut) as [p1|]; [|eauto].
      destruct (PrimFloat.leb p0 0 || PrimFloat.leb p1 0); [eauto|].
      destruct (emb data) as [|kv l] eqn:Hemb; [eauto|].
      destruct (build_row_returns ch (all_hotkeys ch) data) as [[mat any] Hrow].
      { intros hk arr Hin. apply (Hall s data hk arr); [left; reflexivity | exact Hin]. }
      rewrite Hrow. cbn [bind]. destruct (negb any); eauto. }
    rewrite Hst1. cbn [bind]. apply IH.
    intros s' d' hk arr Hin. apply (Hall s' d'). right. exact Hin.
Qed.

Lemma training_data_returns (cfg : Config) (mb : option Z) (L : DataLog) :
  widths_ok cfg (challenges L) -> exists out, get_training_data_sync cfg mb L = Ret out.
Proof.
  intros Hok. unfold get_training_data_sync. generalize (@nil (string * dataset)) as out0.
  assert (incl (challenges L) (challenges L)) as Hincl by apply incl_refl.
  revert Hincl. generalize (challenges L) at 1 3 as todo.
  intros todo. induction todo as [|[t ch] chs IH]; intros Hincl out; cbn [foldM]; [eauto|].
  assert (exists out1, challenge_dataset cfg mb out (t, ch) = Ret out1) as [out1 Hout1].
  { unfold challenge_dataset. destruct (all_hotkeys ch) as [|h hs] eqn:Hall; [eauto|].
    rewrite <- Hall.
    destruct (dataset_loop_returns cfg ch mb (sorted_items (sidx ch)) loop_start) as [st Hst].
    { intros s d hk arr Hin Hk. apply (proj1 (sorted_items_In _ _)) in Hin. split.
      - apply all_hotkeys_In. exists s, d. split; [exact Hin|].
        unfold dkeys. apply in_map_iff. exists (hk, arr). auto.
      - exact (proj2 (Hok t ch (Hincl _ (or_introl eq_refl))) s d hk arr Hin Hk). }
    rewrite Hst. cbn [bind]. destruct (ls_X st); eauto. }
  rewrite Hout1. cbn [bind]. apply IH. intros x Hx. apply Hincl. right. exact Hx.
Qed.

(** X22. With a configuration whose tickers are distinct, whose
    dimensions are not negative and whose [ASSET_EMBEDDING_DIMS] agrees
    with [CHALLENGES], [get_training_data_sync] returns on every ledger
    that [append_step], [process_pending_payloads] and [prune_hotkeys]
    build from a fresh one: every stored embedding has the width of its
    challenge and an entry in the hotkey index, so no row assignment or
    lookup can raise, whatever was submitted and with any block ceiling. *)
Theorem training_data_always_extracted (cfg : Config) (E : Externals) (ops : list op)
    (history : list request) (mb : option Z) :
  config_wf cfg -> dims_are_tickers cfg ->
  (exists out,
      get_training_data_sync cfg mb (ledger (run_ops cfg E ops (fresh_world cfg history)))
      = Ret out)
  /\ forall t ch s d hk arr,
       In (t, ch) (challenges (ledger (run_ops cfg E ops (fresh_world cfg history)))) ->
       In (s, d) (sidx ch) -> In (hk, arr) (emb d) -> len arr = dim ch.
Proof.
  intros Hwf Htick. pose proof (widths_reached cfg E ops history Hwf Htick) as Hok.
  split; [apply training_data_returns; exact Hok|].
  intros t ch s d hk arr Hin. exact (proj2 (Hok t ch Hin) s d hk arr).
Qed.

Lemma training_data_always_extracted_witness :
  config_wf ex_cfg /\ dims_are_tickers ex_cfg
  /\ exists out, get_training_data_sync ex_cfg None ex_ledger_after_pass = Ret out.
Proof.
  assert (config_wf ex_cfg) as Hwf.
  { constructor; simpl.
    - constructor; [intros [] | constructor].
    - intros c [<-|[]]. simpl. lia.
    - intros c d [<-|[]]. simpl. intros Hd. injection Hd as <-. reflexivity. }
  assert (dims_are_tickers ex_cfg) as Hd.
  { intros t d Hget. apply dget_In in Hget. destruct Hget as [Heq|[]].
    injection Heq as <- _. left. reflexivity. }
  split; [exact Hwf|]. split; [exact Hd|].
  exact (proj1 (training_data_always_extracted ex_cfg ex_E_live ex_ops_live_pass [] None
                  Hwf Hd)).
Defined.

(** ** The price fetch *)

Lemma foldM_inv {A B : Type} (f : B -> A -> res B) (l : list A) (Q : B -> Prop) :
  (forall b y b', In y l -> Q b -> f b y = Ret b' -> Q b') ->
  forall b b', Q b -> foldM f l b = Ret b' -> Q b'.
Proof.
  induction l as [|y l IH]; intros Hstep b b' Hb Hrun; cbn [foldM] in Hrun.
  - injection Hrun as <-. exact Hb.
  - destruct (f b y) as [b1|e] eqn:Hf; [|discriminate]. cbn [bind] in Hrun.
    apply (IH (fun b0 y0 b0' Hy0 => Hstep b0 y0 b0' (or_intror Hy0)) b1 b');
      [|exact Hrun].
    exact (Hstep b y b1 (or_introl eq_refl) Hb Hf).
Qed.

Lemma zero_fold_get (l : list string) (d : dict string float) (t : string) :
  In t l -> dget t (fold_left (fun d t => dset t 0%float d) l d) = Some 0%float.
Proof.
  revert d. induction l as [|a l IH]; intros d Hin; [destruct Hin|]. cbn [fold_left].
  destruct (in_dec string_dec t l) as [Hl|Hl]; [apply IH; exact Hl|].
  destruct Hin as [->|Hin]; [|contradiction].
  rewrite (dget_fold_dset_notin (fun t : string => t) (fun _ => 0%float)).
  - apply dget_dset_same.
  - rewrite map_id. exact Hl.
Qed.

Lemma zero_fold_keys (l : list string) (d : dict string float) :
  NoDup (dkeys d) -> NoDup (dkeys (fold_left (fun d t => dset t 0%float d) l d)).
Proof.
  revert d. induction l as [|a l IH]; intros d Hnd; cbn [fold_left]; [exact Hnd|].
  apply IH. apply NoDup_dset. exact Hnd.
Qed.

Lemma base_prices_keys (cfg : Config) (t : string) :
  In t (dkeys (base_prices cfg)) <-> In t (tickers cfg).
Proof.
  unfold base_prices. split.
  - intros Hin. unfold dkeys in Hin. apply in_map_iff in Hin.
    destruct Hin as ([k v] & <- & Hin). cbn [fst].
    apply (In_fold_dset (fun t : string => t) (fun _ => 0%float)) in Hin.
    destruct Hin as [[]|(a & Ha & -> & _)]. exact Ha.
  - intros Hin. pose proof (zero_fold_get (tickers cfg) [] t Hin) as Hg.
    apply dget_In in Hg. unfold dkeys. apply in_map_iff. exists (t, 0%float). auto.
Qed.

Lemma base_prices_ok (cfg : Config) (t : string) (p : float) :
  dget t (base_prices cfg) = Some p -> price_ok p.
Proof.
  intros Hg. apply dget_In in Hg. unfold base_prices in Hg.
  apply (In_fold_dset (fun t : string => t) (fun _ => 0%float)) in Hg.
  destruct Hg as [[]|(a & _ & _ & ->)]. left. reflexivity.
Qed.

Lemma price_step_keeps (cfg : Config) (fos : string -> res float) (fetched : pyval)
    (out out' : dict string float) (t : string) :
  In t (tickers cfg) ->
  dkeys out = dkeys (base_prices cfg) /\ (forall t' p, dget t' out = Some p -> price_ok p) ->
  price_step fos fetched out t = Ret out' ->
  dkeys out' = dkeys (base_prices cfg) /\ (forall t' p, dget t' out' = Some p -> price_ok p).
Proof.
  intros Ht [Hkeys Hok] Hstep. unfold price_step in Hstep.
  destruct (py_get fetched t PNone) as [v|e]; [|discriminate]. cbn [bind] in Hstep.
  injection Hstep as <-.
  destruct (py_float fos v) as [fv|e]; [|auto].
  destruct (positive_finite fv) eqn:Hfv; [|auto].
  assert (exists p0, dget t out = Some p0) as [p0 Hp0].
  { destruct (dget t out) as [p0|] eqn:Hg; [eauto|]. exfalso.
    apply dget_None_notin in Hg. apply Hg. rewrite Hkeys. apply base_prices_keys. exact Ht. }
  split.
  - rewrite (dkeys_dset_present _ _ p0) by exact Hp0. exact Hkeys.
  - intros t' p Hg. destruct (string_dec t' t) as [->|Hne].
    + rewrite dget_dset_same in Hg. injection Hg as <-. right. exact Hfv.
    + rewrite dget_dset_other in Hg by exact Hne. exact (Hok t' p Hg).
Qed.

Lemma asset_prices_inv (cfg : Config) (E : Externals) (fos : string -> res float)
    (response : res string) :
  dkeys (get_asset_prices cfg E fos response) = dkeys (base_prices cfg)
  /\ forall t p, dget t (get_asset_prices cfg E fos response) = Some p -> price_ok p.
Proof.
  assert (dkeys (base_prices cfg) = dkeys (base_prices cfg)
          /\ forall t p, dget t (base_prices cfg) = Some p -> price_ok p) as Hbase
    by (split; [reflexivity | apply base_prices_ok]).
  unfold get_asset_prices.
  destruct response as [text|e]; [|exact Hbase]. cbn [bind].
  destruct (json_loads E text) as [data|e]; [|exact Hbase]. cbn [bind].
  destruct (py_get data "prices" (PDict [])) as [f0|e]; [|exact Hbase]. cbn [bind].
  destruct (foldM _ (tickers cfg) (base_prices cfg)) as [out|e] eqn:Hrun; [|exact Hbase].
  refine (foldM_inv _ (tickers cfg)
            (fun out => dkeys out = dkeys (base_prices cfg)
                        /\ forall t p, dget t out = Some p -> price_ok p)
            _ (base_prices cfg) out Hbase Hrun).
  intros b y b' Hy Hb Hstep. exact (price_step_keeps cfg fos _ b b' y Hy Hb Hstep).
Qed.

(** X23. Whatever the price server answers (or fails to), the dictionary
    that [get_asset_prices] returns has exactly the tickers of
    [config.CHALLENGES] as its keys, each once, and every price in it is
    0.0 or a float [p] with [0 < p < inf]: no NaN, infinity, negative
    number or foreign key gets into the prices. *)
Theorem asset_prices_well_formed (cfg : Config) (E : Externals) (fos : string -> res float)
    (response : res string) :
  NoDup (dkeys (get_asset_prices cfg E fos response))
  /\ (forall t, In t (dkeys (get_asset_prices cfg E fos response))
                <-> In t (map c_ticker (CHALLENGES cfg)))
  /\ (forall t p, dget t (get_asset_prices cfg E fos response) = Some p ->
        p = 0%float
        \/ (PrimFloat.ltb 0 p = true /\ PrimFloat.ltb p infinity = true))
  /\ (get_asset_prices cfg E fos response = [] <-> CHALLENGES cfg = []).
Proof.
  destruct (asset_prices_inv cfg E fos response) as [Hkeys Hok].
  split; [|split; [|split]].
  - rewrite Hkeys. unfold base_prices. apply zero_fold_keys. constructor.
  - intros t. rewrite Hkeys. apply base_prices_keys.
  - intros t p Hg. destruct (Hok t p Hg) as [H0|Hpos]; [left; exact H0|].
    right. unfold positive_finite in Hpos. apply andb_prop in Hpos. exact Hpos.
  - split.
    + intros Hnil. rewrite Hnil in Hkeys. cbn [dkeys map] in Hkeys.
      destruct (CHALLENGES cfg) as [|c l] eqn:Hc; [reflexivity|]. exfalso.
      assert (In (c_ticker c) (dkeys (base_prices cfg))) as Hin.
      { apply base_prices_keys. unfold tickers. rewrite Hc. left. reflexivity. }
      rewrite <- Hkeys in Hin. destruct Hin.
    + intros Hc. unfold dkeys, base_prices, tickers in Hkeys. rewrite Hc in Hkeys.
      cbn [map fold_left] in Hkeys. apply map_eq_nil in Hkeys. exact Hkeys.
Qed.

Lemma price_fold_values (fos : string -> res float) (fetched : dict string pyval)
    (T l : list string) (out : dict string float) :
  (forall t, In t T -> dget t out = Some 0%float
                       \/ dget t out = Some (fetched_price fos fetched t)) ->
  incl l T ->
  exists out',
    foldM (price_step fos (PDict fetched)) l out = Ret out'
    /\ (forall t, In t T -> dget t out' = Some 0%float
                            \/ dget t out' = Some (fetched_price fos fetched t))
    /\ (forall t, dget t out = Some (fetched_price fos fetched t) ->
                  dget t out' = Some (fetched_price fos fetched t))
    /\ forall t, In t l -> dget t out' = Some (fetched_price fos fetched t).
Proof.
  revert out. induction l as [|a l IH]; intros out Hpre Hincl; cbn [foldM].
  - exists out. split; [reflexivity|]. split; [exact Hpre|]. split; [auto|]. intros t [].
  - unfold price_step at 1. cbn [py_get bind].
    assert (In a T) as Ha by (apply Hincl; left; reflexivity).
    set (out1 := match py_float fos (match dget a fetched with Some x => x | None => PNone end)
                 with
                 | Ret fv => if positive_finite fv then dset a fv out else out
                 | Raise _ => out
                 end).
    assert (dget a out1 = Some (fetched_price fos fetched a)
            /\ forall t, t <> a -> dget t out1 = dget t out) as [Hset Hother].
    { unfold out1.
      destruct (py_float fos _) as [fv|e] eqn:Hpf; [destruct (positive_finite fv) eqn:Hfv|].
      - assert (fetched_price fos fetched a = fv) as ->
          by (unfold fetched_price; rewrite Hpf, Hfv; reflexivity).
        split; [apply dget_dset_same|]. intros t Hne. apply dget_dset_other. exact Hne.
      - assert (fetched_price fos fetched a = 0%float) as Hz
          by (unfold fetched_price; rewrite Hpf, Hfv; reflexivity).
        split; [|reflexivity]. rewrite Hz.
        destruct (Hpre a Ha) as [H0|H1]; [exact H0 | rewrite Hz in H1; exact H1].
      - assert (fetched_price fos fetched a = 0%float) as Hz
          by (unfold fetched_price; rewrite Hpf; reflexivity).
        split; [|reflexivity]. rewrite Hz.
        destruct (Hpre a Ha) as [H0|H1]; [exact H0 | rewrite Hz in H1; exact H1]. }
    assert (forall t, In t T -> dget t out1 = Some 0%float
                                 \/ dget t out1 = Some (fetched_price fos fetched t)) as Hpre1.
    { intros t Ht. destruct (string_dec t a) as [->|Hne]; [right; exact Hset|].
      rewrite (Hother t Hne). apply Hpre. exact Ht. }
    destruct (IH out1 Hpre1 (fun x Hx => Hincl x (or_intror Hx)))
      as (out' & Hrun & Hpost & Hkeep & Hdone).
    exists out'. split; [exact Hrun|]. split; [exact Hpost|]. split.
    + intros t Hg. apply Hkeep. destruct (string_dec t a) as [->|Hne]; [exact Hset|].
      rewrite (Hother t Hne). exact Hg.
    + intros t [<-|Hin]; [apply Hkeep; exact Hset | apply Hdone; exact Hin].
Qed.

(** X24. When the price server answers with a JSON object whose
    ["prices"] member is an object, every ticker of [config.CHALLENGES]
    gets its own fetched value if [float] accepts it and it is positive
    and finite, and 0.0 otherwise (missing, null, not a number, zero,
    negative, NaN or infinite): one bad value does not spoil the prices of
    the other tickers. *)
Theorem asset_prices_values (cfg : Config) (E : Externals) (fos : string -> res float)
    (text : string) (data fetched : dict string pyval) (t : string) :
  json_loads E text = Ret (PDict data) ->
  dget "prices"%string data = Some (PDict fetched) ->
  In t (map c_ticker (CHALLENGES cfg)) ->
  dget t (get_asset_prices cfg E fos (Ret text)) = Some (fetched_price fos fetched t).
Proof.
  intros Hjson Hprices Ht. unfold get_asset_prices. cbn [bind]. rewrite Hjson.
  cbn [bind py_get]. rewrite Hprices. cbn [bind].
  assert ((if truthy (PDict fetched) then PDict fetched else PDict []) = PDict fetched) as ->
    by (destruct fetched; reflexivity).
  destruct (price_fold_values fos fetched (tickers cfg) (tickers cfg) (base_prices cfg))
    as (out & Hrun & _ & _ & Hdone).
  - intros t0 Ht0. left. unfold base_prices. apply zero_fold_get. exact Ht0.
  - apply incl_refl.
  - rewrite Hrun. apply Hdone. exact Ht.
Qed.

Lemma asset_prices_values_witness :
  get_asset_prices ex_cfg ex_E_prices ex_float_of_str (Ret "{...}"%string)
  = [ ("BTC"%string, 64000.5%float) ]
  /\ dget "BTC"%string (get_asset_prices ex_cfg ex_E_prices ex_float_of_str (Ret "{...}"%string))
     = Some (fetched_price ex_float_of_str
               [ ("BTC"%string, PFloat 64000.5); ("ETH"%string, PStr "n/a") ] "BTC").
Proof.
  split; [vm_compute; reflexivity|].
  apply (asset_prices_values ex_cfg ex_E_prices ex_float_of_str "{...}"%string
           [ ("prices"%string,
              PDict [ ("BTC"%string, PFloat 64000.5); ("ETH"%string, PStr "n/a") ]) ]).
  - reflexivity.
  - reflexivity.
  - left. reflexivity.
Defined.

(** ** The two loops of the validator on one ledger *)

(** The operations that a section of the main loop runs: prunings, and
    appends with usable prices. *)
Definition main_op (o : op) : Prop :=
  match o with
  | OpAppend _ prices _ _ => forall t p, dget t prices = Some p -> price_ok p
  | OpPruneHotkeys _ => True
  | OpProcessPending => False
  end.

Definition sampled_op (cfg : Config) (o : op) : Prop :=
  match o with
  | OpAppend b _ _ _ => b mod sample_every cfg = 0
  | _ => True
  end.

Lemma run_main_step_ops (cfg : Config) (E : Externals) (fos : string -> res float)
    (W : World) (m : main_step) :
  exists ops,
    run_main_step cfg E fos W m = run_ops cfg E ops W
    /\ Forall main_op ops
    /\ (sampled cfg m -> Forall (sampled_op cfg) ops).
Proof.
  destruct m as [active|b response payloads hks]; cbn [run_main_step].
  - exists [ OpPruneHotkeys active ]. split; [reflexivity|].
    split; intros; (constructor; [exact I | constructor]).
  - assert (forall t p, dget t (get_asset_prices cfg E fos response) = Some p -> price_ok p)
      as Hok by apply asset_prices_inv.
    destruct (get_asset_prices cfg E fos response) as [|kv prices];
      [exists []; split; [reflexivity|]; split; intros; constructor|].
    destruct payloads as [p|e];
      [|exists []; split; [reflexivity|]; split; intros; constructor].
    exists [ OpAppend b (kv :: prices) p hks ]. split; [reflexivity|].
    split; [constructor; [exact Hok | constructor]|].
    intros Hs. constructor; [exact Hs | constructor].
Qed.

Lemma run_main_steps_ops (cfg : Config) (E : Externals) (fos : string -> res float)
    (ms : list main_step) (W : World) :
  exists ops,
    run_main_steps cfg E fos ms W = run_ops cfg E ops W
    /\ Forall main_op ops
    /\ (Forall (sampled cfg) ms -> Forall (sampled_op cfg) ops).
Proof.
  unfold run_main_steps. revert W. induction ms as [|m ms IH]; intros W; cbn [fold_left].
  - exists []. split; [reflexivity|]. split; intros; constructor.
  - destruct (run_main_step_ops cfg E fos W m) as (ops1 & H1 & F1 & S1).
    destruct (IH (run_main_step cfg E fos W m)) as (ops2 & H2 & F2 & S2).
    exists (ops1 ++ ops2). split; [|split].
    + rewrite H2, H1. unfold run_ops. rewrite fold_left_app. reflexivity.
    + apply Forall_app. auto.
    + intros Hs. inversion Hs; subst. apply Forall_app. auto.
Qed.

(** The turns of the main loop append sampled blocks only. *)
Lemma main_steps_sampled (cfg : Config) (turns : list Turn) (b0 : Z) :
  Forall (sampled cfg) (main_steps cfg b0 turns).
Proof.
  revert b0. induction turns as [|tn turns IH]; intros b0; cbn [main_steps]; [constructor|].
  apply Forall_app. split; [|apply IH]. unfold turn_steps.
  destruct (t_block tn =? b0); [constructor|].
  destruct (t_block tn mod sample_every cfg =? 0) eqn:Hal; cbn [negb]; [|constructor].
  apply Z.eqb_eq in Hal.
  destruct (t_block tn mod 100 =? 0); [destruct (t_sync tn); [constructor|]|];
    repeat (constructor; try exact I; try exact Hal).
Qed.

(** The invariants of the shared ledger. *)
Definition sound (cfg : Config) (W : World) : Prop :=
  ledger_inv cfg W /\ prices_ok (challenges (ledger W)).

Lemma prices_ok_set_emb (chs : dict string ChallengeData) (t : string) (ch : ChallengeData)
    (s : Z) (hk : string) (vec : list pyval) :
  dget t chs = Some ch -> prices_ok chs -> prices_ok (dset t (snd (set_emb s hk vec ch)) chs).
Proof.
  intros Hch Hok t' ch' s' d' p Hin Hs Hp.
  destruct (In_dset _ _ _ _ _ Hin) as [[_ ->]|Hold]; [|exact (Hok t' ch' s' d' p Hold Hs Hp)].
  apply dget_In in Hch.
  assert (forall s0 d0, In (s0, d0) (snd (dsetdefault s empty_sample (sidx ch))) ->
                        price d0 = Some p -> price_ok p) as Hsx.
  { unfold dsetdefault. intros s0 d0 Hin0 Hp0.
    destruct (dget s (sidx ch)) as [d|]; cbn [snd] in Hin0; [exact (Hok t ch s0 d0 p Hch Hin0 Hp0)|].
    destruct (In_dset _ _ _ _ _ Hin0) as [[_ ->]|Hold]; [discriminate|].
    exact (Hok t ch s0 d0 p Hch Hold Hp0). }
  assert (price (fst (dsetdefault s empty_sample (sidx ch))) = Some p -> price_ok p) as Hd.
  { unfold dsetdefault. destruct (dget s (sidx ch)) as [d|] eqn:Hg; cbn [fst]; [|discriminate].
    apply dget_In in Hg. exact (Hok t ch s d p Hch Hg). }
  unfold set_emb in Hs.
  destruct (dsetdefault s empty_sample (sidx ch)) as [d sx]. cbn [fst snd] in *.
  destruct (np_array_f16 vec) as [arr|e]; cbn [snd sidx with_sidx] in Hs; [|eauto].
  destruct (In_dset _ _ _ _ _ Hs) as [[_ ->]|Hold]; [|eauto].
  cbn [price] in Hp. auto.
Qed.

Lemma sound_main_op (cfg : Config) (E : Externals) (W : World) (o : op) :
  main_op o -> sound cfg W -> sound cfg (run_op cfg E W o).
Proof.
  intros Ho (Hinv & Hp). split; [apply ledger_inv_step; exact Hinv|].
  destruct o as [block prices payloads hks| |active]; [| destruct Ho |]; cbn [run_op ledger].
  - cbn [main_op] in Ho.
    intros t ch s d p Hin Hs Hpd. rewrite append_step_challenges in Hin.
    apply in_map_iff in Hin. destruct Hin as ([t0 ch0] & Heq & Hin). cbn [fst snd] in Heq.
    destruct (dget t0 prices) as [p0|] eqn:Hp0; injection Heq as <- <-;
      [|exact (Hp t0 ch0 s d p Hin Hs Hpd)].
    unfold set_price, dsetdefault in Hs.
    destruct (dget (block / sample_every cfg) (sidx ch0)) as [d0|];
      cbn [sidx with_sidx] in Hs.
    + destruct (In_dset _ _ _ _ _ Hs) as [[_ ->]|Hold];
        [|exact (Hp t0 ch0 s d p Hin Hold Hpd)].
      cbn [price] in Hpd. injection Hpd as <-. exact (Ho t0 p0 Hp0).
    + destruct (In_dset _ _ _ _ _ Hs) as [[_ ->]|Hold].
      * cbn [price] in Hpd. injection Hpd as <-. exact (Ho t0 p0 Hp0).
      * destruct (In_dset _ _ _ _ _ Hold) as [[_ ->]|Hold']; [discriminate|].
        exact (Hp t0 ch0 s d p Hin Hold' Hpd).
  - unfold prune_hotkeys. cbn [challenges with_challenges].
    intros t ch s d p Hin Hs Hpd.
    apply in_map_iff in Hin. destruct Hin as ([t0 ch0] & Heq & Hin). cbn [fst snd] in Heq.
    injection Heq as <- <-. cbn [sidx with_sidx] in Hs.
    apply in_map_iff in Hs. destruct Hs as ([s0 d0] & Heq & Hs). cbn [fst snd] in Heq.
    injection Heq as <- <-. cbn [prune_sample price] in Hpd. exact (Hp t0 ch0 s0 d0 p Hin Hs Hpd).
Qed.

Lemma sound_main_ops (cfg : Config) (E : Externals) (ops : list op) (W : World) :
  Forall main_op ops -> sound cfg W -> sound cfg (run_ops cfg E ops W).
Proof.
  unfold run_ops. revert W. induction ops as [|o ops IH]; intros W Hops HW; cbn [fold_left].
  - exact HW.
  - inversion Hops as [|? ? Ho Hrest]; subst. apply IH; [exact Hrest|].
    apply sound_main_op; assumption.
Qed.

Lemma aligned_main_ops (cfg : Config) (E : Externals) (ops : list op) (W : World) :
  Forall (sampled_op cfg) ops ->
  aligned cfg (ledger W) -> aligned cfg (ledger (run_ops cfg E ops W)).
Proof.
  intros Hs Hal. unfold aligned. rewrite (run_ops_blocks cfg E ops W).
  apply Forall_app. split; [exact Hal|].
  induction ops as [|o ops IH]; [constructor|]. inversion Hs as [|? ? Ho Hrest]; subst.
  destruct o as [block prices payloads hks| |active]; cbn [appended]; auto.
Qed.

(** The second locked section of a pass. *)
Lemma write_back_outcome (cfg : Config) (bl : list Z) (dec : dict nat (dict string vecs))
    (mature : list (nat * string)) (L : DataLog) :
  exists L1,
    L1 = snd (merge_dec cfg bl dec L)
    /\ blocks L1 = blocks L /\ raw_payloads L1 = raw_payloads L
    /\ (snd (sbind (merge_dec cfg bl dec) (fun _ => remove_mature mature) L) = L1
        \/ snd (sbind (merge_dec cfg bl dec) (fun _ => remove_mature mature) L)
           = with_raw_payloads L1 (fold_left remove_entry mature (raw_payloads L))).
Proof.
  exists (snd (merge_dec cfg bl dec L)). split; [reflexivity|].
  pose proof (merge_dec_blocks cfg bl dec L) as Hb.
  pose proof (merge_dec_raw_payloads cfg bl dec L) as Hr.
  split; [exact Hb|]. split; [exact Hr|].
  unfold sbind. destruct (merge_dec cfg bl dec L) as [[u|e] L1]; cbn [snd] in *.
  - right. unfold remove_mature, modify. cbn [snd]. rewrite Hr. reflexivity.
  - left. reflexivity.
Qed.

Lemma write_back_sound (cfg : Config) (bl : list Z) (dec : dict nat (dict string vecs))
    (mature : list (nat * string)) (W : World) (net1 : list request) :
  sound cfg W ->
  sound cfg {| ledger := snd (sbind (merge_dec cfg bl dec) (fun _ => remove_mature mature)
                                    (ledger W));
               net := net1 |}.
Proof.
  intros (((Hrange & Hu) & Hhas & Hwf) & Hp).
  destruct (write_back_outcome cfg bl dec mature (ledger W)) as (L1 & HL1 & Hb & Hr & Hout).
  assert (has_challenges cfg L1 /\ samples_wf L1 /\ prices_ok (challenges L1))
    as (Hhas1 & Hwf1 & Hp1).
  { subst L1.
    set (P := fun chs : dict string ChallengeData =>
                (forall t, In t (map c_ticker (CHALLENGES cfg)) -> dmem t chs = true)
                /\ (forall t ch, In (t, ch) chs -> challenge_wf ch)
                /\ prices_ok chs).
    assert (forall t s hk vec chs ch,
               dget t chs = Some ch -> P chs -> P (dset t (snd (set_emb s hk vec ch)) chs))
      as Hset.
    { intros t s hk vec chs ch Hch (P1 & P2 & P3). split; [|split].
      - intros t' Ht'. unfold dmem. destruct (String.eqb_spec t' t) as [->|Hne].
        + rewrite dget_dset_same. reflexivity.
        + rewrite dget_dset_other by exact Hne. exact (P1 t' Ht').
      - intros t' ch' Hin.
        destruct (In_dset _ _ _ _ _ Hin) as [[_ ->]|Hold]; [|exact (P2 t' ch' Hold)].
        apply set_emb_wf. apply (P2 t). apply dget_In. exact Hch.
      - apply prices_ok_set_emb; assumption. }
    assert (P (challenges (ledger W))) as HP0.
    { split; [exact Hhas|]. split; [|exact Hp].
      intros t ch Hin s d Hs. exact (Hwf t ch s d Hin Hs). }
    destruct (merge_dec_keeps cfg bl dec P Hset (ledger W) HP0) as (H1 & H2 & H3).
    split; [exact H1|]. split; [|exact H3].
    intros t ch s d Hin Hs. exact (H2 t ch Hin s d Hs). }
  assert (sound cfg {| ledger := L1; net := net1 |}) as Hs1.
  { split; [split; [|split]|]; cbn [ledger]; try assumption.
    split.
    - intros ts by_hk Hin. rewrite Hr in Hin. rewrite Hb. exact (Hrange ts by_hk Hin).
    - rewrite Hr. exact Hu. }
  destruct Hout as [->| ->]; [exact Hs1|].
  destruct (remove_mature_wf mature (raw_payloads (ledger W)) Hu) as [Hu2 Hkeys].
  split; [split; [|split]|]; cbn [ledger]; try assumption.
  split.
  - intros ts by_hk Hin. cbn [raw_payloads with_raw_payloads blocks] in *.
    specialize (Hkeys ts by_hk Hin). unfold dkeys in Hkeys. apply in_map_iff in Hkeys.
    destruct Hkeys as ([ts' by'] & <- & Hin'). rewrite Hb. exact (Hrange ts' by' Hin').
  - exact Hu2.
Qed.

Lemma write_back_blocks (cfg : Config) (bl : list Z) (dec : dict nat (dict string vecs))
    (mature : list (nat * string)) (L : DataLog) :
  blocks (snd (sbind (merge_dec cfg bl dec) (fun _ => remove_mature mature) L)) = blocks L.
Proof.
  destruct (write_back_outcome cfg bl dec mature L) as (L1 & _ & Hb & _ & [->| ->]); exact Hb.
Qed.

(** A pass leaves the block list as the sections of the main loop that
    fall into it leave it. *)
Lemma decrypt_pass_blocks (cfg : Config) (E : Externals) (fos : string -> res float)
    (mid : list main_step) (W : World) :
  blocks (ledger (decrypt_pass cfg E fos mid W))
  = blocks (ledger (run_main_steps cfg E fos mid W)).
Proof.
  unfold decrypt_pass.
  destruct (raw_payloads (ledger W)) as [|p rp]; [reflexivity|].
  destruct (last (map Some (blocks (ledger W))) None) as [cur|]; [|reflexivity].
  destruct (scan E (blocks (ledger W)) cur (p :: rp)) as [[[rounds mature] stats]|e];
    [|reflexivity].
  destruct mature as [|m0 mature]; [reflexivity|].
  destruct (sfor rounds _ _) as [[u|e] ws]; cbn [ledger]; [|reflexivity].
  pose proof (write_back_blocks cfg (blocks (ledger W)) (w_dec ws) (m0 :: mature)
                (with_drand_cache (ledger (run_main_steps cfg E fos mid W))
                                  (fst (w_beacon ws)))) as Hb.
  destruct (sbind _ _ _) as [r2 L2]. exact Hb.
Qed.

Lemma run_main_steps_sound (cfg : Config) (E : Externals) (fos : string -> res float)
    (ms : list main_step) (W : World) :
  sound cfg W -> sound cfg (run_main_steps cfg E fos ms W).
Proof.
  intros HW. destruct (run_main_steps_ops cfg E fos ms W) as (ops & -> & Fops & _).
  apply sound_main_ops; assumption.
Qed.

Lemma decrypt_pass_sound (cfg : Config) (E : Externals) (fos : string -> res float)
    (mid : list main_step) (W : World) :
  sound cfg W -> sound cfg (decrypt_pass cfg E fos mid W).
Proof.
  intros HW. pose proof (run_main_steps_sound cfg E fos mid W HW) as Hm. unfold decrypt_pass.
  destruct (raw_payloads (ledger W)) as [|p rp]; [exact Hm|].
  destruct (last (map Some (blocks (ledger W))) None) as [cur|]; [|exact Hm].
  destruct (scan E (blocks (ledger W)) cur (p :: rp)) as [[[rounds mature] stats]|e];
    [|exact Hm].
  destruct mature as [|m0 mature]; [exact Hm|].
  destruct (sfor rounds _ _) as [r ws].
  destruct r as [u|e]; [|exact Hm].
  pose proof (write_back_sound cfg (blocks (ledger W)) (w_dec ws) (m0 :: mature)
                {| ledger := with_drand_cache (ledger (run_main_steps cfg E fos mid W))
                               (fst (w_beacon ws));
                   net := snd (w_beacon ws) |}
                (snd (w_beacon ws)) Hm) as Hwb.
  cbn [ledger] in Hwb. destruct (sbind _ _ _) as [r2 L2]. exact Hwb.
Qed.

Lemma sound_fresh (cfg : Config) (history : list request) : sound cfg (fresh_world cfg history).
Proof.
  split; [apply ledger_inv_fresh|].
  intros t ch s d p Hin Hs. apply init_challenges in Hin.
  destruct Hin as (c & _ & _ & ->). destruct Hs.
Qed.

Lemma run_events_keeps (cfg : Config) (E : Externals) (fos : string -> res float)
    (P : World -> Prop) :
  (forall ms W, P W -> P (run_main_steps cfg E fos ms W)) ->
  (forall mid W, P W -> P (decrypt_pass cfg E fos mid W)) ->
  forall evs W, P W -> P (run_events cfg E fos evs W).
Proof.
  intros Hmain Hpass evs. unfold run_events.
  induction evs as [|ev evs IH]; intros W HW; cbn [fold_left]; [exact HW|].
  apply IH. destruct ev as [m|mid]; cbn [run_event]; [|auto].
  exact (Hmain [ m ] W HW).
Qed.

Lemma sound_reached (cfg : Config) (E : Externals) (fos : string -> res float)
    (evs : list event) (history : list request) :
  sound cfg (run_events cfg E fos evs (fresh_world cfg history)).
Proof.
  apply (run_events_keeps cfg E fos (sound cfg)).
  - intros ms W. apply run_main_steps_sound.
  - intros mid W. apply decrypt_pass_sound.
  - apply sound_fresh.
Qed.

Lemma aligned_reached (cfg : Config) (E : Externals) (fos : string -> res float)
    (evs : list event) (W : World) :
  Forall (sampled cfg) (main_of evs) -> aligned cfg (ledger W) ->
  aligned cfg (ledger (run_events cfg E fos evs W)).
Proof.
  unfold run_events. revert W. induction evs as [|ev evs IH]; intros W Hs HW;
    cbn [fold_left]; [exact HW|].
  unfold main_of in Hs. cbn [flat_map] in Hs. apply Forall_app in Hs. destruct Hs as [Hev Hrest].
  apply IH; [exact Hrest|].
  assert (forall ms, Forall (sampled cfg) ms ->
                     aligned cfg (ledger (run_main_steps cfg E fos ms W))) as Hms.
  { intros ms Hsm. destruct (run_main_steps_ops cfg E fos ms W) as (ops & -> & Fops & Sops).
    apply aligned_main_ops; auto. }
  destruct ev as [m|mid]; cbn [run_event].
  - exact (Hms [ m ] Hev).
  - unfold aligned. rewrite decrypt_pass_blocks. exact (Hms mid Hev).
Qed.

(** X25. On the ledger that the validator builds from a new one, with
    the sections of the main loop and the passes of the decrypt loop
    interleaved in any way (sections of the main loop also between the
    snapshot and the write-back of a pass) and whatever the chain, the
    metagraph, the price server, the miners and the beacon do: every
    block of the ledger is a multiple of [SAMPLE_EVERY], so the
    write-back never skips a timestep; every price of every sample is 0.0
    or positive and finite, never NaN; the hotkey list of every sample
    mirrors its embeddings; and the pending payloads are indexed by
    positions of the block list, each key once. *)
Theorem loops_keep_ledger_sound (cfg : Config) (E : Externals) (fos : string -> res float)
    (turns : list Turn) (b0 : Z) (evs : list event) (history : list request) :
  main_of evs = main_steps cfg b0 turns ->
  Forall (fun b => b mod Zpos (SAMPLE_EVERY cfg) = 0)
         (blocks (ledger (run_events cfg E fos evs (fresh_world cfg history))))
  /\ (forall t ch s d p,
        In (t, ch) (challenges (ledger (run_events cfg E fos evs (fresh_world cfg history)))) ->
        In (s, d) (sidx ch) -> price d = Some p ->
        p = 0%float \/ (PrimFloat.ltb 0 p = true /\ PrimFloat.ltb p infinity = true))
  /\ samples_wf (ledger (run_events cfg E fos evs (fresh_world cfg history)))
  /\ pending_in_range (ledger (run_events cfg E fos evs (fresh_world cfg history)))
  /\ pending_unique (raw_payloads (ledger (run_events cfg E fos evs (fresh_world cfg history)))).
Proof.
  intros Hmain.
  destruct (sound_reached cfg E fos evs history) as (((Hr & Hu) & _ & Hwf) & Hp).
  split; [|split; [|auto]].
  - apply (aligned_reached cfg E fos evs (fresh_world cfg history)); [|constructor].
    rewrite Hmain. apply main_steps_sampled.
  - intros t ch s d p Hin Hs Hpd. destruct (Hp t ch s d p Hin Hs Hpd) as [H0|Hpos]; [auto|].
    right. unfold positive_finite in Hpos. apply andb_prop in Hpos. exact Hpos.
Qed.

Lemma loops_keep_ledger_sound_witness :
  main_of ex_events = main_steps ex_cfg 0 ex_turns
  /\ blocks (ledger ex_shared) = [ 100; 200; 400; 500 ]
  /\ Forall (fun b => b mod 100 = 0) (blocks (ledger ex_shared))
  /\ samples_wf (ledger ex_shared).
Proof.
  assert (main_of ex_events = main_steps ex_cfg 0 ex_turns) as Hmain by reflexivity.
  split; [exact Hmain|]. split; [vm_compute; reflexivity|].
  destruct (loops_keep_ledger_sound ex_cfg ex_E_live ex_float_of_str ex_turns 0 ex_events []
              Hmain) as (Hal & _ & Hwf & _).
  split; [exact Hal | exact Hwf].
Defined.

(** *** The widths of the embeddings, and the extraction *)

Lemma write_back_widths (cfg : Config) (bl : list Z) (dec : dict nat (dict string vecs))
    (mature : list (nat * string)) :
  config_wf cfg -> dims_are_tickers cfg -> dec_validated cfg dec ->
  keeps (fun L => widths_ok cfg (challenges L))
        (sbind (merge_dec cfg bl dec) (fun _ => remove_mature mature)).
Proof.
  intros Hwf Htick Hdec. apply keeps_sbind; [|intros _ L HL; exact HL].
  apply (merge_dec_keeps_validated cfg bl dec (widths_ok cfg) Hdec).
  intros t s hk vec chs ch sub v Hsub Hin Hch Hchs.
  destruct (validated_sized cfg sub v Hwf Htick Hsub t vec Hin) as (c & Hc & Ht & Hlen).
  apply (set_emb_widths cfg chs t ch s hk vec c); auto. apply Hwf.
Qed.

Lemma widths_main_steps (cfg : Config) (E : Externals) (fos : string -> res float)
    (ms : list main_step) (W : World) :
  config_wf cfg -> dims_are_tickers cfg ->
  widths_ok cfg (challenges (ledger W)) ->
  widths_ok cfg (challenges (ledger (run_main_steps cfg E fos ms W))).
Proof.
  intros Hwf Htick HW. destruct (run_main_steps_ops cfg E fos ms W) as (ops & -> & _).
  revert HW. apply (run_ops_keeps cfg E (fun W => widths_ok cfg (challenges (ledger W)))).
  intros W0 o. apply widths_step; assumption.
Qed.

Lemma decrypt_pass_widths (cfg : Config) (E : Externals) (fos : string -> res float)
    (mid : list main_step) (W : World) :
  config_wf cfg -> dims_are_tickers cfg ->
  widths_ok cfg (challenges (ledger W)) ->
  widths_ok cfg (challenges (ledger (decrypt_pass cfg E fos mid W))).
Proof.
  intros Hwf Htick HW.
  pose proof (widths_main_steps cfg E fos mid W Hwf Htick HW) as Hm. unfold decrypt_pass.
  destruct (raw_payloads (ledger W)) as [|p rp]; [exact Hm|].
  destruct (last (map Some (blocks (ledger W))) None) as [cur|]; [|exact Hm].
  destruct (scan E (blocks (ledger W)) cur (p :: rp)) as [[[rounds mature] stats]|e];
    [|exact Hm].
  destruct mature as [|m0 mature]; [exact Hm|].
  match goal with
  | |- context [sfor rounds _ ?ws0] =>
      pose proof (works_validated cfg E rounds ws0 ltac:(intros ? ? ? ? [])) as Hdec
  end.
  destruct (sfor rounds _ _) as [r ws]. cbn [snd] in Hdec.
  destruct r as [u|e]; cbn [ledger]; [|exact Hm].
  pose proof (write_back_widths cfg (blocks (ledger W)) (w_dec ws) (m0 :: mature)
                Hwf Htick Hdec
                (with_drand_cache (ledger (run_main_steps cfg E fos mid W))
                                  (fst (w_beacon ws))) Hm) as Hwb.
  destruct (sbind _ _ _) as [r2 L2]. exact Hwb.
Qed.

Lemma widths_loops (cfg : Config) (E : Externals) (fos : string -> res float)
    (evs : list event) (history : list request) :
  config_wf cfg -> dims_are_tickers cfg ->
  widths_ok cfg (challenges (ledger (run_events cfg E fos evs (fresh_world cfg history)))).
Proof.
  intros Hwf Htick.
  apply (run_events_keeps cfg E fos (fun W => widths_ok cfg (challenges (ledger W)))).
  - intros ms W. apply widths_main_steps; assumption.
  - intros mid W. apply decrypt_pass_widths; assumption.
  - intros t ch Hin. apply init_challenges in Hin. destruct Hin as (c & Hc & -> & ->).
    cbn [dim sidx]. split; [exists c; auto|]. intros s d hk arr [].
Qed.

(** X26. With a configuration whose tickers are distinct, whose
    dimensions are not negative and whose [ASSET_EMBEDDING_DIMS] agrees
    with [CHALLENGES], the call of [get_training_data_sync] in the weight
    worker returns, with any block ceiling, on every ledger that the two
    loops of the validator build from a new one in any interleaving of
    their sections: nothing that miners submit, the price server answers
    or the beacon returns can make the extraction raise. *)
Theorem worker_extraction_returns (cfg : Config) (E : Externals) (fos : string -> res float)
    (evs : list event) (history : list request) (mb : option Z) :
  config_wf cfg -> dims_are_tickers cfg ->
  exists out,
    get_training_data_sync cfg mb (ledger (run_events cfg E fos evs (fresh_world cfg history)))
    = Ret out.
Proof.
  intros Hwf Htick. apply training_data_returns. apply widths_loops; assumption.
Qed.

Lemma worker_extraction_returns_witness :
  config_wf ex_cfg /\ dims_are_tickers ex_cfg
  /\ emb_at (ledger ex_shared) "BTC" 1 "hk-1" = Some [ f16_of_float 0.5; f16_of_float (-1) ]
  /\ exists out, get_training_data_sync ex_cfg (Some 400) (ledger ex_shared) = Ret out.
Proof.
  assert (config_wf ex_cfg) as Hwf.
  { constructor; simpl.
    - constructor; [intros [] | constructor].
    - intros c [<-|[]]. simpl. lia.
    - intros c d [<-|[]]. simpl. intros Hd. injection Hd as <-. reflexivity. }
  assert (dims_are_tickers ex_cfg) as Hd.
  { intros t d Hget. apply dget_In in Hget. destruct Hget as [Heq|[]].
    injection Heq as <- _. left. reflexivity. }
  split; [exact Hwf|]. split; [exact Hd|]. split; [vm_compute; reflexivity|].
  exact (worker_extraction_returns ex_cfg ex_E_live ex_float_of_str ex_events [] (Some 400)
           Hwf Hd).
Defined.

(** *** What a pass leaves pending *)

(** X27. A pass of [process_pending_payloads] removes only what its
    snapshot showed as mature, also when sections of the main loop run
    while it awaits the beacon.  On every ledger that the two loops build
    from a new one, a pass leaves the block list as the main loop left
    it and, at every timestep that is not at least 300 blocks below the
    newest block of the snapshot (the timesteps appended during the pass
    among them), exactly the pending entries that the main loop left. *)
Theorem pass_spares_unseen_entries (cfg : Config) (E : Externals)
    (fos : string -> res float) (evs : list event) (history : list request)
    (mid : list main_step) :
  blocks (ledger (decrypt_pass cfg E fos mid
                    (run_events cfg E fos evs (fresh_world cfg history))))
  = blocks (ledger (run_main_steps cfg E fos mid
                      (run_events cfg E fos evs (fresh_world cfg history))))
  /\ forall ts,
       (forall cur b,
           last (map Some (blocks (ledger (run_events cfg E fos evs
                                             (fresh_world cfg history))))) None = Some cur ->
           nth_error (blocks (ledger (run_events cfg E fos evs (fresh_world cfg history)))) ts
           = Some b ->
           cur - b < 300) ->
       dget ts (raw_payloads (ledger (decrypt_pass cfg E fos mid
                                        (run_events cfg E fos evs (fresh_world cfg history)))))
       = dget ts (raw_payloads (ledger (run_main_steps cfg E fos mid
                                          (run_events cfg E fos evs
                                             (fresh_world cfg history))))).
Proof.
  split; [apply decrypt_pass_blocks|].
  pose proof (sound_reached cfg E fos evs history) as HW.
  generalize dependent (run_events cfg E fos evs (fresh_world cfg history)).
  intros W HW ts Hyoung.
  pose proof (run_main_steps_sound cfg E fos mid W HW) as Hm. unfold decrypt_pass.
  destruct (raw_payloads (ledger W)) as [|p rp] eqn:Hrp; [reflexivity|].
  destruct (last (map Some (blocks (ledger W))) None) as [cur|]; [|reflexivity].
  destruct (scan E (blocks (ledger W)) cur (p :: rp)) as [[[rounds mature] stats]|e] eqn:Hscan;
    [|reflexivity].
  destruct mature as [|m0 mature]; [reflexivity|].
  destruct (sfor rounds _ _) as [r ws].
  destruct r as [u|e]; cbn [ledger]; [|reflexivity].
  destruct (write_back_outcome cfg (blocks (ledger W)) (w_dec ws) (m0 :: mature)
              (with_drand_cache (ledger (run_main_steps cfg E fos mid W))
                                (fst (w_beacon ws))))
    as (L1 & _ & _ & Hr & Hout).
  destruct (sbind _ _ _) as [r2 L2]. cbn [snd] in Hout. cbn [ledger].
  cbn [raw_payloads with_drand_cache] in Hr.
  destruct Hout as [->| ->]; [rewrite Hr; reflexivity|].
  cbn [raw_payloads with_raw_payloads with_drand_cache].
  destruct Hm as (((_ & Hu) & _) & _).
  rewrite remove_mature_residue by exact Hu.
  apply residue_untouched. intros hk Hin.
  unfold scan in Hscan.
  apply (scan_mature E _ cur _ _ _ Hscan) in Hin. cbn [mature_of fst snd] in Hin.
  destruct Hin as [[]|Hin]. apply in_mature_keys in Hin.
  destruct Hin as (by_hk & b & _ & _ & Hnth & Hold).
  specialize (Hyoung cur b eq_refl Hnth). lia.
Qed.

(** A pass during which the main loop does nothing is
    [process_pending_payloads] run in one piece. *)
Lemma decrypt_pass_alone (cfg : Config) (E : Externals) (fos : string -> res float)
    (W : World) :
  decrypt_pass cfg E fos [] W = snd (process_pending_payloads cfg E W).
Proof.
  unfold decrypt_pass, process_pending_payloads, run_main_steps. cbn [fold_left].
  destruct (raw_payloads (ledger W)) as [|p rp]; [reflexivity|].
  destruct (last (map Some (blocks (ledger W))) None) as [cur|]; [|reflexivity].
  destruct (scan E (blocks (ledger W)) cur (p :: rp)) as [[[rounds mature] stats]|e];
    [|reflexivity].
  destruct mature as [|m0 mature]; [reflexivity|].
  destruct (sfor rounds _ _) as [[u|e] ws]; [|reflexivity].
  destruct (sbind _ _ _) as [[u2|e2] L2]; reflexivity.
Qed.

Example pass_interleaved_with_the_main_loop :
  blocks (ledger ex_shared) = [ 100; 200; 400; 500 ]
  /\ dkeys (raw_payloads (ledger ex_shared)) = [ 1%nat; 2%nat; 3%nat ]
  /\ emb_at (ledger ex_shared) "BTC" 1 "hk-1"
     = Some [ f16_of_float 0.5; f16_of_float (-1) ].
Proof. vm_compute. repeat split; reflexivity. Qed.
